(** * WA corporate-registry scraper: navigation and extraction core

    Shallow embedding of [wa_scraper3/wa_search_sb_local_pdf_proxy4_v2.py]
    and proofs of the properties its specification states.

    Conventions.
    - Page text (a Python [str]) is a list of 8-bit characters, read as the
      code points 0..255.
    - Python [int] is [Z].
    - A browser session is an explicit state threaded through every driver
      call; a call that may raise returns its outcome next to the new state. *)

From Stdlib Require Import ZArith Ascii String List Lia Bool.
From stdpp Require Import base gmap strings list.

Local Open Scope Z_scope.

(** ** Text and character classes *)

Module Text.

Abbreviation text := (list ascii).

Definition chars (s : string) : text := list_ascii_of_string s.

Definition code (c : ascii) : nat := nat_of_ascii c.

(** [\s] on a [str] pattern: the code points below 256 for which
    [str.isspace] holds. *)
Definition is_space (c : ascii) : bool :=
  let n := code c in
  ((9 <=? n) && (n <=? 13) || (28 <=? n) && (n <=? 32)
   || (n =? 133) || (n =? 160))%nat.

(** [\d] on a [str] pattern: below 256 only the ASCII digits are decimal. *)
Definition is_digit (c : ascii) : bool :=
  let n := code c in ((48 <=? n) && (n <=? 57))%nat.

(** [str.lower] on one character below 256: A-Z and the Latin-1 capitals. *)
Definition lower_char (c : ascii) : ascii :=
  let n := code c in
  if ((65 <=? n) && (n <=? 90))%nat then ascii_of_nat (n + 32)
  else if ((192 <=? n) && (n <=? 222) && negb (n =? 215))%nat
       then ascii_of_nat (n + 32)
  else c.

Definition lower (s : text) : text := map lower_char s.

(** Equality of two characters under [re.IGNORECASE]. *)
Definition eq_nocase (a c : ascii) : bool :=
  Ascii.eqb (lower_char a) (lower_char c).

(** [int(s)] for a string of decimal digits. *)
Definition digit_val (c : ascii) : Z := Z.of_nat (code c) - 48.

Definition int_of_digits (ds : text) : Z :=
  fold_left (fun acc c => 10 * acc + digit_val c) ds 0.

(** [hay.startswith(needle)] *)
Fixpoint starts_with (needle hay : text) : bool :=
  match needle, hay with
  | [], _ => true
  | a :: n', c :: h' => Ascii.eqb a c && starts_with n' h'
  | _ :: _, [] => false
  end.

(** [str(n)] for a non-negative [int]: the digits, most significant first. *)
Fixpoint dec_digits (fuel : nat) (n : Z) (acc : text) : text :=
  match fuel with
  | O => acc
  | S f =>
      let acc' := ascii_of_nat (48 + Z.to_nat (n mod 10)) :: acc in
      if n <? 10 then acc' else dec_digits f (n / 10) acc'
  end.

Definition dec (n : Z) : text := dec_digits (S (Z.to_nat (Z.log2 n))) n [].

Definition show_Z (n : Z) : string :=
  string_of_list_ascii
    (if n <? 0 then chars "-" ++ dec (- n) else dec n).

(** [str.strip()] *)
Fixpoint lstrip (s : text) : text :=
  match s with
  | c :: s' => if is_space c then lstrip s' else s
  | [] => []
  end.

Definition strip_text (s : text) : text :=
  rev (lstrip (rev (lstrip s))).

Definition strip (s : string) : string :=
  string_of_list_ascii (strip_text (chars s)).

(** [needle in hay] *)
Fixpoint contains (needle hay : text) : bool :=
  starts_with needle hay ||
  match hay with
  | [] => false
  | _ :: h' => contains needle h'
  end.

End Text.

(** ** Pager text: [parse_pager] *)

Module Pager.
Import Text.

(** The pager dictionary returned by [parse_pager]. *)
Record PagerInfo := mkPager {
  page : Z;
  total_pages : Z;
  start : Z;
  end_ : Z;
  total : Z
}.

(** A backtracking matcher for the constructs the pager pattern uses.  Each
    combinator takes the continuation that matches the rest of the
    pattern. *)
Section Backtrack.
Context {R : Type}.

(** A literal word under [re.IGNORECASE]. *)
Fixpoint lit (p : text) (s : text) (k : text -> option R) : option R :=
  match p with
  | [] => k s
  | a :: p' =>
      match s with
      | c :: s' => if eq_nocase a c then lit p' s' k else None
      | [] => None
      end
  end.

(** Greedy [cls*]: the longest run is tried first, shorter ones on
    failure of the continuation, which receives the run and the rest. *)
Fixpoint star (cls : ascii -> bool) (s : text)
    (k : text -> text -> option R) : option R :=
  match s with
  | c :: s' =>
      if cls c then
        match star cls s' (fun run rest => k (c :: run) rest) with
        | Some r => Some r
        | None => k [] s
        end
      else k [] s
  | [] => k [] []
  end.

(** Greedy [cls+]. *)
Definition plus (cls : ascii -> bool) (s : text)
    (k : text -> text -> option R) : option R :=
  match s with
  | c :: s' =>
      if cls c then star cls s' (fun run rest => k (c :: run) rest)
      else None
  | [] => None
  end.
End Backtrack.

(** The pager pattern
  [Page\s+(\d+)\s+of\s+(\d+),\s*records\s+(\d+)\s+to\s+(\d+)\s+of\s+(\d+)]
  token by token; [Digits] is a capturing group [(\d+)]. *)
Inductive token :=
| Lit (w : text)
| Spaces1
| Spaces0
| Digits.

Definition pager_pattern : list token :=
  [ Lit (chars "Page"); Spaces1; Digits; Spaces1; Lit (chars "of"); Spaces1;
    Digits; Lit (chars ","); Spaces0; Lit (chars "records"); Spaces1; Digits;
    Spaces1; Lit (chars "to"); Spaces1; Digits; Spaces1; Lit (chars "of");
    Spaces1; Digits ].

(** The groups of a match of the pattern [p] at the head of [s]. *)
Fixpoint match_tokens (p : list token) (s : text) (groups : list text)
    : option (list text) :=
  match p with
  | [] => Some groups
  | Lit w :: p' => lit w s (fun s' => match_tokens p' s' groups)
  | Spaces1 :: p' => plus is_space s (fun _ s' => match_tokens p' s' groups)
  | Spaces0 :: p' => star is_space s (fun _ s' => match_tokens p' s' groups)
  | Digits :: p' =>
      plus is_digit s (fun g s' => match_tokens p' s' (groups ++ [g]))
  end.

Definition match_here (s : text) : option (list text) :=
  match_tokens pager_pattern s [].

(** [re.search]: the match at the leftmost position that has one. *)
Fixpoint re_search (s : text) : option (list text) :=
  match match_here s with
  | Some g => Some g
  | None =>
      match s with
      | [] => None
      | _ :: s' => re_search s'
      end
  end.

Definition parse_pager (html : text) : option PagerInfo :=
  match re_search html with
  | Some [ga; gb; gc; gd; ge] =>
      let a := int_of_digits ga in
      let b := int_of_digits gb in
      let c := int_of_digits gc in
      let d := int_of_digits gd in
      let e := int_of_digits ge in
      if (b =? 0) || (e =? 0) then None
      else Some (mkPager a b c d e)
  | _ => None
  end.

(** *** What a match is

  The texts a pattern matches, and the groups it captures, stated without
  reference to the matcher. *)

Definition nocase (p w : text) : Prop :=
  Forall2 (fun a c => eq_nocase a c = true) p w.

Inductive tok_sem : token -> text -> list text -> Prop :=
| sem_lit p w : nocase p w -> tok_sem (Lit p) w []
| sem_spaces1 w :
    w <> [] -> forallb is_space w = true -> tok_sem Spaces1 w []
| sem_spaces0 w : forallb is_space w = true -> tok_sem Spaces0 w []
| sem_digits w :
    w <> [] -> forallb is_digit w = true -> tok_sem Digits w [w].

Inductive pat_sem : list token -> text -> list text -> Prop :=
| pat_nil : pat_sem [] [] []
| pat_cons t p w1 g1 w2 g2 :
    tok_sem t w1 g1 -> pat_sem p w2 g2 ->
    pat_sem (t :: p) (w1 ++ w2) (g1 ++ g2).

(** [m] reads "Page X of Y, records A to B of C". *)
Definition pager_text (m X Y A B C : text) : Prop :=
  pat_sem pager_pattern m [X; Y; A; B; C].

(** The pattern matches somewhere in [html]. *)
Definition has_match (html : text) : Prop :=
  exists pre m post gs, html = pre ++ m ++ post /\ pat_sem pager_pattern m gs.

(** No match starts inside [pre] when [pre] is followed by [tail]. *)
Definition no_earlier_match (pre tail : text) : Prop :=
  forall p1 p2 m post gs,
  pre = p1 ++ p2 -> p2 <> [] ->
  p2 ++ tail = m ++ post -> ~ pat_sem pager_pattern m gs.

(** [s] does not begin with a character of the class. *)
Definition head_not (cls : ascii -> bool) (s : text) : Prop :=
  match s with
  | [] => True
  | c :: _ => cls c = false
  end.

(** *** Patterns on which greedy matching never backtracks

  [can_start p c]: a match of [p] may begin with [c]; [nullable p]: [p]
  may match the empty text; [separated p]: no repetition of a class is
  followed by a token that may begin with a character of that class. *)

Definition all_ascii : list ascii := map ascii_of_nat (seq 0 256).

Fixpoint can_start (p : list token) (c : ascii) : bool :=
  match p with
  | [] => false
  | Lit [] :: p' => can_start p' c
  | Lit (a :: _) :: _ => eq_nocase a c
  | Spaces1 :: _ => is_space c
  | Spaces0 :: p' => is_space c || can_start p' c
  | Digits :: _ => is_digit c
  end.

Fixpoint nullable (p : list token) : bool :=
  match p with
  | [] => true
  | Lit [] :: p' => nullable p'
  | Spaces0 :: p' => nullable p'
  | _ => false
  end.

Definition class_of (t : token) : option (ascii -> bool) :=
  match t with
  | Lit _ => None
  | Spaces1 => Some is_space
  | Spaces0 => Some is_space
  | Digits => Some is_digit
  end.

Fixpoint separated (p : list token) : bool :=
  match p with
  | [] => true
  | t :: p' =>
      match class_of t with
      | Some cls => forallb (fun c => negb (cls c && can_start p' c)) all_ascii
      | None => true
      end && separated p'
  end.

(** The text after the match does not prolong a repetition that ends it. *)
Fixpoint tail_ok (p : list token) (rest : text) : Prop :=
  match p with
  | [] => True
  | t :: p' =>
      match class_of t with
      | Some cls => if nullable p' then head_not cls rest else True
      | None => True
      end /\ tail_ok p' rest
  end.

(** A check of [no_earlier_match] by running the matcher. *)
Fixpoint none_before (pre tail : text) : bool :=
  match pre with
  | [] => true
  | _ :: pre' =>
      match match_here (pre ++ tail) with
      | None => none_before pre' tail
      | Some _ => false
      end
  end.

(** The pager line in its plain form, from the five numbers. *)
Definition render (x y a b c : Z) : text :=
  chars "Page " ++ dec x ++ chars " of " ++ dec y ++ chars ", records "
  ++ dec a ++ chars " to " ++ dec b ++ chars " of " ++ dec c.

End Pager.


(** ** Browser sessions

  The SeleniumBase session [sb] is a state of an abstract [Driver].  Probes
  read the state; calls with an effect return the next state.  A function of
  the scraper is a computation over the session that returns a value or
  raises, and that records the steps of its own body (not those of the
  helpers it calls) in a trace. *)

Module Session.
Import Text.

(** Outcome of a call: a returned value, or a raised exception. *)
Inductive res (A : Type) : Type :=
| Ok (a : A)
| Exn.
Arguments Ok {A} a.
Arguments Exn {A}.

(** Driver calls whose returned value is not used. *)
Inductive action :=
| Click (sel : string)
| Clear (sel : string)
| SendKeys (sel keys : string)
| TypeText (sel txt : string)
| SelectOptionByValue (sel value : string)
| Open (url : string)
| WaitForElement (sel : string) (timeout : nat)
| WaitForElementVisible (sel : string) (timeout : nat)
| AcceptAlert
| SetDownloadPath (dir : list string)
| Mkdir (dir : list string)
| WriteText (path : list string) (body : text)
| WriteJson (path : list string)
| AppendLine (path : list string) (line : string)
| CopyFile (src dst : list string).

(** The JSON scalars an identifier or keyword field holds. *)
Inductive jval :=
| JNull
| JNum (n : Z)
| JStr (s : string).

(** The JavaScript snippets handed to [execute_script]. *)
Inductive script :=
| JsHistoryBack
| JsClickNext
| JsClickPageNumber (page_num : Z)
| JsOpenModal (idx : nat)
| JsClickFulfilled
| JsShowBusinessInfo (biz_id : jval)
| JsReadName.

Inductive jsval :=
| JsNull
| JsBool (b : bool)
| JsText (t : text).

Definition js_truthy (v : jsval) : bool :=
  match v with
  | JsNull => false
  | JsBool b => b
  | JsText t => match t with [] => false | _ => true end
  end.

(** State of a file as [Path.exists], [Path.stat] and [open] see it. *)
Inductive file_state :=
| Absent
| Faulty
| Content (bytes : text).

Record Driver := mkDriver {
  St : Type;
  get_current_url : St -> option text;
  get_page_source : St -> option text;
  is_element_present : string -> St -> bool;
  perform : action -> St -> St * bool;
  execute_script : script -> St -> St * option jsval;
  sleep : nat -> St -> St;
  file_at : St -> list string -> file_state
}.

(** The status probes nested in [click_back_with_cf]. *)
Inductive probe := OnSearchResults | OnBusinessInfo | ReachedAdvancedSearch.

(** Points of a function's own control flow that its trace records: the
    start of a form attempt and the call of [ensure_advanced_search]
    between two attempts; the hand-over of an identifier to the PDF pass
    and the outcome of a detail capture, with the page index; in the
    filing loop the row visited, the verdict of a validity check on a
    download and the summary appended. *)
Inductive marker :=
| Attempt (n : nat)
| EnsureAdvancedSearch
| PdfPass (biz_id : jval) (page_index : Z)
| DetailPass (biz_id : jval) (page_index : Z) (captured : bool)
| FilingRow (idx : nat)
| Validation (idx : nat) (path : list string) (file : file_state) (valid : bool)
| Summary (idx : nat).

Inductive event (S : Type) :=
| EvAct (a : action) (s : S)
| EvScript (j : script) (s : S)
| EvSleep (secs : nat)
| EvProbe (p : probe) (s : S) (b : bool)
| EvMark (m : marker).
Arguments EvAct {S} a s.
Arguments EvScript {S} j s.
Arguments EvSleep {S} secs.
Arguments EvProbe {S} p s b.
Arguments EvMark {S} m.

Section Monad.
Context {S : Type}.

Definition M (A : Type) : Type := S -> res A * S * list (event S).

Definition ret {A} (a : A) : M A := fun s => (Ok a, s, []).

Definition raise {A} : M A := fun s => (Exn, s, []).

Definition bind {A B} (m : M A) (f : A -> M B) : M B :=
  fun s =>
  match m s with
  | (Ok a, s1, t1) => let '(r, s2, t2) := f a s1 in (r, s2, t1 ++ t2)
  | (Exn, s1, t1) => (Exn, s1, t1)
  end.

(** [try: m  except Exception: h] *)
Definition catch {A} (m : M A) (h : M A) : M A :=
  fun s =>
  match m s with
  | (Ok a, s1, t1) => (Ok a, s1, t1)
  | (Exn, s1, t1) => let '(r, s2, t2) := h s1 in (r, s2, t1 ++ t2)
  end.

Definition get : M S := fun s => (Ok s, s, []).

Definition emit (e : event S) : M unit := fun s => (Ok tt, s, [e]).

(** A call to a helper: its effect and result, without its trace. *)
Definition mute {A} (m : M A) : M A :=
  fun s => let '(r, s1, _) := m s in (r, s1, []).
End Monad.

Declare Scope session_scope.
Delimit Scope session_scope with session.
Notation "'let*' x ':=' m 'in' k" := (bind m (fun x => k))
  (at level 10, x name, m at level 100, k at level 200) : session_scope.
Notation "m ;; k" := (bind m (fun _ => k))
  (at level 100, k at level 200, right associativity) : session_scope.
Local Open Scope session_scope.

Section Calls.
Context (D : Driver).
Local Abbreviation M := (@M (St D)).

Definition do_ (a : action) : M unit :=
  fun s =>
  let '(s1, ok) := perform D a s in
  (if ok then Ok tt else Exn, s1, [EvAct a s]).

Definition run_js (j : script) : M jsval :=
  fun s =>
  match execute_script D j s with
  | (s1, Some v) => (Ok v, s1, [EvScript j s])
  | (s1, None) => (Exn, s1, [EvScript j s])
  end.

Definition do_sleep (secs : nat) : M unit :=
  fun s => (Ok tt, sleep D secs s, [EvSleep secs]).

Definition present (sel : string) : M bool :=
  fun s => (Ok (is_element_present D sel s), s, []).

Definition page_source : M text :=
  fun s =>
  match get_page_source D s with
  | Some h => (Ok h, s, [])
  | None => (Exn, s, [])
  end.

(** [dismiss_any_alert]: every exception is swallowed. *)
Definition dismiss_any_alert : M unit :=
  mute (catch (do_ AcceptAlert) (ret tt)).
End Calls.

Definition elapsed {S} (tr : list (event S)) : nat :=
  fold_right (fun e acc => match e with EvSleep n => (n + acc)%nat | _ => acc end)
  0%nat tr.

End Session.

(** ** Challenge handling: [handle_cloudflare_if_present] *)

Module Challenge.
Import Text Session.
Local Open Scope session_scope.

Section Challenge.
Context (D : Driver).
Local Abbreviation M := (@M (St D)).

Definition challenge_words (lower : text) : bool :=
  contains (chars "turnstile") lower || contains (chars "cloudflare") lower.

Definition handle_cloudflare_if_present : M bool :=
  let* html := catch (page_source D) (ret []) in
  let lower := Text.lower html in
  if challenge_words lower then
    do_sleep D 8 ;;
    do_sleep D 1 ;;
    ret true
  else ret false.
End Challenge.

End Challenge.

(** ** Returning to the results grid: [click_back_with_cf] *)

Module ReturnNav.
Import Text Session.
Local Open Scope session_scope.

Section ReturnNav.
Context (D : Driver).
Local Abbreviation M := (@M (St D)).

Definition markers : list text :=
  [ chars "Business Search Results";
    chars "Page 1 of";
    chars "businessList.length  &gt; 0" ].

Definition is_on_search_results (s : St D) : bool :=
  match get_current_url D s with
  | None => false
  | Some url =>
      if negb (contains (chars "BusinessSearch") url) then false
      else
        match get_page_source D s with
        | None => false
        | Some html => existsb (fun m => contains m html) markers
        end
  end.

Definition is_on_business_info (s : St D) : bool :=
  match get_current_url D s, get_page_source D s with
  | Some url, Some html =>
      if contains (chars "BusinessInformation") url then true
      else if contains (chars "Business Information</h2>") html then true
      else false
  | _, _ => false
  end.

Definition reached_advanced_search (s : St D) : bool :=
  match get_current_url D s with
  | None => false
  | Some url => contains (chars "AdvancedSearch") url
  end.

Definition eval_probe (p : probe) (s : St D) : bool :=
  match p with
  | OnSearchResults => is_on_search_results s
  | OnBusinessInfo => is_on_business_info s
  | ReachedAdvancedSearch => reached_advanced_search s
  end.

Definition ask (p : probe) : M bool :=
  fun s => let b := eval_probe p s in (Ok b, s, [EvProbe p s b]).

Definition close_any_modal : M unit :=
  catch
  (let* a := present D "css=button.close[data-dismiss='modal']" in
    if a then
      do_ D (Click "css=button.close[data-dismiss='modal']") ;; do_sleep D 2
    else
      let* b := present D "css=.modal-dialog .close" in
      if b then do_ D (Click "css=.modal-dialog .close") ;; do_sleep D 2
      else
        let* c := present D "css=.modal-backdrop" in
        if c then do_ D (Click "css=.modal-backdrop") ;; do_sleep D 2
        else ret tt)
  (ret tt).

Definition challenge_widget (s : St D) : bool :=
  is_element_present D "css=#cf-chl-widget" s
  || is_element_present D "css=.cf-turnstile" s.

(** [for _ in range(n)]: leave when the widget is gone, else sleep 1s. *)
Fixpoint challenge_poll (n : nat) : M unit :=
  match n with
  | O => ret tt
  | S n' =>
      let* s := get in
      if negb (challenge_widget s) then ret tt
      else do_sleep D 1 ;; challenge_poll n'
  end.

Definition handle_cloudflare : M unit :=
  let* s := get in
  if challenge_widget s then challenge_poll 300 else ret tt.

(** The ten-round wait after a back step.  [Some b]: the enclosing
    function returns [b]; [None]: the rounds are used up. *)
Fixpoint wait_for_results (n : nat) : M (option bool) :=
  match n with
  | O => ret None
  | S n' =>
      let* r := ask OnSearchResults in
      if r then ret (Some true)
      else
        let* a := ask ReachedAdvancedSearch in
        if a then ret (Some false)
        else do_sleep D 1 ;; wait_for_results n'
  end.

(** Step 2: the [.btn-back] control of the Business Information page. *)
Definition back_button_step : M (option bool) :=
  let* info := ask OnBusinessInfo in
  if info then
    catch
    (let* p := present D "css=button.btn-back" in
      if p then
        do_ D (Click "css=button.btn-back") ;;
        do_sleep D 5 ;;
        wait_for_results 10
      else ret None)
    (ret None)
  else ret None.

(** Step 3: [for step in range(3)] with [window.history.back()]. *)
Fixpoint history_steps (steps : list nat) : M (option bool) :=
  match steps with
  | [] => ret None
  | step :: rest =>
      mute handle_cloudflare ;;
      let* r := ask OnSearchResults in
      if r then ret (Some true)
      else
        let* a := ask ReachedAdvancedSearch in
        if a then ret (Some false)
        else
          run_js D JsHistoryBack ;;
          do_sleep D (if Nat.eqb step 0 then 3 else 12) ;;
          let* w := wait_for_results 10 in
          match w with
          | Some b => ret (Some b)
          | None => history_steps rest
          end
  end.

Definition click_back_with_cf : M bool :=
  let* m := present D "css=.modal-dialog" in
  (if m then mute close_any_modal ;; do_sleep D 1 else ret tt) ;;
  let* r := ask OnSearchResults in
  if r then ret true
  else
    let* o := back_button_step in
    match o with
    | Some b => ret b
    | None =>
        let* o := history_steps (seq 0 3) in
        match o with
        | Some b => ret b
        | None => ask OnSearchResults
        end
    end.
End ReturnNav.

End ReturnNav.

(** ** JSON scalars as Python sees them *)

Module Json.
Import Text Session.

#[global] Instance jval_eq_dec : EqDecision jval.
Proof. solve_decision. Defined.

#[global] Instance jval_countable : Countable jval.
Proof.
  refine (inj_countable'
  (fun v => match v with
      | JNull => inl tt
      | JNum n => inr (inl n)
      | JStr s => inr (inr s)
      end)
  (fun x => match x with
      | inl _ => JNull
      | inr (inl n) => JNum n
      | inr (inr s) => JStr s
      end) _).
  intros []; reflexivity.
Defined.

(** Truth value of a scalar in [if v] and [a or b]. *)
Definition truthy (v : jval) : bool :=
  match v with
  | JNull => false
  | JNum n => negb (n =? 0)
  | JStr s => negb (String.eqb s "")
  end.

Definition py_or (a b : jval) : jval := if truthy a then a else b.

(** [d.get(k)] on a JSON object. *)
Definition dict_get (d : gmap string jval) (k : string) : jval :=
  default JNull (d !! k).

Definition py_str (v : jval) : string :=
  match v with
  | JNull => "None"
  | JNum n => show_Z n
  | JStr s => s
  end.

End Json.

(** ** Records of the scraper *)

Module Data.
Import Text Session Json.

Abbreviation path := (list string).
Abbreviation BizObj := (gmap string jval).

(** One row of the results grid, as [parse_rows] builds it. *)
Record ResultRow := mkRow {
  businessID : option string;
  name : string;
  columns : list string
}.

(** One row of the Filing History table. *)
Record Filing := mkFiling {
  filing_number : string;
  filing_date_time : string;
  effective_date : string;
  filing_type : string
}.

Record PdfInfo := mkPdfInfo {
  phone : option string;
  email : option string;
  executors : list string
}.

Definition no_pdf_info : PdfInfo := mkPdfInfo None None [].

(** One entry of [pdf_summaries]: a downloaded and parsed filing document. *)
Record PdfSummary := mkPdfSummary {
  ps_filing_number : string;
  ps_filing_type : string;
  ps_filing_date_time : string;
  ps_effective_date : string;
  ps_pdf_path : path;
  ps_phone : option string;
  ps_email : option string;
  ps_executors : list string
}.

(** Parsed fields of the Business Information page. *)
Definition Payload := list (string * string).

(** One entry of [html_details_records]. *)
Record DetailRecord := mkDetail {
  BusinessID : jval;
  UBINumber : jval;
  BusinessName : jval;
  BusinessStatus : jval;
  BusinessType : jval;
  BusinessInformationHTML : Payload;
  FilingHistoryRecords : list Filing;
  PDFSummaries : list PdfSummary;
  PDFDownloadedCount : Z
}.

(** The dictionary [scrape_keyword] returns.  The keys that only the full
    result has are optional; [duration_sec] is left out. *)
Record KeywordResult := mkResult {
  kr_letter : option string;
  kr_keyword : string;
  pages_visited : Z;
  records_scraped : Z;
  pages : list (Z * Z);
  rows : list ResultRow;
  details_file : option path;
  details_success : Z;
  details_failed : Z;
  api_file : option path;
  api_records : Z;
  pdf_success : option Z;
  pdf_fail : option Z
}.

(** The result returned on the early exits of [scrape_keyword]. *)
Definition empty_result (keyword : string) : KeywordResult :=
  mkResult None keyword 0 0 [] [] None 0 0 None 0 None None.

(** What the page-level code of the site contributes: HTML parsing, the
    AngularJS model, and the helpers that drive one detail view. *)
Record Site (D : Driver) := mkSite {
  parse_rows : text -> list ResultRow;
  get_business_list_via_angular : St D -> St D * list BizObj;
  open_business_info_for_row :
    jval -> Z -> bool -> string -> St D -> St D * res bool;
  parse_business_information_html : text -> res Payload;
  parse_filing_history_table : text -> list Filing;
  glob_pdf : path -> St D -> res (list path);
  wait_for_new_pdf : path -> list path -> St D -> St D * res (option path);
  close_view_documents_modal : nat -> St D -> St D;
  find_modal : St D -> bool;
  modal_is_displayed : St D -> res bool;
  extract_pdf : path -> St D -> PdfInfo
}.
Arguments parse_rows {D} _ _.
Arguments get_business_list_via_angular {D} _ _.
Arguments open_business_info_for_row {D} _ _ _ _ _ _.
Arguments parse_business_information_html {D} _ _.
Arguments parse_filing_history_table {D} _ _.
Arguments glob_pdf {D} _ _ _.
Arguments wait_for_new_pdf {D} _ _ _ _.
Arguments close_view_documents_modal {D} _ _ _.
Arguments find_modal {D} _ _.
Arguments modal_is_displayed {D} _ _.
Arguments extract_pdf {D} _ _ _.

End Data.

(** ** Filing documents: [is_valid_pdf], [scrape_filing_history_and_pdfs] *)

Module FilingDocs.
Import Text Session Json Data.
Local Open Scope session_scope.

(** [is_valid_pdf(path, min_size)]: any exception counts as invalid. *)
Definition is_valid_pdf (f : file_state) (min_size : Z) : bool :=
  match f with
  | Absent => false
  | Faulty => false
  | Content bytes =>
      if Z.of_nat (length bytes) <? min_size then false
      else starts_with (chars "%PDF") (firstn 5 bytes)
  end.

Definition default_min_size : Z := 2048.

Definition file_exists (f : file_state) : bool :=
  match f with
  | Absent => false
  | _ => true
  end.

Section FilingDocs.
Context (D : Driver) (W : Site D).
Local Abbreviation M := (@M (St D)).

Definition site_call {A} (f : St D -> St D * res A) : M A :=
  fun s => let '(s1, r) := f s in (r, s1, []).

Definition read_only {A} (f : St D -> res A) : M A :=
  fun s => (f s, s, []).

Definition close_modal_for (timeout : nat) : M unit :=
  fun s => (Ok tt, close_view_documents_modal W timeout s, []).

(** [open_filing_history_tab]: the first selector that becomes visible and
    accepts the click. *)
Fixpoint try_selectors (sels : list string) : M bool :=
  match sels with
  | [] => ret false
  | sel :: rest =>
      let* ok := catch
          (do_ D (WaitForElementVisible sel 5) ;; do_ D (Click sel) ;; ret true)
          (ret false) in
      if ok then ret true else try_selectors rest
  end.

Definition open_filing_history_tab : M bool :=
  try_selectors
  [ "#btnFilingHistory"%string;
    "input#btnFilingHistory"%string;
    "css=input[value='Filing History']"%string;
    "xpath=//input[@value='Filing History']"%string ].

(** [parse_wa_filing_pdf] *)
Definition parse_wa_filing_pdf (p : path) (s : St D) : PdfInfo :=
  if is_valid_pdf (file_at D s p) default_min_size then extract_pdf W p s
  else no_pdf_info.

(** The 45-round wait for the View Documents dialog; [found] tells
    whether [modal] holds an element. *)
Fixpoint modal_poll (n : nat) (found : bool) : M bool :=
  match n with
  | O => ret found
  | S n' =>
      let* s := get in
      if find_modal W s then
        match modal_is_displayed W s with
        | Ok true => ret true
        | _ => do_sleep D 1 ;; modal_poll n' true
        end
      else do_sleep D 1 ;; modal_poll n' found
  end.

(** One call of [is_valid_pdf] on the downloaded file. *)
Definition validate (idx : nat) (p : path) : M bool :=
  fun s =>
  let f := file_at D s p in
  let v := is_valid_pdf f default_min_size in
  (Ok v, s, [EvMark (Validation idx p f v)]).

(** Steps 3d-2: the validation of the download, once more after 2 s when
    the first check fails. *)
Definition validated_download (idx : nat) (new_pdf_path : path) : M bool :=
  let* v1 := validate idx new_pdf_path in
  if v1 then ret true
  else do_sleep D 2 ;; validate idx new_pdf_path.

(** Steps 3e and 3f: close the dialog, copy the file, and build the summary
    when the copy is there. *)
Definition store_summary (pdf_root : path) (idx : nat) (filing : Filing)
    (filing_no : string) (new_pdf_path : path) : M (option PdfSummary) :=
  let pdf_dest := pdf_root ++ [(filing_no ++ ".pdf")%string] in
  close_modal_for 5 ;;
  catch
    (do_ D (Mkdir pdf_root) ;;
     do_ D (CopyFile new_pdf_path pdf_dest))
    (ret tt) ;;
  let* s := get in
  if file_exists (file_at D s pdf_dest) then
    let pdf_info := parse_wa_filing_pdf pdf_dest s in
    emit (EvMark (Summary idx)) ;;
    ret (Some (mkPdfSummary filing_no
                 (filing_type filing)
                 (filing_date_time filing)
                 (effective_date filing)
                 pdf_dest
                 (phone pdf_info)
                 (email pdf_info)
                 (executors pdf_info)))
  else ret None.

(** Steps 3a to 3d: open the View Documents dialog of the row and start the
    download; the path of the new file, if one appeared. *)
Definition start_download (pdf_root : path) (idx : nat) : M (option path) :=
  let* clicked := catch
    (let* ok := run_js D (JsOpenModal idx) in ret (js_truthy ok))
    (ret false) in
  if negb clicked then ret None
  else
    let* found := modal_poll 45 false in
    let* shown := if found then read_only (modal_is_displayed W)
                  else ret false in
    if negb shown then close_modal_for 2 ;; ret None
    else
      let* clicked2 := catch
        (let* before := read_only (glob_pdf W pdf_root) in
         let* ok2 := run_js D JsClickFulfilled in
         ret (Some (before, js_truthy ok2)))
        (ret None) in
      match clicked2 with
      | None => close_modal_for 2 ;; ret None
      | Some (_, false) => close_modal_for 2 ;; ret None
      | Some (before_files, true) =>
          let* new_pdf :=
            site_call (wait_for_new_pdf W pdf_root before_files) in
          match new_pdf with
          | None => close_modal_for 2 ;; ret None
          | Some new_pdf_path => ret (Some new_pdf_path)
          end
      end.

(** The body of the loop over the filing rows: the summary appended for
    this row, if any. *)
Definition process_filing (pdf_root : path) (idx : nat) (filing : Filing)
    : M (option PdfSummary) :=
  emit (EvMark (FilingRow idx)) ;;
  let filing_no := strip (filing_number filing) in
  if String.eqb filing_no "" then ret None
  else
    let* new_pdf := start_download pdf_root idx in
    match new_pdf with
    | None => ret None
    | Some new_pdf_path =>
        do_sleep D 1 ;;
        let* valid := validated_download idx new_pdf_path in
        if negb valid then close_modal_for 2 ;; ret None
        else store_summary pdf_root idx filing filing_no new_pdf_path
    end.

(** [for idx, filing in enumerate(filings[:max_pdfs_per_business])] *)
Fixpoint filing_loop (pdf_root : path) (idx : nat) (l : list Filing)
    : M (list PdfSummary) :=
  match l with
  | [] => ret []
  | filing :: rest =>
      let* o := process_filing pdf_root idx filing in
      let* more := filing_loop pdf_root (S idx) rest in
      ret (match o with Some x => x :: more | None => more end)
  end.

(** Steps 1 and 2: open the Filing History tab, read its table and set up
    the download folder; [None] when the tab does not open. *)
Definition filing_table (letter keyword : string) (page_idx : Z)
    (business_id : jval) (out_dir : path) : M (option (list Filing * path)) :=
  let* opened := mute open_filing_history_tab in
  if negb opened then ret None
  else
    do_sleep D 10 ;;
    do_ D (WaitForElementVisible "table.table-striped" 10) ;;
    let* html_filing := page_source D in
    let filings := parse_filing_history_table W html_filing in
    let pdf_root :=
      out_dir ++ [ "pdf"%string; letter; keyword;
                   ("page_" ++ show_Z (page_idx + 1))%string;
                   ("bid_" ++ py_str business_id)%string ] in
    do_ D (Mkdir pdf_root) ;;
    catch (do_ D (SetDownloadPath pdf_root)) (ret tt) ;;
    ret (Some (filings, pdf_root)).

Definition scrape_filing_history_and_pdfs (letter keyword : string)
    (page_idx : Z) (business_id : jval) (out_dir : path)
    (max_pdfs_per_business : nat) : M (list Filing * list PdfSummary) :=
  let* table := filing_table letter keyword page_idx business_id out_dir in
  match table with
  | None => ret ([], [])
  | Some ([], _) => ret ([], [])
  | Some (filings, pdf_root) =>
      let* sums :=
        filing_loop pdf_root 0 (firstn max_pdfs_per_business filings) in
      ret (filings, sums)
  end.
End FilingDocs.

End FilingDocs.

(** ** One search term: [scrape_keyword] *)

Module Scrape.
Import Text Session Json Data Pager.
Local Open Scope session_scope.

Definition ADV_URL : string := "https://ccfs.sos.wa.gov/#/AdvancedSearch".

Definition FETCH_HTML_DETAILS : bool := true.

Definition is_alnum (c : ascii) : bool :=
  let n := code c in
  ((48 <=? n) && (n <=? 57) || (65 <=? n) && (n <=? 90)
    || (97 <=? n) && (n <=? 122))%nat.

(** [re.sub(r"[^A-Za-z0-9]+", "_", s)] *)
Fixpoint squash (s : text) (in_run : bool) : text :=
  match s with
  | [] => []
  | c :: t =>
      if is_alnum c then c :: squash t false
      else if in_run then squash t true
      else "_"%char :: squash t true
  end.

Fixpoint lstrip_underscore (s : text) : text :=
  match s with
  | c :: s' => if Ascii.eqb c "_" then lstrip_underscore s' else s
  | [] => []
  end.

Definition sanitize_for_filename (s : string) : string :=
  match rev (lstrip_underscore (rev (lstrip_underscore (squash (chars s) false)))) with
  | [] => "kw"
  | t => string_of_list_ascii t
  end.

(** Why the page loop of [scrape_keyword] was left. *)
Inductive stop_reason :=
| NoPager
| LastPage
| CannotAdvance.

(** The local variables of [scrape_keyword] that live across pages. *)
Record LoopState := mkLoop {
  keyword_rows : list ResultRow;
  pages_info : list (Z * Z);
  page_index : Z;
  html_details_records : list DetailRecord;
  ls_details_success : Z;
  ls_details_failed : Z;
  api_pages : list (Z * list BizObj);
  visited_detail_ids : gset jval;
  pdf_data_by_id : gmap jval (list Filing * list PdfSummary)
}.

Definition initial_loop_state : LoopState :=
  mkLoop [] [] 1 [] 0 0 [] ∅ ∅.

(** What a completed [scrape_keyword] leaves behind: the returned dictionary
    and the two JSON documents it wrote. *)
Record KeywordOutput := mkOutput {
  result : KeywordResult;
  details_written : option (path * list DetailRecord);
  api_written : option (path * list (Z * list BizObj))
}.

Definition early_exit (keyword : string) : KeywordOutput :=
  mkOutput (empty_result keyword) None None.

Section Scrape.
Context (D : Driver) (W : Site D).
Local Abbreviation M := (@M (St D)).

Definition ensure_advanced_search : M bool :=
  let* a := present D "#txtOrgname" in
  if a then ret true
  else
    let* b := present D "#btnReturnToSearch" in
    if b then
      catch
      (do_ D (Click "#btnReturnToSearch") ;;
        do_ D (WaitForElement "#txtOrgname" 10) ;;
        ret true)
      (ret false)
    else
      catch
      (do_ D (Open ADV_URL) ;;
        do_sleep D 2 ;;
        do_ D (WaitForElement "#txtOrgname" 10) ;;
        ret true)
      (ret false).

(** The body of the [try] of one form attempt. *)
Definition fill_form (keyword : string) : M unit :=
  catch
  (do_ D (Clear "#txtOrgname"))
  (do_ D (Click "#txtOrgname") ;;
    do_ D (SendKeys "#txtOrgname" "CTRL+A") ;;
    do_ D (TypeText "#txtOrgname" "")) ;;
  do_ D (SelectOptionByValue "#ddlSelection" "3") ;;
  do_ D (TypeText "#txtOrgname" keyword) ;;
  do_ D (Click "#btnSearch") ;;
  dismiss_any_alert D.

(** [for attempt in range(1, 4)]: [true] when the form went through,
    [false] when the function gives the keyword up. *)
Fixpoint form_retry (keyword : string) (attempts : list nat) : M bool :=
  match attempts with
  | [] => ret false
  | attempt :: rest =>
      emit (EvMark (Attempt attempt)) ;;
      let* ok := catch (fill_form keyword ;; ret true) (ret false) in
      if ok then ret true
      else if (3 <=? attempt)%nat then ret false
      else
        do_sleep D (5 * attempt) ;;
        emit (EvMark EnsureAdvancedSearch) ;;
        mute ensure_advanced_search ;;
        form_retry keyword rest
  end.

Definition biz_id_of (biz_obj : BizObj) : jval :=
  py_or (dict_get biz_obj "BusinessID") (dict_get biz_obj "ID").

Definition scrape_pdfs_for_business (biz_obj : BizObj)
    (letter keyword : string) (page_idx : Z) (idx : Z) (out_dir : path)
    (first_detail_for_keyword : bool) : M (list Filing * list PdfSummary) :=
  let biz_id := biz_id_of biz_obj in
  if negb (truthy biz_id) then ret ([], [])
  else
    let* opened := FilingDocs.site_call D
        (open_business_info_for_row W biz_id (idx - 1)
          first_detail_for_keyword "PDF-PASS") in
    if negb opened then ret ([], [])
    else
      do_sleep D 1 ;;
      let* r := mute (FilingDocs.scrape_filing_history_and_pdfs D W
        letter keyword page_idx biz_id out_dir 3) in
      catch
      (mute (ReturnNav.click_back_with_cf D) ;; dismiss_any_alert D)
      (ret tt) ;;
      ret r.

(** The 15-round wait for the business name to be bound. *)
Fixpoint name_poll (n : nat) : M unit :=
  match n with
  | O => ret tt
  | S n' =>
      let* actual_name := catch
          (let* v := run_js D JsReadName in
            ret (match v with JsText t => strip_text t | _ => [] end))
          (ret []) in
      match actual_name with
      | [] => do_sleep D 1 ;; name_poll n'
      | _ => ret tt
      end
  end.

Definition fetch_business_information_via_html (biz_obj : BizObj)
    (letter keyword : string) (page_idx : Z) (idx : Z)
    (first_detail_for_keyword : bool) : M (option DetailRecord) :=
  let biz_id := biz_id_of biz_obj in
  if negb (truthy biz_id) then ret None
  else
    let business_name :=
        py_or (dict_get biz_obj "BusinessName")
          (dict_get biz_obj "EntityName") in
    (* [(record["BusinessName"] or "").strip()] *)
    match py_or business_name (JStr "") with
    | JNum _ => raise
    | _ => ret tt
    end ;;
    let* opened := FilingDocs.site_call D
        (open_business_info_for_row W biz_id (idx - 1)
          first_detail_for_keyword "BI-PASS") in
    if negb opened then ret None
    else
      let* called := catch
          (run_js D (JsShowBusinessInfo biz_id) ;; ret true) (ret false) in
      if negb called then ret None
      else
        let timeout := if first_detail_for_keyword then 10%nat else 5%nat in
        let* shown := catch
            (do_ D (WaitForElement "#divBusinessInformation" timeout) ;;
              dismiss_any_alert D ;; ret true)
            (ret false) in
        if negb shown then ret None
        else
          name_poll 15 ;;
          let* detail_parsed := catch
              (let* html_detail := page_source D in
                FilingDocs.read_only D
                (fun _ => parse_business_information_html W html_detail))
              (ret []) in
          catch
          (mute (ReturnNav.click_back_with_cf D) ;; dismiss_any_alert D)
          (ret tt) ;;
          ret (Some (mkDetail biz_id
            (dict_get biz_obj "UBINumber")
            business_name
            (py_or (dict_get biz_obj "BusinessStatus")
              (dict_get biz_obj "Status"))
            (py_or (dict_get biz_obj "BusinessType")
              (dict_get biz_obj "Type"))
            detail_parsed [] [] 0)).

Section Pages.
Context (keyword letter : string) (out_dir : path) (first_keyword : bool).

Definition safe_kw : string := sanitize_for_filename keyword.
Definition details_dir : path := out_dir ++ ["bi_html"%string].
Definition api_dir : path := out_dir ++ ["api"%string].
Definition debug_dir : path := out_dir ++ ["debug"%string].

Definition debug_path (page_index : Z) : path :=
  debug_dir ++ [("debug_" ++ letter ++ "_" ++ safe_kw ++ "_page_"
    ++ show_Z page_index ++ ".html")%string].

Definition debug_retry_path (page_index : Z) (retry : nat) : path :=
  debug_dir ++ [("debug_" ++ letter ++ "_" ++ safe_kw ++ "_page_"
    ++ show_Z page_index ++ "_retry_"
    ++ show_Z (Z.of_nat retry) ++ ".html")%string].

(** The three re-reads of an empty first page; the rows of the last
    read. *)
Fixpoint rows_retry (page_index : Z) (retries : list nat)
    : M (list ResultRow) :=
  match retries with
  | [] => ret []
  | retry :: rest =>
      do_sleep D (5 * retry) ;;
      let* html := page_source D in
      do_ D (WriteText (debug_retry_path page_index retry) html) ;;
      match parse_rows W html with
      | [] => rows_retry page_index rest
      | rows => ret rows
      end
  end.

(** PASS 1 over [enumerate(business_list)] from [local_idx] on; [pg] is
    the current [page_index]. *)
Fixpoint pdf_pass (pg : Z) (local_idx : Z) (l : list BizObj)
    (pdf_data : gmap jval (list Filing * list PdfSummary))
    : M (gmap jval (list Filing * list PdfSummary)) :=
  match l with
  | [] => ret pdf_data
  | biz_obj :: rest =>
      let biz_id := biz_id_of biz_obj in
      if negb (truthy biz_id) then
        pdf_pass pg (local_idx + 1) rest pdf_data
      else if decide (is_Some (pdf_data !! biz_id)) then
        pdf_pass pg (local_idx + 1) rest pdf_data
      else
        emit (EvMark (PdfPass biz_id pg)) ;;
        let* r := catch
            (let* x := mute (scrape_pdfs_for_business biz_obj letter keyword
              (pg - 1) (local_idx + 1) out_dir
              (first_keyword && (pg =? 1))) in
              ret (Some x))
            (ret None) in
        let pdf_data' :=
            match r with
            | Some x => <[biz_id := x]> pdf_data
            | None =>
                match pdf_data !! biz_id with
                | Some _ => pdf_data
                | None => <[biz_id := ([], [])]> pdf_data
                end
            end in
        pdf_pass pg (local_idx + 1) rest pdf_data'
  end.

(** The merge of the PASS 1 data into a captured record. *)
Definition merge_pdf_info (rec : DetailRecord)
    (pdf_info : list Filing * list PdfSummary) : DetailRecord :=
  mkDetail (BusinessID rec) (UBINumber rec) (BusinessName rec)
  (BusinessStatus rec) (BusinessType rec) (BusinessInformationHTML rec)
  (fst pdf_info) (snd pdf_info) (Z.of_nat (length (snd pdf_info))).

(** The bookkeeping of PASS 2 after a captured record ... *)
Definition detail_captured (st : LoopState) (biz_id : jval)
    (rec : DetailRecord) : LoopState :=
  let pdf_info := default ([], []) (pdf_data_by_id st !! biz_id) in
  mkLoop (keyword_rows st) (pages_info st) (page_index st)
  (html_details_records st ++ [merge_pdf_info rec pdf_info])
  (ls_details_success st + 1) (ls_details_failed st)
  (api_pages st)
  ({[biz_id]} ∪ visited_detail_ids st)
  (pdf_data_by_id st).

(** ... and after a failed one. *)
Definition detail_failed (st : LoopState) : LoopState :=
  mkLoop (keyword_rows st) (pages_info st) (page_index st)
  (html_details_records st)
  (ls_details_success st) (ls_details_failed st + 1)
  (api_pages st) (visited_detail_ids st) (pdf_data_by_id st).

(** PASS 2 over [enumerate(business_list)] from [local_idx] on. *)
Fixpoint detail_pass (local_idx : Z) (l : list BizObj) (st : LoopState)
    : M LoopState :=
  match l with
  | [] => ret st
  | biz_obj :: rest =>
      let biz_id := biz_id_of biz_obj in
      if negb (truthy biz_id) then detail_pass (local_idx + 1) rest st
      else if decide (biz_id ∈ visited_detail_ids st) then
        detail_pass (local_idx + 1) rest st
      else
        let* rec := catch
            (mute (fetch_business_information_via_html biz_obj letter
              keyword (page_index st - 1) (local_idx + 1)
              (first_keyword && (page_index st =? 1))))
            (ret None) in
        match rec with
        | Some rec =>
            emit (EvMark (DetailPass biz_id (page_index st) true)) ;;
            detail_pass (local_idx + 1) rest (detail_captured st biz_id rec)
        | None =>
            emit (EvMark (DetailPass biz_id (page_index st) false)) ;;
            detail_pass (local_idx + 1) rest (detail_failed st)
        end
  end.

Definition with_pdf_data (st : LoopState)
    (pdf_data : gmap jval (list Filing * list PdfSummary)) : LoopState :=
  mkLoop (keyword_rows st) (pages_info st) (page_index st)
  (html_details_records st) (ls_details_success st)
  (ls_details_failed st) (api_pages st) (visited_detail_ids st)
  pdf_data.

Definition with_page (st : LoopState) (rows : list ResultRow)
    (business_list : list BizObj) : LoopState :=
  mkLoop (keyword_rows st ++ rows)
  (pages_info st ++ [(page_index st, Z.of_nat (length rows))])
  (page_index st)
  (html_details_records st) (ls_details_success st)
  (ls_details_failed st)
  (match business_list with
  | [] => api_pages st
  | _ => api_pages st ++ [(page_index st, business_list)]
  end)
  (visited_detail_ids st) (pdf_data_by_id st).

Definition with_page_index (st : LoopState) (p : Z) : LoopState :=
  mkLoop (keyword_rows st) (pages_info st) p
  (html_details_records st) (ls_details_success st)
  (ls_details_failed st) (api_pages st) (visited_detail_ids st)
  (pdf_data_by_id st).

(** Rows and details of the page on display: the loop body down to the
    end of PASS 2. *)
Definition capture_page (st : LoopState) : M LoopState :=
  do_sleep D 2 ;;
  let* html := page_source D in
  do_ D (WriteText (debug_path (page_index st)) html) ;;
  let rows0 := parse_rows W html in
  let* rows :=
      if (page_index st =? 1) && (Nat.eqb (length rows0) 0) then
        let* rows := rows_retry (page_index st) [1; 2; 3]%nat in
        match rows with
        | [] =>
            do_ D (Mkdir ["rerun"%string]) ;;
            do_ D (AppendLine ["rerun"%string; ("rerun_" ++ letter ++ ".txt")%string]
              keyword) ;;
            ret rows
        | _ => ret rows
        end
      else ret rows0 in
      let* business_list :=
          mute (fun s => let '(s1, l) := get_business_list_via_angular W s in
            (Ok l, s1, [])) in
      let st1 := with_page st rows business_list in
      match business_list with
      | [] => ret st1
      | _ =>
          let* pdf_data := pdf_pass (page_index st1) 0 business_list
              (pdf_data_by_id st1) in
          detail_pass 0 business_list (with_pdf_data st1 pdf_data)
      end.

(** The pager read with its five re-reads. *)
Fixpoint pager_retry (n : nat) (pager : option PagerInfo)
    : M (option PagerInfo) :=
  match pager, n with
  | Some p, _ => ret (Some p)
  | None, O => ret None
  | None, S n' =>
      do_sleep D 2 ;;
      let* html := page_source D in
      pager_retry n' (parse_pager html)
  end.

Definition click_next_js : M bool :=
  mute (catch (run_js D JsClickNext ;; ret true) (ret false)).

Definition click_page_number_js (page_num : Z) : M bool :=
  mute (catch (run_js D (JsClickPageNumber page_num) ;; ret true) (ret false)).

(** The end of the loop body: read the pager and move on.  [Some r]: the
    loop is left for reason [r]; [None]: it goes round again. *)
Definition turn_page (st : LoopState)
    : M (LoopState * option stop_reason) :=
  let* html := page_source D in
  let* pager := pager_retry 5 (parse_pager html) in
  match pager with
  | None => ret (st, Some NoPager)
  | Some pager =>
      let current_page := page pager in
      let total_pages := total_pages pager in
      let st1 := with_page_index st current_page in
      if total_pages <=? current_page then ret (st1, Some LastPage)
      else
        let next_page := current_page + 1 in
        let* moved := click_next_js in
        let* moved :=
            if moved then ret true else click_page_number_js next_page in
            if negb moved then ret (st1, Some CannotAdvance)
            else
              do_sleep D 3 ;;
              ret (with_page_index st1 (current_page + 1), None)
  end.

Definition page_body (st : LoopState)
    : M (LoopState * option stop_reason) :=
  let* st1 := capture_page st in
  turn_page st1.

(** [while True]: at most [fuel] rounds.  [None] as reason: the rounds
    ran out with the loop still going. *)
Fixpoint pages_loop (fuel : nat) (st : LoopState)
    : M (LoopState * option stop_reason) :=
  match fuel with
  | O => ret (st, None)
  | S fuel' =>
      let* r := page_body st in
      match snd r with
      | Some reason => ret r
      | None => pages_loop fuel' (fst r)
      end
  end.

Definition count_pdf_success (records : list DetailRecord) : Z :=
  Z.of_nat (length (List.filter (fun rec => match PDFSummaries rec with
  | [] => false
  | _ => true
  end) records)).

(** The tail of [scrape_keyword], after the page loop. *)
Definition finish (st : LoopState) : M KeywordOutput :=
  let records := html_details_records st in
  let details_path :=
      details_dir ++ [("wa_bi_" ++ letter ++ "_" ++ safe_kw ++ ".json")%string] in
  let api_path :=
      api_dir ++ [("wa_api_" ++ letter ++ "_" ++ safe_kw ++ ".json")%string] in
  let* wrote_details :=
      match FETCH_HTML_DETAILS, records with
      | true, _ :: _ =>
          do_ D (Mkdir details_dir) ;;
          do_ D (WriteJson details_path) ;;
          ret true
      | _, _ => ret false
      end in
  let* wrote_api :=
      match api_pages st with
      | _ :: _ =>
          do_ D (Mkdir api_dir) ;;
          do_ D (WriteJson api_path) ;;
          ret true
      | [] => ret false
      end in
  let api_total_records :=
      fold_right (fun p acc => Z.of_nat (length (snd p)) + acc) 0
      (api_pages st) in
  let pdf_success := count_pdf_success records in
  let pdf_fail := Z.max 0 (ls_details_success st - pdf_success) in
  ret (mkOutput
    (mkResult (Some letter) keyword (page_index st)
      (Z.of_nat (length (keyword_rows st))) (pages_info st)
      (keyword_rows st)
      (if wrote_details then Some details_path else None)
      (ls_details_success st) (ls_details_failed st)
      (if wrote_api then Some api_path else None)
      (if wrote_api then api_total_records else 0)
      (Some pdf_success) (Some pdf_fail))
    (if wrote_details then Some (details_path, records) else None)
    (if wrote_api then Some (api_path, api_pages st) else None)).

(** [scrape_keyword], its page loop cut off after [fuel] rounds; [None]
    when the loop was still going then. *)
Definition scrape_keyword (fuel : nat) : M (option KeywordOutput) :=
  let* on_form := mute ensure_advanced_search in
  if negb on_form then ret (Some (early_exit keyword))
  else
    let* form_ok := form_retry keyword (seq 1 3) in
    if negb form_ok then ret (Some (early_exit keyword))
    else
      catch (do_ D (WaitForElement "css=table.table-striped" 30)) (ret tt) ;;
      do_ D (Mkdir details_dir) ;;
      do_ D (Mkdir api_dir) ;;
      do_ D (Mkdir debug_dir) ;;
      let* r := pages_loop fuel initial_loop_state in
      match snd r with
      | None => ret None
      | Some _ =>
          let* out := finish (fst r) in
          ret (Some out)
      end.
End Pages.
End Scrape.

End Scrape.

(** ** Resuming a letter: [load_keywords], [run_letter] *)

Module Resume.
Import Text Session Json Data.

(** One element of the tracking file: a JSON object or some other value. *)
Inductive tracking_row :=
| Row (d : gmap string jval)
| NotAnObject.

(** What [load_existing_tracking] finds at the tracking path. *)
Inductive tracking_file :=
| NoFile
| Unreadable
| NotAList
| Rows (data : list tracking_row).

(** [load_keywords]: the stripped, non-empty lines of the keyword file. *)
Definition load_keywords (file : option (list string)) : list string :=
  match file with
  | None => []
  | Some lines =>
      List.filter (fun kw => negb (String.eqb kw "")) (map strip lines)
  end.

(** The set comprehension of [load_existing_tracking]; [None] when
    [entry.get] raises on an element that is no object. *)
Fixpoint done_keywords_of (data : list tracking_row) : option (gset string) :=
  match data with
  | [] => Some ∅
  | NotAnObject :: _ => None
  | Row d :: rest =>
      match done_keywords_of rest with
      | None => None
      | Some done =>
          let kw := dict_get d "keyword" in
          Some (if truthy kw then {[py_str kw]} ∪ done else done)
      end
  end.

Definition load_existing_tracking (f : tracking_file)
    : list tracking_row * gset string :=
  match f with
  | Rows data =>
      match done_keywords_of data with
      | Some done => (data, done)
      | None => ([], ∅)
      end
  | _ => ([], ∅)
  end.

Definition pending_keywords (keywords : list string) (done : gset string)
    : list string :=
  List.filter (fun kw => bool_decide (kw ∉ done)) keywords.

Definition path_str (p : path) : string :=
  String.concat "/" p.

Definition opt_path (p : option path) : jval :=
  match p with
  | Some p => JStr (path_str p)
  | None => JNull
  end.

Definition opt_num (n : option Z) : jval :=
  match n with
  | Some n => JNum n
  | None => JNull
  end.

(** The tracking row of a keyword whose [scrape_keyword] returned;
    [with_pdf] adds the keys the single-proxy branch writes. *)
Definition tracking_entry (with_pdf : bool) (keyword : string)
    (r : KeywordResult) : gmap string jval :=
  let base : gmap string jval :=
      <["keyword"%string := JStr keyword]>
      (<["records_scraped"%string := JNum (records_scraped r)]>
        (<["details_file"%string := opt_path (details_file r)]>
          (<["details_success"%string := JNum (details_success r)]>
            (<["details_failed"%string := JNum (details_failed r)]>
              (<["api_file"%string := opt_path (api_file r)]>
                (<["api_records"%string := JNum (api_records r)]> ∅)))))) in
  if with_pdf then
    <["duration_sec"%string := JNull]>
    (<["pdf_success"%string := opt_num (pdf_success r)]>
      (<["pdf_fail"%string := opt_num (pdf_fail r)]> base))
  else base.

(** The tracking row of a keyword whose [scrape_keyword] raised. *)
Definition error_entry (with_pdf : bool) (keyword msg : string)
    : gmap string jval :=
  let base : gmap string jval :=
      <["keyword"%string := JStr keyword]>
      (<["records_scraped"%string := JNum 0]>
        (<["details_file"%string := JNull]>
          (<["details_success"%string := JNum 0]>
            (<["details_failed"%string := JNum 0]>
              (<["api_file"%string := JNull]>
                (<["api_records"%string := JNum 0]>
                  (<["error"%string := JStr msg]> ∅))))))) in
  if with_pdf then
    <["duration_sec"%string := JNull]>
    (<["pdf_success"%string := JNum 0]>
      (<["pdf_fail"%string := JNum 0]> base))
  else base.

Section Run.
(** The browser session of the sequential branches and what one
    [scrape_keyword] call does to it: a result, or an exception with its
    message. *)
Context {Sess : Type}.
Context (scrape : string -> bool -> Sess -> Sess * (KeywordResult + string)).
Context (with_pdf : bool).

(** State of a letter run: the session, [tracking_combined], the keywords
    handed to [scrape_keyword] so far and the contents the tracking file
    was given by each [flush_tracking]. *)
Record LetterRun := mkRun {
  session : Sess;
  tracking_combined : list tracking_row;
  scheduled : list string;
  flushes : list (list tracking_row)
}.

(** [for idx, keyword in enumerate(keywords, start=1)] *)
Fixpoint run_keywords (idx : nat) (keywords : list string) (st : LetterRun)
    : LetterRun :=
  match keywords with
  | [] => st
  | keyword :: rest =>
      let first_keyword := Nat.eqb idx 1 in
      let '(s1, r) := scrape keyword first_keyword (session st) in
      let row :=
          match r with
          | inl result => Row (tracking_entry with_pdf keyword result)
          | inr msg => Row (error_entry with_pdf keyword msg)
          end in
      let tracking := tracking_combined st ++ [row] in
      run_keywords (S idx) rest
      (mkRun s1 tracking (scheduled st ++ [keyword])
        (flushes st ++ [tracking]))
  end.

(** The sequential branches of [run_letter]: the run, and the tracking
    file it leaves; [None] when there is no keyword at all and the
    function returns at once. *)
Definition run_letter (keyword_file : option (list string))
    (tracking : tracking_file) (s : Sess)
    : option (LetterRun * tracking_file) :=
  match load_keywords keyword_file with
  | [] => None
  | keywords =>
      let '(existing_tracking, done_keywords) :=
          load_existing_tracking tracking in
      let pending := pending_keywords keywords done_keywords in
      let st := run_keywords 1 pending (mkRun s existing_tracking [] []) in
      Some (st, Rows (tracking_combined st))
  end.
End Run.

End Resume.

(** ** Specification vocabulary *)

Module Spec.
Import Text Session.

(** [word] occurs in [html] in some mix of upper and lower case. *)
Definition mentions (word : string) (html : text) : Prop :=
  exists pre w post, html = pre ++ w ++ post /\ lower w = chars word.

(** Outcome, final state and trace of a computation started in [s]. *)
Definition outcome_of {S A} (m : @M S A) (s : S) : res A := fst (fst (m s)).
Definition state_after {S A} (m : @M S A) (s : S) : S := snd (fst (m s)).
Definition trace_of {S A} (m : @M S A) (s : S) : list (event S) := snd (m s).

Definition raises {S A} (m : @M S A) (s : S) : Prop := outcome_of m s = Exn.

Definition is_act {S} (e : event S) : bool :=
  match e with
  | EvAct _ _ => true
  | _ => false
  end.

(** Every value the computation returns satisfies [Q]. *)
Definition returns {S A} (Q : A -> Prop) (m : @M S A) : Prop :=
  forall s, match outcome_of m s with Ok a => Q a | Exn => True end.

(** Every step the computation records satisfies [P], in every run. *)
Definition emits {S A} (P : event S -> Prop) (m : @M S A) : Prop :=
  forall s, Forall P (trace_of m s).

(** The computation records driver calls only. *)
Definition only_acts {S A} (m : @M S A) : Prop :=
  emits (fun e => is_act e = true) m.

Definition row_free {S} (e : event S) : Prop :=
  match e with
  | EvMark (FilingRow _) => False
  | EvMark (Validation _ _ _ _) => False
  | EvMark (Summary _) => False
  | _ => True
  end.

(** The trace without the driver calls: sleeps, probes and marks. *)
Definition steps_of {S} (t : list (event S)) : list (event S) :=
  List.filter (fun e => negb (is_act e)) t.

Definition is_attempt {S} (e : event S) : bool :=
  match e with
  | EvMark (Attempt _) => true
  | _ => false
  end.

(** The state in which the attempt after a failed [attempt] begins. *)
Definition retry_state (D : Driver) (keyword : string) (attempt : nat)
    (s : St D) : St D :=
  state_after (Scrape.ensure_advanced_search D)
    (sleep D (5 * attempt) (state_after (Scrape.fill_form D keyword) s)).

(** The filing rows, by index, that the trace visits, accepts a download
    for, and appends a summary for. *)
Definition visited_rows {S} (t : list (event S)) : list nat :=
  flat_map (fun e => match e with EvMark (FilingRow i) => [i] | _ => [] end) t.

Definition accepted_rows {S} (t : list (event S)) : list nat :=
  flat_map (fun e => match e with
                     | EvMark (Validation i _ _ true) => [i]
                     | _ => []
                     end) t.

Definition summary_rows {S} (t : list (event S)) : list nat :=
  flat_map (fun e => match e with EvMark (Summary i) => [i] | _ => [] end) t.

(** Every recorded verdict is that of [is_valid_pdf] on the file as it was
    at the check. *)
Definition verdicts_faithful {S} (t : list (event S)) : Prop :=
  Forall (fun e => match e with
                   | EvMark (Validation _ _ f v) =>
                       v = FilingDocs.is_valid_pdf f FilingDocs.default_min_size
                   | _ => True
                   end) t.

(** The trace holds no mark of the filing loop. *)
Definition rowless {S} (t : list (event S)) : Prop := Forall row_free t.

(** The detail captures of a trace, in order: the identifier and whether a
    record was captured; and the identifiers handed to the PDF pass. *)
Definition detail_events {S} (t : list (event S)) : list (jval * bool) :=
  flat_map (fun e => match e with
                     | EvMark (DetailPass id _ b) => [(id, b)]
                     | _ => []
                     end) t.

(** The detail captures with the page they were tried on. *)
Definition detail_attempts {S} (t : list (event S)) : list (jval * Z * bool) :=
  flat_map (fun e => match e with
                     | EvMark (DetailPass id pg b) => [(id, pg, b)]
                     | _ => []
                     end) t.

Definition pdf_events {S} (t : list (event S)) : list (jval * bool) :=
  flat_map (fun e => match e with
                     | EvMark (PdfPass id _) => [(id, true)]
                     | _ => []
                     end) t.

Definition pass_free {S} (e : event S) : Prop :=
  match e with
  | EvMark (DetailPass _ _ _) => False
  | EvMark (PdfPass _ _) => False
  | _ => True
  end.

(** The identifiers of the successful attempts. *)
Definition captured (l : list (jval * bool)) : list jval :=
  map fst (List.filter snd l).

(** The set of identifiers done with after the attempts [l], from [V]. *)
Definition done_after (V : gset jval) (l : list (jval * bool)) : gset jval :=
  list_to_set (captured l) ∪ V.

(** [ev] are the attempts a pass makes over the identifiers [ids], the
    identifiers of [V] being done with: an occurrence is passed over when
    the identifier is falsy or done with, and attempted otherwise; only a
    successful attempt makes its identifier done with. *)
Fixpoint follows (V : gset jval) (ids : list jval) (ev : list (jval * bool))
    : Prop :=
  match ids with
  | [] => ev = []
  | id :: ids' =>
      if Json.truthy id && bool_decide (id ∉ V) then
        match ev with
        | (id', b) :: ev' =>
            id' = id /\ follows (if b then {[id]} ∪ V else V) ids' ev'
        | [] => False
        end
      else follows V ids' ev
  end.

(** The business objects the model channel yielded, page after page. *)
Definition yielded (st : Scrape.LoopState) : list jval :=
  map Scrape.biz_id_of (concat (map snd (Scrape.api_pages st))).

(** From the variables [st] the rounds that recorded [tr] lead to [st']:
    both passes went over the business objects the rounds added, the
    detail pass from the identifiers visited, the PDF pass from those with
    PDF data; a record was appended for every capture. *)
Definition extends {S} (st st' : Scrape.LoopState) (tr : list (event S))
    : Prop :=
  exists objs,
    concat (map snd (Scrape.api_pages st')) =
      concat (map snd (Scrape.api_pages st)) ++ objs /\
    follows (Scrape.visited_detail_ids st) (map Scrape.biz_id_of objs)
      (detail_events tr) /\
    follows (dom (Scrape.pdf_data_by_id st)) (map Scrape.biz_id_of objs)
      (pdf_events tr) /\
    Scrape.visited_detail_ids st' =
      done_after (Scrape.visited_detail_ids st) (detail_events tr) /\
    dom (Scrape.pdf_data_by_id st') =
      done_after (dom (Scrape.pdf_data_by_id st)) (pdf_events tr) /\
    map Data.BusinessID (Scrape.html_details_records st') =
      map Data.BusinessID (Scrape.html_details_records st)
      ++ captured (detail_events tr).

(** The same of a run: nothing is said of one that raises. *)
Definition carries {S} (st : Scrape.LoopState)
    (x : res Scrape.LoopState * S * list (event S)) : Prop :=
  match x with
  | (Ok st', _, tr) => extends st st' tr
  | (Exn, _, _) => True
  end.

(** The pager of the page on display at [s], if there is one to read. *)
Definition pager_at (D : Driver) (s : St D) : option Pager.PagerInfo :=
  match get_page_source D s with
  | Some html => Pager.parse_pager html
  | None => None
  end.

(** The state after [k] waits of two seconds. *)
Definition after_waits (D : Driver) (k : nat) (s : St D) : St D :=
  Nat.iter k (sleep D 2) s.

(** The two scripts of an advance to page [next], run from [s]: the state
    they leave and whether each one raised. *)
Definition next_click (D : Driver) (s : St D) : St D * option jsval :=
  execute_script D JsClickNext s.

Definition number_click (D : Driver) (next : Z) (s : St D)
    : St D * option jsval :=
  execute_script D (JsClickPageNumber next) (fst (next_click D s)).

(** What leaving the page loop for [why] rests on: [s] is the state in
    which the pager is read after the page was captured, [s'] the state
    and [st'] the variables with which the loop is left. *)
Definition stop_justified (D : Driver) (why : Scrape.stop_reason)
    (st' : Scrape.LoopState) (s s' : St D) : Prop :=
  match why with
  | Scrape.NoPager =>
      s' = after_waits D 5 s /\
      forall k, (k <= 5)%nat -> pager_at D (after_waits D k s) = None
  | Scrape.LastPage =>
      exists p, pager_at D s' = Some p /\
        Pager.total_pages p <= Pager.page p /\
        Scrape.page_index st' = Pager.page p
  | Scrape.CannotAdvance =>
      exists s1 p, pager_at D s1 = Some p /\
        Pager.page p < Pager.total_pages p /\
        Scrape.page_index st' = Pager.page p /\
        snd (next_click D s1) = None /\
        number_click D (Pager.page p + 1) s1 = (s', None)
  end.

(** What going round again rests on: a pager short of its last page and
    an advance script that ran without raising; [st'] are the variables
    the next round starts with. *)
Definition goes_on (D : Driver) (st' : Scrape.LoopState) : Prop :=
  exists s1 p, pager_at D s1 = Some p /\
    Pager.page p < Pager.total_pages p /\
    Scrape.page_index st' = Pager.page p + 1 /\
    (snd (next_click D s1) <> None \/
     snd (number_click D (Pager.page p + 1) s1) <> None).

(** The keyword a row of the tracking file stands for, when the row is
    one a run writes: an object whose [keyword] is a non-empty string. *)
Definition row_keyword (row : Resume.tracking_row) : option string :=
  match row with
  | Resume.Row d =>
      match d !! "keyword"%string with
      | Some (JStr kw) => if String.eqb kw "" then None else Some kw
      | _ => None
      end
  | Resume.NotAnObject => None
  end.

(** A tracking file as runs leave it, and the keywords it holds. *)
Definition run_output (data : list Resume.tracking_row) : Prop :=
  Forall (fun row => is_Some (row_keyword row)) data.

Definition tracked (data : list Resume.tracking_row) : list string :=
  omap row_keyword data.

(** The probe "the search form is reached" came back true. *)
Definition overshoot {S} (e : event S) : bool :=
  match e with
  | EvProbe ReachedAdvancedSearch _ true => true
  | _ => false
  end.

(** No step of the trace observed the search form. *)
Definition clean {S} (t : list (event S)) : Prop :=
  Forall (fun e => overshoot e = false) t.

(** Every [window.history.back()] comes directly after a probe, at the same
    state, that did not see the search form; [prev] is the step before the
    trace. *)
Fixpoint chain {S} (prev : option (event S)) (t : list (event S)) : Prop :=
  match t with
  | [] => True
  | e :: t' =>
      match e with
      | EvScript JsHistoryBack s =>
          prev = Some (EvProbe ReachedAdvancedSearch s false)
      | _ => True
      end /\ chain (Some e) t'
  end.

(** A trace that satisfies [chain] whatever came before it. *)
Definition wf {S} (t : list (event S)) : Prop := forall prev, chain prev t.

(** The recorded probe results are those of the probes. *)
Definition faithful (D : Driver) (t : list (event (St D))) : Prop :=
  Forall (fun e => match e with
                   | EvProbe p s b => b = ReturnNav.eval_probe D p s
                   | _ => True
                   end) t.

(** The trace saw no search form, or it ends with that observation, at the
    final state, and the function returns the value [stopv]. *)
Inductive outcome_ok {S A} (stopv : A) : res A -> S -> list (event S) -> Prop :=
| oc_clean r s t : clean t -> outcome_ok stopv r s t
| oc_stop s t0 :
    clean t0 ->
    outcome_ok stopv (Ok stopv) s (t0 ++ [EvProbe ReachedAdvancedSearch s true]).

Definition good (D : Driver) {A} (stopv : A) (x : res A * St D * list (event (St D)))
    : Prop :=
  let '(r, s, t) := x in
  faithful D t /\ wf t /\ outcome_ok stopv r s t.

End Spec.

(** ** Concrete sessions

    A browser session as a stack of pages, the page on display on top.
    [window.history.back()], a click on the search button that goes
    through and a "next" control that works drop the top page; the driver
    calls listed in [fails] raise. *)

Module Examples.
Import Text Session Json Data.

Record page := mkPage {
  p_url : string;
  p_html : string;
  p_selectors : list string;
  p_business : list BizObj;
  p_detail_opens : bool;
  p_next_works : bool
}.

Definition action_is_click (sel : string) (a : action) : bool :=
  match a with
  | Click sel' => String.eqb sel sel'
  | _ => false
  end.

Definition stack_driver (fails : action -> bool) : Driver :=
  mkDriver (list page)
  (fun s => option_map (fun p => chars (p_url p)) (head s))
  (fun s => option_map (fun p => chars (p_html p)) (head s))
  (fun sel s =>
    match s with
    | p :: _ => existsb (String.eqb sel) (p_selectors p)
    | [] => false
    end)
  (fun a s =>
    if fails a then (s, false)
    else (if action_is_click "#btnSearch" a then tl s else s, true))
  (fun j s =>
    match j with
    | JsHistoryBack => (tl s, Some JsNull)
    | JsClickNext =>
        (match s with
         | p :: s' => if p_next_works p then s' else s
         | [] => []
         end, Some JsNull)
    | _ => (s, Some JsNull)
    end)
  (fun _ s => s)
  (fun _ _ => Absent).

Definition no_failure (a : action) : bool := false.

Definition a_row : ResultRow := mkRow (Some "100"%string) "ACME" ["ACME"%string].

Definition stack_site (fails : action -> bool) : Site (stack_driver fails) :=
  mkSite (stack_driver fails)
  (fun _ => [a_row])
  (fun s : list page =>
    (s, match s with p :: _ => p_business p | [] => [] end))
  (fun _ _ _ context (s : list page) =>
    (s, Ok (match s with
    | p :: _ => p_detail_opens p && String.eqb context "BI-PASS"
    | [] => false
    end)))
  (fun _ => Ok [])
  (fun _ => [])
  (fun _ _ => Ok [])
  (fun _ _ (s : list page) => (s, Ok None))
  (fun _ (s : list page) => s)
  (fun _ => false)
  (fun _ => Ok false)
  (fun _ _ => no_pdf_info).

(** A page that shows the challenge widget for good. *)
Definition challenge_page : page :=
  mkPage "https://ccfs.sos.wa.gov/#/BusinessSearch"
  "<div class='cf-turnstile'>Verifying you are human. Cloudflare</div>"
  ["css=.cf-turnstile"%string] [] false true.

(** An ordinary page. *)
Definition plain_page : page :=
  mkPage "https://ccfs.sos.wa.gov/#/BusinessInformation"
  "<h2>Business Information</h2>" [] [] false true.

Definition filing_page : page :=
  mkPage "https://ccfs.sos.wa.gov/#/BusinessFilingHistory"
  "<h2>Filing History</h2>" [] [] false true.

(** The search form, on which every click of the search button raises. *)
Definition broken_search : action -> bool := action_is_click "#btnSearch".

Definition search_form_page : page :=
  mkPage "https://ccfs.sos.wa.gov/#/AdvancedSearch"
  "<input id='txtOrgname'>" ["#txtOrgname"%string] [] false true.

(** A page of search results with its pager line and the business objects
    of the model channel. *)
Definition results_page (pager : string) (business : list BizObj)
    (detail_opens next_works : bool) : page :=
  mkPage "https://ccfs.sos.wa.gov/#/BusinessSearch"
    ("<h2>Business Search Results</h2><span>" ++ pager ++ "</span>")
    [] business detail_opens next_works.

(** Two pages that both list the business 200; its detail view does not
    open from the first page and opens from the second. *)
Definition business_200 : BizObj := {[ "BusinessID"%string := JNum 200 ]}.

Definition overlap_session : list page :=
  [ search_form_page;
    results_page "Page 1 of 2, records 1 to 1 of 2" [business_200] false true;
    results_page "Page 2 of 2, records 2 to 2 of 2" [business_200] true true ].

(** A first page of two on which the "next" control does nothing. *)
Definition stuck_page : page :=
  results_page "Page 1 of 2, records 1 to 25 of 50" [] false false.

Definition stuck_session : list page := [search_form_page; stuck_page].

(** Two pages without business objects, the "next" control working. *)
Definition two_page_session : list page :=
  [ results_page "Page 1 of 2, records 1 to 25 of 50" [] false true;
    results_page "Page 2 of 2, records 26 to 50 of 50" [] false true ].

(** Back from a filing view that was entered straight from the search
    form. *)
Definition overshoot_session : list page := [filing_page; search_form_page].

Definition overshoot_trace : list (event (list page)) :=
  [ EvProbe OnSearchResults overshoot_session false;
    EvProbe OnBusinessInfo overshoot_session false;
    EvProbe OnSearchResults overshoot_session false;
    EvProbe ReachedAdvancedSearch overshoot_session false;
    EvScript JsHistoryBack overshoot_session;
    EvSleep 3;
    EvProbe OnSearchResults [search_form_page] false;
    EvProbe ReachedAdvancedSearch [search_form_page] true ].

(** A filing view with two rows: the document of the first row downloads
    as a PDF, that of the second as an HTML error page.  The state is the
    row whose dialog was opened last. *)
Definition pdf_bytes : text := chars "%PDF-1.4" ++ repeat "0"%char 2048.

Definition error_bytes : text := chars "<html>Request blocked</html>".

Definition filing_driver : Driver :=
  mkDriver nat
    (fun _ => Some (chars "https://ccfs.sos.wa.gov/#/BusinessFilingHistory"))
    (fun _ => Some (chars "<table class='table-striped'></table>"))
    (fun _ _ => false)
    (fun _ s => (s, true))
    (fun j s =>
       match j with
       | JsOpenModal idx => (idx, Some (JsBool true))
       | _ => (s, Some (JsBool true))
       end)
    (fun _ s => s)
    (fun _ p =>
       match p with
       | ["download_1.pdf"%string] => Content error_bytes
       | _ => Content pdf_bytes
       end).

Definition two_filings : list Filing :=
  [ mkFiling " 0021 " "01/02/2024" "01/02/2024" "ANNUAL REPORT";
    mkFiling "0022" "03/04/2023" "03/04/2023" "INITIAL REPORT" ].

Definition filing_site : Site filing_driver :=
  mkSite filing_driver
    (fun _ => [])
    (fun s : nat => (s, []))
    (fun _ _ _ _ (s : nat) => (s, Ok true))
    (fun _ => Ok [])
    (fun _ => two_filings)
    (fun _ _ => Ok [])
    (fun _ _ (s : nat) =>
       (s, Ok (Some [("download_" ++ show_Z (Z.of_nat s) ++ ".pdf")%string])))
    (fun _ (s : nat) => s)
    (fun _ => true)
    (fun _ => Ok true)
    (fun _ _ => mkPdfInfo (Some "360-555-0100"%string) None []).

End Examples.

(** ** Vocabulary for file-name parts and keyword files *)

Module NameSpec.
Import Text Scrape.

(** A character of a file-name part: a letter or digit of ASCII, or an
    underscore. *)
Definition name_char (c : ascii) : bool := is_alnum c || Ascii.eqb c "_".

(** A non-empty word of such characters that neither begins nor ends with
    an underscore. *)
Definition safe_name (t : text) : Prop :=
  t <> [] /\ forallb name_char t = true /\
  head t <> Some "_"%char /\ last t <> Some "_"%char.

(** [s] is empty or begins with a character outside the class. *)
Definition begins_outside (cls : ascii -> bool) (s : text) : Prop :=
  match s with
  | [] => True
  | c :: _ => cls c = false
  end.

(** [f], which works at the front of a text, applied at both ends. *)
Definition both (f : text -> text) (s : text) : text := rev (f (rev (f s))).

(** Runs of letters and digits with single underscores before, between or
    after them; [after_us]: the character before was an underscore. *)
Fixpoint tidy (after_us : bool) (t : text) : bool :=
  match t with
  | [] => true
  | c :: t' =>
      if is_alnum c then tidy false t'
      else Ascii.eqb c "_" && negb after_us && tidy true t'
  end.

(** No white space at either end. *)
Definition stripped (s : string) : Prop := strip s = s.

End NameSpec.

(** ** Vocabulary for the summary of a keyword *)

Module SummarySpec.
Import Text Session Json Data Scrape Spec.

(** The sum of [rows_on_page] over the [pages] list. *)
Definition rows_on_pages (pages : list (Z * Z)) : Z :=
  fold_right (fun p acc => snd p + acc) 0 pages.

(** The number of business objects in the pages of the model channel. *)
Definition api_total (api : list (Z * list BizObj)) : Z :=
  fold_right (fun p acc => Z.of_nat (length (snd p)) + acc) 0 api.

(** The counters of the page loop agree with its lists. *)
Definition balanced (st : LoopState) : Prop :=
  Z.of_nat (length (keyword_rows st)) = rows_on_pages (pages_info st) /\
  ls_details_success st = Z.of_nat (length (html_details_records st)) /\
  Forall (fun p => snd p <> []) (api_pages st).

(** From [st] to [st'] the rounds that recorded [tr] keep the counters in
    step: every detail attempt is counted once, as a success or a failure,
    and there are no more attempts than business objects were added. *)
Definition tallied {S} (st st' : LoopState) (tr : list (event S)) : Prop :=
  (balanced st -> balanced st') /\
  ls_details_success st' + ls_details_failed st' =
    ls_details_success st + ls_details_failed st
    + Z.of_nat (length (detail_events tr)) /\
  ls_details_failed st <= ls_details_failed st' /\
  Z.of_nat (length (detail_events tr)) <=
    api_total (api_pages st') - api_total (api_pages st).

(** What the tail of [scrape_keyword] makes of the variables [st]. *)
Definition summary_of (st : LoopState) (out : KeywordOutput) : Prop :=
  let r := result out in
  rows r = keyword_rows st /\ pages r = pages_info st /\
  records_scraped r = Z.of_nat (length (keyword_rows st)) /\
  details_success r = ls_details_success st /\
  details_failed r = ls_details_failed st /\
  details_file r = option_map fst (details_written out) /\
  option_map snd (details_written out) =
    match html_details_records st with
    | [] => None
    | recs => Some recs
    end /\
  api_file r = option_map fst (api_written out) /\
  option_map snd (api_written out) =
    match api_pages st with
    | [] => None
    | api => Some api
    end /\
  api_records r = api_total (api_pages st) /\
  pdf_success r = Some (count_pdf_success (html_details_records st)) /\
  pdf_fail r =
    Some (Z.max 0 (ls_details_success st
                   - count_pdf_success (html_details_records st))).

End SummarySpec.

(** ** Postconditions of session computations *)

Module Post.
Import Session.

(** The run [x] raised, or it returned a value and a state that satisfy
    [Q]. *)
Definition post {S A} (Q : A -> S -> Prop) (x : res A * S * list (event S))
    : Prop :=
  match x with
  | (Ok a, s', _) => Q a s'
  | (Exn, _, _) => True
  end.

(** Every run of [m] that returns satisfies [Q]. *)
Definition ensures {S A} (Q : A -> S -> Prop) (m : @M S A) : Prop :=
  forall s, post Q (m s).

End Post.

(** ** Vocabulary for the filing summaries *)

Module FilingSpec.
Import Text Session Json Data.

(** The per-business download folder of [scrape_filing_history_and_pdfs]. *)
Definition pdf_root_of (out_dir : path) (letter keyword : string)
    (page_idx : Z) (business_id : jval) : path :=
  out_dir ++ [ "pdf"%string; letter; keyword;
               ("page_" ++ show_Z (page_idx + 1))%string;
               ("bid_" ++ py_str business_id)%string ].

(** What a summary says about the filing row it was made for. *)
Definition summary_view (x : PdfSummary)
    : string * string * string * string * path :=
  (ps_filing_number x, ps_filing_type x, ps_filing_date_time x,
   ps_effective_date x, ps_pdf_path x).

(** What the summary of a filing row has to say, with the download folder
    [pdf_root]. *)
Definition filing_view (pdf_root : path) (f : Filing)
    : string * string * string * string * path :=
  let filing_no := strip (filing_number f) in
  (filing_no, filing_type f, filing_date_time f, effective_date f,
   pdf_root ++ [(filing_no ++ ".pdf")%string]).

(** The filings and summaries kept for a business: the summaries are made
    for rows among the first three filings, in their order, none with an
    empty filing number, and their files lie in the folder of the
    business for one page. *)
Definition filed_under (out_dir : path) (letter keyword : string)
    (biz_id : jval) (x : list Filing * list PdfSummary) : Prop :=
  exists page_idx,
    sublist (map summary_view (snd x))
      (map (filing_view (pdf_root_of out_dir letter keyword page_idx biz_id))
         (firstn 3 (fst x))) /\
    Forall (fun s => ps_filing_number s <> ""%string) (snd x).

(** A detail record whose PDF fields are in order. *)
Definition record_filed (out_dir : path) (letter keyword : string)
    (rec : DetailRecord) : Prop :=
  PDFDownloadedCount rec = Z.of_nat (length (PDFSummaries rec)) /\
  (length (PDFSummaries rec) <= 3)%nat /\
  filed_under out_dir letter keyword (BusinessID rec)
    (FilingHistoryRecords rec, PDFSummaries rec).

End FilingSpec.

(** ** Vocabulary for tracking files of any shape *)

Module TrackingSpec.
Import Text Session Json Data Resume.

(** A tracking file [load_existing_tracking] cannot use: it is missing,
    cannot be read or parsed, is no array, or holds an element that is no
    object. *)
Definition damaged (f : tracking_file) : Prop :=
  match f with
  | Rows data => In NotAnObject data
  | _ => True
  end.

(** The row counts keyword [kw] as done: its [keyword] field is truthy
    and reads [kw] when converted with [str]. *)
Definition marks_done (kw : string) (row : tracking_row) : bool :=
  match row with
  | Row d =>
      truthy (dict_get d "keyword")
      && String.eqb (py_str (dict_get d "keyword")) kw
  | NotAnObject => false
  end.

End TrackingSpec.

(** ** Proxy lists: [load_proxies_from_file], [load_excluded_proxies],
    [append_bad_proxy], [is_proxy_working], [assign_proxies_for_batch] *)

Module Proxies.
Import Text Session.

(** The line boundaries of [str.splitlines] below code point 256. *)
Definition is_line_break (c : ascii) : bool :=
  let n := code c in
  ((10 <=? n) && (n <=? 13) || (28 <=? n) && (n <=? 30) || (n =? 133))%nat.

(** [str.splitlines()]: the lines without their ends; a carriage return
    followed by a line feed is one boundary. *)
Fixpoint splitlines (s : text) : list text :=
  match s with
  | [] => []
  | c :: rest =>
      if is_line_break c then
        [] :: match rest with
              | c2 :: rest' =>
                  if ((code c =? 13) && (code c2 =? 10))%nat
                  then splitlines rest'
                  else splitlines rest
              | [] => []
              end
      else
        match splitlines rest with
        | [] => [[c]]
        | l :: ls => (c :: l) :: ls
        end
  end.

(** What a file opened in text mode hands out for its characters: a
    carriage return, alone or before a line feed, is read as a line feed. *)
Fixpoint universal_newlines (s : text) : text :=
  match s with
  | [] => []
  | c :: rest =>
      if (code c =? 13)%nat then
        "010"%char ::
        match rest with
        | c2 :: rest' =>
            if (code c2 =? 10)%nat then universal_newlines rest'
            else universal_newlines rest
        | [] => []
        end
      else c :: universal_newlines rest
  end.

(** [for line in f]: the lines with their line feed. *)
Fixpoint lines_of (s : text) : list text :=
  match s with
  | [] => []
  | c :: rest =>
      if (code c =? 10)%nat then [c] :: lines_of rest
      else
        match lines_of rest with
        | [] => [[c]]
        | l :: ls => (c :: l) :: ls
        end
  end.

Definition file_lines (raw : text) : list text :=
  lines_of (universal_newlines raw).

(** [re.match(r"^https?://", line, flags=re.IGNORECASE)] *)
Definition has_scheme (line : text) : bool :=
  starts_with (chars "http://") (lower line)
  || starts_with (chars "https://") (lower line).

(** [load_proxies_from_file]; the argument is what [read_text] returns,
    [None] when the file does not exist. *)
Definition load_proxies_from_file (file : option text) : list string :=
  match file with
  | None => []
  | Some content =>
      omap (fun line =>
              let line := strip_text line in
              match line with
              | [] => None
              | c :: _ =>
                  if Ascii.eqb c "#" then None
                  else if has_scheme line then Some (string_of_list_ascii line)
                  else Some (string_of_list_ascii (chars "http://" ++ line))
              end)
        (splitlines content)
  end.

(** [load_excluded_proxies]; the argument holds the characters of the
    file, [None] when it does not exist. *)
Definition load_excluded_proxies (file : option text) : gset string :=
  match file with
  | None => ∅
  | Some raw =>
      list_to_set
        (omap (fun line =>
                 match strip_text line with
                 | [] => None
                 | stripped =>
                     if starts_with (chars "#") line then None
                     else Some (string_of_list_ascii stripped)
                 end)
           (file_lines raw))
  end.

(** [append_bad_proxy]: the file after the call. *)
Definition append_bad_proxy (file : option text) (proxy : string)
    : option text :=
  match strip_text (chars proxy) with
  | [] => file
  | proxy => Some (default [] file ++ proxy ++ ["010"%char])
  end.

(** [exc_file.touch(exist_ok=True)] *)
Definition touch (file : option text) : option text :=
  Some (default [] file).

(** The network and the random generator: an HTTP request through a proxy
    gives a status code or raises, and [random.choice] draws an index. *)
Record Net := mkNet {
  World : Type;
  http_get : string -> World -> World * option Z;
  random_index : World -> World * nat
}.

(** [keywords[:batch_size]] *)
Definition py_take {A} (n : Z) (l : list A) : list A :=
  if n <? 0 then firstn (Z.to_nat (Z.of_nat (length l) + n)) l
  else firstn (Z.to_nat n) l.

Section Assign.
Context (N : Net).

Definition is_proxy_working (proxy : string) (w : World N)
    : World N * bool :=
  match http_get N proxy w with
  | (w1, Some status_code) =>
      (w1, (200 <=? status_code) && (status_code <? 400))
  | (w1, None) => (w1, false)
  end.

(** [random.choice(remaining)] on a list that is not empty. *)
Definition random_choice (remaining : list string) (w : World N)
    : World N * string :=
  let '(w1, k) := random_index N w in
  (w1, nth (k mod length remaining) remaining ""%string).

(** What [assign_proxies_for_batch] works on: the network, the caller's
    [excluded] set, which it updates in place, the exclusion file, and the
    proxy tests made so far with their outcomes. *)
Record Pool := mkPool {
  world : World N;
  excluded : gset string;
  exc_file : option text;
  tests : list (string * bool)
}.

(** The [while True] loop that finds a proxy for one keyword; [None] when
    [fuel] rounds were not enough. *)
Fixpoint find_working (fuel : nat) (candidate_proxies : list string)
    (used_in_batch : gset string) (st : Pool) : option (res string * Pool) :=
  match fuel with
  | O => None
  | S fuel' =>
      let remaining :=
          List.filter (fun p => bool_decide (p ∉ used_in_batch)
                                && bool_decide (p ∉ excluded st))
            candidate_proxies in
      match remaining with
      | [] => Some (Exn, st)
      | _ =>
          let '(w1, candidate) := random_choice remaining (world st) in
          let '(w2, ok) := is_proxy_working candidate w1 in
          if ok then
            Some (Ok candidate,
                  mkPool w2 (excluded st) (exc_file st)
                    (tests st ++ [(candidate, true)]))
          else
            find_working fuel' candidate_proxies used_in_batch
              (mkPool w2 ({[candidate]} ∪ excluded st)
                 (append_bad_proxy (exc_file st) candidate)
                 (tests st ++ [(candidate, false)]))
      end
  end.

(** [for kw in batch_keywords] *)
Fixpoint assign_loop (fuel : nat) (candidate_proxies : list string)
    (batch_keywords : list string) (assignments : gmap string string)
    (used_in_batch : gset string) (st : Pool)
    : option (res (gmap string string) * Pool) :=
  match batch_keywords with
  | [] => Some (Ok assignments, st)
  | kw :: rest =>
      match find_working fuel candidate_proxies used_in_batch st with
      | None => None
      | Some (Exn, st1) => Some (Exn, st1)
      | Some (Ok proxy_for_kw, st1) =>
          assign_loop fuel candidate_proxies rest
            (<[kw := proxy_for_kw]> assignments)
            ({[proxy_for_kw]} ∪ used_in_batch) st1
      end
  end.

Definition assign_proxies_for_batch (fuel : nat) (all_proxies : list string)
    (keywords : list string) (batch_size : Z) (st : Pool)
    : option (res (gmap string string) * Pool) :=
  let st := mkPool (world st) (excluded st) (touch (exc_file st)) (tests st) in
  let candidate_proxies :=
      List.filter (fun p => bool_decide (p ∉ excluded st)) all_proxies in
  match candidate_proxies with
  | [] => Some (Exn, st)
  | _ =>
      match py_take batch_size keywords with
      | [] => Some (Ok ∅, st)
      | batch_keywords =>
          assign_loop fuel candidate_proxies batch_keywords ∅ ∅ st
      end
  end.
End Assign.
Arguments mkPool {N} _ _ _ _.
Arguments world {N} _.
Arguments excluded {N} _.
Arguments exc_file {N} _.
Arguments tests {N} _.

End Proxies.

(** ** Vocabulary for proxy lists *)

Module ProxySpec.
Import Text Session NameSpec Proxies.

(** No line boundary of [str.splitlines] inside. *)
Definition one_line (t : text) : Prop :=
  forallb (fun c => negb (is_line_break c)) t = true.

(** A proxy as the scraper hands it to the browser: it begins with
    [http://] or [https://] in any case, has no white space at either end
    and no line boundary inside. *)
Definition proxy_url (p : string) : Prop :=
  has_scheme (chars p) = true /\ stripped p /\ one_line (chars p).

(** The text of a file with one entry on each line. *)
Definition written (l : list string) : text :=
  concat (map (fun p => chars p ++ ["010"%char]) l).

(** A file that is missing, empty, or whose last line is ended. *)
Definition complete (file : option text) : Prop :=
  match file with
  | None => True
  | Some c =>
      c = [] \/ last c = Some "010"%char \/ last c = Some "013"%char
  end.

(** Neither a line feed nor a carriage return inside. *)
Definition no_newline (t : text) : Prop :=
  forallb (fun c => negb ((code c =? 10) || (code c =? 13))%nat) t = true.

(** The proxies of a test log that passed, and those that failed, in the
    order of the tests. *)
Definition passed (log : list (string * bool)) : list string :=
  map fst (List.filter snd log).

Definition failed (log : list (string * bool)) : list string :=
  map fst (List.filter (fun t => negb (snd t)) log).

End ProxySpec.

(** ** A small network for the proxy functions *)

Module ProxyExamples.
Import Text Session Proxies.

(** The first proxy answers with status 503 and every other one with 200;
    the generator always draws index 0. *)
Definition lab_net : Net :=
  mkNet unit
    (fun proxy w =>
       (w, Some (if String.eqb proxy "http://a:1" then 503 else 200)))
    (fun w => (w, 0%nat)).

Definition lab_proxies : list string :=
  ["http://a:1"; "http://b:2"]%string.

(** Nothing excluded, no exclusion file, no test made. *)
Definition fresh_pool : Pool lab_net := mkPool (N := lab_net) tt ∅ None [].

End ProxyExamples.

(** ** The backfill scripts: [parse_name_parts] *)

Module Backfill.
Import Text Data.

(** [s.rfind(c)]: the index of the last [c]. *)
Fixpoint rfind (c : ascii) (s : text) : option nat :=
  match s with
  | [] => None
  | x :: rest =>
      match rfind c rest with
      | Some i => Some (S i)
      | None => if Ascii.eqb x c then Some 0%nat else None
      end
  end.

(** [PurePath.stem] of a file name: the name up to its last dot, when that
    dot is neither the first nor the last character. *)
Definition stem (name : string) : string :=
  let name := chars name in
  match rfind "." name with
  | Some i =>
      if ((0 <? i) && (i <? length name - 1))%nat
      then string_of_list_ascii (firstn i name)
      else string_of_list_ascii name
  | None => string_of_list_ascii name
  end.

(** [s.split(sep, maxsplit)] for a separator of one character. *)
Fixpoint split_max (sep : ascii) (maxsplit : nat) (s : text) {struct s}
    : list text :=
  match maxsplit, s with
  | O, _ => [s]
  | S _, [] => [[]]
  | S m, c :: rest =>
      if Ascii.eqb c sep then [] :: split_max sep m rest
      else
        match split_max sep maxsplit rest with
        | l :: ls => (c :: l) :: ls
        | [] => [[c]]
        end
  end.

(** [parse_name_parts(path, prefix)]; [None] for [(None, None)]. *)
Definition parse_name_parts (p : path) (prefix : string)
    : option (string * string) :=
  let stem := stem (List.last p ""%string) in
  match map string_of_list_ascii (split_max "_" 3 (chars stem)) with
  | [p0; p1; p2; p3] =>
      if negb (String.eqb p0 "wa") || negb (String.eqb p1 prefix) then None
      else Some (p2, p3)
  | _ => None
  end.

(** No underscore inside. *)
Definition no_underscore (s : string) : Prop :=
  forallb (fun c => negb (Ascii.eqb c "_")) (chars s) = true.

End Backfill.

(** ** Vocabulary for the re-reads of an empty first page *)

Module RerunSpec.
Import Text Session Data.

(** The waits of a trace, in seconds and in order. *)
Definition sleeps {S} (tr : list (event S)) : list nat :=
  flat_map (fun e => match e with EvSleep n => [n] | _ => [] end) tr.

(** The lines a trace appends to files, with the file. *)
Definition appended_lines {S} (tr : list (event S)) : list (path * string) :=
  flat_map (fun e => match e with
                     | EvAct (AppendLine p line) _ => [(p, line)]
                     | _ => []
                     end) tr.

Definition is_mark {S} (e : event S) : Prop :=
  match e with
  | EvMark _ => True
  | _ => False
  end.

End RerunSpec.

(** ** [run_letter] with a proxy list: the sliding window of workers *)

Module Buffer.
Import Text Session Json Data Resume Proxies.

(** What happens to the keywords, in order: a worker is started for a
    keyword with a proxy, a keyword is taken from the iterator and left
    aside because no proxy could be assigned, and the result of a worker
    is collected.  Workers are numbered in the order they are started. *)
Inductive step :=
| Submitted (id : nat) (kw proxy : string)
| Dropped (kw : string)
| Finished (id : nat) (kw : string).

(** The process pool on top of the network: what [fut.result()] gives for
    the worker of a keyword and a proxy, the dictionary [scrape_keyword]
    returned or the message of an exception; and the futures
    [wait(..., return_when=FIRST_COMPLETED)] reports of the [n] in
    flight, as positions in the order the loop visits them. *)
Record Cluster := mkCluster {
  net : Net;
  worker_result :
    string -> string -> World net -> World net * (KeywordResult + string);
  completed : nat -> World net -> World net * list nat
}.

(** The futures a wait reports: those at the positions named, each once;
    never none of them while some are in flight. *)
Definition done_of {A} (positions : list nat) (in_flight : list A) : list A :=
  match omap (fun i => in_flight !! i) (remove_dups positions) with
  | [] => firstn 1 in_flight
  | done => done
  end.

Section Buffer.
Context (C : Cluster) (all_proxies : list string).

(** The variables of the branch: the proxy pool, [kw_iter],
    [future_to_kw] in the order of insertion, the number of workers
    started, [tracking_combined], the contents [flush_tracking] gave the
    tracking file, and the steps so far. *)
Record Buf := mkBuf {
  pool : Pool (net C);
  kw_iter : list string;
  future_to_kw : list (nat * (string * string));
  started : nat;
  tracking_combined : list tracking_row;
  flushes : list (list tracking_row);
  log : list step
}.

Definition with_world (w : World (net C)) (p : Pool (net C)) : Pool (net C) :=
  mkPool w (excluded p) (exc_file p) (tests p).

(** [executor.submit(run_single_keyword_worker, ...)] and the entry in
    [future_to_kw]. *)
Definition submit (kw proxy : string) (st : Buf) : Buf :=
  mkBuf (pool st) (kw_iter st)
    (future_to_kw st ++ [(started st, (kw, proxy))])
    (S (started st)) (tracking_combined st) (flushes st)
    (log st ++ [Submitted (started st) kw proxy]).

(** [get_next_assignment]: the next keyword and a tested proxy for it;
    [Ok None] for [(None, None)], when the iterator is used up or
    [assign_proxies_for_batch] raised. *)
Definition get_next_assignment (st : Buf)
    : option (res (option (string * string)) * Buf) :=
  match kw_iter st with
  | [] => Some (Ok None, st)
  | next_kw :: rest =>
      match assign_proxies_for_batch (net C) (S (length all_proxies))
              all_proxies [next_kw] 1 (pool st) with
      | None => None
      | Some (Exn, pool') =>
          Some (Ok None,
                mkBuf pool' rest (future_to_kw st) (started st)
                  (tracking_combined st) (flushes st)
                  (log st ++ [Dropped next_kw]))
      | Some (Ok assignments, pool') =>
          let st' := mkBuf pool' rest (future_to_kw st) (started st)
                       (tracking_combined st) (flushes st) (log st) in
          match assignments !! next_kw with
          | Some proxy_for_kw => Some (Ok (Some (next_kw, proxy_for_kw)), st')
          | None => Some (Exn, st')
          end
      end
  end.

(** [for _ in range(batch_size)]: prime the pool. *)
Fixpoint prime (n : nat) (st : Buf) : option (res unit * Buf) :=
  match n with
  | O => Some (Ok tt, st)
  | S n' =>
      match get_next_assignment st with
      | None => None
      | Some (Exn, st1) => Some (Exn, st1)
      | Some (Ok None, st1) => Some (Ok tt, st1)
      | Some (Ok (Some (kw, px)), st1) => prime n' (submit kw px st1)
      end
  end.

(** The body of [for fut in done]: the future is taken out, its row is
    appended and the tracking file rewritten, and the slot is given to
    the next keyword if there is one. *)
Definition collect (fut : nat * (string * string)) (st : Buf)
    : option (res unit * Buf) :=
  let '(id, (kw, px)) := fut in
  let '(w1, r) := worker_result C kw px (world (pool st)) in
  let row :=
      match r with
      | inl result => Row (tracking_entry false kw result)
      | inr msg => Row (error_entry true kw msg)
      end in
  let tracking := tracking_combined st ++ [row] in
  let st1 :=
      mkBuf (with_world w1 (pool st)) (kw_iter st)
        (List.filter (fun f => negb (Nat.eqb (fst f) id)) (future_to_kw st))
        (started st) tracking (flushes st ++ [tracking])
        (log st ++ [Finished id kw]) in
  match get_next_assignment st1 with
  | None => None
  | Some (Exn, st2) => Some (Exn, st2)
  | Some (Ok None, st2) => Some (Ok tt, st2)
  | Some (Ok (Some (next_kw, next_px)), st2) =>
      Some (Ok tt, submit next_kw next_px st2)
  end.

Fixpoint collect_all (done : list (nat * (string * string))) (st : Buf)
    : option (res unit * Buf) :=
  match done with
  | [] => Some (Ok tt, st)
  | fut :: rest =>
      match collect fut st with
      | None => None
      | Some (Exn, st1) => Some (Exn, st1)
      | Some (Ok _, st1) => collect_all rest st1
      end
  end.

(** [while future_to_kw]: at most [fuel] waits. *)
Fixpoint window (fuel : nat) (st : Buf) : option (res unit * Buf) :=
  match future_to_kw st with
  | [] => Some (Ok tt, st)
  | _ :: _ =>
      match fuel with
      | O => None
      | S fuel' =>
          let '(w1, positions) :=
              completed C (length (future_to_kw st)) (world (pool st)) in
          let done := done_of positions (future_to_kw st) in
          let st1 :=
              mkBuf (with_world w1 (pool st)) (kw_iter st) (future_to_kw st)
                (started st) (tracking_combined st) (flushes st) (log st) in
          match collect_all done st1 with
          | None => None
          | Some (Exn, st2) => Some (Exn, st2)
          | Some (Ok _, st2) => window fuel' st2
          end
      end
  end.

(** The branch of [run_letter] for a proxy list that is not empty, from
    the pending keywords and the rows of the tracking file; the executor
    refuses a number of workers that is not positive. *)
Definition buffer_mode (fuel : nat) (keywords : list string)
    (batch_size : Z) (existing_tracking : list tracking_row)
    (exc : option text) (w : World (net C)) : option (res unit * Buf) :=
  let exc := touch exc in
  let excluded := load_excluded_proxies exc in
  let st := mkBuf (mkPool w excluded exc []) keywords [] 0
              existing_tracking [] [] in
  if batch_size <=? 0 then Some (Exn, st)
  else
    match prime (Z.to_nat batch_size) st with
    | None => None
    | Some (Exn, st1) => Some (Exn, st1)
    | Some (Ok _, st1) => window fuel st1
    end.
End Buffer.
Arguments mkBuf {C} _ _ _ _ _ _ _.
Arguments pool {C} _.
Arguments kw_iter {C} _.
Arguments future_to_kw {C} _.
Arguments started {C} _.
Arguments tracking_combined {C} _.
Arguments flushes {C} _.
Arguments log {C} _.

End Buffer.

(** ** Vocabulary for the sliding window *)

Module BufferSpec.
Import Text Session Json Data Resume Proxies Buffer.

(** The workers started and the results collected, with their numbers; the
    keywords taken from the iterator; the keywords left aside. *)
Definition started_workers (log : list step) : list (nat * string) :=
  flat_map (fun e => match e with
                     | Submitted id kw _ => [(id, kw)]
                     | _ => []
                     end) log.

Definition collected (log : list step) : list (nat * string) :=
  flat_map (fun e => match e with
                     | Finished id kw => [(id, kw)]
                     | _ => []
                     end) log.

Definition taken (log : list step) : list string :=
  flat_map (fun e => match e with
                     | Submitted _ kw _ => [kw]
                     | Dropped kw => [kw]
                     | Finished _ _ => []
                     end) log.

Definition dropped (log : list step) : list string :=
  flat_map (fun e => match e with Dropped kw => [kw] | _ => [] end) log.

(** The proxies handed to workers. *)
Definition worker_proxies (log : list step) : list string :=
  flat_map (fun e => match e with
                     | Submitted _ _ proxy => [proxy]
                     | _ => []
                     end) log.

(** The number of workers in flight after the steps of [log]. *)
Definition in_flight (log : list step) : nat :=
  length (started_workers log) - length (collected log).

(** [P] holds after every step of the log. *)
Definition always (P : list step -> Prop) (log : list step) : Prop :=
  forall pre, pre `prefix_of` log -> P pre.

(** The last step started a worker. *)
Definition just_submitted (log : list step) : Prop :=
  match last log with
  | Some (Submitted _ _ _) => True
  | _ => False
  end.

(** A tracking row for the keyword [kw]. *)
Definition row_for (kw : string) (row : tracking_row) : Prop :=
  match row with
  | Row d => d !! "keyword"%string = Some (JStr kw)
  | NotAnObject => False
  end.

Section Window.
Context (C : Cluster) (all_proxies keywords : list string) (K : nat)
  (existing : list tracking_row).

(** The futures in flight, with the keyword of each. *)
Definition waiting (st : Buf C) : list (nat * string) :=
  map (fun f => (fst f, fst (snd f))) (future_to_kw st).

(** What holds of the variables of the branch between any two of its
    steps, for the pending [keywords], [K] workers and the rows [existing]
    of the tracking file. *)
Record coherent (st : Buf C) : Prop := mkCoherent {
  c_taken : taken (log st) ++ kw_iter st = keywords;
  c_perm : Permutation (waiting st ++ collected (log st))
             (started_workers (log st));
  c_ids : map fst (started_workers (log st)) = seq 0 (started st);
  c_slots :
    always (fun pre => (in_flight pre + length (dropped pre) <= K)%nat)
      (log st);
  c_rows :
    exists rows,
      tracking_combined st = existing ++ rows /\
      Forall2 row_for (map snd (collected (log st))) rows /\
      flushes st =
        map (fun n => existing ++ take n rows) (seq 1 (length rows));
  c_tested :
    Forall (fun p => In p all_proxies /\ In (p, true) (tests (pool st)))
      (worker_proxies (log st));
  c_dead :
    dropped (log st) <> [] ->
    Forall (fun p => p ∈ excluded (pool st)) all_proxies;
  c_order : always (fun pre => just_submitted pre -> dropped pre = []) (log st)
}.

(** Every slot is in use, unless the keywords ran out or one was left
    aside. *)
Definition settled (st : Buf C) : Prop :=
  kw_iter st = [] \/ dropped (log st) <> [] \/
  length (future_to_kw st) = K.

End Window.
Arguments waiting {C} _.

End BufferSpec.

(** ** The helper scripts [create_keywords.py] and [split_local_proxies.py] *)

Module Tools.
Import Text Proxies.

(** [string.digits + string.ascii_uppercase] *)
Definition CHARS : text := chars "0123456789ABCDEFGHIJKLMNOPQRSTUVWXYZ".

(** The keywords of one file of [create_keywords.py], in the order they
    are written: [product(CHARS, repeat=2)] runs through the last
    character fastest. *)
Definition keywords_of (first_char : ascii) : list string :=
  flat_map (fun mid =>
              map (fun last => string_of_list_ascii [first_char; mid; last])
                CHARS)
    CHARS.

(** The text of that file: every keyword and a line feed. *)
Definition keyword_file (first_char : ascii) : text :=
  concat (map (fun kw => chars kw ++ ["010"%char]) (keywords_of first_char)).

(** [main] of [create_keywords.py]: the files written, by name. *)
Definition create_keywords : list (string * text) :=
  map (fun first_char =>
         (string_of_list_ascii (first_char :: chars ".txt"),
          keyword_file first_char))
    CHARS.

(** [sep.join(parts)] *)
Fixpoint join (sep : text) (parts : list text) : text :=
  match parts with
  | [] => []
  | [p] => p
  | p :: rest => p ++ sep ++ join sep rest
  end.

(** [[line.strip() for line in text.splitlines() if line.strip()]] *)
Definition clean_lines (content : text) : list text :=
  List.filter (fun line => match line with [] => false | _ => true end)
    (map strip_text (splitlines content)).

(** [for i in range(1, num_parts + 1)] of [split_local_proxies.py], from
    the part [i] on with [n] parts to go: the lines of each part. *)
Fixpoint part_lines (lines : list text) (chunk_size remainder : nat)
    (start i n : nat) : list (list text) :=
  match n with
  | O => []
  | S n' =>
      let end_ := (start + chunk_size + (if (i <=? remainder)%nat then 1 else 0))%nat in
      firstn (end_ - start) (skipn start lines)
      :: part_lines lines chunk_size remainder end_ (S i) n'
  end.

(** The parts of the input file; [None] for the division by zero when
    [num_parts] is 0. *)
Definition split_lines (content : text) (num_parts : nat)
    : option (list (list text)) :=
  let lines := clean_lines content in
  let total := length lines in
  match num_parts with
  | O => None
  | _ =>
      let chunk_size := (total / num_parts)%nat in
      let remainder := (total mod num_parts)%nat in
      Some (part_lines lines chunk_size remainder 0 1 num_parts)
  end.

Definition num_parts : nat := 5.

(** The script: the part files written, by name. *)
Definition split_local_proxies (content : text)
    : option (list (string * text)) :=
  option_map
    (fun parts =>
       map (fun ip =>
              (("./local_proxies/proxies_part"
                ++ show_Z (Z.of_nat (S (fst ip))) ++ ".txt")%string,
               join ["010"%char] (snd ip)))
         (combine (seq 0 (length parts)) parts))
    (split_lines content num_parts).

End Tools.

(** * Theorems *)

(** ** Facts on text *)

Module TextFacts.
Import Text.

Lemma starts_with_spec needle hay :
  starts_with needle hay = true <-> exists post, hay = needle ++ post.
Proof.
  revert hay; induction needle as [|a n IH]; intros hay; simpl.
  - split; [intros _; now exists hay | reflexivity].
  - destruct hay as [|c h].
    + split; [discriminate | intros [post Hp]; discriminate].
    + rewrite andb_true_iff, IH, Ascii.eqb_eq. split.
      * intros [-> [post ->]]. now exists post.
      * intros [post Hp]. injection Hp as -> ->. split; [reflexivity | now exists post].
Qed.

(** Python's [needle in hay] is the existence of an occurrence. *)
Lemma contains_spec needle hay :
  contains needle hay = true <-> exists pre post, hay = pre ++ needle ++ post.
Proof.
  induction hay as [|c h IH]; simpl.
  - rewrite orb_false_r, starts_with_spec. split.
    + intros [post Hp]. now exists [], post.
    + intros (pre & post & Hp). destruct pre; [now exists post | discriminate].
  - rewrite orb_true_iff, starts_with_spec, IH. split.
    + intros [[post Hp] | (pre & post & ->)].
      * now exists [], post.
      * now exists (c :: pre), post.
    + intros (pre & post & Hp). destruct pre as [|c' pre].
      * left. now exists post.
      * injection Hp as -> ->. right. now exists pre, post.
Qed.

Lemma lower_app a b : lower (a ++ b) = lower a ++ lower b.
Proof. apply map_app. Qed.

Lemma in_all_ascii c : In c Pager.all_ascii.
Proof.
  unfold Pager.all_ascii. apply in_map_iff. exists (nat_of_ascii c). split.
  - apply ascii_nat_embedding.
  - apply in_seq. pose proof (nat_ascii_bounded c). lia.
Qed.

Lemma int_of_digits_snoc ds d :
  int_of_digits (ds ++ [d]) = 10 * int_of_digits ds + digit_val d.
Proof. unfold int_of_digits. now rewrite fold_left_app. Qed.

Lemma digit_char k :
  (k < 10)%nat ->
  is_digit (ascii_of_nat (48 + k)) = true
  /\ digit_val (ascii_of_nat (48 + k)) = Z.of_nat k.
Proof.
  intros Hk. do 10 (destruct k as [|k]; [now vm_compute|]). lia.
Qed.

Lemma dec_digits_S f n acc :
  dec_digits (S f) n acc =
    if n <? 10 then ascii_of_nat (48 + Z.to_nat (n mod 10)) :: acc
    else dec_digits f (n / 10) (ascii_of_nat (48 + Z.to_nat (n mod 10)) :: acc).
Proof. reflexivity. Qed.

Lemma dec_digits_spec fuel :
  forall n acc, 0 <= n < 10 ^ Z.of_nat (S fuel) ->
    exists ds, dec_digits (S fuel) n acc = ds ++ acc /\ ds <> []
               /\ forallb is_digit ds = true /\ int_of_digits ds = n.
Proof.
  induction fuel as [|f IH]; intros n acc Hn.
  all: rewrite dec_digits_S.
  all: assert (Hb : 0 <= n mod 10 < 10) by (apply Z.mod_pos_bound; lia).
  all: assert (Hm : (Z.to_nat (n mod 10) < 10)%nat) by lia.
  all: destruct (digit_char _ Hm) as [Hd Hv].
  all: rewrite Z2Nat.id in Hv by lia.
  all: generalize dependent (ascii_of_nat (48 + Z.to_nat (n mod 10))).
  all: intros d Hd Hv.
  all: destruct (Z.ltb_spec n 10) as [Hlt|Hge].
  1, 3: exists [d]; repeat split;
    [ discriminate
    | cbn [forallb]; now rewrite Hd
    | unfold int_of_digits; cbn [fold_left]; rewrite Hv;
      rewrite Z.mod_small by lia; lia ].
  - change (10 ^ Z.of_nat 1) with 10 in Hn. lia.
  - destruct (IH (n / 10) (d :: acc)) as (ds & Hds & Hne & Hall & Hint).
    { split; [apply Z.div_pos; lia|].
      apply Z.div_lt_upper_bound; [lia|].
      replace (Z.of_nat (S (S f))) with (Z.succ (Z.of_nat (S f))) in Hn by lia.
      rewrite Z.pow_succ_r in Hn by lia. lia. }
    exists (ds ++ [d]). repeat split.
    + rewrite Hds. now rewrite <- app_assoc.
    + destruct ds; discriminate.
    + rewrite forallb_app, Hall. cbn [forallb]. now rewrite Hd.
    + rewrite int_of_digits_snoc, Hint, Hv.
      pose proof (Z.div_mod n 10). lia.
Qed.

(** [dec n] is a non-empty string of digits that [int] reads back as [n]. *)
Lemma dec_spec n :
  0 <= n ->
  dec n <> [] /\ forallb is_digit (dec n) = true /\ int_of_digits (dec n) = n.
Proof.
  intros Hn. unfold dec.
  destruct (dec_digits_spec (Z.to_nat (Z.log2 n)) n []) as (ds & Hds & H1 & H2 & H3).
  - split; [lia|].
    rewrite Nat2Z.inj_succ, Z2Nat.id by apply Z.log2_nonneg.
    destruct (Z.eq_dec n 0) as [->|Hz]; [now vm_compute|].
    destruct (Z.log2_spec n) as [_ Hlt]; [lia|].
    eapply Z.lt_le_trans; [exact Hlt|].
    apply Z.pow_le_mono_l. lia.
  - rewrite app_nil_r in Hds. rewrite Hds. auto.
Qed.

End TextFacts.

(** ** The pager pattern and [parse_pager] *)

Module PagerFacts.
Import Text Pager TextFacts.

Section Combinators.
Context {R : Type}.
Implicit Types (k : text -> text -> option R) (cls : ascii -> bool).

Lemma lit_sound p : forall s (k1 : text -> option R) r,
  lit p s k1 = Some r ->
  exists w rest, s = w ++ rest /\ nocase p w /\ k1 rest = Some r.
Proof.
  induction p as [|a p IH]; intros s k1 r H; simpl in H.
  - exists [], s. repeat split; [constructor | assumption].
  - destruct s as [|c s]; [discriminate|].
    destruct (eq_nocase a c) eqn:E; [|discriminate].
    destruct (IH _ _ _ H) as (w & rest & -> & Hw & Hk).
    exists (c :: w), rest. repeat split; [now constructor | assumption].
Qed.

Lemma lit_complete p w : nocase p w -> forall rest (k1 : text -> option R),
  lit p (w ++ rest) k1 = k1 rest.
Proof.
  induction 1 as [|a c p w E _ IH]; intros rest k1; simpl; [reflexivity|].
  now rewrite E, IH.
Qed.

Lemma star_sound cls : forall s k r,
  star cls s k = Some r ->
  exists w rest, s = w ++ rest /\ forallb cls w = true /\ k w rest = Some r.
Proof.
  induction s as [|c s IH]; intros k r H; simpl in H.
  - now exists [], [].
  - destruct (cls c) eqn:E.
    + destruct (star cls s (fun run rest => k (c :: run) rest)) eqn:Es.
      * injection H as ->. destruct (IH _ _ Es) as (w & rest & -> & Hw & Hk).
        exists (c :: w), rest. simpl. now rewrite E.
      * now exists [], (c :: s).
    + now exists [], (c :: s).
Qed.

Lemma plus_sound cls s k r :
  plus cls s k = Some r ->
  exists w rest, s = w ++ rest /\ w <> [] /\ forallb cls w = true
                 /\ k w rest = Some r.
Proof.
  unfold plus. destruct s as [|c s]; [discriminate|].
  destruct (cls c) eqn:E; [|discriminate]. intros H.
  destruct (star_sound _ _ _ _ H) as (w & rest & -> & Hw & Hk).
  exists (c :: w), rest. simpl. rewrite E. now repeat split.
Qed.

(** The longest run is the first one handed to the continuation. *)
Lemma star_greedy cls w : forall rest k r,
  forallb cls w = true -> head_not cls rest -> k w rest = Some r ->
  star cls (w ++ rest) k = Some r.
Proof.
  induction w as [|c w IH]; intros rest k r Hw Hrest Hk; simpl in *.
  - destruct rest as [|c rest]; simpl; [assumption|].
    simpl in Hrest. now rewrite Hrest.
  - apply andb_true_iff in Hw as [Hc Hw]. rewrite Hc.
    now rewrite (IH rest (fun run rest0 => k (c :: run) rest0) r).
Qed.

Lemma plus_greedy cls w rest k r :
  w <> [] -> forallb cls w = true -> head_not cls rest ->
  k w rest = Some r -> plus cls (w ++ rest) k = Some r.
Proof.
  intros Hne Hw Hrest Hk. destruct w as [|c w]; [congruence|].
  simpl in *. apply andb_true_iff in Hw as [Hc Hw]. rewrite Hc.
  now apply star_greedy.
Qed.
End Combinators.

Lemma tok_sem_groups t w g :
  tok_sem t w g -> g = match t with Digits => [w] | _ => [] end.
Proof. now destruct 1. Qed.

(** Whatever the matcher returns is a match of the pattern. *)
Lemma match_tokens_sound p : forall s gs r,
  match_tokens p s gs = Some r ->
  exists w rest g, s = w ++ rest /\ pat_sem p w g /\ r = gs ++ g.
Proof.
  induction p as [|t p IH]; intros s gs r H; simpl in H.
  - injection H as <-. exists [], s, []. rewrite app_nil_r.
    repeat split. constructor.
  - destruct t.
    + destruct (lit_sound _ _ _ _ H) as (w1 & s1 & -> & Hw & Hk).
      destruct (IH _ _ _ Hk) as (w2 & rest & g & -> & Hp & ->).
      exists (w1 ++ w2), rest, ([] ++ g). rewrite <- app_assoc.
      repeat split. apply pat_cons; [now constructor | assumption].
    + destruct (plus_sound _ _ _ _ H) as (w1 & s1 & -> & Hne & Hw & Hk).
      destruct (IH _ _ _ Hk) as (w2 & rest & g & -> & Hp & ->).
      exists (w1 ++ w2), rest, ([] ++ g). rewrite <- app_assoc.
      repeat split. apply pat_cons; [now constructor | assumption].
    + destruct (star_sound _ _ _ _ H) as (w1 & s1 & -> & Hw & Hk).
      destruct (IH _ _ _ Hk) as (w2 & rest & g & -> & Hp & ->).
      exists (w1 ++ w2), rest, ([] ++ g). rewrite <- app_assoc.
      repeat split. apply pat_cons; [now constructor | assumption].
    + destruct (plus_sound _ _ _ _ H) as (w1 & s1 & -> & Hne & Hw & Hk).
      destruct (IH _ _ _ Hk) as (w2 & rest & g & -> & Hp & ->).
      exists (w1 ++ w2), rest, ([w1] ++ g). rewrite <- !app_assoc.
      repeat split. apply pat_cons; [now constructor | assumption].
Qed.

Lemma pat_sem_first p w g :
  pat_sem p w g ->
  match w with
  | [] => nullable p = true
  | c :: _ => can_start p c = true
  end.
Proof.
  induction 1 as [|t p w1 g1 w2 g2 Ht Hp IH]; [reflexivity|].
  destruct Ht as [q w1 Hq | w1 Hne Hw | w1 Hw | w1 Hne Hw].
  - destruct Hq as [|a c q w1 E Hq]; simpl; [exact IH | exact E].
  - destruct w1 as [|c w1]; [congruence|]. simpl in *.
    now apply andb_true_iff in Hw as [-> _].
  - destruct w1 as [|c w1]; simpl in *.
    + destruct w2; [exact IH|]. now rewrite IH, orb_true_r.
    + now apply andb_true_iff in Hw as [-> _].
  - destruct w1 as [|c w1]; [congruence|]. simpl in *.
    now apply andb_true_iff in Hw as [-> _].
Qed.

(** What follows a repetition does not begin in its class. *)
Lemma next_not_in_class t cls p w g rest :
  class_of t = Some cls ->
  separated (t :: p) = true -> tail_ok (t :: p) rest ->
  pat_sem p w g -> head_not cls (w ++ rest).
Proof.
  intros Hc Hsep [Htail _] Hp. cbn [separated] in Hsep.
  rewrite Hc in Hsep, Htail.
  apply andb_true_iff in Hsep as [Hsep _].
  pose proof (pat_sem_first _ _ _ Hp) as Hf.
  destruct w as [|c w]; simpl.
  - now rewrite Hf in Htail.
  - rewrite forallb_forall in Hsep. specialize (Hsep c (in_all_ascii c)).
    rewrite Hf, andb_true_r in Hsep. now destruct (cls c).
Qed.

(** On a separated pattern the matcher finds the match and its groups. *)
Lemma match_tokens_complete p w g :
  pat_sem p w g -> forall rest gs,
  separated p = true -> tail_ok p rest ->
  match_tokens p (w ++ rest) gs = Some (gs ++ g).
Proof.
  induction 1 as [|t p w1 g1 w2 g2 Ht Hp IH]; intros rest gs Hsep Htail.
  - simpl. now rewrite app_nil_r.
  - assert (Hsep' : separated p = true)
      by (simpl in Hsep; now apply andb_true_iff in Hsep as [_ ?]).
    assert (Htail' : tail_ok p rest) by (now destruct Htail).
    rewrite <- app_assoc.
    destruct Ht as [q w1 Hq | w1 Hne Hw | w1 Hw | w1 Hne Hw]; simpl.
    + rewrite lit_complete by assumption. now apply IH.
    + apply plus_greedy; try assumption.
      * eapply (next_not_in_class Spaces1); eauto.
      * now apply IH.
    + apply star_greedy; try assumption.
      * eapply (next_not_in_class Spaces0); eauto.
      * now apply IH.
    + apply plus_greedy; try assumption.
      * eapply (next_not_in_class Digits); eauto.
      * rewrite IH by assumption. now rewrite <- app_assoc.
Qed.

Lemma pager_pattern_separated : separated pager_pattern = true.
Proof. now vm_compute. Qed.

Lemma pager_pattern_tail_ok rest :
  head_not is_digit rest -> tail_ok pager_pattern rest.
Proof. intros H. simpl. tauto. Qed.

Lemma match_here_complete m X Y A B C post :
  pager_text m X Y A B C -> head_not is_digit post ->
  match_here (m ++ post) = Some [X; Y; A; B; C].
Proof.
  intros Hm Hpost. unfold match_here.
  apply (match_tokens_complete _ _ _ Hm post []).
  - apply pager_pattern_separated.
  - now apply pager_pattern_tail_ok.
Qed.

Lemma re_search_sound html gs :
  re_search html = Some gs -> has_match html.
Proof.
  induction html as [|c html IH]; cbn [re_search].
  - destruct (match_here []) as [g0|] eqn:E; [|discriminate]. intros _.
    destruct (match_tokens_sound _ _ _ _ E) as (w & rest & g & Hs & Hp & _).
    exists [], w, rest, g. now split.
  - destruct (match_here (c :: html)) as [g0|] eqn:E.
    + intros _.
      destruct (match_tokens_sound _ _ _ _ E) as (w & rest & g & Hs & Hp & _).
      exists [], w, rest, g. now split.
    + intros H. destruct (IH H) as (pre & m & post & g & -> & Hp).
      exists (c :: pre), m, post, g. now split.
Qed.

Lemma re_search_leftmost pre tail gs :
  no_earlier_match pre tail -> match_here tail = Some gs ->
  re_search (pre ++ tail) = Some gs.
Proof.
  induction pre as [|c pre IH]; intros Hno Hm.
  - cbn [app]. destruct tail; cbn [re_search]; now rewrite Hm.
  - cbn [app re_search]. destruct (match_here (c :: pre ++ tail)) eqn:E.
    + exfalso.
      destruct (match_tokens_sound _ _ _ _ E) as (w & rest & g & Hs & Hp & _).
      apply (Hno [] (c :: pre) w rest g); auto; discriminate.
    + apply IH; [|assumption].
      intros p1 p2 m post g Hpre Hne Heq.
      apply (Hno (c :: p1) p2 m post g); auto. now rewrite Hpre.
Qed.

(** A text in the shape of the pager line matches the pattern. *)
Lemma pager_text_intro kp w1 X w2 ko w3 Y w4 kr w5 A w6 kt w7 B w8 ko2 w9 C :
  nocase (chars "Page") kp -> nocase (chars "of") ko ->
  nocase (chars "records") kr -> nocase (chars "to") kt ->
  nocase (chars "of") ko2 ->
  Forall (fun w => w <> [] /\ forallb is_space w = true)
    [w1; w2; w3; w5; w6; w7; w8; w9] ->
  forallb is_space w4 = true ->
  Forall (fun d => d <> [] /\ forallb is_digit d = true) [X; Y; A; B; C] ->
  pager_text
    (kp ++ w1 ++ X ++ w2 ++ ko ++ w3 ++ Y ++ chars "," ++ w4 ++ kr ++ w5 ++ A
     ++ w6 ++ kt ++ w7 ++ B ++ w8 ++ ko2 ++ w9 ++ C ++ [])
    X Y A B C.
Proof.
  intros Hp Ho Hr Ht Ho2 Hw Hw4 Hd.
  repeat match goal with
         | H : Forall _ (_ :: _) |- _ => apply Forall_cons_iff in H as [[? ?] H]
         end.
  unfold pager_text, pager_pattern.
  apply (pat_cons (Lit _) _ kp []); [now constructor|].
  apply (pat_cons Spaces1 _ w1 []); [now constructor|].
  apply (pat_cons Digits _ X [X]); [now constructor|].
  apply (pat_cons Spaces1 _ w2 []); [now constructor|].
  apply (pat_cons (Lit _) _ ko []); [now constructor|].
  apply (pat_cons Spaces1 _ w3 []); [now constructor|].
  apply (pat_cons Digits _ Y [Y]); [now constructor|].
  apply (pat_cons (Lit _) _ (chars ",") []);
    [constructor; repeat constructor|].
  apply (pat_cons Spaces0 _ w4 []); [now constructor|].
  apply (pat_cons (Lit _) _ kr []); [now constructor|].
  apply (pat_cons Spaces1 _ w5 []); [now constructor|].
  apply (pat_cons Digits _ A [A]); [now constructor|].
  apply (pat_cons Spaces1 _ w6 []); [now constructor|].
  apply (pat_cons (Lit _) _ kt []); [now constructor|].
  apply (pat_cons Spaces1 _ w7 []); [now constructor|].
  apply (pat_cons Digits _ B [B]); [now constructor|].
  apply (pat_cons Spaces1 _ w8 []); [now constructor|].
  apply (pat_cons (Lit _) _ ko2 []); [now constructor|].
  apply (pat_cons Spaces1 _ w9 []); [now constructor|].
  apply (pat_cons Digits _ C [C] [] []); [now constructor|].
  constructor.
Qed.

Lemma pat_cons_eq t p w1 g1 w2 g2 w g :
  tok_sem t w1 g1 -> pat_sem p w2 g2 -> w = w1 ++ w2 -> g = g1 ++ g2 ->
  pat_sem (t :: p) w g.
Proof. intros Ht Hp -> ->. now apply pat_cons. Qed.

(** A match can be prolonged by the digits that follow it. *)
Lemma pat_sem_more_digits p : forall w g e,
  pat_sem (p ++ [Digits]) w g -> forallb is_digit e = true ->
  exists g', pat_sem (p ++ [Digits]) (w ++ e) g'.
Proof.
  induction p as [|t p IH]; intros w g e H He; simpl in *.
  - inversion H as [|t0 p0 w1 g1 w2 g2 Ht Hp]; subst.
    inversion Hp; subst. inversion Ht as [| | |w0 Hne Hw]; subst.
    rewrite app_nil_r. exists [w1 ++ e].
    apply (pat_cons_eq Digits [] (w1 ++ e) [w1 ++ e] [] []);
      [| constructor | now rewrite app_nil_r | reflexivity].
    constructor; [destruct w1; [congruence | discriminate]|].
    now rewrite forallb_app, Hw, He.
  - inversion H as [|t0 p0 w1 g1 w2 g2 Ht Hp]; subst.
    destruct (IH _ _ e Hp He) as [g' Hg'].
    exists (g1 ++ g'). rewrite <- app_assoc. now apply pat_cons.
Qed.

Lemma split_digits s :
  exists e rest, s = e ++ rest /\ forallb is_digit e = true
                 /\ head_not is_digit rest.
Proof.
  induction s as [|c s (e & rest & -> & He & Hr)].
  - now exists [], [].
  - destruct (is_digit c) eqn:E.
    + exists (c :: e), rest. simpl. now rewrite E.
    + now exists [], (c :: e ++ rest).
Qed.

(** The matcher fails at a position only if no match starts there. *)
Lemma match_here_none s m post gs :
  match_here s = None -> s = m ++ post -> ~ pat_sem pager_pattern m gs.
Proof.
  intros Hnone -> Hm.
  destruct (split_digits post) as (e & rest & -> & He & Hr).
  change pager_pattern with (removelast pager_pattern ++ [Digits]) in Hm.
  destruct (pat_sem_more_digits _ _ _ e Hm He) as [g' Hg'].
  change (removelast pager_pattern ++ [Digits]) with pager_pattern in Hg'.
  pose proof (match_tokens_complete _ _ _ Hg' rest []
                pager_pattern_separated (pager_pattern_tail_ok _ Hr)) as Hc.
  unfold match_here in Hnone. rewrite <- app_assoc in Hc. congruence.
Qed.

Lemma none_before_sound pre tail :
  none_before pre tail = true -> no_earlier_match pre tail.
Proof.
  induction pre as [|c pre IH]; intros H p1 p2 m post gs Hpre Hne Heq.
  - destruct p1, p2; try discriminate. congruence.
  - cbn [none_before app] in H.
    destruct (match_here (c :: pre ++ tail)) eqn:E; [discriminate|].
    destruct p1 as [|c1 p1]; simpl in Hpre.
    + subst p2. now apply (match_here_none _ m post gs E).
    + injection Hpre as -> ->. now apply (IH H p1 p2 m post gs).
Qed.

(** [parse_pager] on a text whose leftmost match reads X, Y, A, B, C. *)
Lemma parse_pager_first_match pre m post X Y A B C :
  pager_text m X Y A B C -> no_earlier_match pre (m ++ post) ->
  head_not is_digit post ->
  parse_pager (pre ++ m ++ post) =
    if (int_of_digits Y =? 0) || (int_of_digits C =? 0) then None
    else Some (mkPager (int_of_digits X) (int_of_digits Y) (int_of_digits A)
                 (int_of_digits B) (int_of_digits C)).
Proof.
  intros Hm Hno Hpost. unfold parse_pager.
  now rewrite (re_search_leftmost pre (m ++ post) [X; Y; A; B; C] Hno
                 (match_here_complete _ _ _ _ _ _ _ Hm Hpost)).
Qed.

Lemma render_pager_text x y a b c :
  0 <= x -> 0 <= y -> 0 <= a -> 0 <= b -> 0 <= c ->
  pager_text (render x y a b c) (dec x) (dec y) (dec a) (dec b) (dec c).
Proof.
  intros Hx Hy Ha Hb Hc.
  destruct (dec_spec x Hx) as (? & ? & _), (dec_spec y Hy) as (? & ? & _),
    (dec_spec a Ha) as (? & ? & _), (dec_spec b Hb) as (? & ? & _),
    (dec_spec c Hc) as (? & ? & _).
  pose proof (pager_text_intro (chars "Page") (chars " ") (dec x) (chars " ")
                (chars "of") (chars " ") (dec y) (chars " ") (chars "records")
                (chars " ") (dec a) (chars " ") (chars "to") (chars " ")
                (dec b) (chars " ") (chars "of") (chars " ") (dec c)) as H9.
  rewrite app_nil_r in H9. apply H9.
  1-5: repeat constructor.
  - repeat (constructor; [split; [discriminate | reflexivity]|]). constructor.
  - reflexivity.
  - repeat (constructor; [now split|]). constructor.
Qed.

(** C2: [parse_pager] returns [None] on every text that holds no match of
  the pattern "Page X of Y, records A to B of C" and on the all-zero
  placeholder; on a text whose leftmost match reads X, Y, A, B, C it
  returns [None] when Y or C is zero, and exactly the five integers when
  Y > 0 and C > 0. *)
Theorem parse_pager_spec :
  (forall html, ~ has_match html -> parse_pager html = None)
  /\ parse_pager (chars "Page 0 of 0, records 0 to 0 of 0") = None
  /\ (forall pre m post X Y A B C,
        pager_text m X Y A B C ->
        no_earlier_match pre (m ++ post) -> head_not is_digit post ->
        (int_of_digits Y = 0 \/ int_of_digits C = 0 ->
         parse_pager (pre ++ m ++ post) = None)
        /\ (0 < int_of_digits Y -> 0 < int_of_digits C ->
            parse_pager (pre ++ m ++ post) =
              Some (mkPager (int_of_digits X) (int_of_digits Y)
                      (int_of_digits A) (int_of_digits B) (int_of_digits C)))).
Proof.
  split; [|split].
  - intros html Hno. unfold parse_pager.
    destruct (re_search html) as [gs|] eqn:E; [|reflexivity].
    exfalso. apply Hno. now apply (re_search_sound html gs).
  - now vm_compute.
  - intros pre m post X Y A B C Hm Hno Hpost.
    rewrite (parse_pager_first_match _ _ _ _ _ _ _ _ Hm Hno Hpost). split.
    + intros [-> | ->]; [reflexivity | now rewrite orb_true_r].
    + intros HY HC.
      destruct (Z.eqb_spec (int_of_digits Y) 0); [lia|].
      destruct (Z.eqb_spec (int_of_digits C) 0); [lia|]. reflexivity.
Qed.

(** The pager line of a results page, inside its markup. *)
Lemma parse_pager_spec_witness :
  parse_pager (chars "<li>Page 2 of 5, records 26 to 50 of 105</li>")
  = Some (mkPager 2 5 26 50 105).
Proof.
  destruct parse_pager_spec as (_ & _ & H).
  destruct (H (chars "<li>") (render 2 5 26 50 105) (chars "</li>")
              (chars "2") (chars "5") (chars "26") (chars "50") (chars "105"))
    as [_ Hsome].
  - apply (render_pager_text 2 5 26 50 105); lia.
  - apply none_before_sound. now vm_compute.
  - reflexivity.
  - apply Hsome; reflexivity.
Defined.

(** C9: [parse_pager] checks nothing beyond the two totals being non-zero:
  whatever the five numbers of a pager line are, with Y and C non-zero, it
  returns them unchanged, also when the page X exceeds the total Y or the
  first record A exceeds the last record B. *)
Theorem parse_pager_no_cross_check x y a b c :
  0 <= x -> 0 < y -> 0 <= a -> 0 <= b -> 0 < c ->
  parse_pager (render x y a b c) = Some (mkPager x y a b c).
Proof.
  intros Hx Hy Ha Hb Hc.
  pose proof (parse_pager_first_match [] (render x y a b c) []
                _ _ _ _ _
                (render_pager_text x y a b c Hx ltac:(lia) Ha Hb ltac:(lia)))
    as H.
  rewrite app_nil_r in H. simpl app in H. rewrite H.
  - destruct (dec_spec x Hx) as (_ & _ & ->).
    destruct (dec_spec y ltac:(lia)) as (_ & _ & ->).
    destruct (dec_spec a Ha) as (_ & _ & ->).
    destruct (dec_spec b Hb) as (_ & _ & ->).
    destruct (dec_spec c ltac:(lia)) as (_ & _ & ->).
    destruct (Z.eqb_spec y 0); [lia|]. destruct (Z.eqb_spec c 0); [lia|].
    reflexivity.
  - intros p1 p2 m post gs Hp Hne. destruct p1, p2; try discriminate.
    congruence.
  - exact I.
Qed.

(** Page 7 of 3 and records 50 to 10 are handed back as they stand. *)
Lemma parse_pager_no_cross_check_witness :
  parse_pager (chars "Page 7 of 3, records 50 to 10 of 5")
  = Some (mkPager 7 3 50 10 5)
  /\ (total_pages (mkPager 7 3 50 10 5) < page (mkPager 7 3 50 10 5))
  /\ (end_ (mkPager 7 3 50 10 5) < start (mkPager 7 3 50 10 5)).
Proof.
  split; [|split; reflexivity].
  apply (parse_pager_no_cross_check 7 3 50 10 5); lia.
Defined.

End PagerFacts.

(** ** Running a computation step by step *)

Module SessionFacts.
Import Text Session.

Section Steps.
Context (D : Driver).
Context {A B : Type}.
Local Abbreviation M := (@M (St D)).
Implicit Types (s : St D) (f : A -> M B).

Lemma bind_ret (a : A) f s : bind (ret a) f s = f a s.
Proof. unfold bind, ret. now destruct (f a s) as [[r s2] t2]. Qed.

Lemma bind_raise f s : bind (@raise _ A) f s = (Exn, s, []).
Proof. reflexivity. Qed.

Lemma bind_get (f : St D -> M B) s : bind get f s = f s s.
Proof. unfold bind, get. now destruct (f s s) as [[r s2] t2]. Qed.

Lemma bind_present sel (f : bool -> M B) s :
  bind (present D sel) f s = f (is_element_present D sel s) s.
Proof.
  unfold bind, present.
  now destruct (f (is_element_present D sel s) s) as [[r s2] t2].
Qed.

Lemma bind_emit e (f : unit -> M B) s :
  bind (emit e) f s = let '(r, s2, t2) := f tt s in (r, s2, e :: t2).
Proof. reflexivity. Qed.

Lemma bind_sleep n (f : unit -> M B) s :
  bind (do_sleep D n) f s =
    let '(r, s2, t2) := f tt (sleep D n s) in (r, s2, EvSleep n :: t2).
Proof. reflexivity. Qed.

Lemma bind_do a (f : unit -> M B) s :
  bind (do_ D a) f s =
    if snd (perform D a s)
    then let '(r, s2, t2) := f tt (fst (perform D a s)) in
         (r, s2, EvAct a s :: t2)
    else (Exn, fst (perform D a s), [EvAct a s]).
Proof.
  unfold bind, do_. now destruct (perform D a s) as [s1 []].
Qed.

Lemma bind_run_js j (f : jsval -> M B) s :
  bind (run_js D j) f s =
    match snd (execute_script D j s) with
    | Some v =>
        let '(r, s2, t2) := f v (fst (execute_script D j s)) in
        (r, s2, EvScript j s :: t2)
    | None => (Exn, fst (execute_script D j s), [EvScript j s])
    end.
Proof.
  unfold bind, run_js. now destruct (execute_script D j s) as [s1 [v|]].
Qed.

Lemma bind_mute (m : M A) f s :
  bind (mute m) f s =
    match fst (fst (m s)) with
    | Ok a => f a (snd (fst (m s)))
    | Exn => (Exn, snd (fst (m s)), [])
    end.
Proof.
  unfold bind, mute. destruct (m s) as [[[a|] s1] t1]; simpl; [|reflexivity].
  now destruct (f a s1) as [[r s2] t2].
Qed.

Lemma bind_page_source (f : text -> M B) s :
  bind (page_source D) f s =
    match get_page_source D s with
    | Some h => f h s
    | None => (Exn, s, [])
    end.
Proof.
  unfold bind, page_source. destruct (get_page_source D s) as [h|]; [|reflexivity].
  now destruct (f h s) as [[r s2] t2].
Qed.

End Steps.

Section Emits.
Context (D : Driver) (P : event (St D) -> Prop).
Local Abbreviation M := (@M (St D)).

Lemma emits_ret {A} (a : A) : Spec.emits P (ret a : M A).
Proof. intros s. constructor. Qed.

Lemma emits_raise {A} : Spec.emits P (raise : M A).
Proof. intros s. constructor. Qed.

Lemma emits_get : Spec.emits P (get : M (St D)).
Proof. intros s. constructor. Qed.

Lemma emits_present sel : Spec.emits P (present D sel).
Proof. intros s. constructor. Qed.

Lemma emits_page_source : Spec.emits P (page_source D).
Proof.
  intros s. unfold Spec.trace_of, page_source.
  destruct (get_page_source D s); constructor.
Qed.

Lemma emits_mute {A} (m : M A) : Spec.emits P (mute m).
Proof.
  intros s. unfold Spec.trace_of, mute.
  destruct (m s) as [[r s1] t1]. constructor.
Qed.

Lemma emits_emit e : P e -> Spec.emits P (emit e).
Proof. intros He s. now repeat constructor. Qed.

Lemma emits_do a : (forall s, P (EvAct a s)) -> Spec.emits P (do_ D a).
Proof.
  intros Ha s. unfold Spec.trace_of, do_. destruct (perform D a s) as [s1 ok].
  now repeat constructor.
Qed.

Lemma emits_run_js j :
  (forall s, P (EvScript j s)) -> Spec.emits P (run_js D j).
Proof.
  intros Hj s. unfold Spec.trace_of, run_js.
  destruct (execute_script D j s) as [s1 [v|]]; now repeat constructor.
Qed.

Lemma emits_sleep n : P (EvSleep n) -> Spec.emits P (do_sleep D n).
Proof. intros Hn s. now repeat constructor. Qed.

Lemma emits_bind {A B} (m : M A) (f : A -> M B) :
  Spec.emits P m -> (forall a, Spec.emits P (f a)) -> Spec.emits P (bind m f).
Proof.
  intros Hm Hf s. specialize (Hm s). unfold Spec.trace_of, bind in *.
  destruct (m s) as [[[a|] s1] t1]; [|exact Hm].
  specialize (Hf a s1). unfold Spec.trace_of in Hf.
  destruct (f a s1) as [[r s2] t2]. apply Forall_app. now split.
Qed.

Lemma emits_catch {A} (m h : M A) :
  Spec.emits P m -> Spec.emits P h -> Spec.emits P (catch m h).
Proof.
  intros Hm Hh s. specialize (Hm s). unfold Spec.trace_of, catch in *.
  destruct (m s) as [[[a|] s1] t1]; [exact Hm|].
  specialize (Hh s1). unfold Spec.trace_of in Hh.
  destruct (h s1) as [[r s2] t2]. apply Forall_app. now split.
Qed.

End Emits.

Lemma mute_run {S A} (m : @Session.M S A) s :
  mute m s = (fst (fst (m s)), snd (fst (m s)), []).
Proof. unfold mute. now destruct (m s) as [[r s1] t1]. Qed.

Lemma bind_assoc {S A B C} (m : @Session.M S A) (f : A -> Session.M B)
    (g : B -> Session.M C) s :
  bind (bind m f) g s = bind m (fun a => bind (f a) g) s.
Proof.
  unfold bind. destruct (m s) as [[[a|] s1] t1]; [|reflexivity].
  destruct (f a s1) as [[[b|] s2] t2]; [|reflexivity].
  destruct (g b s2) as [[r s3] t3]. now rewrite app_assoc.
Qed.

End SessionFacts.

(** ** Challenge handling *)

Module ChallengeFacts.
Import Text Session Challenge Spec TextFacts Examples.

Lemma lower_occurrence word html :
  contains (chars word) (lower html) = true <-> mentions word html.
Proof.
  rewrite contains_spec. unfold mentions, lower. split.
  - intros (pre & post & H).
    apply map_eq_app in H as (pre' & rest & -> & <- & H).
    apply map_eq_app in H as (w & post' & -> & Hw & <-).
    now exists pre', w, post'.
  - intros (pre & w & post & -> & Hw).
    exists (map lower_char pre), (map lower_char post).
    now rewrite !map_app, <- Hw.
Qed.

(** C10: [handle_cloudflare_if_present] reports a challenge exactly when the
  page source mentions "turnstile" or "cloudflare" in any mix of case, and
  reports none when reading the page source raises. *)
Theorem challenge_detection_is_substring_test (D : Driver) (s : St D) :
  exists b,
    fst (fst (handle_cloudflare_if_present D s)) = Ok b
    /\ (b = true <->
        exists html, get_page_source D s = Some html
                     /\ (mentions "turnstile" html \/ mentions "cloudflare" html))
    /\ (get_page_source D s = None -> b = false).
Proof.
  unfold handle_cloudflare_if_present, bind, catch, page_source, ret.
  destruct (get_page_source D s) as [html|] eqn:Hsrc.
  - exists (challenge_words (lower html)). split; [|split].
    + destruct (challenge_words (lower html)); reflexivity.
    + unfold challenge_words. rewrite orb_true_iff, !lower_occurrence. split.
      * intros H. now exists html.
      * intros (h & Hh & H). now injection Hh as ->.
    + discriminate.
  - exists false. split; [|split].
    + reflexivity.
    + split; [discriminate | intros (h & Hh & _); discriminate].
    + reflexivity.
Qed.

Section Waiting.
Context (D : Driver).

Lemma challenge_poll_spec n : forall s,
  exists k, (k <= n)%nat
    /\ ReturnNav.challenge_poll D n s
       = (Ok tt, Nat.iter k (sleep D 1) s, repeat (EvSleep 1) k)
    /\ (forall j, (j < k)%nat ->
          ReturnNav.challenge_widget D (Nat.iter j (sleep D 1) s) = true)
    /\ ((k < n)%nat ->
        ReturnNav.challenge_widget D (Nat.iter k (sleep D 1) s) = false).
Proof.
  induction n as [|n IH]; intros s.
  - exists 0%nat. repeat split; [lia | intros j Hj; lia | intros Hk; lia].
  - cbn [ReturnNav.challenge_poll]. rewrite SessionFacts.bind_get.
    destruct (ReturnNav.challenge_widget D s) eqn:E; cbn [negb].
    + rewrite SessionFacts.bind_sleep.
      destruct (IH (sleep D 1 s)) as (k & Hk & Hrun & Hbusy & Hfree).
      exists (S k). rewrite Hrun. rewrite Nat.iter_succ_r.
      split; [lia|]. split; [reflexivity|]. split.
      * intros [|j] Hj; [exact E|]. rewrite Nat.iter_succ_r. apply Hbusy. lia.
      * intros Hlt. apply Hfree. lia.
    + exists 0%nat. repeat split; [lia | intros j Hj; lia | intros _; exact E].
Qed.

End Waiting.

(** C6, as the code has it: [handle_cloudflare_if_present] takes no waiting
    budget and does not poll.  It reads the page source once; when the text
    mentions a challenge it sleeps 8 s and 1 s and returns [True], whether or
    not the challenge cleared; otherwise it returns [False] at once.  The
    [handle_cloudflare] nested in [click_back_with_cf] polls the widget once
    a second for at most 300 rounds, stops at the first round that finds the
    widget gone, and returns nothing. *)
Theorem challenge_wait_is_fixed (D : Driver) (s : St D) :
  (let b := challenge_words
              (lower (default [] (get_page_source D s))) in
   handle_cloudflare_if_present D s
   = (Ok b,
      if b then sleep D 1 (sleep D 8 s) else s,
      if b then [EvSleep 8; EvSleep 1] else []))
  /\ (exists k, (k <= 300)%nat
        /\ ReturnNav.handle_cloudflare D s
           = (Ok tt, Nat.iter k (sleep D 1) s, repeat (EvSleep 1) k)
        /\ (forall j, (j < k)%nat ->
              ReturnNav.challenge_widget D (Nat.iter j (sleep D 1) s) = true)
        /\ ((k < 300)%nat ->
            ReturnNav.challenge_widget D (Nat.iter k (sleep D 1) s) = false)).
Proof.
  split.
  - unfold handle_cloudflare_if_present, bind, catch, page_source, ret.
    destruct (get_page_source D s) as [html|]; cbn [default].
    + unfold id. now destruct (challenge_words (lower html)).
    + reflexivity.
  - unfold ReturnNav.handle_cloudflare. rewrite SessionFacts.bind_get.
    destruct (ReturnNav.challenge_widget D s) eqn:E.
    + apply challenge_poll_spec.
    + exists 0%nat. repeat split; [lia | intros j Hj; lia | intros _; exact E].
Qed.

(** C6, as stated, fails: on a page that shows the challenge for good the
    handler returns [True], not [False], after 9 s, not 5 s; and the nested
    wait of [click_back_with_cf] gives up after 300 s without a verdict. *)
Lemma await_clear_counterexample :
  let D := stack_driver no_failure in
  let s := [challenge_page] in
  (forall secs, get_page_source D (Nat.iter secs (sleep D 1) s)
                = get_page_source D s)
  /\ fst (fst (handle_cloudflare_if_present D s)) = Ok true
  /\ elapsed (snd (handle_cloudflare_if_present D s)) = 9%nat
  /\ fst (fst (ReturnNav.handle_cloudflare D s)) = Ok tt
  /\ elapsed (snd (ReturnNav.handle_cloudflare D s)) = 300%nat.
Proof.
  cbv zeta. split; [|now vm_compute].
  intros secs. induction secs as [|secs IH]; [reflexivity | exact IH].
Qed.

End ChallengeFacts.

(** ** Returning to the results grid *)

Module ReturnNavFacts.
Import Text Session ReturnNav Spec SessionFacts.

Section Traces.
Context (D : Driver).
Implicit Types (t : list (event (St D))) (s : St D).

Lemma chain_app prev t1 t2 : chain prev t1 -> wf t2 -> chain prev (t1 ++ t2).
Proof.
  revert prev. induction t1 as [|e t1 IH]; intros prev H1 H2; simpl in *.
  - apply H2.
  - destruct H1 as [He H1]. split; [assumption | now apply IH].
Qed.

Lemma wf_app t1 t2 : wf t1 -> wf t2 -> wf (t1 ++ t2).
Proof. intros H1 H2 prev. apply chain_app; [apply H1 | assumption]. Qed.

Lemma wf_nil : wf (@nil (event (St D))).
Proof. intros prev. exact I. Qed.

Lemma wf_cons e t :
  (forall s, e <> EvScript JsHistoryBack s) -> wf t -> wf (e :: t).
Proof.
  intros He Ht prev. simpl. split; [|apply Ht].
  destruct e as [| [] s0 | | |]; try exact I. now destruct (He s0).
Qed.

(** A probe that did not see the search form, then the back step. *)
Lemma wf_guarded_back s t :
  wf t ->
  wf (EvProbe ReachedAdvancedSearch s false :: EvScript JsHistoryBack s :: t).
Proof. intros Ht prev. simpl. repeat split. apply Ht. Qed.

Lemma faithful_app t1 t2 : faithful D t1 -> faithful D t2 -> faithful D (t1 ++ t2).
Proof. intros H1 H2. apply Forall_app. now split. Qed.

Lemma clean_app t1 t2 : clean t1 -> clean t2 -> clean (t1 ++ t2).
Proof. intros H1 H2. apply Forall_app. now split. Qed.

Lemma good_intro {A} (stopv : A) r s t :
  faithful D t -> wf t -> outcome_ok stopv r s t -> good D stopv (r, s, t).
Proof. intros Hf Hw Ho. split; [|split]; assumption. Qed.

Lemma good_prefix {A} (stopv : A) t1 r s t2 :
  faithful D t1 -> wf t1 -> clean t1 ->
  good D stopv (r, s, t2) -> good D stopv (r, s, t1 ++ t2).
Proof.
  intros Hf Hw Hc (Hf2 & Hw2 & Ho). apply good_intro.
  - now apply faithful_app.
  - now apply wf_app.
  - destruct Ho as [r s t Hc2 | s t0 Hc0].
    + apply oc_clean. now apply clean_app.
    + rewrite app_assoc. apply oc_stop. now apply clean_app.
Qed.

Lemma good_clean {A} (stopv : A) r s t :
  faithful D t -> wf t -> clean t -> good D stopv (r, s, t).
Proof. intros Hf Hw Hc. apply good_intro; try assumption. now apply oc_clean. Qed.

Lemma probe_event_ok p s :
  faithful D [EvProbe p s (eval_probe D p s)]
  /\ wf [EvProbe p s (eval_probe D p s)].
Proof.
  split.
  - repeat constructor.
  - apply wf_cons; [discriminate | apply wf_nil].
Qed.

Lemma sleep_event_ok n :
  faithful D [EvSleep n] /\ wf [@EvSleep (St D) n] /\ clean [@EvSleep (St D) n].
Proof.
  split; [|split].
  - repeat constructor.
  - apply wf_cons; [discriminate | apply wf_nil].
  - repeat constructor.
Qed.

(** The ten-round wait stops at the first sight of the search form. *)
Lemma wait_for_results_good n : forall s,
  good D (Some false) (wait_for_results D n s).
Proof.
  induction n as [|n IH]; intros s.
  - apply good_clean; [constructor | apply wf_nil | constructor].
  - cbn [wait_for_results]. unfold bind at 1. unfold ask at 1.
    destruct (eval_probe D OnSearchResults s) eqn:E1.
    + cbn. apply good_clean.
      * repeat constructor. now rewrite E1.
      * apply wf_cons; [discriminate | apply wf_nil].
      * repeat constructor.
    + unfold bind at 1. unfold ask at 1.
      destruct (eval_probe D ReachedAdvancedSearch s) eqn:E2.
      * cbn. apply good_intro.
        -- repeat constructor; now rewrite ?E1, ?E2.
        -- do 2 (apply wf_cons; [discriminate|]). apply wf_nil.
        -- apply (oc_stop (Some false) s [EvProbe OnSearchResults s false]).
           repeat constructor.
      * unfold bind at 1. unfold do_sleep at 1.
        specialize (IH (sleep D 1 s)).
        destruct (wait_for_results D n (sleep D 1 s)) as [[r s'] t].
        change (good D (Some false)
                  (r, s', [EvProbe OnSearchResults s false;
                           EvProbe ReachedAdvancedSearch s false;
                           EvSleep 1] ++ t)).
        apply good_prefix; try assumption.
        -- repeat constructor; now rewrite ?E1, ?E2.
        -- do 3 (apply wf_cons; [discriminate|]). apply wf_nil.
        -- repeat constructor.
Qed.

Lemma good_cons {A} (stopv : A) e (x : res A * St D * list (event (St D))) :
  faithful D [e] -> (forall s, e <> EvScript JsHistoryBack s) ->
  overshoot e = false ->
  good D stopv x -> good D stopv (let '(r, s, t) := x in (r, s, e :: t)).
Proof.
  intros Hf Hb Ho. destruct x as [[r s] t]. intros H.
  apply (good_prefix stopv [e]); try assumption.
  - apply wf_cons; [assumption | apply wf_nil].
  - now repeat constructor.
Qed.

Lemma good_probe {A} (stopv : A) p b s (x : res A * St D * list (event (St D))) :
  b = eval_probe D p s -> (p = ReachedAdvancedSearch -> b = false) ->
  good D stopv x ->
  good D stopv (let '(r, s1, t) := x in (r, s1, EvProbe p s b :: t)).
Proof.
  intros Hb Hp. apply good_cons.
  - now repeat constructor.
  - discriminate.
  - destruct p; try reflexivity. now rewrite Hp.
Qed.

Lemma good_sleep {A} (stopv : A) n (x : res A * St D * list (event (St D))) :
  good D stopv x ->
  good D stopv (let '(r, s1, t) := x in (r, s1, EvSleep n :: t)).
Proof. apply good_cons; [repeat constructor | discriminate | reflexivity]. Qed.

Lemma good_exn {A} (stopv : A) s t :
  faithful D t -> wf t -> clean t -> good D stopv (Exn, s, t).
Proof. apply good_clean. Qed.

Lemma good_ret {A} (stopv : A) (v : A) s : good D stopv (ret v s).
Proof. apply good_clean; [constructor | apply wf_nil | constructor]. Qed.

(** Step 2 of [click_back_with_cf]. *)
Lemma back_button_step_good s : good D (Some false) (back_button_step D s).
Proof.
  unfold back_button_step, ask. unfold bind at 1.
  destruct (eval_probe D OnBusinessInfo s) eqn:E.
  - apply (good_probe (Some false) OnBusinessInfo true s);
      [now rewrite E | discriminate |].
    unfold catch. rewrite bind_present.
    destruct (is_element_present D "css=button.btn-back" s).
    + rewrite bind_do. destruct (perform D _ s) as [s1 [|]]; cbn [fst snd].
      * rewrite bind_sleep.
        pose proof (wait_for_results_good 10 (sleep D 5 s1)) as Hw.
        destruct (wait_for_results D 10 (sleep D 5 s1)) as [[[o|] s2] t2].
        -- apply (good_cons (Some false) (EvAct _ s) (Ok o, s2, EvSleep 5 :: t2));
             [repeat constructor | discriminate | reflexivity |].
           now apply (good_sleep (Some false) 5 (Ok o, s2, t2)).
        -- unfold ret. rewrite app_nil_r. destruct Hw as (Hf & Hwf & Ho).
           apply good_clean.
           ++ apply (faithful_app [_; _] t2); [repeat constructor | exact Hf].
           ++ apply (wf_app [_; _] t2); [|exact Hwf].
              do 2 (apply wf_cons; [discriminate|]). apply wf_nil.
           ++ inversion Ho; subst.
              apply (clean_app [_; _] t2); [repeat constructor | assumption].
      * apply good_clean.
        -- repeat constructor.
        -- apply wf_cons; [discriminate | apply wf_nil].
        -- repeat constructor.
    + apply good_ret.
  - apply (good_probe (Some false) OnBusinessInfo false s (ret None s));
      [now rewrite E | discriminate | apply good_ret].
Qed.

Lemma bind_ask {B} p (f : bool -> M B) s :
  bind (ask D p) f s =
    let '(r, s2, t2) := f (eval_probe D p s) s in
    (r, s2, EvProbe p s (eval_probe D p s) :: t2).
Proof. reflexivity. Qed.

(** Sequencing after a part that may have returned at the search form. *)
Lemma good_bind_stop {B} (stopB : B) (m : M (option bool))
    (f : option bool -> M B) s :
  good D (Some false) (m s) ->
  (forall s', f (Some false) s' = (Ok stopB, s', [])) ->
  (forall o s', o <> Some false -> good D stopB (f o s')) ->
  good D stopB (bind m f s).
Proof.
  intros Hm Hstop Hnext. unfold bind.
  destruct (m s) as [[[o|] s1] t1]; destruct Hm as (Hf & Hw & Ho).
  - assert (Hfo : good D stopB (f o s1)).
    { destruct (decide (o = Some false)) as [->|Hne].
      - rewrite Hstop. apply good_clean; [constructor | apply wf_nil | constructor].
      - now apply Hnext. }
    inversion Ho as [r0 s0 t0 Hc | s0 t0 Hc]; subst.
    + destruct (f o s1) as [[r s2] t2]. now apply good_prefix.
    + rewrite Hstop, app_nil_r. apply good_intro; try assumption.
      now apply oc_stop.
  - inversion Ho; subst. now apply good_exn.
Qed.

(** The guarded back step. *)
Lemma good_guarded_back {A} (stopv : A) s
    (x : res A * St D * list (event (St D))) :
  reached_advanced_search D s = false ->
  good D stopv x ->
  good D stopv
    (let '(r, s1, t) := x in
     (r, s1, EvProbe ReachedAdvancedSearch s false
             :: EvScript JsHistoryBack s :: t)).
Proof.
  intros E. destruct x as [[r s1] t]. intros H.
  apply (good_prefix stopv [_; _]); try assumption.
  - repeat constructor. now rewrite <- E.
  - apply wf_guarded_back, wf_nil.
  - repeat constructor.
Qed.

(** What follows a back step: the settle delay, the wait, the next step. *)
Lemma after_back_good k (next : M (option bool)) s :
  (forall s', good D (Some false) (next s')) ->
  good D (Some false)
    (bind (do_sleep D k)
       (fun _ => bind (wait_for_results D 10)
                   (fun w => match w with
                             | Some b => ret (Some b)
                             | None => next
                             end)) s).
Proof.
  intros Hnext. rewrite bind_sleep. apply good_sleep. apply good_bind_stop.
  - apply wait_for_results_good.
  - reflexivity.
  - intros [b|] s' Hne; [apply good_ret | apply Hnext].
Qed.

(** Step 3 of [click_back_with_cf]. *)
Lemma history_steps_good steps : forall s,
  good D (Some false) (history_steps D steps s).
Proof.
  induction steps as [|step rest IH]; intros s.
  - apply good_ret.
  - cbn [history_steps]. rewrite bind_mute.
    destruct (fst (fst (handle_cloudflare D s))) as [[]|];
      [|apply good_exn; [constructor | apply wf_nil | constructor]].
    set (s1 := snd (fst (handle_cloudflare D s))). clearbody s1.
    rewrite bind_ask. destruct (eval_probe D OnSearchResults s1) eqn:E1.
    { apply (good_probe _ OnSearchResults true s1 (ret (Some true) s1));
        [now rewrite E1 | discriminate | apply good_ret]. }
    apply good_probe; [now rewrite E1 | discriminate |].
    rewrite bind_ask. destruct (eval_probe D ReachedAdvancedSearch s1) eqn:E2.
    { apply good_intro.
      - repeat constructor. now rewrite E2.
      - apply wf_cons; [discriminate | apply wf_nil].
      - apply (oc_stop (Some false) s1 []). constructor. }
    rewrite bind_run_js.
    destruct (execute_script D JsHistoryBack s1) as [s2 [v|]]; cbn [fst snd].
    + pose proof (after_back_good (if Nat.eqb step 0 then 3 else 12)%nat
                    (history_steps D rest) s2 IH) as HG.
      destruct (bind (do_sleep D _) _ s2) as [[r s3] t3].
      exact (good_guarded_back _ s1 (r, s3, t3) E2 HG).
    + apply (good_guarded_back _ s1 (Exn, s2, [])); [exact E2|].
      apply good_exn; [constructor | apply wf_nil | constructor].
Qed.

(** [click_back_with_cf] from its first probe on. *)
Lemma after_modal_good s :
  good D false
    (bind (ask D OnSearchResults)
       (fun r => if r then ret true
                 else bind (back_button_step D)
                   (fun o => match o with
                             | Some b => ret b
                             | None =>
                                 bind (history_steps D (seq 0 3))
                                   (fun o => match o with
                                             | Some b => ret b
                                             | None => ask D OnSearchResults
                                             end)
                             end)) s).
Proof.
  rewrite bind_ask. destruct (eval_probe D OnSearchResults s) eqn:E1.
  { apply (good_probe _ OnSearchResults true s (ret true s));
      [now rewrite E1 | discriminate | apply good_ret]. }
  apply good_probe; [now rewrite E1 | discriminate |].
  apply good_bind_stop.
  - apply back_button_step_good.
  - reflexivity.
  - intros [b|] s2 Hne; [apply good_ret|].
    apply good_bind_stop.
    + apply history_steps_good.
    + reflexivity.
    + intros [b|] s3 Hne3; [apply good_ret|].
      unfold ask. apply good_clean.
      * repeat constructor.
      * apply wf_cons; [discriminate | apply wf_nil].
      * repeat constructor.
Qed.

(** [click_back_with_cf] as a whole. *)
Lemma click_back_with_cf_good s : good D false (click_back_with_cf D s).
Proof.
  unfold click_back_with_cf. rewrite bind_present.
  destruct (is_element_present D "css=.modal-dialog" s).
  - cbv iota. rewrite bind_assoc, bind_mute.
    destruct (fst (fst (close_any_modal D s)));
      [|apply good_exn; [constructor | apply wf_nil | constructor]].
    rewrite bind_sleep. apply good_sleep. apply after_modal_good.
  - cbv iota. rewrite bind_ret. apply after_modal_good.
Qed.

Lemma clean_no_overshoot t pre e post :
  clean t -> t = pre ++ e :: post -> overshoot e = false.
Proof.
  intros Hc ->. apply Forall_app in Hc as [_ Hc].
  now apply Forall_cons_iff in Hc as [He _].
Qed.

(** An overshoot in a trace that is clean up to its last step is that last
    step. *)
Lemma overshoot_is_last t0 x pre e post :
  clean t0 -> overshoot e = true -> t0 ++ [x] = pre ++ e :: post ->
  pre = t0 /\ post = [] /\ e = x.
Proof.
  intros Hc He Heq.
  destruct post as [|z post _] using rev_ind.
  - apply app_inj_tail in Heq as [-> ->]. auto.
  - exfalso. rewrite app_comm_cons, app_assoc in Heq.
    apply app_inj_tail in Heq as [-> _].
    rewrite (clean_no_overshoot _ pre e post Hc eq_refl) in He. discriminate.
Qed.

Lemma chain_back prev pre s post :
  chain prev (pre ++ EvScript JsHistoryBack s :: post) ->
  (pre = [] /\ prev = Some (EvProbe ReachedAdvancedSearch s false))
  \/ exists pre', pre = pre' ++ [EvProbe ReachedAdvancedSearch s false].
Proof.
  revert prev. induction pre as [|e pre IH]; intros prev H; simpl in H.
  - left. now destruct H as [-> _].
  - right. destruct H as [_ H]. destruct (IH _ H) as [[-> Hp] | [pre' ->]].
    + injection Hp as ->. now exists [].
    + now exists (e :: pre').
Qed.

End Traces.



End ReturnNavFacts.

(** ** The search form: three attempts *)

Module FormFacts.
Import Text Session Json Data Scrape Spec SessionFacts.

Section OnlyActs.
Context (D : Driver).
Local Abbreviation M := (@M (St D)).

Lemma fill_form_only_acts keyword : only_acts (fill_form D keyword).
Proof.
  unfold only_acts, fill_form, dismiss_any_alert.
  repeat first
    [ apply emits_bind; [|intros ?]
    | apply emits_catch
    | apply emits_do; reflexivity
    | apply emits_mute
    | apply emits_ret ].
Qed.

Lemma steps_of_acts (t : list (event (St D))) :
  Forall (fun e => is_act e = true) t -> steps_of t = [].
Proof.
  induction 1 as [|e t He _ IH]; [reflexivity|].
  unfold steps_of in *. simpl. now rewrite He.
Qed.

Lemma steps_of_app (t1 t2 : list (event (St D))) :
  steps_of (t1 ++ t2) = steps_of t1 ++ steps_of t2.
Proof. apply List.filter_app. Qed.

(** [ensure_advanced_search] swallows every exception. *)
Lemma ensure_advanced_search_returns s :
  exists b, outcome_of (ensure_advanced_search D) s = Ok b.
Proof.
  unfold outcome_of, ensure_advanced_search. rewrite bind_present.
  destruct (is_element_present D "#txtOrgname" s); [now exists true|].
  rewrite bind_present.
  destruct (is_element_present D "#btnReturnToSearch" s); unfold catch.
  - rewrite bind_do. destruct (perform D _ s) as [s1 [|]]; cbn [fst snd];
      [|now exists false].
    rewrite bind_do. destruct (perform D _ s1) as [s2 [|]]; cbn [fst snd];
      now eexists.
  - rewrite bind_do. destruct (perform D _ s) as [s1 [|]]; cbn [fst snd];
      [|now exists false].
    rewrite bind_sleep, bind_do.
    destruct (perform D _ (sleep D 2 s1)) as [s2 [|]]; cbn [fst snd];
      now eexists.
Qed.

(** One failed attempt. *)
Lemma attempt_raises keyword s :
  raises (fill_form D keyword) s ->
  catch (bind (fill_form D keyword) (fun _ => ret true)) (ret false) s
  = (Ok false, state_after (fill_form D keyword) s,
     trace_of (fill_form D keyword) s).
Proof.
  unfold raises, outcome_of, state_after, trace_of, catch, bind.
  destruct (fill_form D keyword s) as [[[u|] s1] t1]; cbn [fst snd];
    [discriminate|].
  intros _. unfold ret. now rewrite app_nil_r.
Qed.

(** One round of the retry loop. *)
Lemma form_retry_step keyword attempt rest s :
  form_retry D keyword (attempt :: rest) s =
    let fill := fill_form D keyword in
    let s1 := sleep D (5 * attempt) (state_after fill s) in
    let ensure := ensure_advanced_search D in
    match outcome_of fill s with
    | Ok _ =>
        (Ok true, state_after fill s,
         EvMark (Attempt attempt) :: trace_of fill s)
    | Exn =>
        if (3 <=? attempt)%nat then
          (Ok false, state_after fill s,
           EvMark (Attempt attempt) :: trace_of fill s)
        else
          match outcome_of ensure s1 with
          | Ok _ =>
              let '(r, s2, t2) :=
                form_retry D keyword rest (state_after ensure s1) in
              (r, s2,
               EvMark (Attempt attempt) :: trace_of fill s
               ++ EvSleep (5 * attempt) :: EvMark EnsureAdvancedSearch :: t2)
          | Exn =>
              (Exn, state_after ensure s1,
               EvMark (Attempt attempt) :: trace_of fill s
               ++ [EvSleep (5 * attempt); EvMark EnsureAdvancedSearch])
          end
    end.
Proof.
  cbn [form_retry]. cbv zeta.
  unfold outcome_of, state_after, trace_of.
  unfold bind at 1. unfold emit at 1. unfold bind at 1. unfold catch at 1.
  unfold bind at 1.
  destruct (fill_form D keyword s) as [[[u|] s1] t1]; cbn [fst snd].
  - unfold ret. cbn [app]. now rewrite !app_nil_r.
  - unfold ret at 1. rewrite app_nil_r.
    destruct (3 <=? attempt)%nat.
    + unfold ret. cbn [app]. now rewrite app_nil_r.
    + rewrite bind_sleep, bind_emit, bind_mute.
      destruct (ensure_advanced_search D (sleep D (5 * attempt) s1))
        as [[[b|] s2] t2]; cbn [fst snd].
      * now destruct (form_retry D keyword rest s2) as [[r s3] t3].
      * reflexivity.
Qed.

Lemma fill_form_no_attempt keyword s :
  List.filter is_attempt (trace_of (fill_form D keyword) s) = [].
Proof.
  pose proof (fill_form_only_acts keyword s) as H.
  induction H as [|e t He _ IHt]; [reflexivity|].
  simpl. destruct e; try discriminate. exact IHt.
Qed.

(** No run of the retry loop starts more attempts than it is given. *)
Lemma form_retry_attempts_bounded keyword attempts : forall s,
  (length (List.filter is_attempt (trace_of (form_retry D keyword attempts) s))
   <= length attempts)%nat.
Proof.
  induction attempts as [|attempt rest IH]; intros s; [apply Nat.le_refl|].
  unfold trace_of at 1. rewrite form_retry_step. cbv zeta.
  pose proof (fill_form_no_attempt keyword s) as Ha.
  destruct (outcome_of (fill_form D keyword) s).
  - cbn [snd List.filter is_attempt length]. rewrite Ha. cbn. lia.
  - destruct (3 <=? attempt)%nat.
    + cbn [snd List.filter is_attempt length]. rewrite Ha. cbn. lia.
    + destruct (outcome_of (ensure_advanced_search D) _).
      * specialize (IH (state_after (ensure_advanced_search D)
                          (sleep D (5 * attempt)
                             (state_after (fill_form D keyword) s)))).
        unfold trace_of at 1 in IH.
        destruct (form_retry D keyword rest _) as [[r s2] t2].
        cbn [snd] in *. cbn [List.filter is_attempt length].
        rewrite List.filter_app, Ha. cbn. lia.
      * cbn [snd List.filter is_attempt length].
        rewrite List.filter_app, Ha. cbn. lia.
Qed.

(** Three failed attempts in a row. *)
Lemma form_retry_three keyword s0 :
  let fill := fill_form D keyword in
  let s1 := retry_state D keyword 1 s0 in
  let s2 := retry_state D keyword 2 s1 in
  raises fill s0 -> raises fill s1 -> raises fill s2 ->
  form_retry D keyword (seq 1 3) s0
  = (Ok false, state_after fill s2,
     EvMark (Attempt 1) :: trace_of fill s0
     ++ EvSleep 5 :: EvMark EnsureAdvancedSearch
     :: EvMark (Attempt 2) :: trace_of fill s1
     ++ EvSleep 10 :: EvMark EnsureAdvancedSearch
     :: EvMark (Attempt 3) :: trace_of fill s2).
Proof.
  cbv zeta. unfold raises, retry_state. intros H0 H1 H2.
  cbn [seq]. rewrite form_retry_step. cbv zeta. rewrite H0. cbn [Nat.leb].
  destruct (ensure_advanced_search_returns
              (sleep D (5 * 1) (state_after (fill_form D keyword) s0)))
    as [b1 ->].
  rewrite form_retry_step. cbv zeta. rewrite H1. cbn [Nat.leb].
  destruct (ensure_advanced_search_returns
              (sleep D (5 * 2)
                 (state_after (fill_form D keyword)
                    (state_after (ensure_advanced_search D)
                       (sleep D (5 * 1)
                          (state_after (fill_form D keyword) s0))))))
    as [b2 ->].
  rewrite form_retry_step. cbv zeta. rewrite H2. cbn [Nat.leb]. reflexivity.
Qed.

End OnlyActs.



End FormFacts.

(** ** Filing documents *)

Module FilingFacts.
Import Text Session Json Data FilingDocs Spec SessionFacts TextFacts.

(** What [is_valid_pdf] accepts: a file that is there, of at least
    [min_size] bytes, that begins with the PDF signature. *)
Lemma is_valid_pdf_spec f min_size :
  is_valid_pdf f min_size = true <->
  exists bytes, f = Content bytes /\ min_size <= Z.of_nat (length bytes)
                /\ exists rest, bytes = chars "%PDF" ++ rest.
Proof.
  destruct f as [| |bytes]; cbn [is_valid_pdf].
  - split; [discriminate | intros (b & H & _); discriminate].
  - split; [discriminate | intros (b & H & _); discriminate].
  - destruct (Z.ltb_spec (Z.of_nat (length bytes)) min_size) as [Hlt|Hge].
    + split; [discriminate|]. intros (b & H & Hsz & _).
      injection H as <-. lia.
    + rewrite starts_with_spec. split.
      * intros [post Hpost]. exists bytes. repeat split; [assumption|].
        exists (post ++ skipn 5 bytes).
        rewrite <- (firstn_skipn 5 bytes) at 1. rewrite Hpost.
        now rewrite <- app_assoc.
      * intros (b & H & _ & rest & ->). injection H as ->.
        exists (firstn 1 rest). reflexivity.
Qed.

Section Rows.
Context {S : Type}.
Implicit Types t : list (event S).

Lemma visited_rows_app t1 t2 :
  visited_rows (t1 ++ t2) = visited_rows t1 ++ visited_rows t2.
Proof. apply flat_map_app. Qed.

Lemma accepted_rows_app t1 t2 :
  accepted_rows (t1 ++ t2) = accepted_rows t1 ++ accepted_rows t2.
Proof. apply flat_map_app. Qed.

Lemma summary_rows_app t1 t2 :
  summary_rows (t1 ++ t2) = summary_rows t1 ++ summary_rows t2.
Proof. apply flat_map_app. Qed.

Lemma verdicts_faithful_app t1 t2 :
  verdicts_faithful t1 -> verdicts_faithful t2 -> verdicts_faithful (t1 ++ t2).
Proof. intros H1 H2. apply Forall_app. now split. Qed.

Lemma rowless_rows t :
  rowless t ->
  visited_rows t = [] /\ accepted_rows t = [] /\ summary_rows t = []
  /\ verdicts_faithful t.
Proof.
  induction 1 as [|e t He _ (IH1 & IH2 & IH3 & IH4)].
  - repeat split. constructor.
  - unfold visited_rows, accepted_rows, summary_rows, verdicts_faithful in *.
    cbn [flat_map]. rewrite IH1, IH2, IH3.
    destruct e as [| | | |[]]; cbn in He; try contradiction;
      repeat split; now constructor.
Qed.

Lemma rowless_app t1 t2 : rowless t1 -> rowless t2 -> rowless (t1 ++ t2).
Proof. intros H1 H2. apply Forall_app. now split. Qed.

(** Steps before the loop leave its marks as they are. *)
Lemma rows_prefix t0 :
  rowless t0 ->
  forall t,
    visited_rows (t0 ++ t) = visited_rows t
    /\ summary_rows (t0 ++ t) = summary_rows t
    /\ accepted_rows (t0 ++ t) = accepted_rows t
    /\ (verdicts_faithful t -> verdicts_faithful (t0 ++ t)).
Proof.
  intros H0 t. destruct (rowless_rows t0 H0) as (Hv & Ha & Hs & Hf).
  rewrite visited_rows_app, summary_rows_app, accepted_rows_app, Hv, Ha, Hs.
  repeat split. intros Ht. now apply verdicts_faithful_app.
Qed.

Lemma accepted_row_event t idx :
  In idx (accepted_rows t) ->
  exists p f, In (EvMark (Validation idx p f true)) t.
Proof.
  unfold accepted_rows. rewrite in_flat_map. intros (e & He & Hi).
  destruct e as [| | | |[| | | | |i p f [|]|]]; cbn in Hi; try contradiction.
  destruct Hi as [->|[]]. now exists p, f.
Qed.

End Rows.

Section Filing.
Context (D : Driver) (W : Site D).
Local Abbreviation M := (@M (St D)).
Local Abbreviation quiet := (emits (@row_free (St D))).

Lemma quiet_site_call {A} (f : St D -> St D * res A) : quiet (site_call D f).
Proof.
  intros s. unfold trace_of, site_call. destruct (f s) as [s1 r]. constructor.
Qed.

Lemma quiet_read_only {A} (f : St D -> res A) : quiet (read_only D f).
Proof. intros s. constructor. Qed.

Lemma quiet_close_modal n : quiet (close_modal_for D W n).
Proof. intros s. constructor. Qed.

Lemma quiet_modal_poll n : forall found, quiet (modal_poll D W n found).
Proof.
  induction n as [|n IH]; intros found; cbn [modal_poll].
  - apply emits_ret.
  - apply emits_bind; [apply emits_get|]. intros s.
    destruct (find_modal W s).
    + destruct (modal_is_displayed W s) as [[|]|];
        first [ apply emits_ret
              | apply emits_bind; [now apply emits_sleep | intros _; apply IH] ].
    + apply emits_bind; [now apply emits_sleep | intros _; apply IH].
Qed.

Ltac quiet_step :=
  first
    [ apply emits_ret
    | apply emits_get
    | apply quiet_site_call
    | apply quiet_read_only
    | apply quiet_close_modal
    | apply quiet_modal_poll
    | apply emits_mute
    | apply emits_page_source
    | apply emits_sleep; exact I
    | apply emits_do; intros ?; exact I
    | apply emits_run_js; intros ?; exact I
    | apply emits_catch
    | apply emits_bind; [|intros ?] ].

Lemma quiet_start_download pdf_root idx : quiet (start_download D W pdf_root idx).
Proof.
  unfold start_download.
  repeat first
    [ quiet_step
    | match goal with
      | |- emits _ (if ?b then _ else _) => destruct b
      | |- emits _ (match ?o with Some _ => _ | None => _ end) =>
          destruct o as [?|]
      | |- emits _ (let (_, _) := ?p in _) => destruct p as [? ?]
      end ].
Qed.

Lemma quiet_filing_table letter keyword page_idx business_id out_dir :
  quiet (filing_table D W letter keyword page_idx business_id out_dir).
Proof.
  unfold filing_table.
  repeat first
    [ quiet_step
    | match goal with
      | |- emits _ (if ?b then _ else _) => destruct b
      end ].
Qed.

(** The one or two checks of a download, spelled out. *)
Lemma validated_download_run idx p s :
  validated_download D idx p s =
    let f1 := file_at D s p in
    if is_valid_pdf f1 default_min_size then
      (Ok true, s, [EvMark (Validation idx p f1 true)])
    else
      let s2 := sleep D 2 s in
      let f2 := file_at D s2 p in
      (Ok (is_valid_pdf f2 default_min_size), s2,
       [EvMark (Validation idx p f1 false); EvSleep 2;
        EvMark (Validation idx p f2 (is_valid_pdf f2 default_min_size))]).
Proof.
  unfold validated_download, bind, validate, do_sleep, ret. cbv zeta.
  now destruct (is_valid_pdf (file_at D s p) default_min_size).
Qed.

(** The summary is marked in the trace exactly when it is built. *)
Lemma store_summary_run pdf_root idx filing filing_no p s r s' t :
  store_summary D W pdf_root idx filing filing_no p s = (r, s', t) ->
  exists t0, rowless t0 /\
    ((exists summ, r = Ok (Some summ) /\ ps_filing_number summ = filing_no
                   /\ t = t0 ++ [EvMark (Summary idx)])
     \/ ((r = Ok None \/ r = Exn) /\ t = t0)).
Proof.
  unfold store_summary.
  unfold bind at 1. unfold close_modal_for at 1.
  unfold bind at 1.
  pose proof (fun a b =>
    emits_catch D row_free
      (bind (do_ D (Mkdir pdf_root)) (fun _ => do_ D (CopyFile a b)))
      (ret tt)
      ltac:(apply emits_bind; [|intros ?]; apply emits_do; intros ?; exact I)
      ltac:(apply emits_ret)) as Hq.
  specialize (Hq p (pdf_root ++ [(filing_no ++ ".pdf")%string])
               (close_view_documents_modal W 5 s)).
  unfold trace_of in Hq.
  destruct (catch _ _ (close_view_documents_modal W 5 s)) as [[[u|] s1] t1];
    cbn [snd] in Hq.
  - rewrite bind_get.
    destruct (file_exists (file_at D s1 _)); cbn; intros H;
      injection H as <- <- <-; exists t1; (split; [exact Hq|]).
    + left. eexists. repeat split.
    + right. rewrite app_nil_r. auto.
  - cbn. intros H. injection H as <- <- <-. exists t1. split; [exact Hq|].
    right. auto.
Qed.

(** One filing row: the row is visited; a summary is built for it only
    after a check accepted its download. *)
Lemma process_filing_row pdf_root idx filing s r s' t :
  process_filing D W pdf_root idx filing s = (r, s', t) ->
  visited_rows t = [idx] /\ verdicts_faithful t
  /\ match r with
     | Ok (Some summ) =>
         summary_rows t = [idx] /\ In idx (accepted_rows t)
         /\ ps_filing_number summ = strip (filing_number filing)
     | _ => summary_rows t = []
     end.
Proof.
  unfold process_filing. rewrite bind_emit.
  destruct (String.eqb (strip (filing_number filing)) "").
  { cbn. intros H. injection H as <- <- <-. repeat split. repeat constructor. }
  unfold bind at 1.
  pose proof (quiet_start_download pdf_root idx s) as Hq. unfold trace_of in Hq.
  destruct (start_download D W pdf_root idx s) as [[[[p|]|] s1] t1];
    cbn [snd] in Hq; destruct (rowless_rows t1 Hq) as (Hv1 & Ha1 & Hs1 & Hf1).
  3: { intros H. injection H as <- <- <-.
       change (EvMark (FilingRow idx) :: t1)
         with ([EvMark (FilingRow idx)] ++ t1).
       rewrite visited_rows_app, summary_rows_app, Hv1, Hs1.
       repeat split. apply verdicts_faithful_app; [repeat constructor | exact Hf1]. }
  2: { cbn. intros H. injection H as <- <- <-. rewrite app_nil_r.
       change (EvMark (FilingRow idx) :: t1)
         with ([EvMark (FilingRow idx)] ++ t1).
       rewrite visited_rows_app, summary_rows_app, Hv1, Hs1.
       repeat split. apply verdicts_faithful_app; [repeat constructor | exact Hf1]. }
  rewrite bind_sleep. unfold bind at 1. rewrite validated_download_run.
  cbv zeta.
  set (s2 := sleep D 1 s1).
  assert (Hshape : forall r0 s0 tv ts,
            verdicts_faithful tv -> visited_rows tv = [] ->
            summary_rows tv = [] ->
            verdicts_faithful ts -> visited_rows ts = [] ->
            match r0 with
            | Ok (Some summ) =>
                summary_rows ts = [idx] /\ In idx (accepted_rows tv)
                /\ ps_filing_number summ = strip (filing_number filing)
            | _ => summary_rows ts = []
            end ->
            (r0, s0, EvMark (FilingRow idx) :: t1 ++ EvSleep 1 :: tv ++ ts)
            = (r, s', t) ->
            visited_rows t = [idx] /\ verdicts_faithful t
            /\ match r with
               | Ok (Some summ) =>
                   summary_rows t = [idx] /\ In idx (accepted_rows t)
                   /\ ps_filing_number summ = strip (filing_number filing)
               | _ => summary_rows t = []
               end).
  { intros r0 s0 tv ts Hfv Hvv Hsv Hfs Hvs Hres H. injection H as <- <- <-.
    change (EvMark (FilingRow idx) :: t1 ++ EvSleep 1 :: tv ++ ts)
      with ([EvMark (FilingRow idx)] ++ t1 ++ [EvSleep 1] ++ tv ++ ts).
    rewrite !visited_rows_app, !summary_rows_app, !accepted_rows_app.
    rewrite Hv1, Hs1, Ha1, Hvv, Hsv, Hvs. cbn [app visited_rows summary_rows
      accepted_rows flat_map].
    split; [reflexivity|]. split.
    - apply (verdicts_faithful_app [_]); [repeat constructor|].
      apply verdicts_faithful_app; [exact Hf1|].
      apply (verdicts_faithful_app [_]); [repeat constructor|].
      now apply verdicts_faithful_app.
    - destruct r0 as [[summ|]|]; try exact Hres.
      destruct Hres as (Hs & Ha & Hn). repeat split; try assumption.
      apply in_or_app. now left. }
  destruct (is_valid_pdf (file_at D s2 p) default_min_size) eqn:E1.
  - cbn [negb].
    destruct (store_summary D W pdf_root idx filing
                (strip (filing_number filing)) p s2) as [[r3 s3] t3] eqn:Est.
    destruct (store_summary_run _ _ _ _ _ _ _ _ _ Est)
      as (t0 & Hq0 & [(summ & -> & Hn & ->) | ([-> | ->] & ->)]);
      destruct (rowless_rows t0 Hq0) as (Hv0 & Ha0 & Hs0 & Hf0).
    + apply Hshape.
      * repeat constructor. now rewrite E1.
      * reflexivity.
      * reflexivity.
      * apply verdicts_faithful_app; [exact Hf0 | repeat constructor].
      * now rewrite visited_rows_app, Hv0.
      * rewrite summary_rows_app, Hs0. repeat split; [now left | exact Hn].
    + apply Hshape; try assumption; try reflexivity.
      repeat constructor. now rewrite E1.
    + apply Hshape; try assumption; try reflexivity.
      repeat constructor. now rewrite E1.
  - destruct (is_valid_pdf (file_at D (sleep D 2 s2) p) default_min_size) eqn:E2.
    + cbn [negb].
      destruct (store_summary D W pdf_root idx filing
                  (strip (filing_number filing)) p (sleep D 2 s2))
        as [[r3 s3] t3] eqn:Est.
      destruct (store_summary_run _ _ _ _ _ _ _ _ _ Est)
        as (t0 & Hq0 & [(summ & -> & Hn & ->) | ([-> | ->] & ->)]);
        destruct (rowless_rows t0 Hq0) as (Hv0 & Ha0 & Hs0 & Hf0).
      * apply Hshape.
        -- repeat constructor; now rewrite ?E1, ?E2.
        -- reflexivity.
        -- reflexivity.
        -- apply verdicts_faithful_app; [exact Hf0 | repeat constructor].
        -- now rewrite visited_rows_app, Hv0.
        -- rewrite summary_rows_app, Hs0.
           repeat split; [now left | exact Hn].
      * apply Hshape; try assumption; try reflexivity.
        repeat constructor; now rewrite ?E1, ?E2.
      * apply Hshape; try assumption; try reflexivity.
        repeat constructor; now rewrite ?E1, ?E2.
    + cbn [negb]. unfold bind, close_modal_for, ret. cbn [app]. intros H.
      apply (Hshape (Ok None) (close_view_documents_modal W 2 (sleep D 2 s2))
               [EvMark (Validation idx p (file_at D s2 p) false); EvSleep 2;
                EvMark (Validation idx p (file_at D (sleep D 2 s2) p) false)]
               []);
        try reflexivity;
        [ repeat constructor; now rewrite ?E1, ?E2 | constructor | exact H ].
Qed.

(** The loop over the rows [l], which follow the rows [pre]. *)
Lemma filing_loop_rows pdf_root l : forall pre s r s' t,
  filing_loop D W pdf_root (length pre) l s = (r, s', t) ->
  verdicts_faithful t
  /\ incl (summary_rows t) (accepted_rows t)
  /\ summary_rows t `sublist_of` visited_rows t
  /\ match r with
     | Ok sums =>
         visited_rows t = seq (length pre) (length l)
         /\ Forall2 (fun summ i =>
                       exists filing, (pre ++ l) !! i = Some filing
                         /\ ps_filing_number summ
                            = strip (filing_number filing))
              sums (summary_rows t)
     | Exn => True
     end.
Proof.
  induction l as [|filing rest IH]; intros pre s r s' t.
  - cbn. intros H. injection H as <- <- <-. cbn.
    repeat split; try constructor. apply incl_nil_l.
  - cbn [filing_loop]. unfold bind at 1.
    destruct (process_filing D W pdf_root (length pre) filing s)
      as [[r1 s1] t1] eqn:E1.
    destruct (process_filing_row _ _ _ _ _ _ _ E1) as (Hv1 & Hf1 & Hr1).
    destruct r1 as [o|].
    2: { intros H. injection H as <- <- <-. rewrite Hr1, Hv1.
         repeat split; [assumption | apply incl_nil_l | apply sublist_nil_l]. }
    unfold bind at 1.
    specialize (IH (pre ++ [filing]) s1).
    rewrite length_app, Nat.add_1_r in IH.
    destruct (filing_loop D W pdf_root (S (length pre)) rest s1)
      as [[r2 s2] t2].
    destruct (IH _ _ _ eq_refl) as (Hf2 & Hi2 & Hsub2 & Hr2).
    assert (Hsub1 : summary_rows t1 `sublist_of` visited_rows t1).
    { rewrite Hv1. destruct o as [summ|].
      - destruct Hr1 as (-> & _). reflexivity.
      - rewrite Hr1. apply sublist_nil_l. }
    assert (Hi1 : incl (summary_rows t1) (accepted_rows t1)).
    { destruct o as [summ|].
      - destruct Hr1 as (-> & Ha & _). intros i [<-|[]]. exact Ha.
      - rewrite Hr1. apply incl_nil_l. }
    destruct r2 as [more|]; cbn; intros H; injection H as <- <- <-;
      rewrite ?app_nil_r, visited_rows_app, summary_rows_app, accepted_rows_app.
    + split; [now apply verdicts_faithful_app|].
      split; [now apply incl_app_app|].
      split; [now apply sublist_app|].
      destruct Hr2 as (Hv2 & Hall2). rewrite Hv1, Hv2. split; [reflexivity|].
      rewrite <- app_assoc in Hall2. cbn [app] in Hall2.
      destruct o as [summ|].
      * destruct Hr1 as (-> & _ & Hn). cbn [app]. constructor; [|exact Hall2].
        exists filing. split; [|exact Hn]. apply list_lookup_middle. reflexivity.
      * rewrite Hr1. exact Hall2.
    + split; [now apply verdicts_faithful_app|].
      split; [now apply incl_app_app|].
      split; [now apply sublist_app | exact I].
Qed.

End Filing.



End FilingFacts.

(** ** The page loop of [scrape_keyword]: one record per identifier *)

Module LoopFacts.
Import Text Session Json Data Pager Scrape Spec SessionFacts.

Section Returns.
Context {S : Type}.
Local Abbreviation M := (@Session.M S).

Lemma returns_ret {A} (Q : A -> Prop) (a : A) : Q a -> returns Q (ret a : M A).
Proof. intros H s. exact H. Qed.

Lemma returns_bind {A B} (Q : B -> Prop) (m : M A) (f : A -> M B) :
  (forall a, returns Q (f a)) -> returns Q (bind m f).
Proof.
  intros Hf s. unfold outcome_of, bind.
  destruct (m s) as [[[a|] s1] t1]; [|exact Logic.I].
  specialize (Hf a s1). unfold outcome_of in Hf.
  now destruct (f a s1) as [[r s2] t2].
Qed.

Lemma returns_bind_with {A B} (P : A -> Prop) (Q : B -> Prop) (m : M A)
    (f : A -> M B) :
  returns P m -> (forall a, P a -> returns Q (f a)) -> returns Q (bind m f).
Proof.
  intros Hm Hf s. specialize (Hm s). unfold outcome_of, bind in *.
  destruct (m s) as [[[a|] s1] t1]; [|exact Logic.I]. simpl in Hm.
  specialize (Hf a Hm s1). unfold outcome_of in Hf.
  now destruct (f a s1) as [[r s2] t2].
Qed.

Lemma returns_catch {A} (Q : A -> Prop) (m h : M A) :
  returns Q m -> returns Q h -> returns Q (catch m h).
Proof.
  intros Hm Hh s. specialize (Hm s). unfold outcome_of, catch in *.
  destruct (m s) as [[[a|] s1] t1]; [exact Hm|].
  specialize (Hh s1). unfold outcome_of in Hh.
  now destruct (h s1) as [[r s2] t2].
Qed.

Lemma returns_mute {A} (Q : A -> Prop) (m : M A) :
  returns Q m -> returns Q (mute m).
Proof.
  intros Hm s. specialize (Hm s). unfold outcome_of, mute in *.
  now destruct (m s) as [[r s1] t1].
Qed.

Lemma bind_run {A B} (m : M A) (f : A -> M B) s a s1 t1 :
  m s = (Ok a, s1, t1) ->
  bind m f s = let '(r, s2, t2) := f a s1 in (r, s2, t1 ++ t2).
Proof. intros H. unfold bind. now rewrite H. Qed.

Lemma bind_run_exn {A B} (m : M A) (f : A -> M B) s s1 t1 :
  m s = (Exn, s1, t1) -> bind m f s = (Exn, s1, t1).
Proof. intros H. unfold bind. now rewrite H. Qed.

Lemma outcome_bind {A B} (m : M A) (f : A -> M B) s a s1 t1 :
  m s = (Ok a, s1, t1) -> outcome_of (bind m f) s = outcome_of (f a) s1.
Proof.
  intros H. unfold outcome_of. rewrite (bind_run _ _ _ _ _ _ H).
  now destruct (f a s1) as [[r s2] t2].
Qed.

(** A guarded helper call: it returns, and records nothing. *)
Lemma guarded_call {A} (Q : option A -> Prop) (m : M (option A)) s :
  returns Q m -> Q None ->
  exists x s1, catch (mute m) (ret None) s = (Ok x, s1, []) /\ Q x.
Proof.
  intros Hm HQ. specialize (Hm s). unfold outcome_of, catch, mute, ret in *.
  destruct (m s) as [[[a|] s1] t1]; simpl in *; eauto.
Qed.
End Returns.

Section Attempts.

Lemma captured_app l1 l2 : captured (l1 ++ l2) = captured l1 ++ captured l2.
Proof. unfold captured. now rewrite List.filter_app, map_app. Qed.

Lemma done_after_nil V : done_after V [] = V.
Proof. unfold done_after. simpl. apply (left_id_L ∅ (∪)). Qed.

Lemma done_after_cons V id b l :
  done_after V ((id, b) :: l) = done_after (if b then {[id]} ∪ V else V) l.
Proof.
  unfold done_after, captured. destruct b; simpl; [|reflexivity].
  now rewrite (comm_L (∪) {[id]}), <- (assoc_L (∪)).
Qed.

Lemma done_after_app V l1 l2 :
  done_after V (l1 ++ l2) = done_after (done_after V l1) l2.
Proof.
  revert V. induction l1 as [|[id b] l1 IH]; intros V; simpl.
  - now rewrite done_after_nil.
  - now rewrite !done_after_cons, IH.
Qed.

Lemma follows_app ids1 : forall V ev1 ids2 ev2,
  follows V ids1 ev1 -> follows (done_after V ev1) ids2 ev2 ->
  follows V (ids1 ++ ids2) (ev1 ++ ev2).
Proof.
  induction ids1 as [|id ids1 IH]; intros V ev1 ids2 ev2 H1 H2; simpl in *.
  - subst ev1. now rewrite done_after_nil in H2.
  - destruct (truthy id && bool_decide (id ∉ V)).
    + destruct ev1 as [|[id' b] ev1]; [contradiction|].
      destruct H1 as [-> H1]. split; [reflexivity|].
      apply IH; [exact H1|]. now rewrite done_after_cons in H2.
    + now apply IH.
Qed.

(** No identifier is captured twice, nor one that was done with. *)
Lemma follows_captured ids : forall V ev,
  follows V ids ev ->
  NoDup (captured ev) /\ forall id, id ∈ captured ev -> id ∉ V.
Proof.
  induction ids as [|id ids IH]; intros V ev H; simpl in H.
  - subst ev. split; [constructor|]. intros id Hid. inversion Hid.
  - destruct (truthy id && bool_decide (id ∉ V)) eqn:E; [|now apply IH].
    destruct ev as [|[id' b] ev]; [contradiction|]. destruct H as [-> H].
    apply andb_true_iff in E as [_ E]. apply bool_decide_eq_true in E.
    destruct (IH _ _ H) as [Hnd Hout]. destruct b; unfold captured in *; simpl.
    + split.
      * apply NoDup_cons. split; [|exact Hnd].
        intros Hin. apply (Hout _ Hin), elem_of_union_l.
        now apply elem_of_singleton.
      * intros x Hx. apply elem_of_cons in Hx as [->|Hx]; [exact E|].
        intros HV. now apply (Hout _ Hx), elem_of_union_r.
    + split; [exact Hnd|exact Hout].
Qed.

Context {S : Type}.
Implicit Types t : list (event S).

Lemma detail_events_app t1 t2 :
  detail_events (t1 ++ t2) = detail_events t1 ++ detail_events t2.
Proof. apply flat_map_app. Qed.

Lemma pdf_events_app t1 t2 :
  pdf_events (t1 ++ t2) = pdf_events t1 ++ pdf_events t2.
Proof. apply flat_map_app. Qed.

Lemma pass_free_events t :
  Forall pass_free t -> detail_events t = [] /\ pdf_events t = [].
Proof.
  induction 1 as [|e t He _ [IH1 IH2]]; [now split|].
  unfold detail_events, pdf_events in *. simpl. rewrite IH1, IH2.
  destruct e as [| | | |[]]; simpl in *; try contradiction; now split.
Qed.

Lemma extends_refl st t : Forall pass_free t -> extends st st t.
Proof.
  intros [Hd Hp]%pass_free_events. exists []. rewrite Hd, Hp.
  rewrite !done_after_nil, !app_nil_r. now repeat split.
Qed.

Lemma extends_trans st st1 st2 t1 t2 :
  extends st st1 t1 -> extends st1 st2 t2 -> extends st st2 (t1 ++ t2).
Proof.
  intros (o1 & Ha1 & Hd1 & Hp1 & Hv1 & Hm1 & Hr1)
         (o2 & Ha2 & Hd2 & Hp2 & Hv2 & Hm2 & Hr2).
  exists (o1 ++ o2). rewrite detail_events_app, pdf_events_app, map_app.
  rewrite Hv1 in Hd2, Hv2. rewrite Hm1 in Hp2, Hm2.
  repeat split.
  - now rewrite Ha2, Ha1, <- app_assoc.
  - now apply follows_app.
  - now apply follows_app.
  - now rewrite done_after_app.
  - now rewrite done_after_app.
  - now rewrite Hr2, Hr1, captured_app, <- app_assoc.
Qed.

(** A step of the loop body that records no pass can be put in front. *)
Lemma extends_prefix st st' t1 t2 :
  Forall pass_free t1 -> extends st st' t2 -> extends st st' (t1 ++ t2).
Proof.
  intros [Hd Hp]%pass_free_events (o & H). exists o.
  now rewrite detail_events_app, pdf_events_app, Hd, Hp.
Qed.
End Attempts.

Ltac returns_step :=
  match goal with
  | |- returns _ (ret _) => apply returns_ret
  | |- returns _ (bind _ _) => apply returns_bind; intros ?
  | |- returns _ (if ?c then _ else _) => destruct c
  end.

Section Passes.
Context (D : Driver) (W : Site D).
Context (keyword letter : string) (out_dir : path) (first_keyword : bool).
Local Abbreviation M := (@Session.M (St D)).
Local Abbreviation free := (emits (@pass_free (St D))).

(** A captured record carries the identifier of its business object. *)
Lemma fetch_keeps_identifier biz_obj page_idx idx first :
  returns (fun o => forall rec, o = Some rec ->
                    BusinessID rec = biz_id_of biz_obj)
    (fetch_business_information_via_html D W biz_obj letter keyword
       page_idx idx first).
Proof.
  unfold fetch_business_information_via_html.
  repeat returns_step; intros rec [= <-] || intros rec [=]; reflexivity.
Qed.

Lemma detail_pass_run l : forall idx st s,
  exists st' s' tr,
    detail_pass D W keyword letter first_keyword idx l st s = (Ok st', s', tr) /\
    follows (visited_detail_ids st) (map biz_id_of l) (detail_events tr) /\
    pdf_events tr = [] /\
    visited_detail_ids st' =
      done_after (visited_detail_ids st) (detail_events tr) /\
    map BusinessID (html_details_records st') =
      map BusinessID (html_details_records st) ++ captured (detail_events tr) /\
    api_pages st' = api_pages st /\
    pdf_data_by_id st' = pdf_data_by_id st.
Proof.
  induction l as [|biz_obj rest IH]; intros idx st s.
  - exists st, s, []. simpl. rewrite done_after_nil, app_nil_r.
    now repeat split.
  - cbn [detail_pass map follows].
    destruct (truthy (biz_id_of biz_obj)) eqn:Ht; cbn [negb andb].
    2: { apply IH. }
    destruct (decide (biz_id_of biz_obj ∈ visited_detail_ids st)) as [Hin|Hout].
    { rewrite bool_decide_false by (intros H; now apply H). apply IH. }
    rewrite bool_decide_true by exact Hout.
    destruct (guarded_call
                (fun o => forall rec, o = Some rec ->
                          BusinessID rec = biz_id_of biz_obj)
                _ s (fetch_keeps_identifier biz_obj (page_index st - 1)
                       (idx + 1) (first_keyword && (page_index st =? 1))))
      as (x & s1 & Hrun & Hx); [intros rec [=]|].
    rewrite (bind_run _ _ _ _ _ _ Hrun). destruct x as [rec|].
    + specialize (Hx rec eq_refl). rewrite bind_emit.
      destruct (IH (idx + 1) (detail_captured st (biz_id_of biz_obj) rec) s1)
        as (st' & s' & tr & -> & Hf & Hp & Hv & Hr & Ha & Hm).
      exists st', s', (EvMark (DetailPass (biz_id_of biz_obj) (page_index st) true) :: tr).
      split; [reflexivity|]. cbn [detail_events pdf_events flat_map app].
      fold (detail_events tr). fold (pdf_events tr).
      rewrite done_after_cons. cbn [detail_captured visited_detail_ids] in Hf, Hv.
      repeat split; try assumption.
      rewrite Hr. cbn [detail_captured html_details_records].
      rewrite map_app, <- app_assoc. cbn [map app merge_pdf_info BusinessID].
      now rewrite Hx.
    + rewrite bind_emit.
      destruct (IH (idx + 1) (detail_failed st) s1)
        as (st' & s' & tr & -> & Hf & Hp & Hv & Hr & Ha & Hm).
      exists st', s', (EvMark (DetailPass (biz_id_of biz_obj) (page_index st) false) :: tr).
      split; [reflexivity|]. cbn [detail_events pdf_events flat_map app].
      fold (detail_events tr). fold (pdf_events tr).
      rewrite done_after_cons. now repeat split.
Qed.

Lemma pdf_pass_run l : forall pg idx pdf_data s,
  exists pdf_data' s' tr,
    pdf_pass D W keyword letter out_dir first_keyword pg idx l pdf_data s
      = (Ok pdf_data', s', tr) /\
    follows (dom pdf_data) (map biz_id_of l) (pdf_events tr) /\
    detail_events tr = [] /\
    dom pdf_data' = done_after (dom pdf_data) (pdf_events tr).
Proof.
  induction l as [|biz_obj rest IH]; intros pg idx pdf_data s.
  - exists pdf_data, s, []. simpl. now rewrite done_after_nil.
  - cbn [pdf_pass map follows].
    destruct (truthy (biz_id_of biz_obj)) eqn:Ht; cbn [negb andb].
    2: { apply IH. }
    destruct (decide (is_Some (pdf_data !! biz_id_of biz_obj))) as [Hin|Hout].
    { rewrite bool_decide_false by (intros H; now apply H, elem_of_dom).
      apply IH. }
    rewrite bool_decide_true by (now rewrite elem_of_dom).
    rewrite bind_emit.
    set (call := catch _ _).
    assert (exists r s1, call s = (Ok r, s1, [])) as (r & s1 & Hrun).
    { subst call. unfold catch, bind, mute, ret.
      destruct (scrape_pdfs_for_business _ _ _ _ _ _ _ _ _ s)
        as [[[x|] s1] t1]; simpl; eauto. }
    rewrite (bind_run _ _ _ _ _ _ Hrun). cbn [app].
    set (pdf_data1 := match r with Some _ => _ | None => _ end).
    assert (Hdom : dom pdf_data1 = {[biz_id_of biz_obj]} ∪ dom pdf_data).
    { subst pdf_data1. destruct r; [apply dom_insert_L|].
      destruct (_ !! _) eqn:E; [|apply dom_insert_L].
      destruct Hout. now eexists. }
    destruct (IH pg (idx + 1) pdf_data1 s1) as (pdf' & s' & tr & -> & Hf & Hd & Hv).
    exists pdf', s', (EvMark (PdfPass (biz_id_of biz_obj) pg) :: tr).
    split; [reflexivity|]. cbn [detail_events pdf_events flat_map app].
    fold (detail_events tr). fold (pdf_events tr).
    rewrite done_after_cons, <- Hdom. now repeat split.
Qed.

Lemma rows_retry_free page_index retries :
  free (rows_retry D W keyword letter out_dir page_index retries).
Proof.
  induction retries as [|retry rest IH]; cbn [rows_retry].
  - apply emits_ret.
  - apply emits_bind; [now apply emits_sleep|intros _].
    apply emits_bind; [apply emits_page_source|intros html].
    apply emits_bind; [now apply emits_do|intros _].
    destruct (parse_rows W html); [exact IH|apply emits_ret].
Qed.

Lemma carries_bind {A} st (m : M A) (f : A -> M LoopState) s :
  free m -> (forall a s1, carries st (f a s1)) -> carries st (bind m f s).
Proof.
  intros Hm Hf. specialize (Hm s). unfold trace_of, bind in *.
  destruct (m s) as [[[a|] s1] t1]; [|exact Logic.I].
  specialize (Hf a s1). destruct (f a s1) as [[[st'|] s2] t2]; [|exact Logic.I].
  now apply extends_prefix.
Qed.

Lemma capture_page_carries st s :
  carries st (capture_page D W keyword letter out_dir first_keyword st s).
Proof.
  unfold capture_page.
  apply carries_bind; [now apply emits_sleep|intros _ s1].
  apply carries_bind; [apply emits_page_source|intros html s2].
  apply carries_bind; [now apply emits_do|intros _ s3].
  apply carries_bind.
  { destruct (_ && _); [|apply emits_ret].
    apply emits_bind; [apply rows_retry_free|intros rows].
    destruct rows; [|apply emits_ret].
    apply emits_bind; [now apply emits_do|intros _].
    apply emits_bind; [now apply emits_do|intros _]. apply emits_ret. }
  intros rows s4.
  apply carries_bind; [apply emits_mute|intros business_list s5].
  destruct business_list as [|biz_obj business_list].
  - exists []. cbn. rewrite !done_after_nil, !app_nil_r. now repeat split.
  - set (objs := biz_obj :: business_list).
    set (st1 := with_page st rows objs).
    destruct (pdf_pass_run objs (page_index st1) 0 (pdf_data_by_id st1) s5)
      as (pdf' & s6 & tp & Hp & Hpf & Hpd & Hpv).
    rewrite (bind_run _ _ _ _ _ _ Hp).
    destruct (detail_pass_run objs 0 (with_pdf_data st1 pdf') s6)
      as (st' & s7 & td & -> & Hdf & Hdp & Hdv & Hdr & Hda & Hdm).
    exists objs. rewrite detail_events_app, pdf_events_app, Hpd, Hdp, app_nil_r.
    cbn [app]. rewrite Hda, Hdm, Hdv, Hdr.
    cbn [st1 with_pdf_data with_page api_pages visited_detail_ids
         pdf_data_by_id html_details_records] in *.
    repeat split; try assumption.
    subst objs. cbv iota. rewrite map_app, concat_app. cbn.
    now rewrite app_nil_r.
Qed.

Lemma extends_same st st' (t : list (event (St D))) :
  api_pages st' = api_pages st ->
  visited_detail_ids st' = visited_detail_ids st ->
  pdf_data_by_id st' = pdf_data_by_id st ->
  html_details_records st' = html_details_records st ->
  Forall pass_free t -> extends st st' t.
Proof.
  intros Ha Hv Hp Hr [Hd Hf]%pass_free_events. exists [].
  rewrite Ha, Hv, Hp, Hr, Hd, Hf, !done_after_nil, !app_nil_r.
  now repeat split.
Qed.

(** The pager read: the first readable pager, or none after [n] re-reads
    two seconds apart. *)
Lemma pager_retry_run n : forall pager s,
  match pager_retry D n pager s with
  | (Exn, _, _) => True
  | (Ok (Some p), s', tr) =>
      Forall pass_free tr /\
      (pager = Some p /\ s' = s \/ pager_at D s' = Some p)
  | (Ok None, s', tr) =>
      Forall pass_free tr /\ pager = None /\ s' = after_waits D n s /\
      forall k, (1 <= k <= n)%nat -> pager_at D (after_waits D k s) = None
  end.
Proof.
  induction n as [|n IH]; intros [p|] s; cbn [pager_retry].
  - cbn. split; [constructor|now left].
  - cbn. repeat split; [constructor|]. intros k Hk. lia.
  - cbn. split; [constructor|now left].
  - rewrite bind_sleep, bind_page_source.
    destruct (get_page_source D (sleep D 2 s)) as [html|] eqn:Hsrc;
      [|exact Logic.I].
    assert (Hat : pager_at D (sleep D 2 s) = parse_pager html)
      by (unfold pager_at; now rewrite Hsrc).
    specialize (IH (parse_pager html) (sleep D 2 s)).
    destruct (pager_retry D n (parse_pager html) (sleep D 2 s))
      as [[[[p|]|] s'] tr]; [| |exact Logic.I].
    + destruct IH as [Hfree IH]. split; [now constructor|]. right.
      destruct IH as [[Hp ->]|Hp]; congruence.
    + destruct IH as (Hfree & Hp & -> & Hk).
      repeat split; [now constructor|..].
      * unfold after_waits. now rewrite Nat.iter_succ_r.
      * intros [|[|k]] Hle; [lia|cbn; congruence|].
        unfold after_waits. rewrite Nat.iter_succ_r. apply (Hk (S k)). lia.
Qed.

Lemma click_next_run s :
  click_next_js D s =
    (Ok (match snd (next_click D s) with Some _ => true | None => false end),
     fst (next_click D s), []).
Proof.
  unfold click_next_js, next_click, mute, catch, bind, run_js, ret.
  now destruct (execute_script D JsClickNext s) as [s1 [v|]].
Qed.

Lemma click_page_number_run next s :
  click_page_number_js D next s =
    (Ok (match snd (execute_script D (JsClickPageNumber next) s) with
         | Some _ => true
         | None => false
         end),
     fst (execute_script D (JsClickPageNumber next) s), []).
Proof.
  unfold click_page_number_js, mute, catch, bind, run_js, ret.
  now destruct (execute_script D (JsClickPageNumber next) s) as [s1 [v|]].
Qed.

(** The end of a round: why it leaves the loop, or why it goes on. *)
Lemma turn_page_run st s :
  match turn_page D st s with
  | (Exn, _, _) => True
  | (Ok (st', why), s', tr) =>
      extends st st' tr /\
      match why with
      | Some r => stop_justified D r st' s s'
      | None => goes_on D st'
      end
  end.
Proof.
  unfold turn_page. rewrite bind_page_source.
  destruct (get_page_source D s) as [html|] eqn:Hsrc; [|exact Logic.I].
  assert (Hat0 : pager_at D s = parse_pager html)
    by (unfold pager_at; now rewrite Hsrc).
  pose proof (pager_retry_run 5 (parse_pager html) s) as Hp.
  destruct (pager_retry D 5 (parse_pager html) s) as [[[pager|] s1] t1] eqn:Hrun.
  2: { rewrite (bind_run_exn _ _ _ _ _ Hrun). exact Logic.I. }
  rewrite (bind_run _ _ _ _ _ _ Hrun). destruct pager as [p|].
  - destruct Hp as [Hfree Hp].
    assert (Hat : pager_at D s1 = Some p)
      by (destruct Hp as [[Hp ->]|Hp]; congruence).
    destruct (total_pages p <=? page p) eqn:Hlast.
    { cbn. split.
      - apply extends_same; try reflexivity. now rewrite app_nil_r.
      - exists p. repeat split; [exact Hat|]. now apply Z.leb_le. }
    apply Z.leb_gt in Hlast.
    rewrite (bind_run _ _ _ _ _ _ (click_next_run s1)).
    destruct (snd (next_click D s1)) as [v|] eqn:Hn.
    { rewrite bind_ret. cbn. split.
      - apply extends_same; try reflexivity.
        apply Forall_app. split; [exact Hfree|now repeat constructor].
      - exists s1, p. repeat split; try assumption. left. congruence. }
    rewrite (bind_run _ _ _ _ _ _ (click_page_number_run _ _)).
    fold (number_click D (page p + 1) s1).
    destruct (snd (number_click D (page p + 1) s1)) as [v|] eqn:Hk.
    { cbn. split.
      - apply extends_same; try reflexivity.
        apply Forall_app. split; [exact Hfree|now repeat constructor].
      - exists s1, p. repeat split; try assumption. right. congruence. }
    cbn. split.
    + apply extends_same; try reflexivity. now rewrite app_nil_r.
    + exists s1, p. repeat split; try assumption.
      rewrite <- Hk. apply surjective_pairing.
  - destruct Hp as (Hfree & Hp & -> & Hk). cbn. split.
    + apply extends_same; try reflexivity. now rewrite app_nil_r.
    + split; [reflexivity|]. intros [|k] Hle; [|apply Hk; lia].
      change (pager_at D s = None). congruence.
Qed.

(** One round of the loop. *)
Lemma page_body_run st s :
  match page_body D W keyword letter out_dir first_keyword st s with
  | (Exn, _, _) => True
  | (Ok (st', why), s', tr) =>
      extends st st' tr /\
      match why with
      | Some r => exists s0, stop_justified D r st' s0 s'
      | None => goes_on D st'
      end
  end.
Proof.
  unfold page_body. pose proof (capture_page_carries st s) as Hc.
  destruct (capture_page D W keyword letter out_dir first_keyword st s)
    as [[[st1|] s1] t1] eqn:Hrun.
  2: { rewrite (bind_run_exn _ _ _ _ _ Hrun). exact Logic.I. }
  rewrite (bind_run _ _ _ _ _ _ Hrun).
  pose proof (turn_page_run st1 s1) as Ht.
  destruct (turn_page D st1 s1) as [[[[st' why]|] s'] tr]; [|exact Logic.I].
  destruct Ht as [He Hw]. split; [now apply (extends_trans _ st1)|].
  destruct why; eauto.
Qed.

Lemma pages_loop_carries fuel : forall st s,
  match pages_loop D W keyword letter out_dir first_keyword fuel st s with
  | (Ok (st', _), _, tr) => extends st st' tr
  | (Exn, _, _) => True
  end.
Proof.
  induction fuel as [|fuel IH]; intros st s; cbn [pages_loop].
  - cbn. apply extends_refl. constructor.
  - pose proof (page_body_run st s) as Hb.
    destruct (page_body D W keyword letter out_dir first_keyword st s)
      as [[[[st1 why]|] s1] t1] eqn:Hrun.
    2: { rewrite (bind_run_exn _ _ _ _ _ Hrun). exact Logic.I. }
    rewrite (bind_run _ _ _ _ _ _ Hrun). destruct Hb as [He _].
    destruct why as [r|]; cbn [snd fst].
    + cbn. now rewrite app_nil_r.
    + specialize (IH st1 s1).
      destruct (pages_loop D W keyword letter out_dir first_keyword fuel st1 s1)
        as [[[[st' why]|] s'] tr]; [|exact Logic.I].
      now apply (extends_trans _ st1).
Qed.

(** From the first round on: the records of the loop. *)
Lemma pages_loop_records fuel s :
  match pages_loop D W keyword letter out_dir first_keyword fuel
          initial_loop_state s with
  | (Ok (st, _), _, tr) =>
      NoDup (map BusinessID (html_details_records st)) /\
      map BusinessID (html_details_records st) = captured (detail_events tr) /\
      follows ∅ (yielded st) (detail_events tr) /\
      follows ∅ (yielded st) (pdf_events tr)
  | (Exn, _, _) => True
  end.
Proof.
  pose proof (pages_loop_carries fuel initial_loop_state s) as H.
  destruct (pages_loop D W keyword letter out_dir first_keyword fuel
              initial_loop_state s) as [[[[st why]|] s'] tr]; [|exact Logic.I].
  destruct H as (objs & Ha & Hd & Hp & Hv & Hm & Hr).
  cbn [initial_loop_state api_pages visited_detail_ids pdf_data_by_id
       html_details_records map concat app] in *.
  rewrite dom_empty_L in Hp. unfold yielded. rewrite Ha, Hr.
  repeat split; try assumption.
  now destruct (follows_captured _ _ _ Hd).
Qed.

Lemma finish_writes_records st :
  returns (fun out => match details_written out with
                      | Some (_, recs) => recs = html_details_records st
                      | None => True
                      end)
    (finish D keyword letter out_dir st).
Proof.
  unfold finish. apply returns_bind. intros wrote.
  apply returns_bind. intros wrote_api. apply returns_ret.
  now destruct wrote.
Qed.

Lemma scrape_keyword_records fuel :
  returns (fun o => match o with
                    | Some out =>
                        match details_written out with
                        | Some (_, recs) => NoDup (map BusinessID recs)
                        | None => True
                        end
                    | None => True
                    end)
    (scrape_keyword D W keyword letter out_dir first_keyword fuel).
Proof.
  unfold scrape_keyword. apply returns_bind. intros on_form.
  destruct (negb on_form); [now apply returns_ret|].
  apply returns_bind. intros form_ok.
  destruct (negb form_ok); [now apply returns_ret|].
  do 4 (apply returns_bind; intros _).
  apply (returns_bind_with
           (fun r => NoDup (map BusinessID (html_details_records (fst r))))).
  - intros s. pose proof (pages_loop_records fuel s) as H. unfold outcome_of.
    destruct (pages_loop D W keyword letter out_dir first_keyword fuel
                initial_loop_state s) as [[[[st why]|] s'] tr]; [|exact Logic.I].
    apply H.
  - intros [st why] Hnd. destruct why; cbn [snd fst]; [|now apply returns_ret].
    apply (returns_bind_with _ _ _ _ (finish_writes_records st)).
    intros out Hout. apply returns_ret.
    destruct (details_written out) as [[p recs]|]; [|exact Logic.I].
    now subst recs.
Qed.

End Passes.

(** C1 (as the code has it).  In a run of the page loop of
    [scrape_keyword] the captured detail records carry pairwise distinct
    identifiers, one for each successful capture, and so do the records
    the function writes.  The detail pass goes over the business objects
    the model channel yielded, page after page: it passes over an
    occurrence whose identifier is falsy or has a record already, and
    tries to capture every other one -- a later occurrence of an
    identifier is skipped only once a capture of it has succeeded, and
    is tried again after a failed one.  The PDF pass handles every
    truthy identifier at its first occurrence and none after. *)
Theorem one_detail_record_per_identifier (D : Driver) (W : Site D)
    (keyword letter : string) (out_dir : path) (first_keyword : bool)
    (fuel : nat) (s : St D) :
  match pages_loop D W keyword letter out_dir first_keyword fuel
          initial_loop_state s with
  | (Ok (st, _), _, tr) =>
      NoDup (map BusinessID (html_details_records st)) /\
      map BusinessID (html_details_records st) = captured (detail_events tr) /\
      follows ∅ (yielded st) (detail_events tr) /\
      follows ∅ (yielded st) (pdf_events tr)
  | (Exn, _, _) => True
  end /\
  match outcome_of
          (scrape_keyword D W keyword letter out_dir first_keyword fuel) s with
  | Ok (Some out) =>
      match details_written out with
      | Some (_, recs) => NoDup (map BusinessID recs)
      | None => True
      end
  | _ => True
  end.
Proof.
  split; [apply pages_loop_records|].
  pose proof (scrape_keyword_records D W keyword letter out_dir first_keyword
                fuel s) as H.
  destruct (outcome_of _ s) as [[out|]|]; auto.
Qed.

(** C1, as stated, fails: the business 200 is listed on both pages of a
    search; its detail view does not open from page 1, so the occurrence
    on page 2 is not skipped: the view is opened and the record captured
    there. *)
Lemma repeated_identifier_counterexample :
  let m := scrape_keyword (Examples.stack_driver Examples.no_failure)
             (Examples.stack_site Examples.no_failure) "ac" "A"
             ["out"%string] true 5 in
  detail_attempts (trace_of m Examples.overlap_session) =
    [(JNum 200, 1, false); (JNum 200, 2, true)] /\
  match outcome_of m Examples.overlap_session with
  | Ok (Some out) =>
      option_map (fun x => map (fun pg => (fst pg, map biz_id_of (snd pg)))
                             (snd x)) (api_written out) =
        Some [(1, [JNum 200]); (2, [JNum 200])] /\
      details_failed (result out) = 1 /\
      details_success (result out) = 1 /\
      option_map (fun x => map BusinessID (snd x)) (details_written out) =
        Some [JNum 200]
  | _ => False
  end.
Proof. now vm_compute. Qed.

End LoopFacts.

(** ** The page loop of [scrape_keyword]: when it is left *)

Module PagingFacts.
Import Text Session Json Data Pager Scrape Spec SessionFacts LoopFacts Examples.

Section Stops.
Context (D : Driver) (W : Site D).
Context (keyword letter : string) (out_dir : path) (first_keyword : bool).
Local Abbreviation loop := (pages_loop D W keyword letter out_dir first_keyword).
Local Abbreviation body := (page_body D W keyword letter out_dir first_keyword).

(** However many rounds are allowed: the loop is left for a reason that
    holds, or it is still going after a round that advanced. *)
Lemma pages_loop_reasons fuel : forall st s,
  match loop fuel st s with
  | (Ok (st', Some r), s', _) => exists s0, stop_justified D r st' s0 s'
  | (Ok (st', None), _, _) => fuel = 0%nat /\ st' = st \/ goes_on D st'
  | (Exn, _, _) => True
  end.
Proof.
  induction fuel as [|fuel IH]; intros st s; cbn [pages_loop].
  - cbn. now left.
  - pose proof (page_body_run D W keyword letter out_dir first_keyword st s)
      as Hb.
    destruct (body st s) as [[[[st1 why]|] s1] t1] eqn:Hrun.
    2: { rewrite (bind_run_exn _ _ _ _ _ Hrun). exact Logic.I. }
    rewrite (bind_run _ _ _ _ _ _ Hrun). destruct Hb as [_ Hb].
    destruct why as [r|]; cbn [snd fst]; [exact Hb|].
    specialize (IH st1 s1).
    destruct (loop fuel st1 s1) as [[[[st' [r|]]|] s'] tr]; auto.
    destruct IH as [[_ ->]|IH]; right; [exact Hb|exact IH].
Qed.

Context (I : St D -> Prop) (mu : St D -> nat).
Hypothesis advance :
  forall st s st' s' tr,
    I s -> body st s = (Ok (st', None), s', tr) -> I s' /\ (mu s' < mu s)%nat.

(** With every round that goes on nearer to the end, the loop is left. *)
Lemma pages_loop_left n : forall st s,
  I s -> (mu s < n)%nat ->
  match loop n st s with
  | (Ok (_, None), _, _) => False
  | _ => True
  end.
Proof.
  induction n as [|n IH]; intros st s Hs Hn; [lia|]. cbn [pages_loop].
  destruct (body st s) as [[[[st1 why]|] s1] t1] eqn:Hrun.
  2: { rewrite (bind_run_exn _ _ _ _ _ Hrun). exact Logic.I. }
  rewrite (bind_run _ _ _ _ _ _ Hrun).
  destruct why as [r|]; cbn [snd fst]; [exact Logic.I|].
  destruct (advance _ _ _ _ _ Hs Hrun) as [Hs1 Hlt].
  specialize (IH st1 s1 Hs1 ltac:(lia)).
  now destruct (loop n st1 s1) as [[[[st' [r|]]|] s'] tr].
Qed.
End Stops.

(** *** On the stack of pages *)

Section Stack.
Context (keyword letter : string) (out_dir : path) (first_keyword : bool).
Local Abbreviation SD := (stack_driver no_failure).
Local Abbreviation SW := (stack_site no_failure).
Local Abbreviation loop := (pages_loop SD SW keyword letter out_dir first_keyword).
Local Abbreviation body := (page_body SD SW keyword letter out_dir first_keyword).

Lemma stack_capture st p rest :
  p_business p = [] ->
  exists st1 tr,
    capture_page SD SW keyword letter out_dir first_keyword st (p :: rest)
      = (Ok st1, p :: rest, tr).
Proof.
  intros Hb. unfold capture_page.
  rewrite bind_sleep, bind_page_source. cbn [get_page_source sleep stack_driver
    head option_map].
  rewrite bind_do. cbn [perform stack_driver no_failure action_is_click fst snd].
  cbn [parse_rows stack_site length Nat.eqb]. rewrite andb_false_r, bind_ret.
  rewrite bind_mute.
  cbn [get_business_list_via_angular stack_site fst snd]. rewrite Hb.
  cbn. eauto.
Qed.

Lemma stack_pager_retry n pager p rest :
  exists tr,
    pager_retry SD n pager (p :: rest) =
      (Ok match pager, n with
          | Some x, _ => Some x
          | None, O => None
          | None, S _ => parse_pager (chars (p_html p))
          end, p :: rest, tr).
Proof.
  revert pager. induction n as [|n IH]; intros [x|]; cbn [pager_retry];
    try (now eexists).
  rewrite bind_sleep, bind_page_source.
  cbn [get_page_source sleep stack_driver head option_map].
  destruct (IH (parse_pager (chars (p_html p)))) as [tr ->].
  eexists. f_equal. f_equal. f_equal.
  destruct (parse_pager (chars (p_html p))), n; reflexivity.
Qed.

(** The end of a round on the stack: the page on display decides. *)
Lemma stack_turn st p rest :
  exists tr,
    turn_page SD st (p :: rest) =
      match parse_pager (chars (p_html p)) with
      | None => (Ok (st, Some NoPager), p :: rest, tr)
      | Some pg =>
          if total_pages pg <=? Pager.page pg
          then (Ok (with_page_index st (Pager.page pg), Some LastPage), p :: rest, tr)
          else (Ok (with_page_index st (Pager.page pg + 1), None),
                if p_next_works p then rest else p :: rest, tr)
      end.
Proof.
  unfold turn_page. rewrite bind_page_source.
  cbn [get_page_source stack_driver head option_map].
  destruct (stack_pager_retry 5 (parse_pager (chars (p_html p))) p rest)
    as [tr Hrun].
  rewrite (bind_run _ _ _ _ _ _ Hrun).
  destruct (parse_pager (chars (p_html p))) as [pg|]; [|now eexists].
  destruct (total_pages pg <=? Pager.page pg); [now eexists|].
  rewrite (bind_run _ _ _ _ _ _ (click_next_run SD _)).
  cbn [next_click execute_script stack_driver snd fst]. rewrite bind_ret.
  cbn [negb]. rewrite bind_sleep. cbn. now eexists.
Qed.

Lemma stack_body st p rest :
  p_business p = [] ->
  exists st1 tr,
    body st (p :: rest) =
      match parse_pager (chars (p_html p)) with
      | None => (Ok (st1, Some NoPager), p :: rest, tr)
      | Some pg =>
          if total_pages pg <=? Pager.page pg
          then (Ok (with_page_index st1 (Pager.page pg), Some LastPage), p :: rest, tr)
          else (Ok (with_page_index st1 (Pager.page pg + 1), None),
                if p_next_works p then rest else p :: rest, tr)
      end.
Proof.
  intros Hb. unfold page_body.
  destruct (stack_capture st p rest Hb) as (st1 & t1 & Hrun).
  rewrite (bind_run _ _ _ _ _ _ Hrun).
  destruct (stack_turn st1 p rest) as [t2 ->]. exists st1, (t1 ++ t2).
  destruct (parse_pager (chars (p_html p))) as [pg|]; [|reflexivity].
  now destruct (total_pages pg <=? Pager.page pg).
Qed.

(** Pages without business objects whose "next" control works. *)
Lemma stack_round_advances st s st' s' tr :
  Forall (fun p => p_business p = [] /\ p_next_works p = true) s ->
  body st s = (Ok (st', None), s', tr) ->
  Forall (fun p => p_business p = [] /\ p_next_works p = true) s' /\
  (length s' < length s)%nat.
Proof.
  intros Hs Hrun. destruct Hs as [|p rest [Hb Hn] Hrest].
  - discriminate Hrun.
  - destruct (stack_body st p rest Hb) as (st1 & t1 & H). rewrite H in Hrun.
    destruct (parse_pager (chars (p_html p))) as [pg|]; [|discriminate].
    destruct (total_pages pg <=? Pager.page pg); [discriminate|].
    rewrite Hn in Hrun. injection Hrun as _ <- _. split; [exact Hrest|].
    cbn. lia.
Qed.

(** On the page whose "next" control does nothing the loop goes round
    for ever. *)
Lemma stuck_loop fuel : forall st,
  exists st' tr, loop fuel st [stuck_page] = (Ok (st', None), [stuck_page], tr).
Proof.
  induction fuel as [|fuel IH]; intros st; cbn [pages_loop];
    [now exists st, []|].
  destruct (stack_body st stuck_page [] eq_refl) as (st1 & t1 & Hrun).
  assert (Hpg : parse_pager (chars (p_html stuck_page))
                = Some (mkPager 1 2 1 25 50)) by now vm_compute.
  rewrite Hpg in Hrun. cbv iota in Hrun.
  change (total_pages _ <=? Pager.page _) with false in Hrun.
  change (p_next_works stuck_page) with false in Hrun. cbv iota in Hrun.
  rewrite (bind_run _ _ _ _ _ _ Hrun). cbn [snd fst].
  match goal with
  | |- context [pages_loop _ _ _ _ _ _ fuel ?x _] =>
      destruct (IH x) as (st' & tr & ->)
  end.
  now exists st', (t1 ++ tr).
Qed.
End Stack.

(** Runs the first call of a computation on a concrete session. *)
Ltac run_prefix :=
  match goal with
  | |- outcome_of (bind ?m ?f) ?s = _ =>
      let x := eval vm_compute in (m s) in
      match x with
      | (Ok ?a, ?s1, ?t1) =>
          rewrite (outcome_bind m f s a s1 t1) by (vm_compute; reflexivity);
          cbv beta iota delta [negb]
      end
  end.

(** C7 (as the code has it).  The page loop of [scrape_keyword] is left
    only for one of three reasons: the pager was unreadable at the read
    after the page and at five more reads two seconds apart; the pager
    showed a page that is not before the last one; or the pager showed an
    earlier page and both advance scripts raised.  A round that goes on
    had a pager short of the last page and an advance script that ran; the
    page then on display is not looked at, so a navigation that is stuck
    is no reason to leave.  The loop is left after finitely many rounds
    whenever every round that goes on brings the session nearer to its
    end: from the states of [I], which such rounds preserve, with a
    measure [mu] they decrease. *)
Theorem pagination_stops_when_pages_advance (D : Driver) (W : Site D)
    (keyword letter : string) (out_dir : path) (first_keyword : bool)
    (I : St D -> Prop) (mu : St D -> nat)
    (advance : forall st s st' s' tr,
       I s ->
       page_body D W keyword letter out_dir first_keyword st s
         = (Ok (st', None), s', tr) ->
       I s' /\ (mu s' < mu s)%nat)
    (st : LoopState) (s : St D) (Hs : I s) :
  (forall fuel,
     match pages_loop D W keyword letter out_dir first_keyword fuel st s with
     | (Ok (st', Some r), s', _) => exists s0, stop_justified D r st' s0 s'
     | (Ok (st', None), _, _) => fuel = 0%nat /\ st' = st \/ goes_on D st'
     | (Exn, _, _) => True
     end) /\
  exists fuel,
    match pages_loop D W keyword letter out_dir first_keyword fuel st s with
    | (Ok (_, None), _, _) => False
    | _ => True
    end.
Proof.
  split.
  - intros fuel. apply pages_loop_reasons.
  - exists (S (mu s)). apply (pages_loop_left _ _ _ _ _ _ I mu advance); [exact Hs|lia].
Qed.

(** Two pages whose "next" control works: the loop is left. *)
Lemma pagination_stops_when_pages_advance_witness :
  let loop := pages_loop (stack_driver no_failure) (stack_site no_failure)
                "ac" "A" ["out"%string] true in
  (forall fuel,
     match loop fuel initial_loop_state two_page_session with
     | (Ok (st', Some r), s', _) =>
         exists s0, stop_justified (stack_driver no_failure) r st' s0 s'
     | (Ok (st', None), _, _) =>
         fuel = 0%nat /\ st' = initial_loop_state \/
         goes_on (stack_driver no_failure) st'
     | (Exn, _, _) => True
     end) /\
  exists fuel,
    match loop fuel initial_loop_state two_page_session with
    | (Ok (_, None), _, _) => False
    | _ => True
    end.
Proof.
  apply (pagination_stops_when_pages_advance
           (stack_driver no_failure) (stack_site no_failure)
           "ac" "A" ["out"%string] true
           (Forall (fun p => p_business p = [] /\ p_next_works p = true))
           (@length page)).
  - intros st s st' s' tr. apply stack_round_advances.
  - repeat constructor.
Defined.

(** C7, as stated, fails: the page on display is the first of two and its
    "next" control does nothing; the advance script runs without raising
    and leaves the page where it is, and the loop goes round on that page
    however many rounds it is given: no round detects that the navigation
    is stuck. *)
Lemma stuck_navigation_counterexample :
  pager_at (stack_driver no_failure) [stuck_page] = Some (mkPager 1 2 1 25 50) /\
  next_click (stack_driver no_failure) [stuck_page]
    = ([stuck_page], Some JsNull) /\
  forall fuel,
    outcome_of (scrape_keyword (stack_driver no_failure)
                  (stack_site no_failure) "ac" "A" ["out"%string] true fuel)
      stuck_session = Ok None.
Proof.
  split; [now vm_compute|]. split; [reflexivity|].
  intros fuel. unfold scrape_keyword.
  do 6 run_prefix.
  destruct (stuck_loop "ac" "A" ["out"%string] true fuel initial_loop_state)
    as (st' & tr & Hrun).
  now rewrite (outcome_bind _ _ _ _ _ _ Hrun).
Qed.

End PagingFacts.

(** ** Resuming a letter *)

Module ResumeFacts.
Import Text Session Json Data Resume Spec.

Lemma row_keyword_done d kw :
  row_keyword (Row d) = Some kw ->
  truthy (dict_get d "keyword") = true /\ py_str (dict_get d "keyword") = kw.
Proof.
  unfold row_keyword, dict_get.
  destruct (d !! "keyword"%string) as [[| |k]|]; try discriminate.
  destruct (String.eqb k "") eqn:E; [discriminate|].
  intros [= <-]. cbn. now rewrite E.
Qed.

(** On the file a run leaves, the keywords done are those it holds. *)
Lemma done_keywords_tracked data :
  run_output data -> done_keywords_of data = Some (list_to_set (tracked data)).
Proof.
  induction 1 as [|row data [kw Hkw] _ IH]; [reflexivity|].
  unfold tracked. cbn [done_keywords_of omap list_omap].
  destruct row as [d|]; [|discriminate]. rewrite IH, Hkw.
  now destruct (row_keyword_done d kw Hkw) as [-> ->].
Qed.

Lemma pending_tracked keywords l :
  pending_keywords keywords (list_to_set l) =
    List.filter (fun kw => bool_decide (kw ∉ l)) keywords.
Proof.
  unfold pending_keywords. apply List.filter_ext. intros kw.
  apply bool_decide_ext. now rewrite elem_of_list_to_set.
Qed.

Lemma load_keywords_nonempty file :
  Forall (fun kw => kw <> ""%string) (load_keywords file).
Proof.
  destruct file as [lines|]; [|constructor]. cbn [load_keywords].
  apply List.Forall_forall. intros kw [_ H]%List.filter_In.
  intros ->. discriminate H.
Qed.

Lemma filter_none {A} (f : A -> bool) l :
  Forall (fun x => f x = false) l -> List.filter f l = [].
Proof. induction 1 as [|x l Hx _ IH]; [reflexivity|]. cbn. now rewrite Hx. Qed.

Lemma tracked_app l1 l2 : tracked (l1 ++ l2) = tracked l1 ++ tracked l2.
Proof. apply omap_app. Qed.

Lemma run_output_app l1 l2 :
  run_output l1 -> run_output l2 -> run_output (l1 ++ l2).
Proof. intros H1 H2. apply Forall_app. now split. Qed.

Section Run.
Context {Sess : Type}.
Context (scrape : string -> bool -> Sess -> Sess * (KeywordResult + string)).
Context (with_pdf : bool).

Lemma tracking_entry_keyword keyword r :
  keyword <> ""%string ->
  row_keyword (Row (tracking_entry with_pdf keyword r)) = Some keyword.
Proof.
  intros Hne. unfold row_keyword, tracking_entry.
  destruct with_pdf; repeat (rewrite lookup_insert_ne by discriminate);
    rewrite lookup_insert_eq; now apply String.eqb_neq in Hne as ->.
Qed.

Lemma error_entry_keyword keyword msg :
  keyword <> ""%string ->
  row_keyword (Row (error_entry with_pdf keyword msg)) = Some keyword.
Proof.
  intros Hne. unfold row_keyword, error_entry.
  destruct with_pdf; repeat (rewrite lookup_insert_ne by discriminate);
    rewrite lookup_insert_eq; now apply String.eqb_neq in Hne as ->.
Qed.

(** The rows a run appends: one for each keyword, in order, the file
    being rewritten after each. *)
Lemma run_keywords_appends keywords : forall idx st,
  Forall (fun kw => kw <> ""%string) keywords ->
  exists new,
    tracking_combined (run_keywords scrape with_pdf idx keywords st)
      = tracking_combined st ++ new /\
    scheduled (run_keywords scrape with_pdf idx keywords st)
      = scheduled st ++ keywords /\
    tracked new = keywords /\
    run_output new /\
    flushes (run_keywords scrape with_pdf idx keywords st)
      = flushes st
        ++ map (fun n => tracking_combined st ++ take n new)
               (seq 1 (length new)).
Proof.
  induction keywords as [|keyword rest IH]; intros idx st Hne.
  - exists []. cbn. rewrite !app_nil_r. repeat split. constructor.
  - apply Forall_cons in Hne as [Hkw Hne]. cbn [run_keywords].
    destruct (scrape keyword (Nat.eqb idx 1) (session st)) as [s1 r].
    set (row := match r with
                | inl result => Row (tracking_entry with_pdf keyword result)
                | inr msg => Row (error_entry with_pdf keyword msg)
                end).
    assert (Hrow : row_keyword row = Some keyword).
    { subst row. destruct r;
        [now apply tracking_entry_keyword|now apply error_entry_keyword]. }
    destruct (IH (S idx)
                (mkRun s1 (tracking_combined st ++ [row])
                   (scheduled st ++ [keyword])
                   (flushes st ++ [tracking_combined st ++ [row]])) Hne)
      as (new & -> & -> & Ht & Ho & ->).
    exists (row :: new). cbn [tracking_combined scheduled flushes].
    rewrite <- !app_assoc. repeat split.
    + unfold tracked in *. cbn [omap list_omap]. now rewrite Hrow, Ht.
    + constructor; [now rewrite Hrow|exact Ho].
    + cbn [length seq map take app]. f_equal. f_equal.
      rewrite <- (seq_shift (length new) 1), map_map. apply map_ext.
      intros n. cbn [take]. now rewrite <- app_assoc.
Qed.
End Run.



End ResumeFacts.

(** ** File-name parts and keyword files *)

Module NameFacts.
Import Text Scrape Resume NameSpec.

Lemma chars_of_text t : chars (string_of_list_ascii t) = t.
Proof. apply list_ascii_of_string_of_list_ascii. Qed.

Lemma text_of_chars s : string_of_list_ascii (chars s) = s.
Proof. apply string_of_list_ascii_of_string. Qed.

(** A function that drops the leading characters of a class, and what it
    does at the other end when it is run on the reversed text. *)
Section Strip.
Variable cls : ascii -> bool.
Variable f : text -> text.
Hypothesis f_nil : f [] = [].
Hypothesis f_cons : forall c s, f (c :: s) = if cls c then f s else c :: s.

Local Abbreviation begins_outside := (begins_outside cls).
Local Abbreviation both := (both f).

Lemma drop_split s : exists pre, s = pre ++ f s /\ forallb cls pre = true.
Proof.
  induction s as [|c s (pre & Hs & Hpre)]; [now exists []; rewrite f_nil|].
  rewrite f_cons. destruct (cls c) eqn:E; [|now exists []].
  exists (c :: pre). cbn. now rewrite E, <- Hs.
Qed.

Lemma drop_begins s : begins_outside (f s).
Proof.
  induction s as [|c s IH]; [now rewrite f_nil|].
  rewrite f_cons. now destruct (cls c) eqn:E.
Qed.

Lemma drop_fixed s : begins_outside s -> f s = s.
Proof. destruct s as [|c s]; [easy|]. cbn. intros H. now rewrite f_cons, H. Qed.

Lemma begins_prefix a b : a <> [] -> begins_outside (a ++ b) -> begins_outside a.
Proof. now destruct a. Qed.

Lemma begins_rev_all s : forallb cls s = true -> s <> [] -> ~ begins_outside (rev s).
Proof.
  intros Hall Hne Hb. destruct (rev s) as [|c r] eqn:E.
  - apply (f_equal (@rev _)) in E. rewrite rev_involutive in E. now subst.
  - cbn in Hb. assert (Hin : In c s) by (apply in_rev; rewrite E; now left).
    rewrite forallb_forall in Hall. rewrite (Hall _ Hin) in Hb. discriminate.
Qed.

(** Both ends dropped: the middle that is left, and what it is between. *)
Lemma both_split s :
  exists pre suf,
    s = pre ++ both s ++ suf /\
    forallb cls pre = true /\ forallb cls suf = true.
Proof.
  destruct (drop_split s) as (pre & Hs & Hpre).
  destruct (drop_split (rev (f s))) as (suf & Hr & Hsuf).
  exists pre, (rev suf). unfold NameSpec.both. repeat split; [|assumption|].
  - rewrite <- rev_app_distr, <- Hr, rev_involutive. exact Hs.
  - rewrite forallb_forall in *. intros c Hc. apply Hsuf. now apply in_rev.
Qed.

Lemma both_ends s : begins_outside (both s) /\ begins_outside (rev (both s)).
Proof.
  unfold NameSpec.both. rewrite rev_involutive. split; [|apply drop_begins].
  destruct (drop_split (rev (f s))) as (suf & Hr & Hsuf).
  pose proof (drop_begins s) as Hb.
  apply (f_equal (@rev _)) in Hr. rewrite rev_involutive, rev_app_distr in Hr.
  destruct (rev (f (rev (f s)))) as [|c r] eqn:E; [easy|].
  rewrite Hr in Hb. exact Hb.
Qed.

Lemma both_fixed s :
  begins_outside s -> begins_outside (rev s) -> both s = s.
Proof.
  intros H1 H2. unfold NameSpec.both.
  now rewrite (drop_fixed s H1), (drop_fixed _ H2), rev_involutive.
Qed.

Lemma both_idempotent s : both (both s) = both s.
Proof. destruct (both_ends s). now apply both_fixed. Qed.
End Strip.

Lemma lstrip_cons c s : lstrip (c :: s) = if is_space c then lstrip s else c :: s.
Proof. reflexivity. Qed.

Lemma lstrip_underscore_cons c s :
  lstrip_underscore (c :: s) =
    if Ascii.eqb c "_" then lstrip_underscore s else c :: s.
Proof. reflexivity. Qed.

Lemma strip_text_idempotent t : strip_text (strip_text t) = strip_text t.
Proof. exact (both_idempotent is_space lstrip eq_refl lstrip_cons t). Qed.

Lemma strip_idempotent s : strip (strip s) = strip s.
Proof. unfold strip. now rewrite chars_of_text, strip_text_idempotent. Qed.

Lemma last_is_head_of_rev {A} (l : list A) : last l = head (rev l).
Proof.
  rewrite <- (rev_involutive l) at 1. induction (rev l) as [|a r IH]; [easy|].
  cbn. now rewrite last_snoc.
Qed.

(** *** [sanitize_for_filename] *)

Lemma squash_tidy s : forall b, tidy b (squash s b) = true.
Proof.
  induction s as [|c s IH]; intros b; [easy|]. cbn [squash].
  destruct (is_alnum c) eqn:E; cbn [tidy]; [rewrite E; apply IH|].
  destruct b; [apply IH|]. cbn [tidy].
  change (is_alnum "_") with false. cbn. apply IH.
Qed.

Lemma tidy_fixed t : forall b, tidy b t = true -> squash t b = t.
Proof.
  induction t as [|c t IH]; intros b H; [easy|]. cbn [squash tidy] in *.
  destruct (is_alnum c); [now rewrite IH|].
  apply andb_true_iff in H as [[Hc Hb]%andb_true_iff H].
  apply Ascii.eqb_eq in Hc as ->. destruct b; [discriminate|]. now rewrite IH.
Qed.

Lemma tidy_weaken t : tidy true t = true -> tidy false t = true.
Proof.
  destruct t as [|c t]; [easy|]. cbn [tidy]. destruct (is_alnum c); [easy|].
  cbn [negb]. now rewrite andb_false_r.
Qed.

Lemma tidy_prefix a : forall b t, tidy b (a ++ t) = true -> tidy b a = true.
Proof.
  induction a as [|c a IH]; intros b t H; [easy|]. cbn [tidy app] in *.
  destruct (is_alnum c); [now apply (IH _ t)|].
  apply andb_true_iff in H as [-> H]. now apply (IH _ t).
Qed.

Lemma tidy_name_chars t : forall b, tidy b t = true -> forallb name_char t = true.
Proof.
  induction t as [|c t IH]; intros b H; [easy|]. cbn [tidy forallb] in *.
  unfold name_char. destruct (is_alnum c); [now apply (IH false)|].
  apply andb_true_iff in H as [[-> _]%andb_true_iff H]. now apply (IH true).
Qed.

Lemma tidy_lstrip t : tidy false t = true -> tidy false (lstrip_underscore t) = true.
Proof.
  induction t as [|c t IH]; [easy|]. intros H. cbn [lstrip_underscore].
  destruct (Ascii.eqb c "_") eqn:E; [|exact H].
  apply Ascii.eqb_eq in E as ->. apply IH, tidy_weaken. exact H.
Qed.

Local Abbreviation us := (fun c => Ascii.eqb c "_").
Local Abbreviation core s := (both lstrip_underscore (squash (chars s) false)).

Lemma sanitize_core s :
  sanitize_for_filename s =
    match core s with
    | [] => "kw"%string
    | t => string_of_list_ascii t
    end.
Proof. reflexivity. Qed.

Lemma core_tidy s : tidy false (core s) = true.
Proof.
  unfold NameSpec.both.
  pose proof (tidy_lstrip _ (squash_tidy (chars s) false)) as H.
  destruct (drop_split us lstrip_underscore eq_refl lstrip_underscore_cons
              (rev (lstrip_underscore (squash (chars s) false))))
    as (suf & Hr & _).
  apply (f_equal (@rev _)) in Hr. rewrite rev_involutive, rev_app_distr in Hr.
  rewrite Hr in H. now apply tidy_prefix in H.
Qed.

Lemma core_ends s :
  begins_outside us (core s) /\ begins_outside us (rev (core s)).
Proof. exact (both_ends us lstrip_underscore eq_refl lstrip_underscore_cons _). Qed.

(** A tidy word that begins and ends outside the underscores is kept. *)
Lemma core_fixed s :
  tidy false (chars s) = true ->
  begins_outside us (chars s) -> begins_outside us (rev (chars s)) ->
  core s = chars s.
Proof.
  intros Ht H1 H2. rewrite (tidy_fixed _ _ Ht).
  now apply (both_fixed us lstrip_underscore eq_refl lstrip_underscore_cons).
Qed.

Lemma safe_name_ends t :
  safe_name t -> begins_outside us t /\ begins_outside us (rev t).
Proof.
  intros (_ & _ & Hh & Hl). rewrite last_is_head_of_rev in Hl. split.
  - destruct t as [|c t]; [easy|]. cbn in *.
    destruct (Ascii.eqb c "_") eqn:E; [|easy].
    apply Ascii.eqb_eq in E as ->. now destruct Hh.
  - destruct (rev t) as [|c r]; [easy|]. cbn in *.
    destruct (Ascii.eqb c "_") eqn:E; [|easy].
    apply Ascii.eqb_eq in E as ->. now destruct Hl.
Qed.

Lemma ends_safe_name t :
  t <> [] -> tidy false t = true ->
  begins_outside us t -> begins_outside us (rev t) -> safe_name t.
Proof.
  intros Hne Ht H1 H2. split; [exact Hne|]. split; [now apply (tidy_name_chars _ false)|].
  rewrite last_is_head_of_rev. split.
  - destruct t as [|c t]; [easy|]. cbn in *. intros [= ->]. discriminate.
  - destruct (rev t) as [|c r]; [easy|]. cbn in *. intros [= ->]. discriminate.
Qed.

Lemma sanitize_safe s :
  safe_name (chars (sanitize_for_filename s)) /\
  tidy false (chars (sanitize_for_filename s)) = true.
Proof.
  rewrite sanitize_core. pose proof (core_tidy s) as Ht.
  destruct (core_ends s) as [H1 H2].
  destruct (core s) as [|c t] eqn:E.
  - split; [|reflexivity]. repeat split; easy.
  - rewrite chars_of_text. split; [|exact Ht]. now apply ends_safe_name.
Qed.

Lemma sanitize_fixed s :
  safe_name (chars s) -> tidy false (chars s) = true ->
  sanitize_for_filename s = s.
Proof.
  intros Hs Ht. destruct (safe_name_ends _ Hs) as [H1 H2].
  rewrite sanitize_core, (core_fixed s Ht H1 H2).
  destruct Hs as [Hne _]. destruct (chars s) as [|c t] eqn:E; [easy|].
  now rewrite <- E, text_of_chars.
Qed.

(** X1.  [sanitize_for_filename] always gives a usable file-name part: it
    is not empty, it holds only ASCII letters, digits and underscores (so
    no path separator, dot or blank), and it neither begins nor ends with
    an underscore. *)
Theorem sanitize_for_filename_is_safe (s : string) :
  safe_name (chars (sanitize_for_filename s)).
Proof. apply sanitize_safe. Qed.

(** X2.  [sanitize_for_filename] changes nothing the second time. *)
Theorem sanitize_for_filename_idempotent (s : string) :
  sanitize_for_filename (sanitize_for_filename s) = sanitize_for_filename s.
Proof. destruct (sanitize_safe s). now apply sanitize_fixed. Qed.

(** X3.  The keywords that are their own file-name part are exactly the
    words of ASCII letters and digits joined by single underscores: every
    other keyword is renamed, so two keywords that differ outside letters
    and digits can share their output files. *)
Theorem sanitize_for_filename_fixed_points (s : string) :
  sanitize_for_filename s = s <->
  safe_name (chars s) /\ tidy false (chars s) = true.
Proof.
  split.
  - intros H. rewrite <- H. apply sanitize_safe.
  - intros [Hs Ht]. now apply sanitize_fixed.
Qed.

(** *** [load_keywords] *)

Lemma filter_all {A} (f : A -> bool) l :
  Forall (fun x => f x = true) l -> List.filter f l = l.
Proof. induction 1 as [|x l Hx _ IH]; [easy|]. cbn. now rewrite Hx, IH. Qed.

(** X4.  Every keyword [load_keywords] returns is non-empty and has no
    white space at either end; a missing keyword file gives no keyword;
    and loading the keywords already loaded gives them back unchanged. *)
Theorem load_keywords_are_clean (file : option (list string)) :
  Forall (fun kw => kw <> ""%string /\ stripped kw) (load_keywords file) /\
  load_keywords None = [] /\
  load_keywords (Some (load_keywords file)) = load_keywords file.
Proof.
  assert (H : Forall (fun kw => kw <> ""%string /\ stripped kw)
                (load_keywords file)).
  { destruct file as [lines|]; [|constructor]. cbn [load_keywords].
    apply List.Forall_forall. intros kw [Hin Hne]%List.filter_In.
    apply in_map_iff in Hin as (l & <- & _). split.
    - intros E. now rewrite E in Hne.
    - apply strip_idempotent. }
  split; [exact H|]. split; [reflexivity|]. cbn [load_keywords].
  replace (map strip (load_keywords file)) with (load_keywords file).
  - apply filter_all. eapply Forall_impl; [exact H|].
    intros kw [Hne _]. now apply String.eqb_neq in Hne as ->.
  - symmetry. rewrite <- (map_id (load_keywords file)) at 2.
    apply map_ext_Forall. eapply Forall_impl; [exact H|]. now intros kw [_ ?].
Qed.

End NameFacts.

(** ** The summary [scrape_keyword] returns *)

Module SummaryFacts.
Import Text Session Json Data Pager Scrape Spec SessionFacts LoopFacts SummarySpec.

Lemma bind_inv {S A B} (m : @Session.M S A) (f : A -> Session.M B) s b s' tr :
  bind m f s = (Ok b, s', tr) ->
  exists a s1 t1 t2,
    m s = (Ok a, s1, t1) /\ f a s1 = (Ok b, s', t2) /\ tr = t1 ++ t2.
Proof.
  unfold bind. destruct (m s) as [[[a|] s1] t1]; [|discriminate].
  destruct (f a s1) as [[r s2] t2] eqn:E. intros [= -> -> <-].
  now exists a, s1, t1, t2.
Qed.

Lemma rows_on_pages_snoc l i n : rows_on_pages (l ++ [(i, n)]) = rows_on_pages l + n.
Proof.
  unfold rows_on_pages.
  induction l as [|p l IH]; cbn [fold_right app snd] in *; lia.
Qed.

Lemma api_total_snoc l i bl :
  api_total (l ++ [(i, bl)]) = api_total l + Z.of_nat (length bl).
Proof.
  unfold api_total.
  induction l as [|p l IH]; cbn [fold_right app snd] in *; lia.
Qed.

Lemma api_total_cons p l :
  api_total (p :: l) = Z.of_nat (length (snd p)) + api_total l.
Proof. reflexivity. Qed.

Lemma api_total_nonneg l : 0 <= api_total l.
Proof. induction l as [|p l IH]; [easy|]. rewrite api_total_cons. lia. Qed.

Section Tally.
Context (D : Driver) (W : Site D).
Context (keyword letter : string) (out_dir : path) (first_keyword : bool).
Local Abbreviation M := (@Session.M (St D)).
Local Abbreviation free := (emits (@pass_free (St D))).
Implicit Types (st : LoopState) (tr : list (event (St D))).

Lemma free_detail_events tr : Forall pass_free tr -> detail_events tr = [].
Proof. now intros [H _]%pass_free_events. Qed.

Lemma tallied_same st st' tr :
  keyword_rows st' = keyword_rows st -> pages_info st' = pages_info st ->
  html_details_records st' = html_details_records st ->
  ls_details_success st' = ls_details_success st ->
  ls_details_failed st' = ls_details_failed st ->
  api_pages st' = api_pages st ->
  Forall pass_free tr -> tallied st st' tr.
Proof.
  intros Hk Hp Hr Hs Hf Ha Ht. unfold tallied, balanced.
  rewrite Hk, Hp, Hr, Hs, Hf, Ha, (free_detail_events _ Ht). cbn [length].
  split; [tauto|]. lia.
Qed.

Lemma tallied_trans st st1 st2 tr1 tr2 :
  tallied st st1 tr1 -> tallied st1 st2 tr2 -> tallied st st2 (tr1 ++ tr2).
Proof.
  intros (Hb1 & He1 & Hf1 & Ha1) (Hb2 & He2 & Hf2 & Ha2).
  unfold tallied. rewrite detail_events_app, length_app, Nat2Z.inj_add.
  split; [tauto|]. lia.
Qed.

Lemma tallied_prefix st st' tr1 tr2 :
  Forall pass_free tr1 -> tallied st st' tr2 -> tallied st st' (tr1 ++ tr2).
Proof.
  intros H1 H2. unfold tallied in *.
  now rewrite detail_events_app, (free_detail_events _ H1).
Qed.

(** PASS 2 counts each of its attempts once. *)
Lemma detail_pass_tally l : forall idx st s,
  exists st' s' tr,
    detail_pass D W keyword letter first_keyword idx l st s = (Ok st', s', tr) /\
    ls_details_success st' + ls_details_failed st' =
      ls_details_success st + ls_details_failed st
      + Z.of_nat (length (detail_events tr)) /\
    ls_details_failed st <= ls_details_failed st' /\
    ls_details_success st' - Z.of_nat (length (html_details_records st')) =
      ls_details_success st - Z.of_nat (length (html_details_records st)) /\
    (length (detail_events tr) <= length l)%nat /\
    keyword_rows st' = keyword_rows st /\ pages_info st' = pages_info st /\
    api_pages st' = api_pages st.
Proof.
  induction l as [|biz_obj rest IH]; intros idx st s.
  - exists st, s, []. cbn [detail_pass detail_events flat_map length].
    split; [reflexivity|]. repeat split; lia.
  - cbn [detail_pass length].
    destruct (truthy (biz_id_of biz_obj)); cbn [negb].
    2: { destruct (IH (idx + 1) st s) as (st' & s' & tr & -> & H).
         exists st', s', tr. split; [reflexivity|]. intuition lia. }
    destruct (decide (biz_id_of biz_obj ∈ visited_detail_ids st)).
    { destruct (IH (idx + 1) st s) as (st' & s' & tr & -> & H).
      exists st', s', tr. split; [reflexivity|]. intuition lia. }
    destruct (guarded_call (fun _ => True)
                (fetch_business_information_via_html D W biz_obj letter keyword
                   (page_index st - 1) (idx + 1)
                   (first_keyword && (page_index st =? 1))) s)
      as (x & s1 & Hrun & _); [|exact Logic.I|].
    { intros s0. now destruct (outcome_of _ s0). }
    rewrite (bind_run _ _ _ _ _ _ Hrun). destruct x as [rec|]; rewrite bind_emit.
    + destruct (IH (idx + 1) (detail_captured st (biz_id_of biz_obj) rec) s1)
        as (st' & s' & tr & -> & He & Hf & Hr & Hl & Hk & Hp & Ha).
      eexists st', s', _. split; [reflexivity|].
      cbn [detail_events flat_map app length]. fold (detail_events tr).
      cbn [detail_captured ls_details_success ls_details_failed
           html_details_records keyword_rows pages_info api_pages] in *.
      rewrite length_app in Hr. cbn [length] in Hr.
      repeat split; try assumption; lia.
    + destruct (IH (idx + 1) (detail_failed st) s1)
        as (st' & s' & tr & -> & He & Hf & Hr & Hl & Hk & Hp & Ha).
      eexists st', s', _. split; [reflexivity|].
      cbn [detail_events flat_map app length]. fold (detail_events tr).
      cbn [detail_failed ls_details_success ls_details_failed
           html_details_records keyword_rows pages_info api_pages] in *.
      repeat split; try assumption; lia.
Qed.

Lemma tallied_bind {A} st (m : M A) (f : A -> M LoopState) s :
  free m ->
  (forall a s1, match f a s1 with
                | (Ok st', _, tr) => tallied st st' tr
                | (Exn, _, _) => True
                end) ->
  match bind m f s with
  | (Ok st', _, tr) => tallied st st' tr
  | (Exn, _, _) => True
  end.
Proof.
  intros Hm Hf. specialize (Hm s). unfold trace_of, bind in *.
  destruct (m s) as [[[a|] s1] t1]; [|exact Logic.I].
  specialize (Hf a s1). destruct (f a s1) as [[[st'|] s2] t2]; [|exact Logic.I].
  now apply tallied_prefix.
Qed.

Lemma capture_page_tallied st s :
  match capture_page D W keyword letter out_dir first_keyword st s with
  | (Ok st', _, tr) => tallied st st' tr
  | (Exn, _, _) => True
  end.
Proof.
  unfold capture_page.
  apply tallied_bind; [now apply emits_sleep|intros _ s1].
  apply tallied_bind; [apply emits_page_source|intros html s2].
  apply tallied_bind; [now apply emits_do|intros _ s3].
  apply tallied_bind.
  { destruct (_ && _); [|apply emits_ret].
    apply emits_bind; [apply rows_retry_free|intros rows].
    destruct rows; [|apply emits_ret].
    apply emits_bind; [now apply emits_do|intros _].
    apply emits_bind; [now apply emits_do|intros _]. apply emits_ret. }
  intros rows s4.
  apply tallied_bind; [apply emits_mute|intros business_list s5].
  destruct business_list as [|biz_obj business_list].
  - unfold ret. cbv beta iota. unfold tallied, balanced.
    cbn [with_page keyword_rows pages_info html_details_records
         ls_details_success ls_details_failed api_pages detail_events
         flat_map length].
    rewrite length_app, Nat2Z.inj_add, rows_on_pages_snoc.
    split; [|lia]. intros (H1 & H2 & H3). split; [lia|]. now split.
  - set (objs := biz_obj :: business_list).
    set (st1 := with_page st rows objs).
    destruct (pdf_pass_run D W keyword letter out_dir first_keyword objs
                (page_index st1) 0 (pdf_data_by_id st1) s5)
      as (pdf' & s6 & tp & Hp & _ & Hpd & _).
    rewrite (bind_run _ _ _ _ _ _ Hp).
    destruct (detail_pass_tally objs 0 (with_pdf_data st1 pdf') s6)
      as (st' & s7 & td & -> & He & Hf & Hr & Hl & Hk & Hpg & Ha).
    unfold tallied, balanced.
    rewrite detail_events_app, Hpd. cbn [app]. rewrite Hk, Hpg, Ha.
    cbn [st1 with_pdf_data with_page api_pages keyword_rows pages_info
         html_details_records ls_details_success ls_details_failed] in *.
    subst objs. cbv iota.
    rewrite length_app, Nat2Z.inj_add, rows_on_pages_snoc, api_total_snoc.
    split; [|cbn [length] in *; lia].
    intros (H1 & H2 & H3). split; [lia|]. split; [lia|].
    apply Forall_app. split; [exact H3|]. now repeat constructor.
Qed.

Lemma pager_retry_free n : forall pager, free (pager_retry D n pager).
Proof.
  induction n as [|n IH]; intros [p|]; cbn [pager_retry];
    try apply emits_ret.
  apply emits_bind; [now apply emits_sleep|intros _].
  apply emits_bind; [apply emits_page_source|intros html]. apply IH.
Qed.

(** The end of a round changes [page_index] only. *)
Lemma turn_page_keeps st s :
  match turn_page D st s with
  | (Ok (st', _), _, tr) =>
      Forall pass_free tr /\
      keyword_rows st' = keyword_rows st /\ pages_info st' = pages_info st /\
      html_details_records st' = html_details_records st /\
      ls_details_success st' = ls_details_success st /\
      ls_details_failed st' = ls_details_failed st /\
      api_pages st' = api_pages st
  | (Exn, _, _) => True
  end.
Proof.
  assert (Hfree : free (turn_page D st)).
  { unfold turn_page.
    apply emits_bind; [apply emits_page_source|intros html].
    apply emits_bind; [apply pager_retry_free|intros [p|]]; [|apply emits_ret].
    destruct (_ <=? _); [apply emits_ret|].
    apply emits_bind; [apply emits_mute|intros moved].
    apply emits_bind; [destruct moved; [apply emits_ret|apply emits_mute]|].
    intros moved2. destruct (negb moved2); [apply emits_ret|].
    apply emits_bind; [now apply emits_sleep|intros _]. apply emits_ret. }
  assert (Hret : returns (fun r =>
             keyword_rows (fst r) = keyword_rows st /\
             pages_info (fst r) = pages_info st /\
             html_details_records (fst r) = html_details_records st /\
             ls_details_success (fst r) = ls_details_success st /\
             ls_details_failed (fst r) = ls_details_failed st /\
             api_pages (fst r) = api_pages st) (turn_page D st)).
  { unfold turn_page. apply returns_bind; intros html.
    apply returns_bind; intros [p|]; [|now apply returns_ret].
    destruct (_ <=? _); [now apply returns_ret|].
    apply returns_bind; intros moved. apply returns_bind; intros moved2.
    destruct (negb moved2); [now apply returns_ret|].
    apply returns_bind; intros _. now apply returns_ret. }
  specialize (Hfree s). specialize (Hret s). unfold trace_of, outcome_of in *.
  destruct (turn_page D st s) as [[[[st' why]|] s'] tr]; [|exact Logic.I].
  now split.
Qed.

Lemma pages_loop_tallied fuel : forall st s,
  match pages_loop D W keyword letter out_dir first_keyword fuel st s with
  | (Ok (st', _), _, tr) => tallied st st' tr
  | (Exn, _, _) => True
  end.
Proof.
  induction fuel as [|fuel IH]; intros st s; cbn [pages_loop].
  - cbn. apply tallied_same; try reflexivity. constructor.
  - unfold page_body. rewrite bind_assoc.
    pose proof (capture_page_tallied st s) as Hc.
    destruct (capture_page D W keyword letter out_dir first_keyword st s)
      as [[[st1|] s1] t1] eqn:Hrun.
    2: { rewrite (bind_run_exn _ _ _ _ _ Hrun). exact Logic.I. }
    rewrite (bind_run _ _ _ _ _ _ Hrun).
    pose proof (turn_page_keeps st1 s1) as Ht.
    destruct (turn_page D st1 s1) as [[[[st2 why]|] s2] t2] eqn:Hturn.
    2: { rewrite (bind_run_exn _ _ _ _ _ Hturn). exact Logic.I. }
    rewrite (bind_run _ _ _ _ _ _ Hturn).
    destruct Ht as (Hfree & Hk & Hp & Hr & Hs & Hf & Ha).
    assert (H12 : tallied st1 st2 t2) by now apply tallied_same.
    destruct why as [r|]; cbn [snd fst].
    + cbn. rewrite app_nil_r. now apply (tallied_trans _ st1).
    + specialize (IH st2 s2).
      destruct (pages_loop D W keyword letter out_dir first_keyword fuel st2 s2)
        as [[[[st' why]|] s'] tr]; [|exact Logic.I].
      apply (tallied_trans _ st1); [exact Hc|].
      now apply (tallied_trans _ st2).
Qed.

Lemma finish_summary st s :
  match finish D keyword letter out_dir st s with
  | (Ok out, _, tr) => Forall pass_free tr /\ summary_of st out
  | (Exn, _, _) => True
  end.
Proof.
  assert (Hfree : free (finish D keyword letter out_dir st)).
  { unfold finish. cbn [FETCH_HTML_DETAILS].
    apply emits_bind.
    { destruct (html_details_records st); [apply emits_ret|].
      apply emits_bind; [now apply emits_do|intros _].
      apply emits_bind; [now apply emits_do|intros _]. apply emits_ret. }
    intros wrote. apply emits_bind; [|intros wrote_api; apply emits_ret].
    destruct (api_pages st); [apply emits_ret|].
    apply emits_bind; [now apply emits_do|intros _].
    apply emits_bind; [now apply emits_do|intros _]. apply emits_ret. }
  assert (Hret : returns (summary_of st) (finish D keyword letter out_dir st)).
  { unfold finish. cbn [FETCH_HTML_DETAILS].
    apply (returns_bind_with
             (fun w => w = match html_details_records st with
                           | [] => false
                           | _ => true
                           end)).
    { destruct (html_details_records st); [now apply returns_ret|].
      do 2 (apply returns_bind; intros _). now apply returns_ret. }
    intros wrote ->.
    apply (returns_bind_with
             (fun w => w = match api_pages st with
                           | [] => false
                           | _ => true
                           end)).
    { destruct (api_pages st); [now apply returns_ret|].
      do 2 (apply returns_bind; intros _). now apply returns_ret. }
    intros wrote_api ->. apply returns_ret. unfold summary_of.
    cbn [result details_written api_written rows pages records_scraped
         details_success details_failed details_file api_file api_records
         pdf_success pdf_fail].
    destruct (html_details_records st), (api_pages st); now repeat split. }
  specialize (Hfree s). specialize (Hret s). unfold trace_of, outcome_of in *.
  destruct (finish D keyword letter out_dir st s) as [[[out|] s'] tr];
    [now split|exact Logic.I].
Qed.

Lemma form_retry_free attempts : free (form_retry D keyword attempts).
Proof.
  induction attempts as [|attempt rest IH]; cbn [form_retry];
    [apply emits_ret|].
  apply emits_bind; [now apply emits_emit|intros _].
  apply emits_bind.
  { apply emits_catch; [|apply emits_ret].
    apply emits_bind; [|intros _; apply emits_ret]. unfold fill_form.
    apply emits_bind.
    { apply emits_catch; [now apply emits_do|].
      apply emits_bind; [now apply emits_do|intros _].
      apply emits_bind; [now apply emits_do|intros _]. now apply emits_do. }
    intros _. apply emits_bind; [now apply emits_do|intros _].
    apply emits_bind; [now apply emits_do|intros _].
    apply emits_bind; [now apply emits_do|intros _]. apply emits_mute. }
  intros ok. destruct ok; [apply emits_ret|].
  destruct (3 <=? attempt)%nat; [apply emits_ret|].
  apply emits_bind; [now apply emits_sleep|intros _].
  apply emits_bind; [now apply emits_emit|intros _].
  apply emits_bind; [apply emits_mute|intros _]. exact IH.
Qed.

(** A completed [scrape_keyword]: an early exit that tried no detail, or
    the summary of variables whose counters are in step. *)
Lemma scrape_keyword_run fuel s :
  match scrape_keyword D W keyword letter out_dir first_keyword fuel s with
  | (Ok (Some out), _, tr) =>
      (out = early_exit keyword /\ detail_events tr = []) \/
      exists st,
        summary_of st out /\ balanced st /\
        ls_details_success st + ls_details_failed st =
          Z.of_nat (length (detail_events tr)) /\
        0 <= ls_details_failed st /\
        Z.of_nat (length (detail_events tr)) <= api_total (api_pages st)
  | _ => True
  end.
Proof.
  destruct (scrape_keyword D W keyword letter out_dir first_keyword fuel s)
    as [[[[out|]|] s'] tr] eqn:Hrun; try exact Logic.I.
  unfold scrape_keyword in Hrun.
  apply bind_inv in Hrun as (on_form & s1 & t1 & t2 & H1 & Hrun & ->).
  assert (Ht1 : t1 = []).
  { unfold mute in H1. destruct (ensure_advanced_search D s) as [[r0 s0] t0].
    now injection H1 as _ _ <-. }
  subst t1. cbn [app]. destruct (negb on_form).
  { left. now injection Hrun as <- _ <-. }
  apply bind_inv in Hrun as (form_ok & s2 & t3 & t4 & H2 & Hrun & ->).
  pose proof (form_retry_free (seq 1 3) s1) as Hf3. unfold trace_of in Hf3.
  rewrite H2 in Hf3. cbn [snd] in Hf3.
  rewrite detail_events_app, (free_detail_events _ Hf3). cbn [app].
  destruct (negb form_ok).
  { left. now injection Hrun as <- _ <-. }
  apply bind_inv in Hrun as (u1 & s3 & t5 & t6 & H3 & Hrun & ->).
  apply bind_inv in Hrun as (u2 & s4 & t7 & t8 & H4 & Hrun & ->).
  apply bind_inv in Hrun as (u3 & s5 & t9 & t10 & H5 & Hrun & ->).
  apply bind_inv in Hrun as (u4 & s6 & t11 & t12 & H6 & Hrun & ->).
  apply bind_inv in Hrun as ([st why] & s7 & tl & t13 & Hloop & Hrun & ->).
  assert (E3 : free (catch (do_ D (WaitForElement "css=table.table-striped" 30))
                       (ret tt)))
    by (apply emits_catch; [now apply emits_do|apply emits_ret]).
  specialize (E3 s2). unfold trace_of in E3. rewrite H3 in E3.
  assert (E4 := emits_do D pass_free (Mkdir (details_dir out_dir))
                  (fun _ => Logic.I) s3).
  assert (E5 := emits_do D pass_free (Mkdir (api_dir out_dir))
                  (fun _ => Logic.I) s4).
  assert (E6 := emits_do D pass_free (Mkdir (debug_dir out_dir))
                  (fun _ => Logic.I) s5).
  unfold trace_of in E4, E5, E6.
  rewrite H4 in E4. rewrite H5 in E5. rewrite H6 in E6. cbn [snd] in *.
  cbn [snd fst] in Hrun. destruct why as [why|]; [|discriminate].
  apply bind_inv in Hrun as (out' & s8 & t14 & t15 & Hfin & Hret & ->).
  injection Hret as -> _ <-.
  pose proof (finish_summary st s7) as Hsum. rewrite Hfin in Hsum.
  destruct Hsum as [Hfree Hsum].
  pose proof (pages_loop_tallied fuel initial_loop_state s6) as Hloop'.
  rewrite Hloop in Hloop'. destruct Hloop' as (Hb & He & Hfl & Ha).
  right. exists st. split; [exact Hsum|].
  rewrite !detail_events_app, (free_detail_events _ E3),
    (free_detail_events _ E4), (free_detail_events _ E5),
    (free_detail_events _ E6), (free_detail_events _ Hfree).
  cbn [app detail_events flat_map]. rewrite !app_nil_r.
  cbn [initial_loop_state ls_details_success ls_details_failed api_pages
       api_total fold_right] in He, Hfl, Ha.
  split; [apply Hb; now repeat split|]. split; [lia|]. split; lia.
Qed.

End Tally.

(** X5.  In the summary of a completed keyword, [records_scraped] is the
    number of rows returned and the sum of [rows_on_page] over the
    [pages] list. *)
Theorem summary_rows_add_up (D : Driver) (W : Site D)
    (keyword letter : string) (out_dir : path) (first_keyword : bool)
    (fuel : nat) (s : St D) :
  match outcome_of
          (scrape_keyword D W keyword letter out_dir first_keyword fuel) s with
  | Ok (Some out) =>
      records_scraped (result out) = Z.of_nat (length (rows (result out))) /\
      records_scraped (result out) = rows_on_pages (pages (result out))
  | _ => True
  end.
Proof.
  pose proof (scrape_keyword_run D W keyword letter out_dir first_keyword
                fuel s) as H. unfold outcome_of.
  destruct (scrape_keyword D W keyword letter out_dir first_keyword fuel s)
    as [[[[out|]|] s'] tr]; try exact Logic.I. cbn [fst].
  destruct H as [[-> _]|(st & Hs & Hb & _)]; [now split|].
  destruct Hb as (Hb & _).
  unfold summary_of in Hs. cbv zeta in Hs.
  destruct Hs as (Hrows & Hpages & Hrec & _). unfold balanced in Hb.
  rewrite Hrows, Hpages, Hrec. now split.
Qed.

(** X6.  In the summary of a completed keyword, [details_file] is set
    exactly when a detail record was captured; the file written then holds
    [details_success] records.  [pdf_success] is the number of them with at
    least one PDF summary, and together with [pdf_fail] it adds up to
    [details_success]; on the early exits both are absent and the counts
    are zero. *)
Theorem summary_details_add_up (D : Driver) (W : Site D)
    (keyword letter : string) (out_dir : path) (first_keyword : bool)
    (fuel : nat) (s : St D) :
  match outcome_of
          (scrape_keyword D W keyword letter out_dir first_keyword fuel) s with
  | Ok (Some out) =>
      let r := result out in
      details_file r = option_map fst (details_written out) /\
      match details_written out with
      | Some (_, recs) =>
          recs <> [] /\ details_success r = Z.of_nat (length recs) /\
          pdf_success r = Some (count_pdf_success recs)
      | None => details_success r = 0
      end /\
      match pdf_success r, pdf_fail r with
      | Some a, Some b => 0 <= a /\ 0 <= b /\ a + b = details_success r
      | None, None => details_success r = 0
      | _, _ => False
      end
  | _ => True
  end.
Proof.
  pose proof (scrape_keyword_run D W keyword letter out_dir first_keyword
                fuel s) as H. unfold outcome_of.
  destruct (scrape_keyword D W keyword letter out_dir first_keyword fuel s)
    as [[[[out|]|] s'] tr]; try exact Logic.I. cbn [fst].
  destruct H as [[-> _]|(st & Hs & (_ & Hb & _) & _)]; [now repeat split|].
  unfold summary_of in Hs. cbv zeta in Hs.
  destruct Hs as (_ & _ & _ & Hsucc & _ & Hfile & Hrecs & _ & _ & _ & Hps & Hpf).
  cbv zeta. rewrite Hps, Hpf, Hsucc, Hb.
  assert (Hc : 0 <= count_pdf_success (html_details_records st)
               <= Z.of_nat (length (html_details_records st))).
  { unfold count_pdf_success. split; [lia|].
    apply inj_le, List.filter_length_le. }
  split; [exact Hfile|]. split; [|lia].
  destruct (details_written out) as [[p recs]|]; cbn [option_map snd] in Hrecs.
  - destruct (html_details_records st) as [|r0 l] eqn:E; [discriminate|].
    injection Hrecs as ->. rewrite <- E. now repeat split; try congruence.
  - destruct (html_details_records st); [reflexivity|discriminate].
Qed.

(** X7.  In the summary of a completed keyword, [details_success] and
    [details_failed] together count the detail captures that were tried,
    each once; there are never more of them than [api_records], the
    number of business objects in the pages written to the API file, and
    that file is written exactly when [api_records] is not zero. *)
Theorem summary_attempts_add_up (D : Driver) (W : Site D)
    (keyword letter : string) (out_dir : path) (first_keyword : bool)
    (fuel : nat) (s : St D) :
  match scrape_keyword D W keyword letter out_dir first_keyword fuel s with
  | (Ok (Some out), _, tr) =>
      let r := result out in
      details_success r + details_failed r =
        Z.of_nat (length (detail_events tr)) /\
      0 <= details_success r /\ 0 <= details_failed r /\
      details_success r + details_failed r <= api_records r /\
      api_file r = option_map fst (api_written out) /\
      match api_written out with
      | Some (_, api) => api_records r = api_total api /\ 0 < api_records r
      | None => api_records r = 0
      end
  | _ => True
  end.
Proof.
  pose proof (scrape_keyword_run D W keyword letter out_dir first_keyword
                fuel s) as H.
  destruct (scrape_keyword D W keyword letter out_dir first_keyword fuel s)
    as [[[[out|]|] s'] tr]; try exact Logic.I.
  destruct H as [[-> ->]|(st & Hs & (_ & Hb & Hne) & He & Hf & Ha)];
    [now repeat split|].
  unfold summary_of in Hs. cbv zeta in Hs.
  destruct Hs as (_ & _ & _ & Hsucc & Hfail & _ & _ & Hfile & Hapi & Hrec & _).
  cbv zeta. rewrite Hsucc, Hfail, Hrec.
  repeat split; try lia; try assumption.
  destruct (api_written out) as [[p api]|]; cbn [option_map snd] in Hapi.
  - destruct (api_pages st) as [|p0 l] eqn:E; [discriminate|].
    injection Hapi as Hapi. subst api. split; [reflexivity|].
    apply Forall_cons in Hne as [Hp0 _]. rewrite api_total_cons.
    pose proof (api_total_nonneg l). destruct (snd p0); [easy|].
    cbn [length]. lia.
  - now destruct (api_pages st).
Qed.

End SummaryFacts.

(** * Postconditions *)

Module PostFacts.
Import Session Post.
Local Open Scope session_scope.

Section Post.
Context {S : Type}.
Local Abbreviation M := (@M S).

Lemma post_ret {A} (Q : A -> S -> Prop) a s : Q a s -> post Q (ret a s).
Proof. exact id. Qed.

Lemma post_raise {A} (Q : A -> S -> Prop) s : post Q (raise s).
Proof. exact I. Qed.

Lemma post_bind {A B} (P : A -> S -> Prop) (Q : B -> S -> Prop)
    (m : M A) (f : A -> M B) s :
  post P (m s) ->
  (forall a s1, P a s1 -> post Q (f a s1)) ->
  post Q (bind m f s).
Proof.
  unfold bind, post. intros Hm Hf.
  destruct (m s) as [[[a|] s1] t1]; [|exact I].
  specialize (Hf a s1 Hm). now destruct (f a s1) as [[[b|] s2] t2].
Qed.

(** Sequencing after a part about which nothing is known. *)
Lemma post_after {A B} (Q : B -> S -> Prop) (m : M A) (f : A -> M B) s :
  (forall a s1, post Q (f a s1)) -> post Q (bind m f s).
Proof.
  intros Hf. apply (post_bind (fun _ _ => True)); [|auto].
  unfold post. now destruct (m s) as [[[a|] s1] t1].
Qed.

Lemma post_catch {A} (Q : A -> S -> Prop) (m h : M A) s :
  post Q (m s) -> (forall s1, post Q (h s1)) -> post Q (catch m h s).
Proof.
  unfold catch, post. intros Hm Hh.
  destruct (m s) as [[[a|] s1] t1]; [exact Hm|].
  specialize (Hh s1). now destruct (h s1) as [[[b|] s2] t2].
Qed.

Lemma post_mute {A} (Q : A -> S -> Prop) (m : M A) s :
  post Q (m s) -> post Q (mute m s).
Proof. unfold mute, post. now destruct (m s) as [[[a|] s1] t1]. Qed.

Lemma post_impl {A} (P Q : A -> S -> Prop) x :
  post P x -> (forall a s, P a s -> Q a s) -> post Q x.
Proof. destruct x as [[[a|] s1] t1]; cbn; auto. Qed.
End Post.

End PostFacts.

(** * The value [click_back_with_cf] returns *)

Module NavFacts.
Import Text Session ReturnNav Post PostFacts.
Local Open Scope session_scope.

Section Nav.
Context (D : Driver).
Local Abbreviation M := (@M (St D)).

(** A step that may decide the result: the decision is the probe's value
    at the state reached. *)
Local Abbreviation decided :=
  (fun (o : option bool) (s : St D) =>
     match o with
     | Some b => b = is_on_search_results D s
     | None => True
     end).

Lemma post_ask {B} (Q : B -> St D -> Prop) p (f : bool -> M B) s :
  post Q (f (eval_probe D p s) s) -> post Q (bind (ask D p) f s).
Proof.
  intros H. rewrite ReturnNavFacts.bind_ask.
  now destruct (f (eval_probe D p s) s) as [[[b|] s2] t2].
Qed.

Lemma wait_for_results_decided n s : post decided (wait_for_results D n s).
Proof.
  revert s. induction n as [|n IH]; intros s; [exact I|].
  cbn [wait_for_results]. apply post_ask. cbn [eval_probe].
  destruct (is_on_search_results D s) eqn:E; [now cbn|].
  apply post_ask. destruct (eval_probe D ReachedAdvancedSearch s).
  - now cbn.
  - apply post_after. intros _ s1. apply IH.
Qed.

Lemma back_button_step_decided s : post decided (back_button_step D s).
Proof.
  unfold back_button_step. apply post_ask.
  destruct (eval_probe D OnBusinessInfo s); [|exact I].
  apply post_catch; [|intros; exact I].
  apply post_after. intros p s1. destruct p; [|exact I].
  apply post_after. intros _ s2. apply post_after. intros _ s3.
  apply wait_for_results_decided.
Qed.

Lemma history_steps_decided steps s : post decided (history_steps D steps s).
Proof.
  revert s. induction steps as [|step rest IH]; intros s; [exact I|].
  cbn [history_steps]. apply post_after. intros _ s1.
  apply post_ask. cbn [eval_probe].
  destruct (is_on_search_results D s1) eqn:E; [now cbn|].
  apply post_ask. destruct (eval_probe D ReachedAdvancedSearch s1).
  - now cbn.
  - apply post_after. intros _ s2. apply post_after. intros _ s3.
    apply (post_bind decided); [apply wait_for_results_decided|].
    intros [b|] s4 H; [exact H|apply IH].
Qed.

(** X8.  Whatever way [click_back_with_cf] takes, the value it returns is
    the value of [is_on_search_results] on the page it leaves the browser
    on: [True] is returned only on the results listing, and [False] only
    away from it. *)
Theorem click_back_result_is_final_probe :
  ensures (fun b s' => b = is_on_search_results D s') (click_back_with_cf D).
Proof.
  intros s. unfold click_back_with_cf.
  apply post_after. intros m s1. apply post_after. intros _ s2.
  apply post_ask. cbn [eval_probe].
  destruct (is_on_search_results D s2) eqn:E; [now cbn|].
  apply (post_bind decided); [apply back_button_step_decided|].
  intros [b|] s3 H; [exact H|].
  apply (post_bind decided); [apply history_steps_decided|].
  intros [b|] s4 H'; [exact H'|].
  now cbn.
Qed.
End Nav.

End NavFacts.

(** * The summaries [scrape_filing_history_and_pdfs] returns *)

Module FilingSummaryFacts.
Import Text Session Json Data FilingDocs Post PostFacts FilingSpec.
Local Open Scope session_scope.

Section Filing.
Context (D : Driver) (W : Site D).
Local Abbreviation M := (@M (St D)).

(** The summary of a row, when there is one, is the row's. *)
Local Abbreviation row_summary pdf_root filing :=
  (fun (o : option PdfSummary) (_ : St D) =>
     match o with
     | Some x =>
         summary_view x = filing_view pdf_root filing /\
         ps_filing_number x <> ""%string
     | None => True
     end).

Lemma store_summary_view pdf_root idx filing new_pdf_path s :
  strip (filing_number filing) <> ""%string ->
  post (row_summary pdf_root filing)
    (store_summary D W pdf_root idx filing (strip (filing_number filing))
       new_pdf_path s).
Proof.
  intros Hne. unfold store_summary.
  apply post_after. intros _ s1. apply post_after. intros _ s2.
  apply post_after. intros s3 s4.
  destruct (file_exists _); [|exact I].
  apply post_after. intros _ s5. now cbn.
Qed.

Lemma process_filing_summary pdf_root idx filing s :
  post (row_summary pdf_root filing) (process_filing D W pdf_root idx filing s).
Proof.
  unfold process_filing. apply post_after. intros _ s1.
  destruct (String.eqb_spec (strip (filing_number filing)) "") as [|Hne];
    [exact I|].
  apply post_after. intros [new_pdf_path|] s2; [|exact I].
  apply post_after. intros _ s3. apply post_after. intros valid s4.
  destruct valid; cbn [negb].
  - now apply store_summary_view.
  - apply post_after. intros _ s5. exact I.
Qed.

Lemma filing_loop_sublist pdf_root idx l s :
  post (fun sums _ =>
          sublist (map summary_view sums) (map (filing_view pdf_root) l) /\
          Forall (fun x => ps_filing_number x <> ""%string) sums)
    (filing_loop D W pdf_root idx l s).
Proof.
  revert idx s. induction l as [|filing rest IH]; intros idx s.
  - cbn. split; constructor.
  - cbn [filing_loop].
    eapply post_bind; [apply process_filing_summary|]. intros o s1 Ho.
    eapply post_bind; [apply IH|]. intros more s2 [Hsub Hall].
    cbn [ret post map]. destruct o as [x|].
    + destruct Ho as [Hx Hne]. split.
      * cbn [map]. rewrite Hx. now apply sublist_skip.
      * now constructor.
    + split; [now apply sublist_cons|exact Hall].
Qed.

Lemma filing_table_root letter keyword page_idx business_id out_dir s :
  post (fun o _ =>
          match o with
          | Some (_, pdf_root) =>
              pdf_root = pdf_root_of out_dir letter keyword page_idx business_id
          | None => True
          end)
    (filing_table D W letter keyword page_idx business_id out_dir s).
Proof.
  unfold filing_table. apply post_after. intros opened s1.
  destruct opened; [|exact I]. cbn [negb].
  apply post_after. intros _ s2. apply post_after. intros _ s3.
  apply post_after. intros html s4. apply post_after. intros _ s5.
  apply post_after. intros _ s6. reflexivity.
Qed.

(** The summaries and the table they are made from. *)
Lemma filing_summaries_post (letter keyword : string)
    (page_idx : Z) (business_id : jval) (out_dir : path)
    (max_pdfs_per_business : nat) s :
  post (fun '(filings, sums) _ =>
      sublist (map summary_view sums)
        (map (filing_view
                (pdf_root_of out_dir letter keyword page_idx business_id))
           (firstn max_pdfs_per_business filings)) /\
      Forall (fun x => ps_filing_number x <> ""%string) sums /\
      (length sums <= Nat.min max_pdfs_per_business (length filings))%nat)
    (scrape_filing_history_and_pdfs D W letter keyword page_idx business_id
       out_dir max_pdfs_per_business s).
Proof.
  unfold scrape_filing_history_and_pdfs.
  eapply post_bind; [apply filing_table_root|]. intros table s1 Htable.
  assert (Hnil : forall n : nat,
            sublist (map summary_view [])
              (map (filing_view
                      (pdf_root_of out_dir letter keyword page_idx business_id))
                 (firstn n [])) /\
            Forall (fun x => ps_filing_number x <> ""%string) [] /\
            (length (@nil PdfSummary) <= Nat.min n (length (@nil Filing)))%nat).
  { intros n. rewrite firstn_nil. repeat split; try constructor. cbn. lia. }
  destruct table as [[[|f filings] pdf_root]|]; [apply Hnil| |apply Hnil].
  subst pdf_root.
  eapply post_bind; [apply filing_loop_sublist|]. intros sums s2 [Hsub Hall].
  cbn [ret post]. split; [exact Hsub|]. split; [exact Hall|].
  apply sublist_length in Hsub.
  rewrite !length_map, length_firstn in Hsub. exact Hsub.
Qed.

(** X9.  The summaries [scrape_filing_history_and_pdfs] returns are made
    for rows among the first [max_pdfs_per_business] of the filings it
    returns, at most one for each row and in the order of the table: a
    summary carries its row's filing number without surrounding white
    space, its type and its two dates, and the path
    [pdf_root/<filing number>.pdf].  No summary has an empty filing
    number, and there are never more than [max_pdfs_per_business]. *)
Theorem filing_summaries_follow_the_table (letter keyword : string)
    (page_idx : Z) (business_id : jval) (out_dir : path)
    (max_pdfs_per_business : nat) :
  ensures (fun '(filings, sums) _ =>
      sublist (map summary_view sums)
        (map (filing_view
                (pdf_root_of out_dir letter keyword page_idx business_id))
           (firstn max_pdfs_per_business filings)) /\
      Forall (fun x => ps_filing_number x <> ""%string) sums /\
      (length sums <= Nat.min max_pdfs_per_business (length filings))%nat)
    (scrape_filing_history_and_pdfs D W letter keyword page_idx business_id
       out_dir max_pdfs_per_business).
Proof. intros s. apply filing_summaries_post. Qed.
End Filing.

End FilingSummaryFacts.

(** * Restarting on tracking files of any shape *)

Module TrackingFacts.
Import Text Session Json Data Resume Spec ResumeFacts TrackingSpec.

Lemma done_keywords_damaged data :
  done_keywords_of data = None <-> In NotAnObject data.
Proof.
  induction data as [|[d|] rest IH]; cbn [done_keywords_of In].
  - split; [discriminate|tauto].
  - destruct (done_keywords_of rest) as [done|].
    + split; [discriminate|]. intros [H|H]; [discriminate|].
      now apply IH in H.
    + split; [intros _; right; now apply IH|reflexivity].
  - split; [now left|reflexivity].
Qed.

Lemma load_damaged f : damaged f -> load_existing_tracking f = ([], ∅).
Proof.
  destruct f as [| | |data]; try reflexivity. cbn [damaged load_existing_tracking].
  intros H. now apply done_keywords_damaged in H as ->.
Qed.

Lemma filter_every {A} (f : A -> bool) l :
  Forall (fun x => f x = true) l -> List.filter f l = l.
Proof. induction 1 as [|x l Hx _ IH]; [reflexivity|]. cbn. now rewrite Hx, IH. Qed.

Lemma pending_nothing_done keywords : pending_keywords keywords ∅ = keywords.
Proof.
  apply filter_every, List.Forall_forall. intros kw _.
  apply bool_decide_eq_true. set_solver.
Qed.

Lemma done_keywords_marks data done kw :
  done_keywords_of data = Some done ->
  kw ∈ done <-> existsb (marks_done kw) data = true.
Proof.
  revert done. induction data as [|[d|] rest IH]; intros done;
    cbn [done_keywords_of existsb marks_done].
  - intros [= <-]. split; [set_solver|discriminate].
  - destruct (done_keywords_of rest) as [done'|]; [|discriminate].
    intros [= <-]. specialize (IH done' eq_refl).
    destruct (truthy (dict_get d "keyword")); cbn [andb orb]; [|exact IH].
    rewrite elem_of_union, elem_of_singleton, orb_true_iff, <- IH,
      String.eqb_eq.
    split; intros [H|H]; auto.
  - discriminate.
Qed.

Section Run.
Context {Sess : Type}.
Context (scrape : string -> bool -> Sess -> Sess * (KeywordResult + string)).
Context (with_pdf : bool).


End Run.



End TrackingFacts.

(** * Proxy files *)

Module ProxyFileFacts.
Import Text Session NameSpec Proxies ProxySpec NameFacts.

(** Induction that steps over one or two characters. *)
Lemma text_pair_ind (P : text -> Prop) :
  P [] ->
  (forall c rest, P rest ->
     (forall c2 rest', rest = c2 :: rest' -> P rest') -> P (c :: rest)) ->
  forall s, P s.
Proof.
  intros Hnil Hcons s.
  assert (H : P s /\ forall c2 rest', s = c2 :: rest' -> P rest').
  { induction s as [|c s [IH1 IH2]]; [split; [exact Hnil|discriminate]|].
    split; [now apply Hcons|]. now intros c2 rest' [= _ <-]. }
  apply H.
Qed.

Lemma splitlines_one_line s : Forall one_line (splitlines s).
Proof.
  induction s as [|c rest IH1 IH2] using text_pair_ind; [constructor|].
  cbn [splitlines]. destruct (is_line_break c) eqn:E.
  - constructor; [reflexivity|].
    destruct rest as [|c2 rest']; [constructor|].
    destruct (_ && _)%bool; [now apply (IH2 c2)|exact IH1].
  - destruct (splitlines rest) as [|l ls].
    + constructor; [|constructor]. unfold one_line. cbn. now rewrite E.
    + apply Forall_cons in IH1 as [Hl Hls]. constructor; [|exact Hls].
      unfold one_line in *. cbn. now rewrite E.
Qed.

(** A line and its boundary in front of a text. *)
Lemma splitlines_line l rest :
  one_line l ->
  splitlines (l ++ "010"%char :: rest) = l :: splitlines rest.
Proof.
  unfold one_line. induction l as [|c l IH]; intros H.
  - cbn. now destruct rest.
  - cbn in H. apply andb_true_iff in H as [Hc Hl].
    apply negb_true_iff in Hc. cbn [app splitlines]. rewrite Hc.
    now rewrite (IH Hl).
Qed.

Lemma strip_text_inside (P : ascii -> bool) t :
  forallb P t = true -> forallb P (strip_text t) = true.
Proof.
  intros H.
  destruct (both_split is_space lstrip eq_refl lstrip_cons t)
    as (pre & suf & Ht & _).
  rewrite Ht, !forallb_app in H.
  now apply andb_true_iff in H as [_ [H _]%andb_true_iff].
Qed.

Lemma strip_text_ends t :
  begins_outside is_space (strip_text t) /\
  begins_outside is_space (rev (strip_text t)).
Proof. exact (both_ends is_space lstrip eq_refl lstrip_cons t). Qed.

Lemma strip_text_fixed t :
  begins_outside is_space t -> begins_outside is_space (rev t) ->
  strip_text t = t.
Proof. exact (both_fixed is_space lstrip eq_refl lstrip_cons t). Qed.

Lemma rev_begins_app a b :
  b <> [] -> begins_outside is_space (rev b) ->
  begins_outside is_space (rev (a ++ b)).
Proof.
  intros Hne Hb. rewrite rev_app_distr.
  destruct (rev b) as [|c r] eqn:E; [|exact Hb].
  apply (f_equal (@rev _)) in E. rewrite rev_involutive in E. now subst.
Qed.

Lemma has_scheme_prefixed line : has_scheme (chars "http://" ++ line) = true.
Proof. reflexivity. Qed.

Lemma has_scheme_head line :
  has_scheme line = true ->
  exists c rest, line = c :: rest /\ lower_char c = "h"%char.
Proof.
  unfold has_scheme. destruct line as [|c rest]; [discriminate|].
  intros H. exists c, rest. split; [reflexivity|].
  cbn [lower map chars list_ascii_of_string starts_with] in H.
  apply orb_true_iff in H as [H|H];
    apply andb_true_iff in H as [H _]; apply Ascii.eqb_eq in H; now symmetry.
Qed.

(** What [load_proxies_from_file] makes of one line. *)
Lemma loaded_line line p :
  one_line line ->
  match strip_text line with
  | [] => None
  | c :: _ =>
      if Ascii.eqb c "#" then None
      else if has_scheme (strip_text line)
           then Some (string_of_list_ascii (strip_text line))
           else Some (string_of_list_ascii (chars "http://" ++ strip_text line))
  end = Some p ->
  proxy_url p.
Proof.
  intros Hline. pose proof (strip_text_inside _ line Hline) as Hin.
  destruct (strip_text_ends line) as [Hb He].
  pose proof (strip_text_idempotent line) as Hidem.
  destruct (strip_text line) as [|c t] eqn:E; [discriminate|].
  destruct (Ascii.eqb c "#"); [discriminate|].
  destruct (has_scheme (c :: t)) eqn:Hs; intros Hp.
  - assert (Hp' : p = string_of_list_ascii (c :: t)) by congruence.
    subst p. clear Hp. unfold proxy_url, stripped, strip.
    rewrite chars_of_text. split; [exact Hs|]. split; [|exact Hin]. now rewrite Hidem.
  - assert (Hp' : p = string_of_list_ascii (chars "http://" ++ c :: t))
      by congruence.
    subst p. clear Hp. unfold proxy_url, stripped, strip.
    rewrite chars_of_text. split; [apply has_scheme_prefixed|]. split.
    + f_equal. apply strip_text_fixed; [reflexivity|].
      now apply rev_begins_app.
    + unfold one_line. rewrite forallb_app. now rewrite Hin.
Qed.

Lemma load_proxies_urls file : Forall proxy_url (load_proxies_from_file file).
Proof.
  destruct file as [content|]; [|constructor]. cbn [load_proxies_from_file].
  pose proof (splitlines_one_line content) as H.
  induction H as [|line ls Hline _ IH]; [constructor|].
  cbn [omap list_omap].
  match goal with |- context [match ?o with Some _ => _ | None => _ end] =>
    destruct o as [p|] eqn:E end; [|exact IH].
  constructor; [|exact IH]. now apply (loaded_line line).
Qed.

(** A proxy of that form on a line of its own is read back as it is. *)
Lemma load_written l :
  Forall proxy_url l -> load_proxies_from_file (Some (written l)) = l.
Proof.
  induction 1 as [|p l (Hs & Hst & Hline) _ IH]; [reflexivity|].
  cbn [load_proxies_from_file] in *. unfold written in *.
  cbn [map concat]. rewrite <- app_assoc. cbn [app].
  rewrite (splitlines_line _ _ Hline). cbn [omap list_omap].
  unfold stripped, strip in Hst.
  assert (Ht : strip_text (chars p) = chars p).
  { rewrite <- Hst at 2. now rewrite chars_of_text. }
  rewrite Ht. destruct (has_scheme_head _ Hs) as (c & rest & Hp & Hc).
  rewrite Hs. rewrite Hp at 1.
  destruct (Ascii.eqb_spec c "#") as [->|_]; [discriminate|].
  rewrite text_of_chars. f_equal. exact IH.
Qed.

(** *** The exclusion file *)

Lemma code_line_feed c : (code c =? 10)%nat = true -> c = "010"%char.
Proof.
  intros H%Nat.eqb_eq. rewrite <- (ascii_nat_embedding c).
  unfold code in H. now rewrite H.
Qed.

Lemma universal_newlines_fixed p :
  forallb (fun c => negb (code c =? 13)%nat) p = true ->
  universal_newlines p = p.
Proof.
  induction p as [|c p IH]; [reflexivity|]. cbn [forallb universal_newlines].
  intros [Hc Hp]%andb_true_iff. apply negb_true_iff in Hc. rewrite Hc.
  now rewrite IH.
Qed.

Lemma universal_newlines_app a b :
  begins_outside (fun c => (code c =? 10)%nat) b ->
  universal_newlines (a ++ b) = universal_newlines a ++ universal_newlines b.
Proof.
  intros Hb. induction a as [|c rest IH1 IH2] using text_pair_ind;
    [reflexivity|].
  cbn [app universal_newlines]. destruct (code c =? 13)%nat; [|now rewrite IH1].
  cbn [app]. f_equal. destruct rest as [|c2 rest'].
  - cbn [app]. destruct b as [|c2 b']; [reflexivity|]. cbn in Hb.
    now rewrite Hb.
  - cbn [app]. destruct (code c2 =? 10)%nat; [now apply (IH2 c2)|exact IH1].
Qed.

(** After a line end the translated text ends with a line feed. *)
Lemma universal_newlines_ended a x :
  x = "010"%char \/ x = "013"%char ->
  exists t, universal_newlines (a ++ [x]) = t ++ ["010"%char].
Proof.
  intros Hx. induction a as [|c rest IH1 IH2] using text_pair_ind.
  - exists []. now destruct Hx as [-> | ->].
  - cbn [app universal_newlines]. destruct (code c =? 13)%nat.
    + destruct rest as [|c2 rest'].
      * cbn [app]. destruct (code x =? 10)%nat eqn:E.
        -- now exists [].
        -- exists ["010"%char]. destruct Hx as [-> | ->]; [discriminate|].
           reflexivity.
      * cbn [app]. destruct (code c2 =? 10)%nat.
        -- destruct (IH2 c2 rest' eq_refl) as (t & ->).
           now exists ("010"%char :: t).
        -- destruct IH1 as (t & Ht). cbn [app] in Ht. rewrite Ht.
           now exists ("010"%char :: t).
    + destruct IH1 as (t & ->). now exists (c :: t).
Qed.

Lemma lines_of_nil s : lines_of s = [] -> s = [].
Proof.
  destruct s as [|c s]; [reflexivity|]. cbn [lines_of].
  destruct (code c =? 10)%nat; [discriminate|].
  now destruct (lines_of s).
Qed.

Lemma lines_of_app t b :
  lines_of ((t ++ ["010"%char]) ++ b) = lines_of (t ++ ["010"%char]) ++ lines_of b.
Proof.
  induction t as [|c t IH]; [reflexivity|]. cbn [app lines_of].
  destruct (code c =? 10)%nat; [cbn [app]; now rewrite IH|].
  rewrite IH. destruct (lines_of (t ++ ["010"%char])) as [|l ls] eqn:E;
    [|reflexivity].
  apply lines_of_nil in E. now destruct t.
Qed.

Lemma lines_of_single p :
  forallb (fun c => negb (code c =? 10)%nat) p = true ->
  lines_of (p ++ ["010"%char]) = [p ++ ["010"%char]].
Proof.
  induction p as [|c p IH]; [reflexivity|]. cbn [forallb app lines_of].
  intros [Hc Hp]%andb_true_iff. apply negb_true_iff in Hc. rewrite Hc.
  now rewrite (IH Hp).
Qed.

Lemma no_newline_parts p :
  no_newline p ->
  forallb (fun c => negb (code c =? 10)%nat) p = true /\
  forallb (fun c => negb (code c =? 13)%nat) p = true.
Proof.
  unfold no_newline. induction p as [|c p IH]; [easy|]. cbn [forallb].
  intros [Hc Hp]%andb_true_iff. destruct (IH Hp) as [-> ->].
  apply negb_true_iff, orb_false_iff in Hc as [-> ->]. easy.
Qed.

Lemma strip_text_line_end p :
  p <> [] -> strip_text p = p -> strip_text (p ++ ["010"%char]) = p.
Proof.
  intros Hne Hfix. destruct (strip_text_ends p) as [Hb He].
  rewrite Hfix in Hb, He. unfold strip_text.
  destruct p as [|c t]; [easy|]. cbn in Hb. cbn [app lstrip]. rewrite Hb.
  change (c :: t ++ ["010"%char]) with ((c :: t) ++ ["010"%char]).
  rewrite rev_app_distr. cbn [rev app lstrip].
  change (is_space "010") with true. cbv iota.
  change (rev t ++ [c]) with (rev (c :: t)).
  rewrite (drop_fixed is_space lstrip eq_refl lstrip_cons _ He).
  apply rev_involutive.
Qed.

(** The lines of a complete file with one more entry. *)
Lemma file_lines_appended c p :
  complete (Some c) -> p <> [] -> strip_text p = p -> no_newline p ->
  file_lines (c ++ p ++ ["010"%char]) = file_lines c ++ [p ++ ["010"%char]].
Proof.
  intros Hc Hne Hfix Hnl. destruct (no_newline_parts p Hnl) as [Hlf Hcr].
  unfold file_lines.
  assert (Hb : begins_outside (fun c => (code c =? 10)%nat) (p ++ ["010"%char])).
  { destruct (strip_text_ends p) as [Hb _]. rewrite Hfix in Hb.
    destruct p as [|x t]; [easy|]. cbn in *.
    destruct (code x =? 10)%nat eqn:E; [|reflexivity].
    apply code_line_feed in E. now subst x. }
  rewrite (universal_newlines_app _ _ Hb).
  assert (Hp : universal_newlines (p ++ ["010"%char]) = p ++ ["010"%char]).
  { apply universal_newlines_fixed. rewrite forallb_app, Hcr. reflexivity. }
  rewrite Hp.
  assert (Hc' : c = [] \/ exists t, universal_newlines c = t ++ ["010"%char]).
  { destruct c as [|x c'] using rev_ind; [now left|right].
    apply universal_newlines_ended. cbn in Hc. rewrite last_snoc in Hc.
    destruct Hc as [Hc|[[= ->]|[= ->]]]; [now destruct c'|now left|now right]. }
  destruct Hc' as [->|(t & ->)];
    [cbn [universal_newlines app]; now rewrite (lines_of_single p Hlf)|].
  now rewrite lines_of_app, (lines_of_single p Hlf).
Qed.

Lemma load_excluded_content file :
  load_excluded_proxies file = load_excluded_proxies (Some (default [] file)).
Proof. now destruct file. Qed.

(** What [append_bad_proxy] adds to the file is what
    [load_excluded_proxies] finds one more of. *)
Lemma append_then_load (file : option text) (proxy : string) :
  complete file ->
  no_newline (strip_text (chars proxy)) ->
  complete (append_bad_proxy file proxy) /\
  load_excluded_proxies (append_bad_proxy file proxy) =
    match strip_text (chars proxy) with
    | [] => load_excluded_proxies file
    | c :: _ =>
        if Ascii.eqb c "#" then load_excluded_proxies file
        else {[strip proxy]} ∪ load_excluded_proxies file
    end.
Proof.
  intros Hc Hnl. unfold append_bad_proxy, strip.
  pose proof (strip_text_idempotent (chars proxy)) as Hfix.
  destruct (strip_text (chars proxy)) as [|c t] eqn:E; [now split|].
  set (p := c :: t) in *. split.
  - cbn [complete]. right. left. now rewrite !app_assoc, last_snoc.
  - assert (Hc' : complete (Some (default [] file))).
    { destruct file as [content|]; [exact Hc|now left]. }
    rewrite (load_excluded_content file).
    cbn [load_excluded_proxies].
    rewrite (file_lines_appended _ p Hc' ltac:(easy) Hfix Hnl).
    rewrite omap_app, list_to_set_app_L. cbn [omap list_omap].
    rewrite (strip_text_line_end p ltac:(easy) Hfix).
    subst p. cbn [app chars list_ascii_of_string starts_with].
    rewrite andb_true_r.
    destruct (Ascii.eqb_spec c "#") as [->|Hne].
    + rewrite Ascii.eqb_refl, list_to_set_nil. apply (right_id_L ∅ (∪)).
    + rewrite (proj2 (Ascii.eqb_neq "#" c)) by congruence.
      cbv iota. cbn [list_to_set]. rewrite (right_id_L ∅ (∪)).
      apply (comm_L (∪)).
Qed.

Lemma one_line_no_newline p : one_line p -> no_newline p.
Proof.
  unfold one_line, no_newline. induction p as [|c p IH]; [easy|].
  cbn [forallb]. intros [Hc Hp]%andb_true_iff. rewrite (IH Hp), andb_true_r.
  apply negb_true_iff in Hc. apply negb_true_iff, orb_false_iff.
  unfold is_line_break in Hc. cbv zeta in Hc.
  split; apply Nat.eqb_neq; intros E; now rewrite E in Hc.
Qed.

(** A proxy of the loaded form is read back from the exclusion file. *)
Lemma proxy_url_read_back file p :
  complete file -> proxy_url p ->
  complete (append_bad_proxy file p) /\
  load_excluded_proxies (append_bad_proxy file p)
    = {[p]} ∪ load_excluded_proxies file.
Proof.
  intros Hc (Hs & Hst & Hline). unfold stripped, strip in Hst.
  assert (Ht : strip_text (chars p) = chars p).
  { rewrite <- Hst at 2. now rewrite chars_of_text. }
  destruct (append_then_load file p Hc) as [Hc' Hl].
  { rewrite Ht. now apply one_line_no_newline. }
  split; [exact Hc'|]. rewrite Hl, Ht.
  destruct (has_scheme_head _ Hs) as (c & rest & Hp & Hh). rewrite Hp.
  destruct (Ascii.eqb_spec c "#") as [->|_]; [discriminate|].
  unfold strip. now rewrite Ht, text_of_chars.
Qed.

Lemma appended_read_back file l :
  complete file -> Forall proxy_url l ->
  complete (foldl append_bad_proxy file l) /\
  load_excluded_proxies (foldl append_bad_proxy file l)
    = list_to_set l ∪ load_excluded_proxies file.
Proof.
  intros Hc Hl. revert file Hc.
  induction Hl as [|p l Hp _ IH]; intros file Hc; cbn [foldl list_to_set].
  - split; [exact Hc|]. now rewrite (left_id_L ∅ (∪)).
  - destruct (proxy_url_read_back file p Hc Hp) as [Hc' Hl'].
    destruct (IH _ Hc') as [Hc'' ->]. split; [exact Hc''|].
    rewrite Hl', (assoc_L (∪)). f_equal. apply (comm_L (∪)).
Qed.

(** X13.  On an exclusion file that is missing, empty or ends with a line
    end, and for a proxy without a line feed or carriage return inside,
    [append_bad_proxy] leaves a file that again ends with a line end, and
    [load_excluded_proxies] on it gives the proxies it gave before and
    the new one without its surrounding white space.  Two proxies are
    not read back: a blank one, which is not written, and one that begins
    with [#], which is written and then skipped as a comment. *)
Theorem bad_proxy_is_read_back (file : option text) (proxy : string) :
  complete file ->
  no_newline (strip_text (chars proxy)) ->
  complete (append_bad_proxy file proxy) /\
  load_excluded_proxies (append_bad_proxy file proxy) =
    match strip_text (chars proxy) with
    | [] => load_excluded_proxies file
    | c :: _ =>
        if Ascii.eqb c "#" then load_excluded_proxies file
        else {[strip proxy]} ∪ load_excluded_proxies file
    end.
Proof. apply append_then_load. Qed.

(** A file with one entry, and a proxy with blanks around it. *)
Lemma bad_proxy_is_read_back_witness :
  let file := Some (chars "http://a:1" ++ ["010"%char]) in
  let proxy := " http://b:2 "%string in
  complete (append_bad_proxy file proxy) /\
  load_excluded_proxies (append_bad_proxy file proxy) =
    match strip_text (chars proxy) with
    | [] => load_excluded_proxies file
    | c :: _ =>
        if Ascii.eqb c "#" then load_excluded_proxies file
        else {[strip proxy]} ∪ load_excluded_proxies file
    end.
Proof.
  apply (bad_proxy_is_read_back
           (Some (chars "http://a:1" ++ ["010"%char])) " http://b:2 ").
  - right. left. reflexivity.
  - reflexivity.
Defined.

(** X12.  Every proxy [load_proxies_from_file] returns begins with
    [http://] or [https://], in any case, has no white space at either end
    and no line boundary inside; a file that does not exist gives no
    proxy; and writing the proxies returned one on a line and loading that
    file gives them back unchanged. *)
Theorem load_proxies_from_file_normalises (file : option text) :
  Forall proxy_url (load_proxies_from_file file) /\
  load_proxies_from_file None = [] /\
  load_proxies_from_file (Some (written (load_proxies_from_file file)))
    = load_proxies_from_file file.
Proof.
  split; [apply load_proxies_urls|]. split; [reflexivity|].
  apply load_written, load_proxies_urls.
Qed.

End ProxyFileFacts.

(** * Proxies for a batch of keywords *)

Module ProxyAssignFacts.
Import Text Session NameSpec Proxies ProxySpec ProxyFileFacts.

Lemma passed_app l1 l2 : passed (l1 ++ l2) = passed l1 ++ passed l2.
Proof. unfold passed. now rewrite List.filter_app, map_app. Qed.

Lemma failed_app l1 l2 : failed (l1 ++ l2) = failed l1 ++ failed l2.
Proof. unfold failed. now rewrite List.filter_app, map_app. Qed.

Lemma passed_in p log : In p (passed log) <-> In (p, true) log.
Proof.
  unfold passed. rewrite in_map_iff. split.
  - intros ([q b] & <- & [Hin Hb]%List.filter_In). cbn in *. now subst b.
  - intros Hin. exists (p, true). split; [reflexivity|].
    now apply List.filter_In.
Qed.

Lemma failed_in p log : In p (failed log) <-> In (p, false) log.
Proof.
  unfold failed. rewrite in_map_iff. split.
  - intros ([q b] & <- & [Hin Hb]%List.filter_In). cbn in *.
    now destruct b.
  - intros Hin. exists (p, false). split; [reflexivity|].
    now apply List.filter_In.
Qed.

Lemma tested_in p log :
  In p (map fst log) -> In p (passed log) \/ In p (failed log).
Proof.
  rewrite in_map_iff, passed_in, failed_in.
  intros ([q []] & <- & Hin); [now left|now right].
Qed.

Lemma passed_tested p log : In p (passed log) -> In p (map fst log).
Proof. rewrite passed_in. intros H. now apply (in_map fst) in H. Qed.

Lemma failed_tested p log : In p (failed log) -> In p (map fst log).
Proof. rewrite failed_in. intros H. now apply (in_map fst) in H. Qed.

(** A proxy tested once did not both pass and fail. *)
Lemma passed_not_failed p log :
  List.NoDup (map fst log) -> In p (passed log) -> ~ In p (failed log).
Proof.
  induction log as [|[q b] log IH]; [easy|]. cbn [map fst].
  intros [Hq Hnd]%List.NoDup_cons_iff. unfold passed, failed in *.
  destruct b; cbn [List.filter snd negb map fst In].
  - intros [->|Hp] Hf; [|now apply (IH Hnd Hp)].
    apply Hq. now apply (failed_tested p log).
  - intros Hp [->|Hf]; [|now apply (IH Hnd Hp)].
    apply Hq. now apply (passed_tested p log).
Qed.

Lemma passed_nodup log : List.NoDup (map fst log) -> List.NoDup (passed log).
Proof.
  induction log as [|[q b] log IH]; [constructor|]. cbn [map fst].
  intros [Hq Hnd]%List.NoDup_cons_iff. unfold passed in *.
  destruct b; cbn [List.filter snd map fst]; [|now apply IH].
  constructor; [|now apply IH]. intros Hin. apply Hq.
  now apply (passed_tested q log).
Qed.

Lemma filter_length_le {A} (f : A -> bool) l :
  (length (List.filter f l) <= length l)%nat.
Proof. induction l as [|x l IH]; cbn; [lia|]. destruct (f x); cbn; lia. Qed.

(** Strengthening the test of a filter drops at least the element that
    fell out. *)
Lemma filter_length_lt {A} (f g : A -> bool) l x :
  (forall y, g y = true -> f y = true) ->
  In x l -> f x = true -> g x = false ->
  (length (List.filter g l) < length (List.filter f l))%nat.
Proof.
  intros Hgf. induction l as [|y l IH]; [easy|].
  intros [->|Hin] Hf Hg; cbn [List.filter].
  - rewrite Hf, Hg. cbn [length].
    assert (length (List.filter g l) <= length (List.filter f l))%nat; [|lia].
    clear -Hgf. induction l as [|y l IH]; cbn; [lia|].
    destruct (g y) eqn:E; [rewrite (Hgf _ E); cbn; lia|].
    destruct (f y); cbn; lia.
  - specialize (IH Hin Hf Hg).
    destruct (g y) eqn:E; [rewrite (Hgf _ E); cbn; lia|].
    destruct (f y); cbn; lia.
Qed.

Section Assign.
Context (N : Net).

(** The proxies still to try. *)
Local Abbreviation remaining candidate_proxies used_in_batch excl :=
  (List.filter (fun p => bool_decide (p ∉ used_in_batch)
                         && bool_decide (p ∉ excl))
     candidate_proxies).

Lemma random_choice_in l w : l <> [] -> In (snd (random_choice N l w)) l.
Proof.
  intros Hne. unfold random_choice. destruct (random_index N w) as [w1 k].
  cbn [snd]. apply nth_In. apply Nat.mod_upper_bound.
  now destruct l.
Qed.

(** What one call did since the state [st]: the tests it made, each of
    another proxy, their effect on the excluded set and on the exclusion
    file. *)
Local Abbreviation since candidate_proxies used_in_batch st st' new :=
  (tests st' = tests st ++ new /\
   excluded st' = list_to_set (failed new) ∪ excluded st /\
   exc_file st' = foldl append_bad_proxy (exc_file st) (failed new) /\
   List.NoDup (map fst new) /\
   Forall (fun p => In p candidate_proxies /\ (p ∉ used_in_batch)
                    /\ (p ∉ excluded st)) (map fst new)).

Lemma find_working_run fuel candidate_proxies used_in_batch : forall st,
  match find_working N fuel candidate_proxies used_in_batch st with
  | Some (r, st') =>
      exists new,
        since candidate_proxies used_in_batch st st' new /\
        match r with
        | Ok p => passed new = [p]
        | Exn =>
            passed new = [] /\
            Forall (fun p => p ∈ used_in_batch \/ p ∈ excluded st')
              candidate_proxies
        end
  | None =>
      (fuel <= length (remaining candidate_proxies used_in_batch (excluded st)))%nat
  end.
Proof.
  induction fuel as [|fuel IH]; intros st; [cbn; lia|].
  cbn [find_working].
  destruct (remaining candidate_proxies used_in_batch (excluded st))
    as [|p0 l0] eqn:Hrem.
  { exists []. rewrite app_nil_r. cbn [failed passed List.filter map foldl].
    repeat split; try constructor.
    - now rewrite list_to_set_nil, (left_id_L ∅ (∪)).
    - apply List.Forall_forall. intros p Hin.
      assert (Hf : bool_decide (p ∉ used_in_batch)
                   && bool_decide (p ∉ excluded st) = false).
      { destruct (_ && _) eqn:E; [|reflexivity].
        assert (Hp : In p (remaining candidate_proxies used_in_batch
                             (excluded st)))
          by now apply List.filter_In.
        now rewrite Hrem in Hp. }
      apply andb_false_iff in Hf as [Hf|Hf]; apply bool_decide_eq_false in Hf;
        [left|right]; now apply dec_stable. }
  rewrite <- Hrem.
  pose proof (random_choice_in
                (remaining candidate_proxies used_in_batch (excluded st))
                (world st) ltac:(now rewrite Hrem)) as Hin.
  destruct (random_choice N _ (world st)) as [w1 candidate]. cbn [snd] in Hin.
  apply List.filter_In in Hin as [Hcand Hfree].
  apply andb_true_iff in Hfree as [Hu He].
  apply bool_decide_eq_true in Hu, He.
  destruct (is_proxy_working N candidate w1) as [w2 ok]. destruct ok.
  - exists [(candidate, true)]. cbn [tests excluded exc_file].
    cbn [failed passed List.filter snd negb map fst foldl].
    repeat split.
    + now rewrite list_to_set_nil, (left_id_L ∅ (∪)).
    + constructor; [easy|constructor].
    + now repeat constructor.
  - set (st1 := mkPool w2 ({[candidate]} ∪ excluded st)
                  (append_bad_proxy (exc_file st) candidate)
                  (tests st ++ [(candidate, false)])).
    specialize (IH st1).
    destruct (find_working N fuel candidate_proxies used_in_batch st1)
      as [[r st']|].
    + destruct IH as (new & (Ht & Hx & Hf & Hnd & Hall) & Hr).
      cbn [tests excluded exc_file st1] in Ht, Hx, Hf, Hall.
      exists ((candidate, false) :: new).
      assert (Hnew : ~ In candidate (map fst new)).
      { intros Hc. rewrite List.Forall_forall in Hall.
        destruct (Hall _ Hc) as (_ & _ & Hn). apply Hn. set_solver. }
      split; [repeat split|].
      * now rewrite Ht, <- app_assoc.
      * rewrite Hx. unfold failed.
        cbn [List.filter snd negb map fst list_to_set]. fold (failed new).
        now rewrite (assoc_L (∪)), (comm_L (∪) _ {[candidate]}).
      * exact Hf.
      * cbn [map fst]. now constructor.
      * cbn [map fst]. constructor; [easy|].
        eapply Forall_impl; [exact Hall|]. cbn.
        intros p (Hp & Hpu & Hpe). repeat split; try assumption.
        intros Hin. apply Hpe. set_solver.
      * destruct r; exact Hr.
    + cbn [excluded st1] in IH.
      assert (Hlt : (length (remaining candidate_proxies used_in_batch
                               ({[candidate]} ∪ excluded st))
                     < length (remaining candidate_proxies used_in_batch
                                 (excluded st)))%nat).
      { apply (filter_length_lt _ _ _ candidate); [|exact Hcand| |].
        - intros y [Hy1 Hy2]%andb_true_iff. rewrite Hy1. cbn.
          apply bool_decide_eq_true in Hy2. apply bool_decide_eq_true.
          set_solver.
        - apply andb_true_iff. split; now apply bool_decide_eq_true.
        - apply andb_false_iff. right. apply bool_decide_eq_false.
          set_solver. }
      lia.
Qed.

(** The dictionary after the keywords [kws] were given the proxies [ps]
    in turn. *)
Local Abbreviation assigned assignments kws ps :=
  (foldl (fun (m : gmap string string) kp => <[kp.1 := kp.2]> m)
     assignments (zip kws ps)).

Lemma assign_loop_run fuel candidate_proxies :
  forall batch_keywords assignments used_in_batch st,
  match assign_loop N fuel candidate_proxies batch_keywords assignments
          used_in_batch st with
  | Some (r, st') =>
      exists new,
        since candidate_proxies used_in_batch st st' new /\
        match r with
        | Ok a =>
            length (passed new) = length batch_keywords /\
            a = assigned assignments batch_keywords (passed new)
        | Exn =>
            (length (passed new) < length batch_keywords)%nat /\
            Forall (fun p => p ∈ used_in_batch \/ In p (passed new)
                             \/ p ∈ excluded st')
              candidate_proxies
        end
  | None => (fuel <= length candidate_proxies)%nat
  end.
Proof.
  induction batch_keywords as [|kw rest IH]; intros assignments used_in_batch st.
  { cbn [assign_loop]. exists []. rewrite app_nil_r.
    cbn [failed passed List.filter map foldl zip zip_with length].
    repeat split; try constructor.
    now rewrite list_to_set_nil, (left_id_L ∅ (∪)). }
  cbn [assign_loop].
  pose proof (find_working_run fuel candidate_proxies used_in_batch st) as H1.
  destruct (find_working N fuel candidate_proxies used_in_batch st)
    as [[[p|] st1]|].
  - destruct H1 as (new1 & (Ht1 & Hx1 & Hf1 & Hnd1 & Hall1) & Hp1).
    specialize (IH (<[kw := p]> assignments) ({[p]} ∪ used_in_batch) st1).
    destruct (assign_loop N fuel candidate_proxies rest _ _ st1)
      as [[r st']|]; [|exact IH].
    destruct IH as (new2 & (Ht2 & Hx2 & Hf2 & Hnd2 & Hall2) & Hr).
    exists (new1 ++ new2).
    assert (Hdisj : forall x, In x (map fst new1) -> ~ In x (map fst new2)).
    { intros x Hx Hx'. rewrite List.Forall_forall in Hall2.
      destruct (Hall2 _ Hx') as (_ & Hu & He).
      destruct (tested_in _ _ Hx) as [Hp|Hf].
      - rewrite Hp1 in Hp. destruct Hp as [->|[]]. apply Hu. set_solver.
      - apply He. rewrite Hx1. apply elem_of_union_l, elem_of_list_to_set.
        now apply list_elem_of_In. }
    split; [repeat split|].
    + now rewrite Ht2, Ht1, <- app_assoc.
    + rewrite Hx2, Hx1, failed_app, list_to_set_app_L.
      rewrite (assoc_L (∪)). f_equal. apply (comm_L (∪)).
    + now rewrite Hf2, Hf1, failed_app, foldl_app.
    + rewrite map_app. apply List.NoDup_app; repeat split; assumption.
    + rewrite map_app. apply Forall_app. split; [exact Hall1|].
      eapply Forall_impl; [exact Hall2|]. cbn.
      intros q (Hq & Hqu & Hqe). repeat split; [exact Hq| |].
      * intros Hin. apply Hqu. set_solver.
      * intros Hin. apply Hqe. rewrite Hx1. set_solver.
    + rewrite passed_app, Hp1. cbn [app length]. destruct r as [a|].
      * destruct Hr as [Hlen ->]. split; [now rewrite Hlen|reflexivity].
      * destruct Hr as [Hlen Hall]. split; [lia|].
        eapply Forall_impl; [exact Hall|]. cbn.
        intros q [Hq|[Hq|Hq]]; [|right; left; now right|now right; right].
        apply elem_of_union in Hq as [->%elem_of_singleton|Hq];
          [right; left; now left|now left].
  - destruct H1 as (new & Hs & Hp & Hall). exists new. split; [exact Hs|].
    rewrite Hp. cbn [length]. split; [lia|].
    eapply Forall_impl; [exact Hall|]. cbn. intros q [Hq|Hq]; auto.
  - etransitivity; [exact H1|apply filter_length_le].
Qed.

Lemma assigned_lookup kws ps : forall (m : gmap string string) k p,
  assigned m kws ps !! k = Some p ->
  In (k, p) (zip kws ps) \/ m !! k = Some p.
Proof.
  revert ps. induction kws as [|kw kws IH]; intros [|q ps] m k p;
    cbn [zip zip_with foldl]; auto.
  intros H. apply IH in H as [H|H]; [left; now right|]. cbn [fst snd] in H.
  destruct (decide (kw = k)) as [->|Hne].
  - rewrite lookup_insert_eq in H. injection H as ->. left. now left.
  - rewrite lookup_insert_ne in H by exact Hne. now right.
Qed.

Lemma assigned_dom kws ps : forall (m : gmap string string),
  length ps = length kws ->
  dom (assigned m kws ps) = list_to_set kws ∪ dom m.
Proof.
  revert ps. induction kws as [|kw kws IH]; intros [|q ps] m; try discriminate;
    cbn [zip zip_with foldl length list_to_set].
  - intros _. now rewrite (left_id_L ∅ (∪)).
  - intros [= Hlen]. fold (zip kws ps). rewrite (IH ps _ Hlen). cbn [fst snd].
    rewrite dom_insert_L. set_solver.
Qed.

Lemma zip_in_snd (kws ps : list string) k p :
  In (k, p) (zip kws ps) -> In p ps.
Proof.
  revert ps. induction kws as [|kw kws IH]; intros [|q ps]; cbn; try easy.
  intros [[= _ ->]|H]; [now left|right; now apply IH].
Qed.

Lemma zip_injective (kws ps : list string) k1 k2 p :
  List.NoDup ps -> In (k1, p) (zip kws ps) -> In (k2, p) (zip kws ps) ->
  k1 = k2.
Proof.
  revert ps. induction kws as [|kw kws IH]; intros [|q ps]; cbn; try easy.
  intros [Hq Hnd]%List.NoDup_cons_iff [E1|H1] [E2|H2].
  - congruence.
  - apply zip_in_snd in H2. congruence.
  - apply zip_in_snd in H1. congruence.
  - now apply (IH ps).
Qed.

Lemma no_candidates all_proxies (excl : gset string) :
  List.filter (fun p => bool_decide (p ∉ excl)) all_proxies = [] <->
  Forall (fun p => p ∈ excl) all_proxies.
Proof.
  induction all_proxies as [|p l IH]; [split; [constructor|reflexivity]|].
  cbn [List.filter]. destruct (bool_decide_reflect (p ∉ excl)) as [Hp|Hp].
  - split; [discriminate|]. now intros [Hin _]%Forall_cons.
  - apply dec_stable in Hp. rewrite IH. split; [now constructor|].
    now intros [_ H]%Forall_cons.
Qed.

(** The whole call, from the state [st] of the caller. *)
Lemma assign_proxies_run fuel all_proxies keywords batch_size st :
  match assign_proxies_for_batch N fuel all_proxies keywords batch_size st with
  | Some (r, st') =>
      exists new,
        tests st' = tests st ++ new /\
        excluded st' = list_to_set (failed new) ∪ excluded st /\
        exc_file st' =
          foldl append_bad_proxy (touch (exc_file st)) (failed new) /\
        List.NoDup (map fst new) /\
        Forall (fun p => In p all_proxies /\ p ∉ excluded st) (map fst new) /\
        match r with
        | Ok a =>
            length (passed new) = length (py_take batch_size keywords) /\
            a = assigned ∅ (py_take batch_size keywords) (passed new) /\
            ~ Forall (fun p => p ∈ excluded st) all_proxies
        | Exn =>
            Forall (fun p => p ∈ excluded st) all_proxies /\ new = [] \/
            (length (passed new) < length (py_take batch_size keywords))%nat /\
            Forall (fun p => In p (passed new) \/ p ∈ excluded st')
              all_proxies
        end
  | None => (fuel <= length all_proxies)%nat
  end.
Proof.
  unfold assign_proxies_for_batch. cbn [excluded].
  pose proof (no_candidates all_proxies (excluded st)) as Hnone.
  destruct (List.filter _ all_proxies) as [|c0 cs] eqn:Hcands.
  { exists []. rewrite app_nil_r.
    cbn [tests excluded exc_file failed passed List.filter map foldl].
    split; [reflexivity|].
    split; [now rewrite list_to_set_nil, (left_id_L ∅ (∪))|].
    split; [reflexivity|]. split; [constructor|]. split; [constructor|].
    left. split; [now apply Hnone|reflexivity]. }
  assert (Hsome : ~ Forall (fun p => p ∈ excluded st) all_proxies).
  { intros H. now apply Hnone in H. }
  clear Hnone. rewrite <- Hcands.
  destruct (py_take batch_size keywords) as [|kw kws] eqn:Hbatch.
  { exists []. rewrite app_nil_r.
    cbn [tests excluded exc_file failed passed List.filter map foldl
         zip zip_with length].
    split; [reflexivity|].
    split; [now rewrite list_to_set_nil, (left_id_L ∅ (∪))|].
    split; [reflexivity|]. split; [constructor|]. split; [constructor|].
    split; [reflexivity|]. split; [reflexivity|exact Hsome]. }
  set (st0 := mkPool (world st) (excluded st) (touch (exc_file st))
                (tests st)).
  pose proof (assign_loop_run fuel
                (List.filter (fun p => bool_decide (p ∉ excluded st))
                   all_proxies)
                (kw :: kws) ∅ ∅ st0) as H.
  destruct (assign_loop N fuel _ (kw :: kws) ∅ ∅ st0) as [[r st']|].
  - destruct H as (new & (Ht & Hx & Hf & Hnd & Hall) & Hr).
    cbn [tests excluded exc_file st0] in Ht, Hx, Hf, Hall.
    exists new. repeat split; try assumption.
    + eapply Forall_impl; [exact Hall|]. cbn.
      intros p ([Hp _]%List.filter_In & _ & He). now split.
    + destruct r as [a|].
      * destruct Hr as [Hlen ->]. now repeat split.
      * destruct Hr as [Hlen Hleft]. right. split; [exact Hlen|].
        apply List.Forall_forall. intros p Hp.
        destruct (decide (p ∈ excluded st)) as [He|He].
        -- right. rewrite Hx. set_solver.
        -- rewrite List.Forall_forall in Hleft.
           destruct (Hleft p) as [Hu|[Hu|Hu]]; [|set_solver|now left|now right].
           apply List.filter_In. split; [exact Hp|].
           now apply bool_decide_eq_true.
  - etransitivity; [exact H|apply filter_length_le].
Qed.
(** X14.  When [assign_proxies_for_batch] returns, it has given a proxy to
    each of the first [batch_size] keywords and to nothing else; every
    proxy given is one of [all_proxies] that passed its test during this
    call and is not excluded when the call ends, and no proxy is given to
    two keywords. *)
Theorem assigned_proxies_are_tested_and_distinct (fuel : nat)
    (all_proxies keywords : list string) (batch_size : Z) (st : Pool N) :
  match assign_proxies_for_batch N fuel all_proxies keywords batch_size st with
  | Some (Ok a, st') =>
      dom a = list_to_set (py_take batch_size keywords) /\
      (forall kw p, a !! kw = Some p ->
         In p all_proxies /\ (p ∉ excluded st') /\
         exists new, tests st' = tests st ++ new /\ In (p, true) new) /\
      (forall k1 k2 p, a !! k1 = Some p -> a !! k2 = Some p -> k1 = k2)
  | _ => True
  end.
Proof.
  pose proof (assign_proxies_run fuel all_proxies keywords batch_size st) as H.
  destruct (assign_proxies_for_batch N fuel all_proxies keywords batch_size st)
    as [[[a|] st']|]; try exact I.
  destruct H as (new & Ht & Hx & _ & Hnd & Hall & Hlen & -> & _).
  split; [|split].
  - rewrite (assigned_dom _ _ _ Hlen), dom_empty_L.
    apply (right_id_L ∅ (∪)).
  - intros kw p [Hin|Hin]%assigned_lookup; [|now rewrite lookup_empty in Hin].
    apply zip_in_snd in Hin. rewrite List.Forall_forall in Hall.
    destruct (Hall p (passed_tested _ _ Hin)) as [Hp He]. split; [exact Hp|].
    split.
    + rewrite Hx. intros [Hf|Hf]%elem_of_union; [|now apply He].
      apply elem_of_list_to_set, list_elem_of_In in Hf.
      now apply (passed_not_failed p new).
    + exists new. split; [exact Ht|]. now apply passed_in.
  - intros k1 k2 p [H1|H1]%assigned_lookup [H2|H2]%assigned_lookup;
      try (now rewrite lookup_empty in H1);
      try (now rewrite lookup_empty in H2).
    apply (zip_injective _ _ _ _ _ (passed_nodup _ Hnd) H1 H2).
Qed.

(** X15.  During one call of [assign_proxies_for_batch] no proxy is tested
    twice, and only proxies of [all_proxies] that were not excluded
    before are tested.  The proxies that failed, and only they, are added
    to the caller's excluded set and handed to [append_bad_proxy], in the
    order of their tests, on the exclusion file the call first touched;
    this holds when the call raises as when it returns. *)
Theorem failed_proxies_are_excluded_and_recorded (fuel : nat)
    (all_proxies keywords : list string) (batch_size : Z) (st : Pool N) :
  match assign_proxies_for_batch N fuel all_proxies keywords batch_size st with
  | Some (r, st') =>
      exists new,
        tests st' = tests st ++ new /\
        List.NoDup (map fst new) /\
        Forall (fun p => In p all_proxies /\ p ∉ excluded st) (map fst new) /\
        excluded st' = list_to_set (failed new) ∪ excluded st /\
        exc_file st' =
          foldl append_bad_proxy (touch (exc_file st)) (failed new)
  | None => True
  end.
Proof.
  pose proof (assign_proxies_run fuel all_proxies keywords batch_size st) as H.
  destruct (assign_proxies_for_batch N fuel all_proxies keywords batch_size st)
    as [[r st']|]; [|exact I].
  destruct H as (new & Ht & Hx & Hf & Hnd & Hall & _).
  exists new. now repeat split.
Qed.

(** X16.  With more fuel than there are proxies the loops of
    [assign_proxies_for_batch] come to an end.  The call raises exactly
    when every proxy was excluded beforehand, which it finds out before it
    looks at the keywords, or when fewer proxies passed their test than
    there are keywords in the batch; in both cases every proxy of
    [all_proxies] is by then excluded or has passed its test in this
    call, so none is left to try. *)
Theorem assign_proxies_raises_when_none_is_left (fuel : nat)
    (all_proxies keywords : list string) (batch_size : Z) (st : Pool N) :
  (length all_proxies < fuel)%nat ->
  exists r st' new,
    assign_proxies_for_batch N fuel all_proxies keywords batch_size st
      = Some (r, st') /\
    tests st' = tests st ++ new /\
    (r = Exn <->
       Forall (fun p => p ∈ excluded st) all_proxies \/
       (length (passed new) < length (py_take batch_size keywords))%nat) /\
    (r = Exn ->
       Forall (fun p => In p (passed new) \/ p ∈ excluded st') all_proxies).
Proof.
  intros Hfuel.
  pose proof (assign_proxies_run fuel all_proxies keywords batch_size st) as H.
  destruct (assign_proxies_for_batch N fuel all_proxies keywords batch_size st)
    as [[r st']|]; [|lia].
  destruct H as (new & Ht & Hx & _ & _ & _ & Hr).
  exists r, st', new. split; [reflexivity|]. split; [exact Ht|].
  destruct r as [a|].
  - destruct Hr as (Hlen & _ & Hsome). split; [|discriminate].
    split; [discriminate|]. intros [H|H]; [now apply Hsome in H|lia].
  - split.
    + split; [intros _|reflexivity].
      destruct Hr as [[Hnone _]|[Hlen _]]; [now left|now right].
    + intros _. destruct Hr as [[Hnone ->]|[_ Hleft]]; [|exact Hleft].
      eapply Forall_impl; [exact Hnone|]. cbn. intros p Hp. right.
      rewrite Hx. now apply elem_of_union_r.
Qed.
(** X17.  Let the proxies be of the form [load_proxies_from_file] gives
    them, the exclusion file be missing, empty or end with a line end, and
    the caller's excluded set be what [load_excluded_proxies] reads from
    that file.  Then after a call of [assign_proxies_for_batch], whether
    it returned or raised, the same holds again: the set it updated is
    what a later run reads back from the file. *)
Theorem excluded_set_and_file_stay_in_step (fuel : nat)
    (all_proxies keywords : list string) (batch_size : Z) (st : Pool N) :
  Forall proxy_url all_proxies ->
  complete (exc_file st) ->
  excluded st = load_excluded_proxies (exc_file st) ->
  match assign_proxies_for_batch N fuel all_proxies keywords batch_size st with
  | Some (r, st') =>
      complete (exc_file st') /\
      excluded st' = load_excluded_proxies (exc_file st')
  | None => True
  end.
Proof.
  intros Hurl Hc He.
  pose proof (assign_proxies_run fuel all_proxies keywords batch_size st) as H.
  destruct (assign_proxies_for_batch N fuel all_proxies keywords batch_size st)
    as [[r st']|]; [|exact I].
  destruct H as (new & _ & Hx & Hf & _ & Hall & _).
  assert (Hfailed : Forall proxy_url (failed new)).
  { apply List.Forall_forall. intros p Hp%failed_tested.
    rewrite List.Forall_forall in Hall, Hurl. apply Hurl. now apply Hall. }
  assert (Ht : complete (touch (exc_file st))).
  { revert Hc. destruct (exc_file st); [easy|now left]. }
  destruct (appended_read_back (touch (exc_file st)) (failed new) Ht Hfailed)
    as [Hc' Hl].
  rewrite Hf, Hx, Hl, He. split; [exact Hc'|].
  now rewrite (load_excluded_content (exc_file st)).
Qed.
End Assign.

(** Two keywords and two proxies, of which the first fails its test. *)
Lemma assign_proxies_raises_when_none_is_left_witness :
  exists r st' new,
    assign_proxies_for_batch ProxyExamples.lab_net 3 ProxyExamples.lab_proxies
      ["k1"; "k2"]%string 2 ProxyExamples.fresh_pool
      = Some (r, st') /\
    tests st' = tests ProxyExamples.fresh_pool ++ new /\
    (r = Exn <->
       Forall (fun p => p ∈ excluded ProxyExamples.fresh_pool)
         ProxyExamples.lab_proxies \/
       (length (passed new) < length (py_take 2 ["k1"; "k2"]%string))%nat) /\
    (r = Exn ->
       Forall (fun p => In p (passed new) \/ p ∈ excluded st')
         ProxyExamples.lab_proxies).
Proof.
  apply (assign_proxies_raises_when_none_is_left ProxyExamples.lab_net 3
           ProxyExamples.lab_proxies ["k1"; "k2"]%string 2
           ProxyExamples.fresh_pool).
  cbn. lia.
Defined.

(** One keyword: the first proxy fails and is written to the new file. *)
Lemma excluded_set_and_file_stay_in_step_witness :
  match assign_proxies_for_batch ProxyExamples.lab_net 3
          ProxyExamples.lab_proxies ["k1"]%string 1
          ProxyExamples.fresh_pool with
  | Some (r, st') =>
      complete (exc_file st') /\
      excluded st' = load_excluded_proxies (exc_file st')
  | None => True
  end.
Proof.
  apply (excluded_set_and_file_stay_in_step ProxyExamples.lab_net 3
           ProxyExamples.lab_proxies ["k1"]%string 1
           ProxyExamples.fresh_pool).
  - unfold ProxyExamples.lab_proxies. repeat constructor.
  - exact I.
  - reflexivity.
Defined.

End ProxyAssignFacts.

(** * The PDF fields of the detail records *)

Module RecordFacts.
Import Text Session Json Data Pager FilingDocs Scrape Spec.
Import Post PostFacts FilingSpec FilingSummaryFacts LoopFacts.
Local Open Scope session_scope.

Lemma returns_post {S A} (Q : A -> Prop) (m : @M S A) s :
  returns Q m -> post (fun a _ => Q a) (m s).
Proof.
  intros H. specialize (H s). unfold outcome_of in H.
  now destruct (m s) as [[[a|] s1] t1].
Qed.

Section Records.
Context (D : Driver) (W : Site D).
Context (keyword letter : string) (out_dir : path) (first_keyword : bool).
Local Abbreviation M := (@Session.M (St D)).
Local Abbreviation filed := (filed_under out_dir letter keyword).
Local Abbreviation record_ok := (record_filed out_dir letter keyword).

(** The PDF data and the records of the page loop are in order. *)
Local Abbreviation in_order st :=
  (map_Forall filed (pdf_data_by_id st) /\
   Forall record_ok (html_details_records st)).

Lemma filed_nothing biz_id : filed biz_id ([], []).
Proof. exists 0. split; constructor. Qed.

Lemma scrape_pdfs_filed biz_obj page_idx idx first s :
  post (fun r _ => filed (biz_id_of biz_obj) r)
    (scrape_pdfs_for_business D W biz_obj letter keyword page_idx idx
       out_dir first s).
Proof.
  unfold scrape_pdfs_for_business.
  destruct (negb (truthy _)); [apply filed_nothing|].
  apply post_after. intros opened s1.
  destruct opened; cbn [negb]; [|apply filed_nothing].
  apply post_after. intros _ s2.
  eapply post_bind.
  { apply post_mute. apply filing_summaries_post. }
  intros [filings sums] s3 (Hsub & Hne & _).
  apply post_after. intros _ s4. cbn [ret post].
  exists page_idx. now split.
Qed.

Lemma pdf_pass_filed l : forall pg idx pdf_data s,
  map_Forall filed pdf_data ->
  post (fun pd _ => map_Forall filed pd)
    (pdf_pass D W keyword letter out_dir first_keyword pg idx l pdf_data s).
Proof.
  induction l as [|biz_obj rest IH]; intros pg idx pdf_data s Hall;
    [exact Hall|].
  cbn [pdf_pass]. destruct (negb (truthy _)); [now apply IH|].
  destruct (decide _); [now apply IH|].
  apply post_after. intros _ s1.
  eapply (post_bind (fun r _ =>
            match r with
            | Some x => filed (biz_id_of biz_obj) x
            | None => True
            end)).
  { apply post_catch; [|intros; exact I].
    eapply post_bind; [apply post_mute, scrape_pdfs_filed|].
    intros x s2 Hx. exact Hx. }
  intros r s2 Hr. apply IH. destruct r as [x|].
  - now apply map_Forall_insert_2.
  - destruct (pdf_data !! biz_id_of biz_obj); [exact Hall|].
    apply map_Forall_insert_2; [apply filed_nothing|exact Hall].
Qed.

Lemma merged_record_filed rec pdf_info :
  filed (BusinessID rec) pdf_info -> record_ok (merge_pdf_info rec pdf_info).
Proof.
  intros Hf. unfold record_filed.
  cbn [merge_pdf_info PDFDownloadedCount PDFSummaries BusinessID
       FilingHistoryRecords].
  split; [reflexivity|]. split.
  - destruct Hf as (pg & Hsub%sublist_length & _).
    rewrite !length_map, length_firstn in Hsub. lia.
  - now destruct pdf_info.
Qed.

Lemma detail_pass_in_order l : forall idx st s,
  in_order st ->
  post (fun st' _ => in_order st')
    (detail_pass D W keyword letter first_keyword idx l st s).
Proof.
  induction l as [|biz_obj rest IH]; intros idx st s Hst; [exact Hst|].
  cbn [detail_pass]. destruct (negb (truthy _)); [now apply IH|].
  destruct (decide _); [now apply IH|].
  eapply (post_bind (fun o _ =>
            forall rec, o = Some rec -> BusinessID rec = biz_id_of biz_obj)).
  { apply post_catch; [|intros s1 rec; discriminate].
    apply post_mute, returns_post, fetch_keeps_identifier. }
  intros [rec|] s1 Hrec; apply post_after; intros _ s2; apply IH.
  - destruct Hst as [Hpdf Hrecs].
    cbn [detail_captured pdf_data_by_id html_details_records].
    split; [exact Hpdf|]. apply Forall_app. split; [exact Hrecs|].
    constructor; [|constructor]. apply merged_record_filed.
    rewrite (Hrec rec eq_refl).
    destruct (pdf_data_by_id st !! biz_id_of biz_obj) as [x|] eqn:E.
    + exact (Hpdf _ _ E).
    + apply filed_nothing.
  - exact Hst.
Qed.

Lemma capture_page_in_order st s :
  in_order st ->
  post (fun st' _ => in_order st')
    (capture_page D W keyword letter out_dir first_keyword st s).
Proof.
  intros Hst. unfold capture_page.
  apply post_after. intros _ s1. apply post_after. intros html s2.
  apply post_after. intros _ s3. apply post_after. intros rows s4.
  apply post_after. intros business_list s5.
  assert (H1 : in_order (with_page st rows business_list)) by exact Hst.
  destruct business_list as [|b bl]; [exact H1|].
  eapply post_bind; [apply pdf_pass_filed; apply H1|].
  intros pdf_data s6 Hpd. apply detail_pass_in_order.
  split; [exact Hpd|apply H1].
Qed.

Lemma turn_page_in_order st s :
  in_order st -> post (fun r _ => in_order (fst r)) (turn_page D st s).
Proof.
  intros Hst. unfold turn_page.
  apply post_after. intros html s1. apply post_after. intros [p|] s2;
    [|exact Hst].
  destruct (_ <=? _); [exact Hst|].
  apply post_after. intros moved s3. apply post_after. intros moved2 s4.
  destruct (negb moved2); [exact Hst|].
  apply post_after. intros _ s5. exact Hst.
Qed.

Lemma pages_loop_in_order fuel : forall st s,
  in_order st ->
  post (fun r _ => in_order (fst r))
    (pages_loop D W keyword letter out_dir first_keyword fuel st s).
Proof.
  induction fuel as [|fuel IH]; intros st s Hst; [exact Hst|].
  cbn [pages_loop]. unfold page_body.
  eapply post_bind.
  { eapply post_bind; [now apply capture_page_in_order|].
    intros st1 s1 H1. now apply turn_page_in_order. }
  intros [st2 [reason|]] s2 H2; cbn [snd fst] in *; [exact H2|now apply IH].
Qed.

Lemma finish_in_order st s :
  in_order st ->
  post (fun out _ =>
          match details_written out with
          | Some (_, recs) => Forall record_ok recs
          | None => True
          end)
    (finish D keyword letter out_dir st s).
Proof.
  intros [_ Hrecs]. unfold finish.
  apply post_after. intros wrote_details s1.
  apply post_after. intros wrote_api s2.
  cbn [ret post details_written]. now destruct wrote_details.
Qed.

(** X18.  Every detail record in the file a completed [scrape_keyword]
    writes has its PDF fields in order: [PDFDownloadedCount] is the number
    of its [PDFSummaries], of which there are at most three; the summaries
    are made for rows among the first three of its
    [FilingHistoryRecords], in their order and none with an empty filing
    number; and the path of each is
    [out_dir/pdf/<letter>/<keyword>/page_<n>/bid_<BusinessID>/<filing
    number>.pdf], with the same page [n] for all summaries of a record. *)
Theorem written_records_have_their_pdfs_filed (fuel : nat) (s : St D) :
  match scrape_keyword D W keyword letter out_dir first_keyword fuel s with
  | (Ok (Some out), _, _) =>
      match details_written out with
      | Some (_, recs) => Forall (record_filed out_dir letter keyword) recs
      | None => True
      end
  | _ => True
  end.
Proof.
  assert (H : post (fun o _ =>
                match o with
                | Some out =>
                    match details_written out with
                    | Some (_, recs) => Forall record_ok recs
                    | None => True
                    end
                | None => True
                end)
              (scrape_keyword D W keyword letter out_dir first_keyword fuel s)).
  { unfold scrape_keyword. apply post_after. intros on_form s1.
    destruct (negb on_form); [exact I|].
    apply post_after. intros form_ok s2. destruct (negb form_ok); [exact I|].
    apply post_after. intros _ s3. apply post_after. intros _ s4.
    apply post_after. intros _ s5. apply post_after. intros _ s6.
    eapply post_bind.
    { apply pages_loop_in_order. split; [apply map_Forall_empty|constructor]. }
    intros [st [reason|]] s7 Hst; cbn [snd fst] in *; [|exact I].
    eapply post_bind; [now apply finish_in_order|].
    intros out s8 Hout. exact Hout. }
  unfold post in H.
  destruct (scrape_keyword D W keyword letter out_dir first_keyword fuel s)
    as [[[[out|]|] s'] tr]; try exact I. exact H.
Qed.
End Records.

End RecordFacts.

(** * File names read back by the backfill scripts *)

Module BackfillFacts.
Import Text Session Json Data Scrape Spec NameSpec Backfill.
Import Post PostFacts NameFacts.
Local Open Scope session_scope.

Lemma chars_app (a b : string) : chars (a ++ b) = chars a ++ chars b.
Proof.
  unfold chars. induction a as [|c a IH]; [reflexivity|]. simpl.
  now rewrite IH.
Qed.

Lemma chars_inj (a b : string) : chars a = chars b -> a = b.
Proof.
  intros H. rewrite <- (text_of_chars a), <- (text_of_chars b). now rewrite H.
Qed.

Lemma split_last sep s : split_max sep 0 s = [s].
Proof. now destruct s. Qed.

(** A part without the separator, and the separator after it. *)
Lemma split_part sep a m rest :
  forallb (fun c => negb (Ascii.eqb c sep)) a = true ->
  split_max sep (S m) (a ++ sep :: rest) = a :: split_max sep m rest.
Proof.
  induction a as [|c a IH]; cbn [forallb app split_max].
  - intros _. now rewrite Ascii.eqb_refl.
  - intros [Hc Ha]%andb_true_iff. apply negb_true_iff in Hc. rewrite Hc.
    now rewrite (IH Ha).
Qed.

(** The first of two parts or more ends at the first separator. *)
Lemma split_inv sep m s a b parts :
  split_max sep (S m) s = a :: b :: parts ->
  forallb (fun c => negb (Ascii.eqb c sep)) a = true /\
  exists tail, s = a ++ sep :: tail /\ split_max sep m tail = b :: parts.
Proof.
  revert a. induction s as [|c s IH]; intros a; cbn [split_max];
    [discriminate|].
  destruct (Ascii.eqb_spec c sep) as [->|Hne].
  - intros [= <- H]. split; [reflexivity|]. now exists s.
  - destruct (split_max sep (S m) s) as [|l ls] eqn:E; [discriminate|].
    intros [= <- ->]. destruct (IH l eq_refl) as (Hl & tail & -> & Ht).
    split.
    + cbn [forallb]. rewrite Hl, andb_true_r. apply negb_true_iff.
      now apply Ascii.eqb_neq.
    + now exists tail.
Qed.

Lemma rfind_last c base tl :
  rfind c tl = None -> rfind c (base ++ c :: tl) = Some (length base).
Proof.
  intros Htl. induction base as [|x base IH]; cbn [app rfind length].
  - now rewrite Htl, Ascii.eqb_refl.
  - now rewrite IH.
Qed.

(** The stem of a name with the suffix [.json]. *)
Lemma stem_json (base : string) :
  base <> ""%string -> stem (base ++ ".json") = base.
Proof.
  intros Hne. unfold stem. rewrite chars_app.
  change (chars ".json") with ("."%char :: chars "json").
  rewrite (rfind_last "." (chars base) (chars "json") eq_refl).
  rewrite length_app.
  change (length ("."%char :: chars "json")) with 5%nat.
  assert (Hpos : (0 < length (chars base))%nat).
  { destruct (chars base) eqn:E; [|cbn; lia].
    apply (chars_inj base "") in E. contradiction. }
  replace ((0 <? length (chars base))
           && (length (chars base) <? length (chars base) + 5 - 1))%nat
    with true
    by (symmetry; apply andb_true_iff; split; apply Nat.ltb_lt; lia).
  rewrite firstn_app, firstn_all, Nat.sub_diag. cbn [firstn].
  now rewrite app_nil_r, text_of_chars.
Qed.

(** The parts of a name the scraper builds. *)
Lemma parse_name_built (dir : path) (prefix letter kw : string) :
  no_underscore prefix -> no_underscore letter ->
  parse_name_parts
    (dir ++ [("wa_" ++ prefix ++ "_" ++ letter ++ "_" ++ kw ++ ".json")%string])
    prefix
  = Some (letter, kw).
Proof.
  intros Hp Hl. unfold parse_name_parts. rewrite last_last.
  replace ("wa_" ++ prefix ++ "_" ++ letter ++ "_" ++ kw ++ ".json")%string
    with (("wa_" ++ prefix ++ "_" ++ letter ++ "_" ++ kw) ++ ".json")%string.
  2:{ apply chars_inj. rewrite !chars_app, <- !app_assoc. reflexivity. }
  rewrite stem_json by discriminate.
  rewrite !chars_app.
  change (chars "wa_") with (chars "wa" ++ "_"%char :: []).
  change (chars "_") with ("_"%char :: []).
  rewrite <- !app_assoc. cbn [app].
  change ("w"%char :: "a"%char :: "_"%char :: ?x) with (chars "wa" ++ "_"%char :: x).
  rewrite (split_part "_" (chars "wa") 2 _ eq_refl).
  rewrite (split_part "_" (chars prefix) 1 _ Hp).
  rewrite (split_part "_" (chars letter) 0 _ Hl).
  rewrite split_last. cbn [map]. rewrite !text_of_chars.
  cbn [String.eqb negb orb string_of_list_ascii chars list_ascii_of_string].
  rewrite String.eqb_refl. reflexivity.
Qed.

(** X19.  For a prefix without an underscore, [parse_name_parts] returns
    a letter and a keyword part exactly when the stem of the file name is
    [wa_<prefix>_<letter>_<keyword part>] with no underscore in the
    letter; the keyword part is everything after that underscore and may
    hold more of them.  In every other case it returns [(None, None)]. *)
Theorem parse_name_parts_spec (p : path) (prefix l k : string) :
  no_underscore prefix ->
  parse_name_parts p prefix = Some (l, k) <->
  stem (List.last p ""%string)
    = ("wa_" ++ prefix ++ "_" ++ l ++ "_" ++ k)%string /\
  no_underscore l.
Proof.
  intros Hp. split.
  - unfold parse_name_parts.
    destruct (split_max "_" 3 (chars (stem (List.last p ""%string))))
      as [|t0 [|t1 [|t2 [|t3 [|t4 ts]]]]] eqn:E; cbn [map]; try discriminate.
    destruct (String.eqb_spec (string_of_list_ascii t0) "wa") as [H0|];
      [|discriminate].
    destruct (String.eqb_spec (string_of_list_ascii t1) prefix) as [H1|];
      [|discriminate].
    cbn [negb orb]. intros [= <- <-].
    apply split_inv in E as (_ & tail1 & Es & E).
    apply split_inv in E as (_ & tail2 & -> & E).
    apply split_inv in E as (Hl & tail3 & -> & E).
    rewrite split_last in E. injection E as ->.
    split; [|unfold no_underscore; now rewrite chars_of_text].
    apply chars_inj. rewrite Es, !chars_app, !chars_of_text, <- H1.
    apply (f_equal chars) in H0. rewrite chars_of_text in H0. rewrite H0.
    rewrite chars_of_text. reflexivity.
  - intros [Hs Hl]. unfold parse_name_parts. rewrite Hs, !chars_app.
    change (chars "wa_") with (chars "wa" ++ "_"%char :: []).
    change (chars "_") with ("_"%char :: []).
    rewrite <- !app_assoc. cbn [app].
    change ("w"%char :: "a"%char :: "_"%char :: ?x)
      with (chars "wa" ++ "_"%char :: x).
    rewrite (split_part "_" (chars "wa") 2 _ eq_refl).
    rewrite (split_part "_" (chars prefix) 1 _ Hp).
    rewrite (split_part "_" (chars l) 0 _ Hl).
    rewrite split_last. cbn [map]. rewrite !text_of_chars.
    cbn [String.eqb negb orb string_of_list_ascii chars list_ascii_of_string].
    now rewrite String.eqb_refl.
Qed.

(** A file of the detail folder. *)
Lemma parse_name_parts_spec_witness :
  parse_name_parts ["out"; "bi_html"; "wa_bi_9_ab_c.json"]%string "bi"
    = Some ("9", "ab_c")%string <->
  stem (List.last ["out"; "bi_html"; "wa_bi_9_ab_c.json"]%string ""%string)
    = ("wa_" ++ "bi" ++ "_" ++ "9" ++ "_" ++ "ab_c")%string /\
  no_underscore "9".
Proof.
  apply (parse_name_parts_spec ["out"; "bi_html"; "wa_bi_9_ab_c.json"]%string
           "bi" "9" "ab_c").
  reflexivity.
Defined.

Section Names.
Context (D : Driver) (W : Site D).
Context (keyword letter : string) (out_dir : path) (first_keyword : bool).

(** The two files of a keyword, when they are written. *)
Local Abbreviation named out :=
  ((forall p, details_file (result out) = Some p ->
      p = details_dir out_dir
          ++ [("wa_bi_" ++ letter ++ "_" ++ sanitize_for_filename keyword
               ++ ".json")%string]) /\
   (forall p, api_file (result out) = Some p ->
      p = api_dir out_dir
          ++ [("wa_api_" ++ letter ++ "_" ++ sanitize_for_filename keyword
               ++ ".json")%string])).

Lemma finish_names st s :
  post (fun out _ => named out) (finish D keyword letter out_dir st s).
Proof.
  unfold finish. apply post_after. intros wrote_details s1.
  apply post_after. intros wrote_api s2.
  cbn [ret post result details_file api_file].
  split; intros p; [destruct wrote_details|destruct wrote_api];
    intros [= <-] || discriminate; reflexivity.
Qed.

Lemma scrape_keyword_names fuel s :
  post (fun o _ => match o with Some out => named out | None => True end)
    (scrape_keyword D W keyword letter out_dir first_keyword fuel s).
Proof.
  assert (Hearly : named (early_exit keyword)) by (split; intros p; discriminate).
  unfold scrape_keyword. apply post_after. intros on_form s1.
  destruct (negb on_form); [exact Hearly|].
  apply post_after. intros form_ok s2. destruct (negb form_ok); [exact Hearly|].
  apply post_after. intros _ s3. apply post_after. intros _ s4.
  apply post_after. intros _ s5. apply post_after. intros _ s6.
  apply post_after. intros [st [reason|]] s7; cbn [snd fst]; [|exact I].
  eapply post_bind; [apply finish_names|]. intros out s8 Hout. exact Hout.
Qed.

(** X20.  When the letter holds no underscore, the names of the two files
    a completed [scrape_keyword] reports, [details_file] and [api_file],
    are read back by [parse_name_parts] with the prefixes [bi] and [api]
    as the letter and [sanitize_for_filename] of the keyword. *)
Theorem output_names_are_read_back (fuel : nat) (s : St D) :
  no_underscore letter ->
  match scrape_keyword D W keyword letter out_dir first_keyword fuel s with
  | (Ok (Some out), _, _) =>
      (forall p, details_file (result out) = Some p ->
         parse_name_parts p "bi"
           = Some (letter, sanitize_for_filename keyword)) /\
      (forall p, api_file (result out) = Some p ->
         parse_name_parts p "api"
           = Some (letter, sanitize_for_filename keyword))
  | _ => True
  end.
Proof.
  intros Hl. pose proof (scrape_keyword_names fuel s) as H. unfold post in H.
  destruct (scrape_keyword D W keyword letter out_dir first_keyword fuel s)
    as [[[[out|]|] s'] tr]; try exact I.
  destruct H as [Hd Ha]. split; intros p Hp.
  - rewrite (Hd p Hp).
    apply (parse_name_built (details_dir out_dir) "bi" letter _ eq_refl Hl).
  - rewrite (Ha p Hp).
    apply (parse_name_built (api_dir out_dir) "api" letter _ eq_refl Hl).
Qed.
End Names.

(** The keyword [ac] of letter [A], with one detail record captured. *)
Lemma output_names_are_read_back_witness :
  match scrape_keyword (Examples.stack_driver Examples.no_failure)
          (Examples.stack_site Examples.no_failure) "ac" "A"
          ["out"%string] true 5 Examples.overlap_session with
  | (Ok (Some out), _, _) =>
      (forall p, details_file (result out) = Some p ->
         parse_name_parts p "bi" = Some ("A"%string, sanitize_for_filename "ac")) /\
      (forall p, api_file (result out) = Some p ->
         parse_name_parts p "api" = Some ("A"%string, sanitize_for_filename "ac"))
  | _ => True
  end.
Proof.
  apply (output_names_are_read_back
           (Examples.stack_driver Examples.no_failure)
           (Examples.stack_site Examples.no_failure) "ac" "A"
           ["out"%string] true 5 Examples.overlap_session).
  reflexivity.
Defined.

End BackfillFacts.

(** * The re-reads of an empty first page *)

Module RerunFacts.
Import Text Session Json Data Pager Scrape Spec SessionFacts LoopFacts.
Import SummaryFacts RerunSpec.
Local Open Scope session_scope.

Lemma sleeps_app {S} (t1 t2 : list (event S)) :
  sleeps (t1 ++ t2) = sleeps t1 ++ sleeps t2.
Proof. apply flat_map_app. Qed.

Lemma appended_lines_app {S} (t1 t2 : list (event S)) :
  appended_lines (t1 ++ t2) = appended_lines t1 ++ appended_lines t2.
Proof. apply flat_map_app. Qed.

Lemma marks_are_silent {S} (tr : list (event S)) :
  Forall is_mark tr -> sleeps tr = [] /\ appended_lines tr = [].
Proof.
  induction 1 as [|e tr He _ [IH1 IH2]]; [easy|].
  destruct e; try contradiction. unfold sleeps, appended_lines in *.
  cbn [flat_map app]. now split.
Qed.

Lemma emits_run {S A} (P : event S -> Prop) (m : @Session.M S A) s r s' tr :
  emits P m -> m s = (r, s', tr) -> Forall P tr.
Proof. intros H E. specialize (H s). unfold trace_of in H. now rewrite E in H. Qed.

Section Rerun.
Context (D : Driver) (W : Site D).
Context (keyword letter : string) (out_dir : path) (first_keyword : bool).
Local Abbreviation M := (@Session.M (St D)).
Local Abbreviation marks := (emits (@is_mark (St D))).

Lemma page_source_quiet s html s' tr :
  page_source D s = (Ok html, s', tr) -> tr = [].
Proof.
  unfold page_source. destruct (get_page_source D s); [|discriminate].
  now intros [= _ _ <-].
Qed.

Lemma do_trace a s (u : unit) s' tr :
  do_ D a s = (Ok u, s', tr) -> tr = [EvAct a s].
Proof.
  unfold do_. destruct (perform D a s) as [sx ok]. now intros [= _ _ <-].
Qed.

Lemma sleep_trace n s (u : unit) s' tr :
  do_sleep D n s = (Ok u, s', tr) -> tr = [EvSleep n].
Proof. unfold do_sleep. now intros [= _ _ <-]. Qed.

Lemma pdf_pass_marks l : forall pg idx pdf_data,
  marks (pdf_pass D W keyword letter out_dir first_keyword pg idx l pdf_data).
Proof.
  induction l as [|biz_obj rest IH]; intros pg idx pdf_data; cbn [pdf_pass];
    [apply emits_ret|].
  destruct (negb _); [apply IH|]. destruct (decide _); [apply IH|].
  apply emits_bind; [now apply emits_emit|intros _].
  apply emits_bind; [|intros r; apply IH].
  apply emits_catch; [|apply emits_ret].
  apply emits_bind; [apply emits_mute|intros x; apply emits_ret].
Qed.

Lemma detail_pass_marks l : forall idx st,
  marks (detail_pass D W keyword letter first_keyword idx l st).
Proof.
  induction l as [|biz_obj rest IH]; intros idx st; cbn [detail_pass];
    [apply emits_ret|].
  destruct (negb _); [apply IH|]. destruct (decide _); [apply IH|].
  apply emits_bind.
  { apply emits_catch; [apply emits_mute|apply emits_ret]. }
  intros [rec|]; (apply emits_bind; [now apply emits_emit|intros _; apply IH]).
Qed.

(** The reads [rows_retry] makes: one after each wait, up to the first that
    finds rows. *)
Lemma rows_retry_waits page_index retries : forall s rows s' tr,
  rows_retry D W keyword letter out_dir page_index retries s
    = (Ok rows, s', tr) ->
  appended_lines tr = [] /\
  exists reads,
    (reads <= length retries)%nat /\
    sleeps tr = map (fun retry => 5 * retry)%nat (firstn reads retries) /\
    (rows = [] -> reads = length retries).
Proof.
  induction retries as [|retry rest IH]; intros s rows s' tr; cbn [rows_retry].
  - intros [= <- <- <-]. split; [reflexivity|]. now exists 0%nat.
  - intros H.
    apply bind_inv in H as ([] & s1 & t1 & t2 & Hsl & H1 & ->).
    apply sleep_trace in Hsl as ->.
    apply bind_inv in H1 as (html & s2 & t3 & t4 & Hsrc & H2 & ->).
    apply page_source_quiet in Hsrc as ->.
    apply bind_inv in H2 as ([] & s3 & t5 & t6 & Hw & H3 & ->).
    apply do_trace in Hw as ->.
    cbn [app sleeps appended_lines flat_map].
    fold (sleeps t6). fold (appended_lines t6).
    destruct (parse_rows W html) as [|row rows'] eqn:E.
    + apply IH in H3 as (Ha & reads & Hle & Hs & Hr).
      split; [exact Ha|]. exists (S reads). cbn [length firstn map].
      split; [lia|]. split; [now rewrite Hs|]. intros Hn. now rewrite Hr.
    + injection H3 as <- <- <-. split; [reflexivity|].
      exists 1%nat. cbn [length firstn map]. split; [lia|].
      split; [reflexivity|discriminate].
Qed.

End Rerun.

End RerunFacts.

(** * The sliding window of workers *)

Module BufferFacts.
Import Text Session Json Data Resume Proxies ProxySpec ProxyAssignFacts.
Import Buffer BufferSpec.

(** *** The steps of a log *)

Lemma started_workers_app l1 l2 :
  started_workers (l1 ++ l2) = started_workers l1 ++ started_workers l2.
Proof. apply flat_map_app. Qed.

Lemma collected_app l1 l2 : collected (l1 ++ l2) = collected l1 ++ collected l2.
Proof. apply flat_map_app. Qed.

Lemma taken_app l1 l2 : taken (l1 ++ l2) = taken l1 ++ taken l2.
Proof. apply flat_map_app. Qed.

Lemma dropped_app l1 l2 : dropped (l1 ++ l2) = dropped l1 ++ dropped l2.
Proof. apply flat_map_app. Qed.

Lemma worker_proxies_app l1 l2 :
  worker_proxies (l1 ++ l2) = worker_proxies l1 ++ worker_proxies l2.
Proof. apply flat_map_app. Qed.

Lemma prefix_snoc_cases {A} (pre l : list A) x :
  pre `prefix_of` l ++ [x] -> pre `prefix_of` l \/ pre = l ++ [x].
Proof.
  intros [k Hk]. destruct k as [|y k _] using rev_ind.
  - right. now rewrite app_nil_r in Hk.
  - left. rewrite app_assoc in Hk. apply app_inj_tail in Hk as [-> _].
    now exists k.
Qed.

Lemma always_nil (P : list step -> Prop) : P [] -> always P [].
Proof. intros H pre Hpre. now apply prefix_nil_inv in Hpre as ->. Qed.

Lemma always_snoc (P : list step -> Prop) l e :
  always P l -> P (l ++ [e]) -> always P (l ++ [e]).
Proof.
  intros Hl He pre [Hpre| ->]%prefix_snoc_cases; [now apply Hl|exact He].
Qed.

Lemma always_now (P : list step -> Prop) l : always P l -> P l.
Proof. intros H. now apply H. Qed.

(** *** The futures a wait reports *)

Lemma lookup_omap_in {A} (l : list A) positions x :
  In x (omap (fun i => l !! i) positions) -> In x l.
Proof.
  induction positions as [|i positions IH]; [easy|]. cbn [omap list_omap].
  destruct (l !! i) as [y|] eqn:E; [|exact IH].
  intros [<-|H]; [|now apply IH].
  apply list_elem_of_In. now apply list_elem_of_lookup_2 in E.
Qed.

Lemma lookup_omap_nodup {A} (l : list A) positions :
  List.NoDup l -> List.NoDup positions ->
  List.NoDup (omap (fun i => l !! i) positions).
Proof.
  intros Hl. induction 1 as [|i positions Hi Hp IH]; [constructor|].
  cbn [omap list_omap]. destruct (l !! i) as [y|] eqn:E; [|exact IH].
  constructor; [|exact IH]. intros Hin.
  assert (exists j, In j positions /\ l !! j = Some y) as (j & Hj & Ej).
  { clear -Hin. induction positions as [|k positions IH]; [easy|].
    cbn [omap list_omap] in Hin. destruct (l !! k) as [z|] eqn:Ek.
    - destruct Hin as [->|Hin]; [exists k; split; [now left|exact Ek]|].
      destruct (IH Hin) as (j & Hj & Ej). exists j. split; [now right|exact Ej].
    - destruct (IH Hin) as (j & Hj & Ej). exists j. split; [now right|exact Ej]. }
  apply NoDup_ListNoDup in Hl.
  assert (i = j) by (eapply NoDup_lookup; eassumption). now subst j.
Qed.

Lemma done_of_spec {A} positions (in_flight : list A) :
  in_flight <> [] ->
  done_of positions in_flight <> [] /\
  Forall (fun f => In f in_flight) (done_of positions in_flight) /\
  (List.NoDup in_flight -> List.NoDup (done_of positions in_flight)).
Proof.
  intros Hne. unfold done_of.
  destruct (omap _ (remove_dups positions)) as [|f fs] eqn:E.
  - destruct in_flight as [|f0 rest]; [contradiction|]. cbn [firstn].
    split; [discriminate|]. split.
    + constructor; [now left|constructor].
    + intros _. constructor; [easy|constructor].
  - split; [discriminate|]. rewrite <- E. split.
    + apply List.Forall_forall. intros x Hx. now apply lookup_omap_in in Hx.
    + intros Hnd. apply lookup_omap_nodup; [exact Hnd|].
      apply NoDup_ListNoDup, NoDup_remove_dups.
Qed.

(** *** Taking a future out *)

Lemma pop_absent {A} (l : list (nat * A)) id :
  ~ In id (map fst l) ->
  List.filter (fun f => negb (Nat.eqb (fst f) id)) l = l.
Proof.
  induction l as [|[i x] l IH]; [reflexivity|]. cbn [map fst In List.filter].
  intros H. destruct (Nat.eqb_spec i id) as [->|_]; [tauto|].
  cbn [negb]. rewrite IH; [reflexivity|tauto].
Qed.

Lemma pop_present {A} (l : list (nat * A)) id x :
  List.NoDup (map fst l) -> In (id, x) l ->
  Permutation l
    ((id, x) :: List.filter (fun f => negb (Nat.eqb (fst f) id)) l) /\
  S (length (List.filter (fun f => negb (Nat.eqb (fst f) id)) l)) = length l.
Proof.
  induction l as [|[i y] l IH]; [easy|]. cbn [map fst In List.filter].
  intros [Hi Hnd]%List.NoDup_cons_iff [[= -> ->]|Hin].
  - rewrite Nat.eqb_refl. cbn [negb]. rewrite (pop_absent l id Hi).
    split; reflexivity.
  - destruct (Nat.eqb_spec i id) as [->|Hne].
    + exfalso. apply Hi. now apply (in_map fst) in Hin.
    + cbn [negb length]. destruct (IH Hnd Hin) as [Hp Hl]. split; [|lia].
      rewrite Hp at 1. apply perm_swap.
Qed.

Lemma pop_keeps {A} (l : list (nat * A)) id f :
  In f l -> fst f <> id ->
  In f (List.filter (fun f => negb (Nat.eqb (fst f) id)) l).
Proof.
  intros Hin Hne. apply List.filter_In. split; [exact Hin|].
  apply negb_true_iff. now apply Nat.eqb_neq.
Qed.

(** *** One keyword and its proxy *)

Section Window.
Context (C : Cluster) (all_proxies keywords : list string) (K : nat)
  (existing : list tracking_row).
Implicit Types st : Buf C.
Local Abbreviation coherent := (coherent C all_proxies keywords K existing).
Local Abbreviation settled := (settled C K).

(** What is left to do. *)
Local Abbreviation todo st :=
  (length (kw_iter st) + length (future_to_kw st))%nat.

(** A pool later in the run: the tests and the excluded set only grow. *)
Local Abbreviation later p p' :=
  ((exists new, tests p' = tests p ++ new) /\ excluded p ⊆ excluded p').

Lemma assign_one (p : Pool (net C)) kw :
  match assign_proxies_for_batch (net C) (S (length all_proxies)) all_proxies
          [kw] 1 p with
  | Some (Ok a, p') =>
      later p p' /\
      exists px,
        a !! kw = Some px /\ In px all_proxies /\
        In (px, true) (tests p') /\ px ∉ excluded p'
  | Some (Exn, p') =>
      later p p' /\ Forall (fun px => px ∈ excluded p') all_proxies
  | None => False
  end.
Proof.
  pose proof (assign_proxies_run (net C) (S (length all_proxies)) all_proxies
                [kw] 1 p) as H.
  destruct (assign_proxies_for_batch _ _ _ _ _ _) as [[[a|] p']|]; [| |lia].
  - destruct H as (new & Ht & Hx & _ & Hnd & Hall & Hlen & -> & _).
    split; [split; [now exists new|rewrite Hx; set_solver]|].
    change (py_take 1 [kw]) with [kw] in *. cbn [length] in Hlen.
    destruct (passed new) as [|px [|? ?]] eqn:Ep; try discriminate.
    exists px. cbn [zip zip_with foldl fst snd].
    split; [apply lookup_insert_eq|].
    assert (Hin : In px (passed new)) by (rewrite Ep; now left).
    rewrite List.Forall_forall in Hall.
    destruct (Hall px (passed_tested _ _ Hin)) as [Hp He].
    split; [exact Hp|]. split.
    + rewrite Ht. apply in_or_app. right. now apply passed_in.
    + rewrite Hx. intros [Hf|Hf]%elem_of_union; [|now apply He].
      apply elem_of_list_to_set, list_elem_of_In in Hf.
      now apply (passed_not_failed px new).
  - destruct H as (new & Ht & Hx & _ & _ & _ & Hr).
    split; [split; [now exists new|rewrite Hx; set_solver]|].
    destruct Hr as [[Hnone ->]|[Hlen Hleft]].
    + eapply Forall_impl; [exact Hnone|]. cbn. intros px Hpx.
      rewrite Hx. now apply elem_of_union_r.
    + change (py_take 1 [kw]) with [kw] in *. cbn [length] in Hlen.
      destruct (passed new) as [|? ?] eqn:Ep; [|cbn in Hlen; lia].
      eapply Forall_impl; [exact Hleft|]. cbn. now intros px [[]|Hpx].
Qed.

(** *** What the steps keep *)

Lemma flight st :
  coherent st -> in_flight (log st) = length (future_to_kw st).
Proof.
  intros H. pose proof (Permutation_length (c_perm _ _ _ _ _ _ H)) as Hl.
  unfold in_flight. rewrite <- Hl, length_app. unfold waiting.
  rewrite length_map. lia.
Qed.

Lemma bounded st :
  coherent st ->
  (length (future_to_kw st) + length (dropped (log st)) <= K)%nat.
Proof.
  intros H. rewrite <- (flight st H).
  exact (always_now _ _ (c_slots _ _ _ _ _ _ H)).
Qed.

Lemma futures_nodup st :
  coherent st -> List.NoDup (map fst (future_to_kw st)).
Proof.
  intros H.
  assert (Hnd : List.NoDup (map fst (waiting st ++ collected (log st)))).
  { apply (Permutation_NoDup
             (l := map fst (started_workers (log st)))).
    - apply Permutation_map. symmetry. apply (c_perm _ _ _ _ _ _ H).
    - rewrite (c_ids _ _ _ _ _ _ H). apply List.seq_NoDup. }
  rewrite map_app in Hnd. apply List.NoDup_app_remove_r in Hnd.
  unfold waiting in Hnd. now rewrite map_map in Hnd.
Qed.
Lemma in_flight_submitted l id kw px :
  (length (collected l) <= length (started_workers l))%nat ->
  in_flight (l ++ [Submitted id kw px]) = S (in_flight l).
Proof.
  intros H. unfold in_flight.
  rewrite started_workers_app, collected_app, !length_app. cbn. lia.
Qed.

Lemma collected_le st :
  coherent st ->
  (length (collected (log st)) <= length (started_workers (log st)))%nat.
Proof.
  intros H. pose proof (Permutation_length (c_perm _ _ _ _ _ _ H)) as Hl.
  rewrite length_app in Hl. lia.
Qed.

(** The pool moves on. *)
Lemma coherent_later st p' :
  coherent st -> later (pool st) p' ->
  coherent (mkBuf p' (kw_iter st) (future_to_kw st) (started st)
              (tracking_combined st) (flushes st) (log st)).
Proof.
  intros [Ht Hp Hi Hs Hr Hte Hd Ho] [[new Hnew] Hsub].
  constructor; cbn [pool kw_iter future_to_kw started tracking_combined
                    flushes log]; try assumption.
  - eapply Forall_impl; [exact Hte|]. cbn. intros p [H1 H2].
    split; [exact H1|]. rewrite Hnew. apply in_or_app. now left.
  - intros Hne. eapply Forall_impl; [exact (Hd Hne)|]. cbn.
    intros p Hin. now apply Hsub.
Qed.

(** A worker is started in a free slot. *)
Lemma coherent_submit st kw rest px p' :
  coherent st -> kw_iter st = kw :: rest -> later (pool st) p' ->
  In px all_proxies -> In (px, true) (tests p') -> px ∉ excluded p' ->
  (length (future_to_kw st) + length (dropped (log st)) < K)%nat ->
  coherent (submit C kw px
              (mkBuf p' rest (future_to_kw st) (started st)
                 (tracking_combined st) (flushes st) (log st))).
Proof.
  intros H Hkw Hlater Hin Htest Hfree Hslot.
  pose proof (flight st H) as Hfl. pose proof (collected_le st H) as Hle.
  destruct (coherent_later st p' H Hlater) as [Ht Hp Hi Hs Hr Hte Hd Ho].
  cbn [pool kw_iter future_to_kw started tracking_combined flushes log] in *.
  assert (Hnone : dropped (log st) = []).
  { destruct (dropped (log st)) eqn:E; [reflexivity|].
    assert (Hall : Forall (fun p => p ∈ excluded p') all_proxies)
      by (apply Hd; discriminate).
    rewrite List.Forall_forall in Hall. now apply Hall in Hin. }
  unfold submit.
  constructor; cbn [pool kw_iter future_to_kw started tracking_combined
                    flushes log].
  - rewrite taken_app. cbn [taken flat_map app]. rewrite <- app_assoc.
    cbn [app]. now rewrite <- Hkw.
  - unfold waiting. cbn [future_to_kw log].
    rewrite map_app, started_workers_app, collected_app.
    cbn [map fst snd started_workers collected flat_map app].
    rewrite app_nil_r, <- app_assoc.
    rewrite (Permutation_app_comm [(started st, kw)]), app_assoc.
    now apply Permutation_app_tail.
  - rewrite started_workers_app, map_app, Hi, seq_S. reflexivity.
  - apply always_snoc; [exact Hs|].
    rewrite (in_flight_submitted _ _ _ _ Hle), dropped_app, length_app, Hfl.
    cbn. lia.
  - rewrite collected_app. cbn [collected flat_map app]. now rewrite app_nil_r.
  - rewrite worker_proxies_app. apply Forall_app. split; [exact Hte|].
    cbn. constructor; [now split|constructor].
  - rewrite dropped_app, Hnone. cbn. contradiction.
  - apply always_snoc; [exact Ho|]. intros _.
    rewrite dropped_app, Hnone. reflexivity.
Qed.

(** A keyword is left aside. *)
Lemma coherent_drop st kw rest p' :
  coherent st -> kw_iter st = kw :: rest -> later (pool st) p' ->
  Forall (fun px => px ∈ excluded p') all_proxies ->
  (length (future_to_kw st) + length (dropped (log st)) < K)%nat ->
  coherent (mkBuf p' rest (future_to_kw st) (started st)
              (tracking_combined st) (flushes st)
              (log st ++ [Dropped kw])).
Proof.
  intros H Hkw Hlater Hdead Hslot.
  pose proof (flight st H) as Hfl.
  destruct (coherent_later st p' H Hlater) as [Ht Hp Hi Hs Hr Hte Hd Ho].
  cbn [pool kw_iter future_to_kw started tracking_combined flushes log] in *.
  constructor; cbn [pool kw_iter future_to_kw started tracking_combined
                    flushes log].
  - rewrite taken_app. cbn [taken flat_map app]. rewrite <- app_assoc.
    cbn [app]. now rewrite <- Hkw.
  - unfold waiting in *. cbn [future_to_kw log] in *.
    rewrite started_workers_app, collected_app.
    cbn [started_workers collected flat_map app]. now rewrite !app_nil_r.
  - rewrite started_workers_app. cbn [started_workers flat_map app].
    now rewrite app_nil_r.
  - apply always_snoc; [exact Hs|]. unfold in_flight in *.
    rewrite started_workers_app, collected_app, dropped_app, !length_app.
    cbn. lia.
  - rewrite collected_app. cbn [collected flat_map app]. now rewrite app_nil_r.
  - rewrite worker_proxies_app. cbn [worker_proxies flat_map app].
    now rewrite app_nil_r.
  - intros _. exact Hdead.
  - apply always_snoc; [exact Ho|]. unfold just_submitted.
    now rewrite last_snoc.
Qed.

Lemma tracking_entry_row kw r : row_for kw (Row (tracking_entry false kw r)).
Proof. unfold row_for, tracking_entry. apply lookup_insert_eq. Qed.

Lemma error_entry_row kw msg : row_for kw (Row (error_entry true kw msg)).
Proof.
  unfold row_for, error_entry.
  repeat (rewrite lookup_insert_ne by discriminate). apply lookup_insert_eq.
Qed.

(** The result of a worker is collected. *)
Lemma coherent_finish st id kw px w row :
  coherent st -> In (id, (kw, px)) (future_to_kw st) -> row_for kw row ->
  coherent (mkBuf (with_world C w (pool st)) (kw_iter st)
              (List.filter (fun f => negb (Nat.eqb (fst f) id))
                 (future_to_kw st))
              (started st) (tracking_combined st ++ [row])
              (flushes st ++ [tracking_combined st ++ [row]])
              (log st ++ [Finished id kw])).
Proof.
  intros H Hin Hrow.
  pose proof (flight st H) as Hfl. pose proof (bounded st H) as Hb.
  destruct (pop_present _ id (kw, px) (futures_nodup st H) Hin) as [Hpop Hlen].
  destruct H as [Ht Hp Hi Hs (rows & Hr1 & Hr2 & Hr3) Hte Hd Ho].
  constructor; cbn [pool kw_iter future_to_kw started tracking_combined
                    flushes log with_world tests excluded].
  - rewrite taken_app. cbn [taken flat_map app]. now rewrite app_nil_r.
  - unfold waiting in *. cbn [future_to_kw log].
    rewrite started_workers_app, collected_app.
    cbn [started_workers collected flat_map app]. rewrite app_nil_r.
    etransitivity; [|exact Hp].
    rewrite (Permutation_map (fun f : nat * (string * string) =>
                                (fst f, fst (snd f))) Hpop).
    cbn [map fst snd app]. rewrite app_assoc. symmetry.
    apply Permutation_cons_append.
  - rewrite started_workers_app. cbn [started_workers flat_map app].
    now rewrite app_nil_r.
  - apply always_snoc; [exact Hs|]. unfold in_flight in *.
    rewrite started_workers_app, collected_app, dropped_app, !length_app.
    cbn. lia.
  - exists (rows ++ [row]). split; [now rewrite Hr1, app_assoc|]. split.
    + rewrite collected_app, map_app. cbn [collected flat_map app map snd].
      apply Forall2_app; [exact Hr2|]. now constructor.
    + rewrite Hr3, length_app. cbn [length].
      rewrite Nat.add_1_r, seq_S, map_app. cbn [map]. f_equal.
      * apply map_ext_in. intros n [_ Hn]%in_seq.
        now rewrite take_app_le by lia.
      * rewrite Hr1, <- app_assoc. do 2 f_equal.
        replace (1 + length rows)%nat with (length (rows ++ [row]))
          by (rewrite length_app; cbn; lia).
        now rewrite firstn_all.
  - rewrite worker_proxies_app. cbn [worker_proxies flat_map app].
    now rewrite app_nil_r.
  - rewrite dropped_app. cbn [dropped flat_map app]. now rewrite app_nil_r.
  - apply always_snoc; [exact Ho|]. unfold just_submitted.
    now rewrite last_snoc.
Qed.
(** *** The runs *)

Lemma get_next_run st :
  coherent st ->
  (length (future_to_kw st) + length (dropped (log st)) < K)%nat ->
  match get_next_assignment C all_proxies st with
  | Some (Ok (Some (kw, px)), st1) =>
      coherent (submit C kw px st1) /\
      kw_iter st = kw :: kw_iter st1 /\
      future_to_kw st1 = future_to_kw st /\ log st1 = log st
  | Some (Ok None, st1) =>
      coherent st1 /\ future_to_kw st1 = future_to_kw st /\
      (length (kw_iter st1) <= length (kw_iter st))%nat /\
      (kw_iter st1 = [] \/ dropped (log st1) <> [])
  | _ => False
  end.
Proof.
  intros H Hslot. unfold get_next_assignment.
  destruct (kw_iter st) as [|kw rest] eqn:Hkw.
  { split; [exact H|]. split; [reflexivity|]. rewrite Hkw.
    split; [cbn; lia|now left]. }
  pose proof (assign_one (pool st) kw) as Ha.
  destruct (assign_proxies_for_batch _ _ _ _ _ _) as [[[a|] p']|];
    [| |contradiction].
  - destruct Ha as (Hlater & px & -> & Hin & Htest & Hfree).
    cbn [kw_iter future_to_kw log].
    split; [now apply (coherent_submit st kw rest px p')|].
    split; [reflexivity|]. split; reflexivity.
  - destruct Ha as (Hlater & Hdead).
    cbn [kw_iter future_to_kw log]. split.
    + now apply (coherent_drop st kw rest p').
    + split; [reflexivity|]. split; [cbn; lia|]. right.
      rewrite dropped_app. cbn. now destruct (dropped (log st)).
Qed.

Lemma prime_run n : forall st,
  coherent st ->
  (length (future_to_kw st) + length (dropped (log st)) + n <= K)%nat ->
  match prime C all_proxies n st with
  | Some (Ok _, st') =>
      coherent st' /\ (todo st' <= todo st)%nat /\
      (kw_iter st' = [] \/ dropped (log st') <> [] \/
       length (future_to_kw st') = (length (future_to_kw st) + n)%nat)
  | _ => False
  end.
Proof.
  induction n as [|n IH]; intros st H Hslot; cbn [prime].
  { split; [exact H|]. split; [lia|]. right. right. lia. }
  pose proof (get_next_run st H ltac:(lia)) as Hg.
  destruct (get_next_assignment C all_proxies st) as [[[[[kw px]|]|] st1]|];
    try contradiction.
  - destruct Hg as (H2 & Hkw & Hf & Hl).
    specialize (IH (submit C kw px st1) H2).
    cbn [submit future_to_kw log kw_iter] in IH.
    rewrite dropped_app, !length_app, Hf, Hl in IH.
    cbn [dropped flat_map app length] in IH. specialize (IH ltac:(lia)).
    destruct (prime C all_proxies n (submit C kw px st1)) as [[[[]|] st']|];
      try contradiction.
    destruct IH as (H' & Ht & Hs). split; [exact H'|].
    rewrite Hkw. cbn [length]. split; [lia|].
    destruct Hs as [Hs|[Hs|Hs]]; [now left|now right; left|right; right; lia].
  - destruct Hg as (H1 & Hf & Hle & Hs). split; [exact H1|].
    rewrite Hf. split; [lia|]. destruct Hs; [now left|now right; left].
Qed.

Lemma collect_run fut st :
  coherent st -> settled st -> In fut (future_to_kw st) ->
  match collect C all_proxies fut st with
  | Some (Ok _, st') =>
      coherent st' /\ settled st' /\ (todo st' < todo st)%nat /\
      (forall f, In f (future_to_kw st) -> fst f <> fst fut ->
                 In f (future_to_kw st'))
  | _ => False
  end.
Proof.
  intros H Hset Hin. destruct fut as [id [kw px]].
  unfold collect, BufferSpec.settled in *.
  destruct (worker_result C kw px (world (pool st))) as [w1 r].
  set (row := match r with
              | inl result => Row (tracking_entry false kw result)
              | inr msg => Row (error_entry true kw msg)
              end).
  assert (Hrow : row_for kw row).
  { subst row. destruct r; [apply tracking_entry_row|apply error_entry_row]. }
  pose proof (coherent_finish st id kw px w1 row H Hin Hrow) as H1.
  destruct (pop_present _ id (kw, px) (futures_nodup st H) Hin) as [_ Hlen].
  pose proof (bounded st H) as Hb.
  set (st1 := mkBuf _ _ _ _ _ _ _) in *.
  assert (Hd1 : dropped (log st1) = dropped (log st)).
  { subst st1. cbn [log]. rewrite dropped_app. cbn. apply app_nil_r. }
  assert (Hslot : (length (future_to_kw st1) + length (dropped (log st1)) < K)%nat).
  { rewrite Hd1. subst st1. cbn [future_to_kw]. lia. }
  pose proof (get_next_run st1 H1 Hslot) as Hg.
  destruct (get_next_assignment C all_proxies st1) as [[[[[kw2 px2]|]|] st2]|];
    try contradiction.
  - destruct Hg as (H2 & Hkw & Hf & Hl). split; [exact H2|].
    cbn [submit future_to_kw kw_iter log]. rewrite Hf, Hl, length_app.
    subst st1. cbn [future_to_kw kw_iter log length] in *.
    rewrite Hkw. cbn [length]. split; [|split; [lia|]].
    + destruct Hset as [Hs|[Hs|Hs]]; [now rewrite Hs in Hkw| |].
      * right. left. rewrite !dropped_app. cbn. now rewrite !app_nil_r.
      * right. right. lia.
    + intros f Hf' Hne. apply in_or_app. left. now apply pop_keeps.
  - destruct Hg as (H2 & Hf & Hle & Hs). split; [exact H2|].
    rewrite Hf. subst st1. cbn [future_to_kw kw_iter] in *.
    split; [|split; [lia|]].
    + destruct Hs as [Hs|Hs]; [now left|now right; left].
    + intros f Hf' Hne. now apply pop_keeps.
Qed.

Lemma collect_all_run done : forall st,
  coherent st -> settled st ->
  Forall (fun f => In f (future_to_kw st)) done ->
  List.NoDup (map fst done) ->
  match collect_all C all_proxies done st with
  | Some (Ok _, st') =>
      coherent st' /\ settled st' /\ (todo st' + length done <= todo st)%nat
  | _ => False
  end.
Proof.
  induction done as [|fut rest IH]; intros st H Hset Hin Hnd;
    cbn [collect_all].
  { split; [exact H|]. split; [exact Hset|]. cbn. lia. }
  apply Forall_cons in Hin as [Hfut Hrest].
  cbn [map] in Hnd. apply List.NoDup_cons_iff in Hnd as [Hnew Hnd].
  pose proof (collect_run fut st H Hset Hfut) as Hc.
  destruct (collect C all_proxies fut st) as [[[[]|] st1]|]; try contradiction.
  destruct Hc as (H1 & Hs1 & Ht & Hkeep).
  assert (Hin1 : Forall (fun f => In f (future_to_kw st1)) rest).
  { rewrite List.Forall_forall in *. intros f Hf. apply Hkeep; [now apply Hrest|].
    intros E. apply Hnew. rewrite <- E. now apply in_map. }
  specialize (IH st1 H1 Hs1 Hin1 Hnd).
  destruct (collect_all C all_proxies rest st1) as [[[[]|] st']|];
    try contradiction.
  destruct IH as (H' & Hs' & Ht'). split; [exact H'|]. split; [exact Hs'|].
  cbn [length]. lia.
Qed.

Lemma ids_nodup {A} (l d : list (nat * A)) :
  List.NoDup (map fst l) -> Forall (fun f => In f l) d -> List.NoDup d ->
  List.NoDup (map fst d).
Proof.
  intros Hl Hin. induction 1 as [|f d Hf Hd IH]; [constructor|].
  apply Forall_cons in Hin as [Hfl Hdl]. cbn [map].
  constructor; [|now apply IH]. intros [g [Eg Hg]]%in_map_iff.
  rewrite List.Forall_forall in Hdl. pose proof (Hdl g Hg) as Hgl.
  assert (g = f); [|now subst g].
  clear -Hl Hfl Hgl Eg. induction l as [|h l IH]; [easy|].
  cbn [map] in Hl. apply List.NoDup_cons_iff in Hl as [Hh Hl].
  destruct Hfl as [->|Hfl], Hgl as [->|Hgl]; [reflexivity| | |now apply IH].
  - exfalso. apply Hh. rewrite <- Eg. now apply in_map.
  - exfalso. apply Hh. rewrite Eg. now apply in_map.
Qed.

Lemma window_run fuel : forall st,
  coherent st -> settled st ->
  match window C all_proxies fuel st with
  | Some (Ok _, st') => coherent st' /\ settled st' /\ future_to_kw st' = []
  | Some (Exn, _) => False
  | None => (fuel < todo st)%nat
  end.
Proof.
  induction fuel as [|fuel IH]; intros st H Hset.
  - cbn [window]. destruct (future_to_kw st) as [|f fs] eqn:E.
    + split; [exact H|]. split; [exact Hset|exact E].
    + cbn. lia.
  - cbn [window]. destruct (future_to_kw st) as [|f fs] eqn:E.
    { split; [exact H|]. split; [exact Hset|exact E]. }
    rewrite <- E.
    destruct (completed C (length (future_to_kw st)) (world (pool st)))
      as [w1 positions].
    assert (H1 : coherent
                   (mkBuf (with_world C w1 (pool st)) (kw_iter st)
                      (future_to_kw st) (started st) (tracking_combined st)
                      (flushes st) (log st))).
    { apply (coherent_later st); [exact H|]. split; [now exists []; rewrite app_nil_r|].
      reflexivity. }
    set (st1 := mkBuf _ _ _ _ _ _ _) in *.
    destruct (done_of_spec positions (future_to_kw st)) as (Hne & Hin & Hnd).
    { rewrite E. discriminate. }
    pose proof (futures_nodup st H) as Hids.
    specialize (Hnd (NoDup_map_inv _ _ Hids)).
    pose proof (collect_all_run (done_of positions (future_to_kw st)) st1 H1 Hset
                  Hin (ids_nodup _ _ Hids Hin Hnd)) as Hc.
    destruct (collect_all C all_proxies _ st1) as [[[[]|] st2]|];
      try contradiction.
    destruct Hc as (H2 & Hs2 & Ht).
    assert (Hlen : (0 < length (done_of positions (future_to_kw st)))%nat).
    { destruct (done_of positions (future_to_kw st)); [contradiction|cbn; lia]. }
    specialize (IH st2 H2 Hs2).
    destruct (window C all_proxies fuel st2) as [[[[]|] st']|];
      [exact IH|exact IH|].
    subst st1. cbn [kw_iter future_to_kw] in Ht. lia.
Qed.
End Window.

Lemma always_impl (P Q : list step -> Prop) l :
  always P l -> (forall pre, P pre -> Q pre) -> always Q l.
Proof. intros H HPQ pre Hpre. apply HPQ. now apply H. Qed.

(** Without a keyword left aside, the keywords taken are those of the
    workers started. *)
Lemma taken_started l : dropped l = [] -> taken l = map snd (started_workers l).
Proof.
  induction l as [|e l IH]; [reflexivity|].
  unfold dropped, taken, started_workers in *.
  destruct e as [id kw px|kw|id kw]; cbn [flat_map app map snd].
  - intros H. f_equal. now apply IH.
  - discriminate.
  - exact IH.
Qed.

Section Mode.
Context (C : Cluster) (all_proxies : list string).

(** The whole branch. *)
Lemma buffer_mode_run fuel keywords batch_size existing exc w :
  match buffer_mode C all_proxies fuel keywords batch_size existing exc w with
  | Some (r, st) =>
      coherent C all_proxies keywords (Z.to_nat batch_size) existing st /\
      (r = Exn <-> batch_size <= 0) /\
      (r <> Exn ->
       future_to_kw st = [] /\ (kw_iter st = [] \/ dropped (log st) <> []))
  | None => (fuel < length keywords)%nat
  end.
Proof.
  unfold buffer_mode.
  set (st0 := mkBuf _ keywords [] 0%nat existing [] []).
  assert (H0 : coherent C all_proxies keywords (Z.to_nat batch_size) existing st0).
  { constructor; cbn [st0 log kw_iter future_to_kw started tracking_combined
                      flushes pool].
    - reflexivity.
    - reflexivity.
    - reflexivity.
    - apply always_nil. cbn. lia.
    - exists []. rewrite app_nil_r. split; [reflexivity|]. split; [constructor|].
      reflexivity.
    - constructor.
    - intros H. now contradiction H.
    - apply always_nil. intros []. }
  destruct (Z.leb_spec batch_size 0) as [Hle|Hgt].
  { split; [exact H0|]. split; [tauto|]. intros H. now contradiction H. }
  pose proof (prime_run C all_proxies keywords (Z.to_nat batch_size) existing
                (Z.to_nat batch_size) st0 H0) as Hp.
  cbn [st0 future_to_kw log dropped flat_map length] in Hp.
  specialize (Hp ltac:(lia)).
  destruct (prime C all_proxies (Z.to_nat batch_size) st0) as [[[[]|] st1]|];
    try contradiction.
  destruct Hp as (H1 & Ht & Hs).
  cbn [st0 kw_iter future_to_kw length Nat.add] in Ht, Hs.
  rewrite Nat.add_0_r in Ht.
  pose proof (window_run C all_proxies keywords (Z.to_nat batch_size) existing
                fuel st1 H1 Hs) as Hw.
  destruct (window C all_proxies fuel st1) as [[[[]|] st2]|];
    [|contradiction|lia].
  destruct Hw as (H2 & Hs2 & Hf). split; [exact H2|].
  split; [split; [discriminate|lia]|]. intros _. split; [exact Hf|].
  destruct Hs2 as [Hs2|[Hs2|Hs2]]; [now left|now right|].
  rewrite Hf in Hs2. cbn in Hs2. lia.
Qed.

(** X22.  The branch of [run_letter] for a proxy list raises exactly when
    [batch_size] is not positive, before any keyword is touched.
    Otherwise never more than [batch_size] workers are in flight, after
    any step; the workers are numbered in the order they are started;
    and when the branch is left no worker is in flight and the result of
    every worker started was collected, once.  As many waits as there are
    pending keywords are enough for that. *)
Theorem window_keeps_to_its_workers (fuel : nat) (keywords : list string)
    (batch_size : Z) (existing : list tracking_row) (exc : option text)
    (w : World (net C)) :
  match buffer_mode C all_proxies fuel keywords batch_size existing exc w with
  | Some (r, st) =>
      (r = Exn <-> batch_size <= 0) /\
      (r = Exn -> log st = []) /\
      always (fun pre => (in_flight pre <= Z.to_nat batch_size)%nat) (log st) /\
      map fst (started_workers (log st)) = seq 0 (started st) /\
      (r <> Exn ->
       future_to_kw st = [] /\
       Permutation (collected (log st)) (started_workers (log st)))
  | None => (fuel < length keywords)%nat
  end.
Proof.
  pose proof (buffer_mode_run fuel keywords batch_size existing exc w) as H.
  assert (Hexn : batch_size <= 0 ->
            exists st0, buffer_mode C all_proxies fuel keywords batch_size
                          existing exc w = Some (Exn, st0) /\ log st0 = []).
  { intros Hle. unfold buffer_mode.
    destruct (Z.leb_spec batch_size 0); [|lia]. now eexists. }
  destruct (buffer_mode C all_proxies fuel keywords batch_size existing exc w)
    as [[r st]|]; [|exact H].
  destruct H as (Hc & Hr & Hend). split; [exact Hr|]. split.
  { intros Hx. apply Hr in Hx. destruct (Hexn Hx) as (st0 & [= _ <-] & Hl).
    exact Hl. }
  split.
  { eapply always_impl; [exact (c_slots _ _ _ _ _ _ Hc)|]. cbn. intros pre. lia. }
  split; [exact (c_ids _ _ _ _ _ _ Hc)|].
  intros Hne. destruct (Hend Hne) as [Hf _]. split; [exact Hf|].
  pose proof (c_perm _ _ _ _ _ _ Hc) as Hp. unfold waiting in Hp.
  now rewrite Hf in Hp.
Qed.

(** X23.  The keywords are taken from the pending list in its order, each
    at most once, and what was not taken is left in the iterator.  Every
    proxy handed to a worker is one of the proxy list that passed
    [is_proxy_working] during this run.  When the branch is left and no
    keyword was left aside, every pending keyword was given to exactly
    one worker and its result was collected. *)
Theorem window_takes_keywords_in_order (fuel : nat) (keywords : list string)
    (batch_size : Z) (existing : list tracking_row) (exc : option text)
    (w : World (net C)) :
  match buffer_mode C all_proxies fuel keywords batch_size existing exc w with
  | Some (r, st) =>
      taken (log st) ++ kw_iter st = keywords /\
      Forall (fun p => In p all_proxies /\ In (p, true) (tests (pool st)))
        (worker_proxies (log st)) /\
      (r <> Exn -> dropped (log st) = [] ->
       kw_iter st = [] /\
       map snd (started_workers (log st)) = keywords /\
       Permutation (map snd (collected (log st))) keywords)
  | None => True
  end.
Proof.
  pose proof (buffer_mode_run fuel keywords batch_size existing exc w) as H.
  destruct (buffer_mode C all_proxies fuel keywords batch_size existing exc w)
    as [[r st]|]; [|exact I].
  destruct H as (Hc & _ & Hend).
  split; [exact (c_taken _ _ _ _ _ _ Hc)|].
  split; [exact (c_tested _ _ _ _ _ _ Hc)|].
  intros Hne Hnone. destruct (Hend Hne) as [Hf [Hk|Hd]]; [|contradiction].
  split; [exact Hk|].
  pose proof (c_taken _ _ _ _ _ _ Hc) as Ht.
  rewrite Hk, app_nil_r, (taken_started _ Hnone) in Ht. split; [exact Ht|].
  rewrite <- Ht. apply Permutation_map.
  pose proof (c_perm _ _ _ _ _ _ Hc) as Hp. unfold waiting in Hp.
  now rewrite Hf in Hp.
Qed.

(** X24.  Every result collected adds one row for its keyword to
    [tracking_combined], after the rows of the tracking file and in the
    order the results are collected, whether the worker returned or
    raised; and the tracking file is rewritten with the rows so far after
    each. *)
Theorem window_tracks_every_result (fuel : nat) (keywords : list string)
    (batch_size : Z) (existing : list tracking_row) (exc : option text)
    (w : World (net C)) :
  match buffer_mode C all_proxies fuel keywords batch_size existing exc w with
  | Some (r, st) =>
      exists rows,
        tracking_combined st = existing ++ rows /\
        Forall2 row_for (map snd (collected (log st))) rows /\
        flushes st =
          map (fun n => existing ++ take n rows) (seq 1 (length rows))
  | None => True
  end.
Proof.
  pose proof (buffer_mode_run fuel keywords batch_size existing exc w) as H.
  destruct (buffer_mode C all_proxies fuel keywords batch_size existing exc w)
    as [[r st]|]; [|exact I].
  destruct H as (Hc & _). exact (c_rows _ _ _ _ _ _ Hc).
Qed.

(** X25.  When [assign_proxies_for_batch] raises for a keyword, the
    keyword is left aside: no worker is started for it and it gets no
    tracking row.  By then every proxy of the list is excluded, no worker
    is started afterwards, and each keyword left aside retires one slot,
    so at most [batch_size] keywords are left aside.  The keywords still
    in the iterator when the branch is left are never looked at; there
    are some only if a keyword was left aside. *)
Theorem window_stops_when_proxies_run_out (fuel : nat)
    (keywords : list string) (batch_size : Z)
    (existing : list tracking_row) (exc : option text) (w : World (net C)) :
  match buffer_mode C all_proxies fuel keywords batch_size existing exc w with
  | Some (r, st) =>
      always (fun pre => just_submitted pre -> dropped pre = []) (log st) /\
      always (fun pre =>
                (in_flight pre + length (dropped pre)
                 <= Z.to_nat batch_size)%nat) (log st) /\
      (dropped (log st) <> [] ->
       Forall (fun p => p ∈ excluded (pool st)) all_proxies) /\
      (r <> Exn -> kw_iter st <> [] -> dropped (log st) <> [])
  | None => True
  end.
Proof.
  pose proof (buffer_mode_run fuel keywords batch_size existing exc w) as H.
  destruct (buffer_mode C all_proxies fuel keywords batch_size existing exc w)
    as [[r st]|]; [|exact I].
  destruct H as (Hc & _ & Hend).
  split; [exact (c_order _ _ _ _ _ _ Hc)|].
  split; [exact (c_slots _ _ _ _ _ _ Hc)|].
  split; [exact (c_dead _ _ _ _ _ _ Hc)|].
  intros Hne Hk. destruct (Hend Hne) as [_ [Hk'|Hd]]; [contradiction|exact Hd].
Qed.
End Mode.

End BufferFacts.
